(** * DCFunction: the per-function / per-instruction translation engine

    A shallow embedding of [lib/DC/DCFunction.cpp].  The C++ class
    [DCFunction] becomes a record threaded through a small state-and-error
    monad; the IR it builds (basic blocks holding instructions) is a list of
    blocks indexed by creation order, and a [BasicBlock *] is the index of the
    block in that list. *)

From Stdlib Require Import NArith ZArith List String Ascii Bool Lia.
From stdpp Require Import base option list gmap.
Import ListNotations.
Local Open Scope string_scope.
Local Open Scope N_scope.
Local Infix "+++" := String.append (at level 60, right associativity).

Set Default Proof Using "Type".

(** ** IR types *)

Inductive Ty : Type :=
| VoidTy
| IntegerTy (w : N)
| FloatTy (w : N)
| PointerTy (t : Ty)
| VectorTy (n : N) (t : Ty)
| RegSetTy      (* DRS.getRegSetType() *)
| FuncTy.       (* DCM.getFuncTy(): void (RegSet* ) *)

Fixpoint Ty_eqb (a b : Ty) : bool :=
  match a, b with
  | VoidTy, VoidTy => true
  | IntegerTy w, IntegerTy w' => N.eqb w w'
  | FloatTy w, FloatTy w' => N.eqb w w'
  | PointerTy t, PointerTy t' => Ty_eqb t t'
  | VectorTy n t, VectorTy n' t' => N.eqb n n' && Ty_eqb t t'
  | RegSetTy, RegSetTy => true
  | FuncTy, FuncTy => true
  | _, _ => false
  end.

Definition isPointerTy (t : Ty) : bool :=
  match t with PointerTy _ => true | _ => false end.

Definition isIntegerTy (t : Ty) : bool :=
  match t with IntegerTy _ => true | _ => false end.

Definition getPointerTo (t : Ty) : Ty := PointerTy t.

Definition getScalarType (t : Ty) : Ty :=
  match t with VectorTy _ e => e | _ => t end.

Fixpoint getPrimitiveSizeInBits (t : Ty) : N :=
  match t with
  | IntegerTy w => w
  | FloatTy w => w
  | VectorTy n e => n * getPrimitiveSizeInBits e
  | _ => 0
  end.

Definition getScalarSizeInBits (t : Ty) : N :=
  getPrimitiveSizeInBits (getScalarType t).

Definition getInt8Ty : Ty := IntegerTy 8.
Definition getInt16Ty : Ty := IntegerTy 16.
Definition getInt32Ty : Ty := IntegerTy 32.
Definition getInt64Ty : Ty := IntegerTy 64.
Definition getInt8PtrTy : Ty := PointerTy (IntegerTy 8).

(** ** IR values and instructions *)

Inductive Intrinsic : Type :=
| trap
| sqrt (t : Ty)
| bswap (t : Ty)
| dc_translate_at.

(** A [Value *].  An instruction's result is named by the number the
    instruction got when it was created. *)
Inductive Value : Type :=
| ConstantInt (t : Ty) (v : N)
| ConstIntToPtr (c : Value) (t : Ty)   (* ConstantExpr::getIntToPtr *)
| RegSetArg                            (* getFunction()->getArgumentList().front() *)
| FunctionV (addr : N)                 (* DCM.getOrCreateFunction(addr) *)
| IntrinsicDecl (i : Intrinsic)        (* Intrinsic::getDeclaration *)
| RegSetDiffFunction                   (* DRS.getOrCreateRegSetDiffFunction() *)
| InstRes (id : nat) (t : Ty).

Definition typeOf (v : Value) : Ty :=
  match v with
  | ConstantInt t _ => t
  | ConstIntToPtr _ t => t
  | RegSetArg => PointerTy RegSetTy
  | FunctionV _ => PointerTy FuncTy
  | IntrinsicDecl _ => PointerTy FuncTy
  | RegSetDiffFunction => PointerTy FuncTy
  | InstRes _ t => t
  end.

Inductive BinaryOps : Type :=
| Add | FAdd | Sub | FSub | Mul | FMul | UDiv | SDiv | FDiv
| URem | SRem | FRem | Shl | LShr | AShr | And | Or | Xor.

Definition isShift (opc : BinaryOps) : bool :=
  match opc with Shl | LShr | AShr => true | _ => false end.

Inductive CastOps : Type :=
| Trunc | ZExt | SExt | FPToUI | FPToSI | UIToFP | SIToFP
| FPTrunc | FPExt | PtrToInt | IntToPtr | BitCast.

(** One IR instruction.  The last group stands for what the register
    semantics ([DCRegisterSema], not part of this file) puts in the block
    when the translator asks it to read or write a register. *)
Inductive Instr : Type :=
| IBinOp (opc : BinaryOps) (l r : Value)
| ICast (opc : CastOps) (v : Value) (t : Ty)
| ICall (callee : Value) (args : list Value)
| IAlloca (t : Ty)
| ILoad (ptr : Value) (align : N)
| IStore (v ptr : Value) (align : N) (volatile : bool)
| IInsertElement (vec v idx : Value)
| IExtractElement (vec idx : Value)
| IFence (ord scope : N)
| IBr (dest : nat)
| IRet
| IUnreachable
| RGetReg (r : N)
| RSetReg (r : N) (v : Value)
| RGetRegAsInt (r : N)
| RInsertBits (full part : Value)
| RSaveAllLocalRegs
| RRestoreLocalRegs.

Definition isTerminator (i : Instr) : bool :=
  match i with IBr _ | IRet | IUnreachable => true | _ => false end.

Record BasicBlock : Type := mkBB {
  bbName : string;
  bbInsts : list (nat * Instr)
}.

Definition bbOps (b : BasicBlock) : list Instr := map snd (bbInsts b).

(** ** Decoded machine code *)

Inductive MCOperand : Type :=
| MCReg (r : N)
| MCImm (i : Z)
| MCFPImm.

Record MCDecodedInst : Type := mkInst {
  Address : N;
  Size : N;
  InstOpcode : N;
  Operands : list MCOperand
}.

Record MCBasicBlock : Type := mkMCBB {
  mcbbStartAddr : N;
  mcbbEndAddr : N
}.

Record MCFunction : Type := mkMCF {
  mcfStartAddr : N;
  mcfBlocks : list MCBasicBlock
}.

(** ** utohexstr

    [llvm::utohexstr]: upper-case hexadecimal, no prefix, ["0"] for zero. *)

Definition hexdigit (d : N) : ascii :=
  match d with
  | 0 => "0" | 1 => "1" | 2 => "2" | 3 => "3" | 4 => "4" | 5 => "5"
  | 6 => "6" | 7 => "7" | 8 => "8" | 9 => "9" | 10 => "A" | 11 => "B"
  | 12 => "C" | 13 => "D" | 14 => "E" | _ => "F"
  end%char.

Fixpoint utohexstr_loop (fuel : nat) (x : N) (buf : string) : string :=
  match fuel with
  | O => buf
  | S fuel' =>
      if N.eqb x 0 then buf
      else utohexstr_loop fuel' (N.shiftr x 4) (String (hexdigit (N.land x 15)) buf)
  end.

Definition utohexstr (x : N) : string :=
  if N.eqb x 0 then "0" else utohexstr_loop (N.to_nat (N.size x)) x "".

(** ** The translator state *)

(** Notifications sent to the register semantics, in order. *)
Inductive DRSEvent : Type :=
| EvSwitchToInst (i : MCDecodedInst)
| EvSwitchToBasicBlock (bb : nat)
| EvFinalizeBasicBlock
| EvFinalizeFunction (exit : nat).

Record DCFunction : Type := mkDCF {
  Idx : N;
  ResEVT : N;
  Opcode : N;
  Vals : list Value;
  CurrentInst : option MCDecodedInst;
  TheBB : option nat;
  TheMCBB : option MCBasicBlock;
  ExitBB : nat;
  CallBBs : list nat;
  BBByAddr : gmap N nat;
  Blocks : list BasicBlock;     (* the basic blocks of TheFunction *)
  InsertBB : nat;               (* Builder inserts at the end of this block *)
  NextId : nat;                 (* number of the next instruction created *)
  DRSLog : list DRSEvent
}.

Definition with_Idx (x : N) (s : DCFunction) : DCFunction :=
  mkDCF x (ResEVT s) (Opcode s) (Vals s) (CurrentInst s) (TheBB s) (TheMCBB s)
        (ExitBB s) (CallBBs s) (BBByAddr s) (Blocks s) (InsertBB s) (NextId s) (DRSLog s).
Definition with_ResEVT (x : N) (s : DCFunction) : DCFunction :=
  mkDCF (Idx s) x (Opcode s) (Vals s) (CurrentInst s) (TheBB s) (TheMCBB s)
        (ExitBB s) (CallBBs s) (BBByAddr s) (Blocks s) (InsertBB s) (NextId s) (DRSLog s).
Definition with_Opcode (x : N) (s : DCFunction) : DCFunction :=
  mkDCF (Idx s) (ResEVT s) x (Vals s) (CurrentInst s) (TheBB s) (TheMCBB s)
        (ExitBB s) (CallBBs s) (BBByAddr s) (Blocks s) (InsertBB s) (NextId s) (DRSLog s).
Definition with_Vals (x : list Value) (s : DCFunction) : DCFunction :=
  mkDCF (Idx s) (ResEVT s) (Opcode s) x (CurrentInst s) (TheBB s) (TheMCBB s)
        (ExitBB s) (CallBBs s) (BBByAddr s) (Blocks s) (InsertBB s) (NextId s) (DRSLog s).
Definition with_CurrentInst (x : option MCDecodedInst) (s : DCFunction) : DCFunction :=
  mkDCF (Idx s) (ResEVT s) (Opcode s) (Vals s) x (TheBB s) (TheMCBB s)
        (ExitBB s) (CallBBs s) (BBByAddr s) (Blocks s) (InsertBB s) (NextId s) (DRSLog s).
Definition with_TheBB (x : option nat) (s : DCFunction) : DCFunction :=
  mkDCF (Idx s) (ResEVT s) (Opcode s) (Vals s) (CurrentInst s) x (TheMCBB s)
        (ExitBB s) (CallBBs s) (BBByAddr s) (Blocks s) (InsertBB s) (NextId s) (DRSLog s).
Definition with_TheMCBB (x : option MCBasicBlock) (s : DCFunction) : DCFunction :=
  mkDCF (Idx s) (ResEVT s) (Opcode s) (Vals s) (CurrentInst s) (TheBB s) x
        (ExitBB s) (CallBBs s) (BBByAddr s) (Blocks s) (InsertBB s) (NextId s) (DRSLog s).
Definition with_ExitBB (x : nat) (s : DCFunction) : DCFunction :=
  mkDCF (Idx s) (ResEVT s) (Opcode s) (Vals s) (CurrentInst s) (TheBB s) (TheMCBB s)
        x (CallBBs s) (BBByAddr s) (Blocks s) (InsertBB s) (NextId s) (DRSLog s).
Definition with_CallBBs (x : list nat) (s : DCFunction) : DCFunction :=
  mkDCF (Idx s) (ResEVT s) (Opcode s) (Vals s) (CurrentInst s) (TheBB s) (TheMCBB s)
        (ExitBB s) x (BBByAddr s) (Blocks s) (InsertBB s) (NextId s) (DRSLog s).
Definition with_BBByAddr (x : gmap N nat) (s : DCFunction) : DCFunction :=
  mkDCF (Idx s) (ResEVT s) (Opcode s) (Vals s) (CurrentInst s) (TheBB s) (TheMCBB s)
        (ExitBB s) (CallBBs s) x (Blocks s) (InsertBB s) (NextId s) (DRSLog s).
Definition with_Blocks (x : list BasicBlock) (s : DCFunction) : DCFunction :=
  mkDCF (Idx s) (ResEVT s) (Opcode s) (Vals s) (CurrentInst s) (TheBB s) (TheMCBB s)
        (ExitBB s) (CallBBs s) (BBByAddr s) x (InsertBB s) (NextId s) (DRSLog s).
Definition with_InsertBB (x : nat) (s : DCFunction) : DCFunction :=
  mkDCF (Idx s) (ResEVT s) (Opcode s) (Vals s) (CurrentInst s) (TheBB s) (TheMCBB s)
        (ExitBB s) (CallBBs s) (BBByAddr s) (Blocks s) x (NextId s) (DRSLog s).
Definition with_NextId (x : nat) (s : DCFunction) : DCFunction :=
  mkDCF (Idx s) (ResEVT s) (Opcode s) (Vals s) (CurrentInst s) (TheBB s) (TheMCBB s)
        (ExitBB s) (CallBBs s) (BBByAddr s) (Blocks s) (InsertBB s) x (DRSLog s).
Definition with_DRSLog (x : list DRSEvent) (s : DCFunction) : DCFunction :=
  mkDCF (Idx s) (ResEVT s) (Opcode s) (Vals s) (CurrentInst s) (TheBB s) (TheMCBB s)
        (ExitBB s) (CallBBs s) (BBByAddr s) (Blocks s) (InsertBB s) (NextId s) x.

(** ** The monad

    [Ok a s] is a normal return.  [Abort] is a failed [assert], a failed
    [cast<>], [llvm_unreachable], a null dereference or a read outside an
    array: the points where the C++ has no defined result.  [Timeout] is the
    interpreter loop running out of fuel. *)

Inductive Res (A : Type) : Type :=
| Ok (a : A) (s : DCFunction)
| Abort
| Timeout.
Arguments Ok {A} a s.
Arguments Abort {A}.
Arguments Timeout {A}.

Definition M (A : Type) : Type := DCFunction -> Res A.

Definition ret {A} (a : A) : M A := fun s => Ok a s.

Definition bind {A B} (m : M A) (f : A -> M B) : M B :=
  fun s => match m s with
           | Ok a s' => f a s'
           | Abort => Abort
           | Timeout => Timeout
           end.

Definition abort {A} : M A := fun _ => Abort.
Definition gets {A} (f : DCFunction -> A) : M A := fun s => Ok (f s) s.
Definition modify (f : DCFunction -> DCFunction) : M unit := fun s => Ok tt (f s).

Definition assert (b : bool) : M unit := if b then ret tt else abort.

Definition fromOption {A} (o : option A) : M A :=
  match o with Some a => ret a | None => abort end.

Declare Scope dc_scope.
Delimit Scope dc_scope with dc.
Notation "x <- m ;; k" := (bind m (fun x => k))
  (at level 100, m at next level, right associativity) : dc_scope.
Notation "m ;;; k" := (bind m (fun _ => k))
  (at level 100, right associativity) : dc_scope.
Local Open Scope dc_scope.

(** ** Creating blocks and instructions *)

Definition calleeRetTy (callee : Value) : option Ty :=
  match callee with
  | IntrinsicDecl trap => Some VoidTy
  | IntrinsicDecl (sqrt t) => Some t
  | IntrinsicDecl (bswap t) => Some t
  | IntrinsicDecl dc_translate_at => Some getInt8PtrTy
  | FunctionV _ => Some VoidTy
  | RegSetDiffFunction => Some VoidTy
  | InstRes _ (PointerTy FuncTy) => Some VoidTy
  | _ => None
  end.

(** ** What the translator is given

    Register numbering and types come from the register semantics, the
    value-type table and the opcode numbers from LLVM and from the generated
    semantics header; none of them is defined in DCFunction.cpp. *)

(** The semantic opcodes [translateOpcode] has a case for, and
    [END_OF_INSTRUCTION]. *)
Inductive SemaOp : Type :=
| ADD | FADD | SUB | FSUB | MUL | FMUL | UDIV | SDIV | FDIV
| UREM | SREM | FREM | SHL | SRL | SRA | AND | OR | XOR
| TRUNCATE | BITCAST | ZERO_EXTEND | SIGN_EXTEND | FP_TO_UINT | FP_TO_SINT
| UINT_TO_FP | SINT_TO_FP | FP_ROUND | FP_EXTEND
| FSQRT | ROTL | INSERT_VECTOR_ELT | EXTRACT_VECTOR_ELT
| SMUL_LOHI | UMUL_LOHI | LOAD | STORE | BRIND | BR | TRAP
| BSWAP | ATOMIC_FENCE
| END_OF_INSTRUCTION | PUT_RC | PUT_REG | GET_RC | GET_REG | CUSTOM_OP
| COMPLEX_PATTERN | PREDICATE | CONSTANT_OP | MOV_CONSTANT | IMPLICIT.

Definition isdOps : list SemaOp :=
  [ADD; FADD; SUB; FSUB; MUL; FMUL; UDIV; SDIV; FDIV;
   UREM; SREM; FREM; SHL; SRL; SRA; AND; OR; XOR;
   TRUNCATE; BITCAST; ZERO_EXTEND; SIGN_EXTEND; FP_TO_UINT; FP_TO_SINT;
   UINT_TO_FP; SINT_TO_FP; FP_ROUND; FP_EXTEND;
   FSQRT; ROTL; INSERT_VECTOR_ELT; EXTRACT_VECTOR_ELT;
   SMUL_LOHI; UMUL_LOHI; LOAD; STORE; BRIND; BR; TRAP;
   BSWAP; ATOMIC_FENCE].

Definition dcinsOps : list SemaOp :=
  [END_OF_INSTRUCTION; PUT_RC; PUT_REG; GET_RC; GET_REG; CUSTOM_OP;
   COMPLEX_PATTERN; PREDICATE; CONSTANT_OP; MOV_CONSTANT; IMPLICIT].

Definition allSemaOps : list SemaOp := isdOps ++ dcinsOps.

(** The predicates [translatePredicate] has a case for. *)
Inductive Predicate : Type :=
| memop | loadi16 | loadi32 | alignedload | alignedload256 | alignedload512
| load
| alignednontemporalstore | nontemporalstore | alignedstore
| alignedstore256 | alignedstore512 | store
| zextloadi8 | zextloadi16 | sextloadi8 | sextloadi16 | sextloadi32
| and_su.

Definition allPredicates : list Predicate :=
  [memop; loadi16; loadi32; alignedload; alignedload256; alignedload512;
   load; alignednontemporalstore; nontemporalstore; alignedstore;
   alignedstore256; alignedstore512; store;
   zextloadi8; zextloadi16; sextloadi8; sextloadi16; sextloadi32; and_su].

Record Target : Type := mkTarget {
  getRegType : N -> Ty;          (* DRS.getRegType *)
  getRegIntBits : N -> N;        (* bit width of DRS.getRegIntType *)
  getProgramCounter : N;         (* DRS.MRI.getProgramCounter() *)
  getTypeForEVT : N -> Ty;       (* EVT::getTypeForEVT on a value-type tag *)
  iPTR : N;                      (* MVT::iPTR *)
  opcodeOf : SemaOp -> N;        (* the value of ISD::X / DCINS::X *)
  BUILTIN_OP_END : N;            (* ISD::BUILTIN_OP_END *)
  DC_OPCODE_START : N;           (* DCINS::DC_OPCODE_START *)
  predicateOf : Predicate -> N   (* the value of TargetOpcode::Predicate::X *)
}.

(** The three arrays of the constructor. *)
Record Tables : Type := mkTables {
  OpcodeToSemaIdx : list N;
  SemanticsArray : list N;
  ConstantArray : list N
}.

(** The three command-line options, and the address of the
    [__llvm_dc_current_instr] global in the translating process. *)
Record Options : Type := mkOptions {
  EnableRegSetDiff : bool;
  EnableInstAddrSave : bool;
  TranslateUnknownToUndef : bool;
  addrof_current_instr : N
}.

(** The numbering is that of a C++ enum and of a [switch]: distinct case
    labels, the ISD opcodes below [BUILTIN_OP_END], the DCINS opcodes from
    [DC_OPCODE_START] on. *)
Definition distinctN (l : list N) : bool :=
  (fix go (l : list N) : bool :=
     match l with
     | [] => true
     | x :: r => negb (existsb (N.eqb x) r) && go r
     end) l.

Definition wellNumbered (tgt : Target) : bool :=
  distinctN (map (opcodeOf tgt) allSemaOps)
  && forallb (fun o => opcodeOf tgt o <? BUILTIN_OP_END tgt) isdOps
  && forallb (fun o => DC_OPCODE_START tgt <=? opcodeOf tgt o) dcinsOps
  && (BUILTIN_OP_END tgt <=? DC_OPCODE_START tgt)
  && distinctN (map (predicateOf tgt) allPredicates).

(** The target's virtual methods. *)
Record Hooks : Type := mkHooks {
  translateTargetInst : M bool;
  translateTargetOpcode : N -> M bool;
  translateComplexPattern : N -> M (option Value);
  translateCustomOperand : N -> N -> M (option Value);
  translateImplicit : N -> M bool
}.

(** ** translateComplexPattern (DCFunction.cpp 625-628)

    The base-class body of the virtual method; a target overrides it. *)
Definition DCFunction_translateComplexPattern (Pattern : N) : M (option Value) :=
  ret None.

(** ** String helpers used for block names *)

(** [StringRef::find_first_of(chars)] followed by [substr(0, pos)]: the
    prefix before the first character that is one of [chars], the whole string
    when there is none. *)
Fixpoint prefixBeforeAnyOf (chars : list ascii) (s : string) : string :=
  match s with
  | EmptyString => EmptyString
  | String c r =>
      if existsb (Ascii.eqb c) chars then EmptyString
      else String c (prefixBeforeAnyOf chars r)
  end.

Section Translator.

Context (tgt : Target) (tbl : Tables) (opts : Options).

Definition getRegIntType (r : N) : Ty := IntegerTy (getRegIntBits tgt r).

(** The type of the value an instruction defines; [None] where LLVM has no
    such instruction. *)
Definition resultTy (i : Instr) : option Ty :=
  match i with
  | IBinOp _ l _ => Some (typeOf l)
  | ICast _ _ t => Some t
  | ICall callee _ => calleeRetTy callee
  | IAlloca t => Some (PointerTy t)
  | ILoad p _ => match typeOf p with PointerTy t => Some t | _ => None end
  | IStore _ _ _ _ => Some VoidTy
  | IInsertElement vec _ _ => Some (typeOf vec)
  | IExtractElement vec _ =>
      match typeOf vec with VectorTy _ e => Some e | _ => None end
  | IFence _ _ => Some VoidTy
  | IBr _ | IRet | IUnreachable => Some VoidTy
  | RGetReg r => Some (getRegType tgt r)
  | RSetReg _ _ => Some VoidTy
  | RGetRegAsInt r => Some (getRegIntType r)
  | RInsertBits full _ => Some (typeOf full)
  | RSaveAllLocalRegs | RRestoreLocalRegs => Some VoidTy
  end.

(** [BasicBlock::Create(ctx, name, getFunction())]: a new empty block at the
    end of the function. *)
Definition createBasicBlock (name : string) : M nat :=
  fun s => Ok (length (Blocks s))
              (with_Blocks (Blocks s ++ [mkBB name []]) s).

Definition getBlock (bb : nat) : M BasicBlock :=
  bs <- gets Blocks;; fromOption (bs !! bb).

(** Append an instruction to block [bb]: what a builder positioned at the end
    of [bb] does, and what [XInst::Create(..., bb)] does. *)
Definition insertAtEnd (bb : nat) (i : Instr) : M Value :=
  fun s => match resultTy i, Blocks s !! bb with
           | Some t, Some b =>
               Ok (InstRes (NextId s) t)
                  (with_NextId (S (NextId s))
                     (with_Blocks
                        (<[bb := mkBB (bbName b) (bbInsts b ++ [(NextId s, i)])]> (Blocks s))
                        s))
           | _, _ => Abort
           end.

(** Insert an instruction in block [bb] before position [pos]. *)
Definition insertBefore (bb : nat) (pos : nat) (i : Instr) : M Value :=
  fun s => match resultTy i, Blocks s !! bb with
           | Some t, Some b =>
               Ok (InstRes (NextId s) t)
                  (with_NextId (S (NextId s))
                     (with_Blocks
                        (<[bb := mkBB (bbName b)
                                      (take pos (bbInsts b) ++ (NextId s, i) :: drop pos (bbInsts b))]>
                           (Blocks s))
                        s))
           | _, _ => Abort
           end.

(** [Builder->CreateX(...)]: the member builder, at its insertion point. *)
Definition emit (i : Instr) : M Value :=
  bb <- gets InsertBB;; insertAtEnd bb i.

Definition SetInsertPoint (bb : nat) : M unit := modify (with_InsertBB bb).

Definition getTrapDecl : Value := IntrinsicDecl trap.

(** [ConstantInt::get(Ty, V)]: [Ty]'s scalar type has to be an integer type;
    the value is cut to its width. *)
Definition ConstantInt_get (t : Ty) (v : N) : M Value :=
  match getScalarType t with
  | IntegerTy w => ret (ConstantInt t (v mod 2 ^ w))
  | _ => abort
  end.

Definition getInt64 (v : N) : Value := ConstantInt getInt64Ty (v mod 2 ^ 64).

(** [dyn_cast<ConstantInt>(V)] with [getZExtValue()]. *)
Definition asConstantInt (v : Value) : option N :=
  match v with
  | ConstantInt (IntegerTy _) n => Some n
  | _ => None
  end.

Definition getZExtValue (n : N) : M N :=
  assert (n <? 2 ^ 64);;; ret n.

(** [IRBuilder::CreateCast] and the casts defined through it: a cast to the
    value's own type is the value; the builder does not fold constants. *)
Definition CreateCastIn (bb : nat) (o : CastOps) (v : Value) (t : Ty) : M Value :=
  if Ty_eqb (typeOf v) t then ret v else insertAtEnd bb (ICast o v t).

Definition CreateCast (o : CastOps) (v : Value) (t : Ty) : M Value :=
  bb <- gets InsertBB;; CreateCastIn bb o v t.

Definition CreateZExt := CreateCast ZExt.
Definition CreateSExt := CreateCast SExt.
Definition CreateTrunc := CreateCast Trunc.
Definition CreateIntToPtr := CreateCast IntToPtr.
Definition CreatePtrToInt := CreateCast PtrToInt.
Definition CreateBitCast := CreateCast BitCast.

Definition CreateBitOrPointerCast (v : Value) (t : Ty) : M Value :=
  if Ty_eqb (typeOf v) t then ret v
  else if isPointerTy (getScalarType (typeOf v)) && isIntegerTy (getScalarType t)
       then CreatePtrToInt v t
  else if isIntegerTy (getScalarType (typeOf v)) && isPointerTy (getScalarType t)
       then CreateIntToPtr v t
  else CreateBitCast v t.

Definition CreateBinOp (o : BinaryOps) (l r : Value) : M Value :=
  emit (IBinOp o l r).

Definition CreateBr (dest : nat) : M unit := emit (IBr dest);;; ret tt.

(** ** Helpers declared in the class header *)

(** [Idx++] on an [unsigned]. *)
Definition nextIdx (i : N) : N := (i + 1) mod 2 ^ 32.

(** Modelled from the spec: [Next] is defined in the class header, which is
    not part of DCFunction.cpp.  [Next() -> token]: returns
    [SemanticsArray[Idx++]]; [Idx] is an [unsigned]. *)
Definition Next : M N :=
  i <- gets Idx;;
  tok <- fromOption (SemanticsArray tbl !! N.to_nat i);;
  modify (with_Idx (nextIdx i));;;
  ret tok.

(** Modelled from the spec: [NextVT] (class header) decodes a value-type tag;
    the tag is kept and turned into a type by [getTypeForEVT]. *)
Definition NextVT : M N := Next.

(** Modelled from the spec: [registerResult] (class header) pushes a result
    on the value stack. *)
Definition registerResult (v : Value) : M unit :=
  modify (fun s => with_Vals (v :: Vals s) s).

(** Modelled from the spec: [getNextOperand] (class header) pops an operand
    off the value stack; there has to be one. *)
Definition getNextOperand : M Value :=
  vs <- gets Vals;;
  match vs with
  | v :: rest => modify (with_Vals rest);;; ret v
  | [] => abort
  end.

(** Modelled from the spec: [getReg] and [setReg] (class header) go to the
    register semantics, [get_reg(reg_no) -> Value] and
    [set_reg(reg_no, Value)]; the read and the write show in the block at the
    insertion point, as the getreg and setreg calls of the translator's
    output do. *)
Definition getReg (r : N) : M Value := emit (RGetReg r).
Definition setReg (r : N) (v : Value) : M unit := emit (RSetReg r v);;; ret tt.

(** Modelled from the spec: [DRS.getRegAsInt] and [DRS.insertBitsInValue]
    (register semantics): [get_reg_as_int(reg_no)] and
    [insert_bits_in_value(whole_int, narrow_val) -> whole_int]. *)
Definition getRegAsInt (r : N) : M Value := emit (RGetRegAsInt r).
Definition insertBitsInValue (full part : Value) : M Value :=
  emit (RInsertBits full part).

Definition notifyDRS (e : DRSEvent) : M unit :=
  modify (fun s => with_DRSLog (DRSLog s ++ [e]) s).

Definition currentInst : M MCDecodedInst :=
  ci <- gets CurrentInst;; fromOption ci.

(** Modelled from the spec: [getRegOp] and [getImmOp] (class header) read
    operand [MIOperandNo] of the current instruction, a register number or an
    immediate. *)
Definition getRegOp (MIOperandNo : N) : M N :=
  ci <- currentInst;;
  match Operands ci !! N.to_nat MIOperandNo with
  | Some (MCReg r) => ret r
  | _ => abort
  end.

Definition getImmOp (MIOperandNo : N) : M N :=
  ci <- currentInst;;
  match Operands ci !! N.to_nat MIOperandNo with
  | Some (MCImm i) => ret (Z.to_N (i mod 2 ^ 64))
  | _ => abort
  end.

(** ** getOrCreateBasicBlock (DCFunction.cpp 178-189) *)

Definition getOrCreateBasicBlock (Addr : N) : M nat :=
  m <- gets BBByAddr;;
  match m !! Addr with
  | Some BB => ret BB
  | None =>
      BB <- createBasicBlock ("bb_" +++ utohexstr Addr);;
      modify (fun s => with_BBByAddr (<[Addr := BB]> (BBByAddr s)) s);;;
      insertAtEnd BB (ICall getTrapDecl []);;;
      insertAtEnd BB IUnreachable;;;
      ret BB
  end.

(** ** FinalizeBasicBlock, SwitchToBasicBlock (DCFunction.cpp 120-176) *)

Definition theBB : M nat := b <- gets TheBB;; fromOption b.

Definition getTerminator (b : BasicBlock) : option Instr :=
  match last (bbOps b) with
  | Some i => if isTerminator i then Some i else None
  | None => None
  end.

Definition getBasicBlockStartAddress : M N :=
  mcbb <- gets TheMCBB;;
  match mcbb with Some b => ret (mcbbStartAddr b) | None => abort end.

Definition getBasicBlockEndAddress : M N :=
  mcbb <- gets TheMCBB;;
  match mcbb with Some b => ret (mcbbEndAddr b) | None => abort end.

Definition FinalizeBasicBlock : M unit :=
  bb <- theBB;;
  b <- getBlock bb;;
  match getTerminator b with
  | Some _ => ret tt
  | None =>
      a <- getBasicBlockEndAddress;;
      dest <- getOrCreateBasicBlock a;;
      insertAtEnd bb (IBr dest);;; ret tt
  end;;;
  notifyDRS EvFinalizeBasicBlock;;;
  modify (with_TheBB None);;;
  modify (with_TheMCBB None).

Definition prepareBasicBlockForInsertion (BB : nat) : M unit :=
  b <- getBlock BB;;
  match bbOps b with
  | [_; IUnreachable] =>
      modify (fun s => with_Blocks (<[BB := mkBB (bbName b) []]> (Blocks s)) s)
  | _ => abort
  end.

Definition SwitchToBasicBlockAt (BeginAddr : N) : M unit :=
  bb <- getOrCreateBasicBlock BeginAddr;;
  modify (with_TheBB (Some bb));;;
  prepareBasicBlockForInsertion bb;;;
  SetInsertPoint bb;;;
  notifyDRS (EvSwitchToBasicBlock bb);;;
  c <- ConstantInt_get (getRegType tgt (getProgramCounter tgt)) BeginAddr;;
  setReg (getProgramCounter tgt) c.

Definition SwitchToBasicBlock (MCBB : MCBasicBlock) : M unit :=
  modify (with_TheMCBB (Some MCBB));;;
  a <- getBasicBlockStartAddress;;
  SwitchToBasicBlockAt a.

(** ** insertCallBB, insertTranslateAt, insertCall (DCFunction.cpp 191-230) *)

Definition insertCallBB (Target : Value) : M nat :=
  bb <- theBB;;
  b <- getBlock bb;;
  CallBB <- createBasicBlock (bbName b +++ "_call");;
  insertAtEnd CallBB (ICall Target [RegSetArg]);;;
  CreateBr CallBB;;;
  ip <- gets InsertBB;;
  assert (Nat.eqb ip bb);;;
  let BBName := prefixBeforeAnyOf ["_"; "c"]%char (bbName b) in
  ci <- gets CurrentInst;;
  let CallInstAddr := match ci with
                      | Some i => utohexstr (Address i)
                      | None => ""
                      end in
  nb <- createBasicBlock (BBName +++ "_c" +++ CallInstAddr);;
  modify (with_TheBB (Some nb));;;
  notifyDRS EvFinalizeBasicBlock;;;
  notifyDRS (EvSwitchToBasicBlock nb);;;
  SetInsertPoint nb;;;
  insertAtEnd CallBB (IBr nb);;;
  modify (fun s => with_CallBBs (CallBBs s ++ [CallBB]) s);;;
  ret CallBB.

Definition insertTranslateAt (OrigTarget : Value) : M Value :=
  p <- CreateIntToPtr OrigTarget getInt8PtrTy;;
  Ptr <- emit (ICall (IntrinsicDecl dc_translate_at) [p]);;
  CreateBitCast Ptr (getPointerTo FuncTy).

Definition insertCall (CallTarget : Value) : M unit :=
  tgtv <- match asConstantInt CallTarget with
          | Some n => Target <- getZExtValue n;; ret (FunctionV Target)
          | None => insertTranslateAt CallTarget
          end;;
  insertCallBB tgtv;;; ret tt.

(** ** createExternalTailCallBB (DCFunction.cpp 128-136) *)

Definition createExternalTailCallBB (Addr : N) : M unit :=
  SwitchToBasicBlockAt Addr;;;
  insertCallBB (FunctionV Addr);;;
  emit IRet;;; ret tt.

(** ** translateBinOp, translateCastOp (DCFunction.cpp 232-244) *)

Definition translateBinOp (Opc : BinaryOps) : M unit :=
  V1 <- getNextOperand;;
  V2 <- getNextOperand;;
  V2 <- (if isShift Opc && negb (Ty_eqb (typeOf V2) (typeOf V1))
         then CreateZExt V2 (typeOf V1) else ret V2);;
  r <- CreateBinOp Opc V1 V2;;
  registerResult r.

Definition resType : M Ty := e <- gets ResEVT;; ret (getTypeForEVT tgt e).

Definition translateCastOp (Opc : CastOps) : M unit :=
  ResType <- resType;;
  Val <- getNextOperand;;
  r <- CreateCast Opc Val ResType;;
  registerResult r.

(** ** translateExtLoad, translatePredicate (DCFunction.cpp 630-694) *)

Definition translateExtLoad (MemTy : Ty) (isSExt : bool) : M bool :=
  Ptr <- getNextOperand;;
  Ptr <- CreateBitOrPointerCast Ptr (getPointerTo MemTy);;
  V <- emit (ILoad Ptr 0);;
  ResType <- resType;;
  r <- (if isSExt then CreateSExt V ResType else CreateZExt V ResType);;
  registerResult r;;;
  ret true.

(** The pointer coercion shared by the load and store paths. *)
Definition coercePtr (Ptr : Value) (PtrTy : Ty) : M Value :=
  if negb (isPointerTy (typeOf Ptr)) then CreateIntToPtr Ptr PtrTy
  else if negb (Ty_eqb (typeOf Ptr) PtrTy) then CreateBitCast Ptr PtrTy
  else ret Ptr.

Definition translateLoad : M unit :=
  ResType <- resType;;
  let ResPtrTy := getPointerTo ResType in
  Ptr <- getNextOperand;;
  Ptr <- coercePtr Ptr ResPtrTy;;
  r <- emit (ILoad Ptr 1);;
  registerResult r.

Definition translateStore : M unit :=
  Val <- getNextOperand;;
  Ptr <- getNextOperand;;
  let ValPtrTy := getPointerTo (typeOf Val) in
  Ptr <- coercePtr Ptr ValPtrTy;;
  emit (IStore Val Ptr 1 false);;; ret tt.

Definition decodePredicate (n : N) : option Predicate :=
  find (fun p => predicateOf tgt p =? n) allPredicates.

Definition translatePredicate (Pred : N) : M bool :=
  match decodePredicate Pred with
  | Some (memop | loadi16 | loadi32 | alignedload | alignedload256
         | alignedload512 | load) =>
      translateLoad;;; ret true
  | Some (alignednontemporalstore | nontemporalstore | alignedstore
         | alignedstore256 | alignedstore512 | store) =>
      translateStore;;; ret true
  | Some zextloadi8 => translateExtLoad getInt8Ty false
  | Some zextloadi16 => translateExtLoad getInt16Ty false
  | Some sextloadi8 => translateExtLoad getInt8Ty true
  | Some sextloadi16 => translateExtLoad getInt16Ty true
  | Some sextloadi32 => translateExtLoad getInt32Ty true
  | Some and_su => translateBinOp And;;; ret true
  | None => ret false
  end.

(** ** translateOpcode (DCFunction.cpp 299-623) *)

Context (hooks : Hooks).

Definition decodeOpcode (n : N) : option SemaOp :=
  find (fun o => opcodeOf tgt o =? n) allSemaOps.

(** [cast<IntegerType>(ResEVT.getTypeForEVT(getContext()))->getBitWidth()] *)
Definition integerBitsOfEVT (evt : N) : M N :=
  match getTypeForEVT tgt evt with
  | IntegerTy w => ret w
  | _ => abort
  end.

(** The [SMUL_LOHI] and [UMUL_LOHI] cases, which differ in the extension
    ([CreateSExt] or [CreateZExt]) only. *)
Definition translateMulLoHi (ext : CastOps) : M unit :=
  Re2EVT <- NextVT;;
  ResEVT0 <- gets ResEVT;;
  lo <- integerBitsOfEVT ResEVT0;;
  hi <- integerBitsOfEVT Re2EVT;;
  let LoResType := IntegerTy lo in
  let HiResType := IntegerTy hi in
  let ResType := IntegerTy (lo + hi) in
  a <- getNextOperand;;
  Op1 <- CreateCast ext a ResType;;
  b <- getNextOperand;;
  Op2 <- CreateCast ext b ResType;;
  Full <- CreateBinOp Mul Op1 Op2;;
  l <- CreateTrunc Full LoResType;;
  registerResult l;;;
  sh <- ConstantInt_get (typeOf Full) lo;;
  hsh <- CreateBinOp LShr Full sh;;
  h <- CreateTrunc hsh HiResType;;
  registerResult h.

Definition translateOpcode (Opcode : N) : M bool :=
  vt <- NextVT;;
  modify (with_ResEVT vt);;;
  if (BUILTIN_OP_END tgt <=? Opcode) && (Opcode <? DC_OPCODE_START tgt)
  then translateTargetOpcode hooks Opcode
  else
    match decodeOpcode Opcode with
    | Some ADD => translateBinOp Add;;; ret true
    | Some FADD => translateBinOp FAdd;;; ret true
    | Some SUB => translateBinOp Sub;;; ret true
    | Some FSUB => translateBinOp FSub;;; ret true
    | Some MUL => translateBinOp Mul;;; ret true
    | Some FMUL => translateBinOp FMul;;; ret true
    | Some UDIV => translateBinOp UDiv;;; ret true
    | Some SDIV => translateBinOp SDiv;;; ret true
    | Some FDIV => translateBinOp FDiv;;; ret true
    | Some UREM => translateBinOp URem;;; ret true
    | Some SREM => translateBinOp SRem;;; ret true
    | Some FREM => translateBinOp FRem;;; ret true
    | Some SHL => translateBinOp Shl;;; ret true
    | Some SRL => translateBinOp LShr;;; ret true
    | Some SRA => translateBinOp AShr;;; ret true
    | Some AND => translateBinOp And;;; ret true
    | Some OR => translateBinOp Or;;; ret true
    | Some XOR => translateBinOp Xor;;; ret true
    | Some TRUNCATE => translateCastOp Trunc;;; ret true
    | Some BITCAST => translateCastOp BitCast;;; ret true
    | Some ZERO_EXTEND => translateCastOp ZExt;;; ret true
    | Some SIGN_EXTEND => translateCastOp SExt;;; ret true
    | Some FP_TO_UINT => translateCastOp FPToUI;;; ret true
    | Some FP_TO_SINT => translateCastOp FPToSI;;; ret true
    | Some UINT_TO_FP => translateCastOp UIToFP;;; ret true
    | Some SINT_TO_FP => translateCastOp SIToFP;;; ret true
    | Some FP_ROUND => translateCastOp FPTrunc;;; ret true
    | Some FP_EXTEND => translateCastOp FPExt;;; ret true
    | Some FSQRT =>
        V <- getNextOperand;;
        r <- emit (ICall (IntrinsicDecl (sqrt (typeOf V))) [V]);;
        registerResult r;;; ret true
    | Some ROTL =>
        LHS <- getNextOperand;;
        let Ty := typeOf LHS in
        assert (isIntegerTy Ty);;;
        r <- getNextOperand;;
        RHS <- CreateZExt r Ty;;
        Shl_ <- CreateBinOp Shl LHS RHS;;
        w <- ConstantInt_get Ty (getScalarSizeInBits Ty);;
        d <- CreateBinOp Sub w RHS;;
        sr <- CreateBinOp LShr LHS d;;
        res <- CreateBinOp Or Shl_ sr;;
        registerResult res;;; ret true
    | Some INSERT_VECTOR_ELT =>
        Vec <- getNextOperand;;
        Val <- getNextOperand;;
        Idx_ <- getNextOperand;;
        r <- emit (IInsertElement Vec Val Idx_);;
        registerResult r;;; ret true
    | Some EXTRACT_VECTOR_ELT =>
        Val <- getNextOperand;;
        Idx_ <- getNextOperand;;
        r <- emit (IExtractElement Val Idx_);;
        registerResult r;;; ret true
    | Some SMUL_LOHI => translateMulLoHi SExt;;; ret true
    | Some UMUL_LOHI => translateMulLoHi ZExt;;; ret true
    | Some LOAD => translateLoad;;; ret true
    | Some STORE => translateStore;;; ret true
    | Some BRIND =>
        Op1 <- getNextOperand;;
        setReg (getProgramCounter tgt) Op1;;;
        insertCall Op1;;;
        exit <- gets ExitBB;;
        CreateBr exit;;; ret true
    | Some BR =>
        Op1 <- getNextOperand;;
        n <- fromOption (asConstantInt Op1);;
        Target <- getZExtValue n;;
        setReg (getProgramCounter tgt) Op1;;;
        dest <- getOrCreateBasicBlock Target;;
        CreateBr dest;;; ret true
    | Some TRAP =>
        emit (ICall getTrapDecl []);;; ret true
    | Some PUT_RC =>
        MIOperandNo <- Next;;
        RegNo <- getRegOp MIOperandNo;;
        Res <- getNextOperand;;
        let RegType := getRegIntType RegNo in
        Res <- (if isPointerTy (typeOf Res)
                then CreatePtrToInt Res RegType else ret Res);;
        Res <- (if negb (isIntegerTy (typeOf Res))
                then CreateBitCast Res
                       (IntegerTy (getPrimitiveSizeInBits (typeOf Res)))
                else ret Res);;
        Res <- (if getPrimitiveSizeInBits (typeOf Res) <? getRegIntBits tgt RegNo
                then full <- getRegAsInt RegNo;; insertBitsInValue full Res
                else ret Res);;
        assert (Ty_eqb (typeOf Res) RegType);;;
        setReg RegNo Res;;; ret true
    | Some PUT_REG =>
        RegNo <- Next;;
        Res <- getNextOperand;;
        setReg RegNo Res;;; ret true
    | Some GET_RC =>
        MIOperandNo <- Next;;
        ResType <- resType;;
        RegNo <- getRegOp MIOperandNo;;
        Reg <- getRegAsInt RegNo;;
        Reg <- (if getPrimitiveSizeInBits ResType
                     <? getPrimitiveSizeInBits (typeOf Reg)
                then CreateTrunc Reg (IntegerTy (getPrimitiveSizeInBits ResType))
                else ret Reg);;
        Reg <- (if negb (isIntegerTy ResType)
                then CreateBitCast Reg ResType else ret Reg);;
        registerResult Reg;;; ret true
    | Some GET_REG =>
        RegNo <- Next;;
        RegVal <- getReg RegNo;;
        registerResult RegVal;;; ret true
    | Some CUSTOM_OP =>
        OperandType <- Next;;
        MIOperandNo <- Next;;
        Op <- translateCustomOperand hooks OperandType MIOperandNo;;
        match Op with
        | None => ret false
        | Some v => registerResult v;;; ret true
        end
    | Some COMPLEX_PATTERN =>
        Pattern <- Next;;
        Op <- translateComplexPattern hooks Pattern;;
        match Op with
        | None => ret false
        | Some v => registerResult v;;; ret true
        end
    | Some PREDICATE =>
        Pred <- Next;;
        ok <- translatePredicate Pred;;
        if ok then ret true else ret false
    | Some CONSTANT_OP =>
        MIOperandNo <- Next;;
        w <- (e <- gets ResEVT;; integerBitsOfEVT e);;
        imm <- getImmOp MIOperandNo;;
        Cst <- ConstantInt_get (IntegerTy w) imm;;
        registerResult Cst;;; ret true
    | Some MOV_CONSTANT =>
        ValIdx <- Next;;
        e <- gets ResEVT;;
        let ResType := if e =? iPTR tgt then getInt64Ty
                       else getTypeForEVT tgt e in
        c <- fromOption (ConstantArray tbl !! N.to_nat ValIdx);;
        Cst <- ConstantInt_get ResType c;;
        registerResult Cst;;; ret true
    | Some IMPLICIT =>
        RegNo <- Next;;
        translateImplicit hooks RegNo;;; ret true
    | Some BSWAP =>
        ResType <- resType;;
        Op <- getNextOperand;;
        r <- emit (ICall (IntrinsicDecl (bswap ResType)) [Op]);;
        registerResult r;;; ret true
    | Some ATOMIC_FENCE =>
        o <- getNextOperand;;
        OrdV <- (n <- fromOption (asConstantInt o);; getZExtValue n);;
        sc <- getNextOperand;;
        ScopeV <- (n <- fromOption (asConstantInt sc);; getZExtValue n);;
        (* AtomicOrdering::NotAtomic = 0, SequentiallyConsistent = 7 *)
        assert (negb ((OrdV <=? 0) || (7 <? OrdV)));;;
        (* SingleThread = 0, CrossThread = 1 *)
        assert (negb (negb (ScopeV =? 0) && negb (ScopeV =? 1)));;;
        emit (IFence OrdV ScopeV);;; ret true
    | Some END_OF_INSTRUCTION | None => ret false
    end.

(** ** tryTranslateInst, translateInst (DCFunction.cpp 246-297) *)

Definition timeout {A} : M A := fun _ => Timeout.

(** The [while] loop of [tryTranslateInst]; [fuel] bounds the number of
    semantic opcodes read. *)
Fixpoint translateSemantics (fuel : nat) : M bool :=
  match fuel with
  | O => timeout
  | S fuel' =>
      op <- Next;;
      modify (with_Opcode op);;;
      if op =? opcodeOf tgt END_OF_INSTRUCTION then ret true
      else
        ok <- translateOpcode op;;
        if ok then translateSemantics fuel' else ret false
  end.

(** The block between the sentinel test and the loop: "Increment the PC
    before anything." *)
Definition incrementPC : M unit :=
  OldPC <- getReg (getProgramCounter tgt);;
  ci <- currentInst;;
  sz <- ConstantInt_get (typeOf OldPC) (Size ci);;
  NewPC <- CreateBinOp Add OldPC sz;;
  setReg (getProgramCounter tgt) NewPC.

Definition tryTranslateInst (fuel : nat) : M bool :=
  handled <- translateTargetInst hooks;;
  if handled then ret true
  else
    ci <- currentInst;;
    idx <- fromOption (OpcodeToSemaIdx tbl !! N.to_nat (InstOpcode ci));;
    modify (with_Idx idx);;;
    if idx =? 4294967295 (* ~0U *) then ret false
    else
      incrementPC;;;
      translateSemantics fuel.

Definition emitTrapUnreachable : M unit :=
  emit (ICall getTrapDecl []);;;
  emit IUnreachable;;; ret tt.

Definition translateInst (fuel : nat) (DecodedInst : MCDecodedInst) : M bool :=
  modify (with_CurrentInst (Some DecodedInst));;;
  notifyDRS (EvSwitchToInst DecodedInst);;;
  (if EnableInstAddrSave opts then
     let CurIVal := getInt64 (Address DecodedInst) in
     let CurIPtr := ConstIntToPtr (getInt64 (addrof_current_instr opts))
                      (getPointerTo getInt64Ty) in
     emit (IStore CurIVal CurIPtr 0 true);;; ret tt
   else ret tt);;;
  Success <- tryTranslateInst fuel;;
  Success <- (if negb Success && TranslateUnknownToUndef opts
              then emitTrapUnreachable;;; ret true
              else ret Success);;
  modify (with_Vals []);;;
  modify (with_CurrentInst None);;;
  ret Success.

(** ** The constructor and the destructor (DCFunction.cpp 48-118) *)

Definition emptyDCFunction : DCFunction :=
  mkDCF 0 0 0 [] None None None 0%nat [] ∅ [] 0%nat 0%nat [].

Definition construct (MCF : MCFunction) : M unit :=
  assert (negb (Nat.eqb (length (mcfBlocks MCF)) 0));;;
  let StartAddr := mcfStartAddr MCF in
  entry <- createBasicBlock ("entry_fn_" +++ utohexstr StartAddr);;
  modify (with_TheBB (Some entry));;;
  exit <- createBasicBlock ("exit_fn_" +++ utohexstr StartAddr);;
  modify (with_ExitBB exit);;;
  SetInsertPoint entry;;;
  (if EnableRegSetDiff opts then
     SavedRegSet <- emit (IAlloca RegSetTy);;
     old <- emit (ILoad RegSetArg 0);;
     emit (IStore old SavedRegSet 0 false);;;
     DiffExitBB <- createBasicBlock ("diff_exit_fn_" +++ utohexstr StartAddr);;
     FnAddr <- CreateCastIn DiffExitBB IntToPtr (getInt64 StartAddr) getInt8PtrTy;;
     insertAtEnd DiffExitBB
       (ICall RegSetDiffFunction [FnAddr; SavedRegSet; RegSetArg]);;;
     insertAtEnd DiffExitBB IRet;;;
     insertAtEnd exit (IBr DiffExitBB);;; ret tt
   else
     insertAtEnd exit IRet;;; ret tt);;;
  first <- getOrCreateBasicBlock StartAddr;;
  CreateBr first.

(** [DCFunction(...)]: the object after the constructor has run. *)
Definition newDCFunction (MCF : MCFunction) : Res unit :=
  construct MCF emptyDCFunction.

Definition finalizeCallBB (CallBB : nat) : M unit :=
  b <- getBlock CallBB;;
  assert (Nat.eqb (length (bbInsts b)) 2);;;
  insertBefore CallBB 0 RSaveAllLocalRegs;;;
  insertBefore CallBB 2 RRestoreLocalRegs;;;
  ret tt.

Fixpoint forEach {A} (f : A -> M unit) (l : list A) : M unit :=
  match l with
  | [] => ret tt
  | x :: r => f x;;; forEach f r
  end.

Definition destruct_ : M unit :=
  cbs <- gets CallBBs;;
  forEach finalizeCallBB cbs;;;
  exit <- gets ExitBB;;
  notifyDRS (EvFinalizeFunction exit).

End Translator.

(** ** A small target to run the translator on

    Opcode and predicate numbers, a register file of 64-bit registers with
    register 0 as program counter, value-type tag [n] standing for the
    [n]-bit integer, and a target that overrides nothing. *)
Module Sample.

Definition opcodeOf (o : SemaOp) : N :=
  match o with
  | ADD => 1 | FADD => 2 | SUB => 3 | FSUB => 4
  | MUL => 5 | FMUL => 6 | UDIV => 7 | SDIV => 8
  | FDIV => 9 | UREM => 10 | SREM => 11 | FREM => 12
  | SHL => 13 | SRL => 14 | SRA => 15 | AND => 16
  | OR => 17 | XOR => 18 | TRUNCATE => 19 | BITCAST => 20
  | ZERO_EXTEND => 21 | SIGN_EXTEND => 22 | FP_TO_UINT => 23 | FP_TO_SINT => 24
  | UINT_TO_FP => 25 | SINT_TO_FP => 26 | FP_ROUND => 27 | FP_EXTEND => 28
  | FSQRT => 29 | ROTL => 30 | INSERT_VECTOR_ELT => 31 | EXTRACT_VECTOR_ELT => 32
  | SMUL_LOHI => 33 | UMUL_LOHI => 34 | LOAD => 35 | STORE => 36
  | BRIND => 37 | BR => 38 | TRAP => 39 | BSWAP => 40
  | ATOMIC_FENCE => 41
  | END_OF_INSTRUCTION => 2000 | PUT_RC => 2001 | PUT_REG => 2002 | GET_RC => 2003
  | GET_REG => 2004 | CUSTOM_OP => 2005 | COMPLEX_PATTERN => 2006 | PREDICATE => 2007
  | CONSTANT_OP => 2008 | MOV_CONSTANT => 2009 | IMPLICIT => 2010
  end.

Definition predicateOf (p : Predicate) : N :=
  match p with
  | memop => 0 | loadi16 => 1 | loadi32 => 2 | alignedload => 3
  | alignedload256 => 4 | alignedload512 => 5 | load => 6 | alignednontemporalstore => 7
  | nontemporalstore => 8 | alignedstore => 9 | alignedstore256 => 10 | alignedstore512 => 11
  | store => 12 | zextloadi8 => 13 | zextloadi16 => 14 | sextloadi8 => 15
  | sextloadi16 => 16 | sextloadi32 => 17 | and_su => 18
  end.

Definition target : Target :=
  mkTarget (fun _ => IntegerTy 64) (fun _ => 64) 0
           (fun vt => IntegerTy vt) 255
           opcodeOf 1000 2000 predicateOf.

Definition hooks : Hooks :=
  mkHooks (ret false) (fun _ => ret false)
          DCFunction_translateComplexPattern
          (fun _ _ => ret None) (fun _ => ret false).

(** Semantics of six machine opcodes:
    0: add of two register operands into a third;
    1: no semantics;
    2: direct branch to the constant in the pool;
    3: indirect branch through a register operand;
    4: an operand given by a complex pattern;
    5: a semantic opcode the translator has no case for;
    6: signed 32x32 multiply into two register operands;
    7: indirect branch to the constant in the pool. *)
Definition tables : Tables :=
  mkTables
    [0; 4294967295; 12; 18; 24; 28; 31; 47]
    [ (* 0 *) opcodeOf GET_RC; 64; 1; opcodeOf GET_RC; 64; 2;
              opcodeOf ADD; 64; opcodeOf PUT_RC; 64; 0;
              opcodeOf END_OF_INSTRUCTION;
      (* 12 *) opcodeOf MOV_CONSTANT; 64; 0; opcodeOf BR; 64;
               opcodeOf END_OF_INSTRUCTION;
      (* 18 *) opcodeOf GET_RC; 64; 0; opcodeOf BRIND; 64;
               opcodeOf END_OF_INSTRUCTION;
      (* 24 *) opcodeOf COMPLEX_PATTERN; 64; 7;
               opcodeOf END_OF_INSTRUCTION;
      (* 28 *) 999; 64; opcodeOf END_OF_INSTRUCTION;
      (* 31 *) opcodeOf GET_RC; 32; 2; opcodeOf GET_RC; 32; 3;
               opcodeOf SMUL_LOHI; 32; 32;
               opcodeOf PUT_RC; 32; 0; opcodeOf PUT_RC; 32; 1;
               opcodeOf END_OF_INSTRUCTION;
      (* 47 *) opcodeOf MOV_CONSTANT; 64; 0; opcodeOf BRIND; 64;
               opcodeOf END_OF_INSTRUCTION ]
    [8192].

Definition options (diff undef : bool) : Options :=
  mkOptions diff false undef 6295840.

Definition mcbb : MCBasicBlock := mkMCBB 4096 4101.
Definition mcf : MCFunction := mkMCF 4096 [mcbb].

Definition addInst : MCDecodedInst :=
  mkInst 4096 3 0 [MCReg 3; MCReg 1; MCReg 2].
Definition unknownInst : MCDecodedInst := mkInst 4096 2 1 [].
Definition jmpInst : MCDecodedInst := mkInst 4096 5 2 [].
Definition jmpRegInst : MCDecodedInst := mkInst 4096 2 3 [MCReg 5].
Definition patternInst : MCDecodedInst := mkInst 4096 4 4 [].
Definition badSemaInst : MCDecodedInst := mkInst 4096 1 5 [].
Definition mulInst : MCDecodedInst :=
  mkInst 4096 3 6 [MCReg 4; MCReg 5; MCReg 6; MCReg 7].
Definition jmpConstInst : MCDecodedInst := mkInst 4096 2 7 [].

Definition stateOf {A} (r : Res A) : DCFunction :=
  match r with Ok _ s => s | _ => emptyDCFunction end.

(** The function just constructed, and with its first block opened. *)
Definition fresh (diff : bool) : DCFunction :=
  stateOf (newDCFunction target (options diff false) mcf).

Definition opened (diff : bool) : DCFunction :=
  stateOf (SwitchToBasicBlock target mcbb (fresh diff)).

End Sample.

(** * Vocabulary of the properties *)

Local Open Scope dc_scope.
Local Open Scope list_scope.

(** ** Blocks and what is appended to them *)

(** The block map sends every address to a block of the function, and
    different addresses to different blocks. *)
Definition blockMapOK (s : DCFunction) : Prop :=
  (forall a b, BBByAddr s !! a = Some b -> (b < length (Blocks s))%nat)
  /\ (forall a1 a2 b,
        BBByAddr s !! a1 = Some b -> BBByAddr s !! a2 = Some b -> a1 = a2).

(** Instructions numbered from [n] on. *)
Fixpoint number (n : nat) (ops : list Instr) : list (nat * Instr) :=
  match ops with
  | [] => []
  | i :: r => (n, i) :: number (S n) r
  end.

(** The state with [ops] appended to block [bb], numbered from [NextId]. *)
Definition appendOps (bb : nat) (ops : list Instr) (s : DCFunction) : DCFunction :=
  match Blocks s !! bb with
  | Some b =>
      with_NextId (length ops + NextId s)
        (with_Blocks
           (<[bb := mkBB (bbName b) (bbInsts b ++ number (NextId s) ops)]> (Blocks s)) s)
  | None => s
  end.

(** ** The instructions the translator emits *)

(** What [translateInst] does before it calls [tryTranslateInst]. *)
Definition translateInst_entry (tgt : Target) (opts : Options)
    (DecodedInst : MCDecodedInst) : M unit :=
  modify (with_CurrentInst (Some DecodedInst));;;
  notifyDRS (EvSwitchToInst DecodedInst);;;
  (if EnableInstAddrSave opts then
     let CurIVal := getInt64 (Address DecodedInst) in
     let CurIPtr := ConstIntToPtr (getInt64 (addrof_current_instr opts))
                      (getPointerTo getInt64Ty) in
     emit tgt (IStore CurIVal CurIPtr 0 true);;; ret tt
   else ret tt).

(** What it does after the result is known. *)
Definition translateInst_exit (s : DCFunction) : DCFunction :=
  with_CurrentInst None (with_Vals [] s).

(** ** Relations between the state before and after a run *)

(** Every successful run of [m] takes a state to one related to it by [R]. *)
Definition respects {A} (R : DCFunction -> DCFunction -> Prop) (m : M A) : Prop :=
  forall s a s', m s = Ok a s' -> R s s'.

(** Two states with the same IR and the same handles into it; they may differ
    in the tape cursor, the value stack, the current instruction and the log
    of the register semantics. *)
Definition sameIR (s s' : DCFunction) : Prop :=
  TheBB s' = TheBB s /\ ExitBB s' = ExitBB s /\ CallBBs s' = CallBBs s
  /\ BBByAddr s' = BBByAddr s /\ Blocks s' = Blocks s
  /\ InsertBB s' = InsertBB s /\ NextId s' = NextId s.

(** A call to the regset-diff function. *)
Definition isDiffCall (i : Instr) : bool :=
  match i with
  | ICall RegSetDiffFunction _ => true
  | _ => false
  end.

(** Is [i] a return? *)
Definition isReturn (i : Instr) : bool :=
  match i with
  | IRet => true
  | _ => false
  end.

(** The target's five virtual methods respect [R]. *)
Definition hooksRespect (R : DCFunction -> DCFunction -> Prop) (hooks : Hooks) : Prop :=
  respects R (translateTargetInst hooks)
  /\ (forall o, respects R (translateTargetOpcode hooks o))
  /\ (forall p, respects R (translateComplexPattern hooks p))
  /\ (forall t n, respects R (translateCustomOperand hooks t n))
  /\ (forall r, respects R (translateImplicit hooks r)).

(** Every block of [s] is still there in [s'], under the same name, with its
    instructions as a prefix of what it holds now. *)
Definition blocksExtend (s s' : DCFunction) : Prop :=
  forall bb b, Blocks s !! bb = Some b ->
    exists b', Blocks s' !! bb = Some b' /\ bbName b' = bbName b
               /\ bbInsts b `prefix_of` bbInsts b'.

(** The IR operation of a binary semantic opcode, as the [switch] of
    [translateOpcode] pairs them. *)
Definition binaryOpOf (o : SemaOp) : option BinaryOps :=
  match o with
  | ADD => Some Add | FADD => Some FAdd | SUB => Some Sub | FSUB => Some FSub
  | MUL => Some Mul | FMUL => Some FMul | UDIV => Some UDiv | SDIV => Some SDiv
  | FDIV => Some FDiv | UREM => Some URem | SREM => Some SRem | FREM => Some FRem
  | SHL => Some Shl | SRL => Some LShr | SRA => Some AShr
  | AND => Some And | OR => Some Or | XOR => Some Xor
  | _ => None
  end.

(** The three instructions of "Increment the PC before anything", the first
    of them numbered [n]: read the program counter, add the instruction's
    size, write the sum back. *)
Definition pcUpdate (tgt : Target) (n : nat) (w : N) (d : MCDecodedInst) : list Instr :=
  let pc := getProgramCounter tgt in
  let T := getRegType tgt pc in
  [RGetReg pc;
   IBinOp Add (InstRes n T) (ConstantInt T (Size d mod 2 ^ w));
   RSetReg pc (InstRes (S n) T)].

(** The extension of [v] to type [F], when [v] is not of that type already:
    the instruction appended, and the extended value. *)
Definition extendTo (ext : CastOps) (F : Ty) (n : nat) (v : Value)
  : list Instr * Value :=
  if Ty_eqb (typeOf v) F then ([], v) else ([ICast ext v F], InstRes n F).

(** What [SMUL_LOHI] and [UMUL_LOHI] append for factors [a] and [b], the
    first instruction numbered [n]: the extensions, the product, its low
    [lo] bits, the shift by [lo] and the [hi] bits of the shifted product. *)
Definition mulLoHiOps (ext : CastOps) (lo hi : N) (n : nat) (a b : Value)
  : list Instr :=
  let F := IntegerTy (lo + hi) in
  let '(ea, A) := extendTo ext F n a in
  let n1 := (length ea + n)%nat in
  let '(eb, B) := extendTo ext F n1 b in
  let n2 := (length eb + n1)%nat in
  ea ++ eb ++
  [IBinOp Mul A B;
   ICast Trunc (InstRes n2 F) (IntegerTy lo);
   IBinOp LShr (InstRes n2 F) (ConstantInt F (lo mod 2 ^ (lo + hi)));
   ICast Trunc (InstRes (2 + n2) F) (IntegerTy hi)].

(** The state after [insertCallBB(Target)] when the current block is [bb],
    holding [blk]: [bb] gets a branch to the new call block, the call block
    holds the call and a branch to the new successor block, and the successor
    becomes the current block and the insertion point. *)
Definition afterCallBB (Target : Value) (bb : nat) (blk : BasicBlock)
    (s : DCFunction) : DCFunction :=
  let L := length (Blocks s) in
  let n := NextId s in
  let succName :=
    prefixBeforeAnyOf ["_"; "c"]%char (bbName blk) +++ "_c" +++
      match CurrentInst s with
      | Some i => utohexstr (Address i)
      | None => ""
      end in
  with_CallBBs (CallBBs s ++ [L])
    (with_InsertBB (S L)
       (with_DRSLog (DRSLog s ++ [EvFinalizeBasicBlock; EvSwitchToBasicBlock (S L)])
          (with_TheBB (Some (S L))
             (with_NextId (3 + n)
                (with_Blocks
                   (<[bb := mkBB (bbName blk) (bbInsts blk ++ [(S n, IBr L)])]> (Blocks s)
                    ++ [mkBB (bbName blk +++ "_call")
                             [(n, ICall Target [RegSetArg]); (S (S n), IBr (S L))];
                        mkBB succName []])
                   s))))).

(** What [BRIND] appends to the current block before the block is split: the
    write of the target to the program counter and, for a target that is not
    a constant integer, the call through [dc_translate_at]; and the callee of
    the call block. *)
Definition brindOps (tgt : Target) (n : nat) (v : Value) : list Instr * Value :=
  match asConstantInt v with
  | Some a => ([RSetReg (getProgramCounter tgt) v], FunctionV a)
  | None =>
      let '(pre, p) := extendTo IntToPtr getInt8PtrTy (S n) v in
      let k := length pre in
      (RSetReg (getProgramCounter tgt) v :: pre ++
       [ICall (IntrinsicDecl dc_translate_at) [p];
        ICast BitCast (InstRes (S (k + n)) getInt8PtrTy) (PointerTy FuncTy)],
       InstRes (S (S (k + n))) (PointerTy FuncTy))
  end.

(** The state after [BRIND] on target [v], when the current block is [bb],
    holding [blk]: the instructions of [brindOps] in [bb], the block split
    around the call, and a branch to the exit block in the successor. *)
Definition afterBRIND (tgt : Target) (vt : N) (v : Value) (rest : list Value)
    (bb : nat) (blk : BasicBlock) (s : DCFunction) : DCFunction :=
  let n := NextId s in
  let ops := fst (brindOps tgt n v) in
  let callee := snd (brindOps tgt n v) in
  let s1 := with_Vals rest
              (with_ResEVT vt
                 (with_Idx (nextIdx (Idx s)) (appendOps bb ops s))) in
  let blk1 := mkBB (bbName blk) (bbInsts blk ++ number n ops) in
  appendOps (S (length (Blocks s))) [IBr (ExitBB s)]
    (afterCallBB callee bb blk1 s1).

(** A call to the [dc_translate_at] intrinsic. *)
Definition isTranslateAtCall (i : Instr) : bool :=
  match i with
  | ICall (IntrinsicDecl dc_translate_at) _ => true
  | _ => false
  end.

(** Does any block hold a call to the [dc_translate_at] intrinsic? *)
Definition callsTranslateAt (s : DCFunction) : bool :=
  existsb (fun b => existsb isTranslateAtCall (bbOps b)) (Blocks s).

(** ** The shape of the function under translation *)

(** The block the constructor makes for the diff call, if any: it is the
    third block created. *)
Definition diffExitBlock (opts : Options) : option nat :=
  if EnableRegSetDiff opts then Some 2%nat else None.

(** A block holding a call on the register set followed by a branch. *)
Definition isCallBlock (b : BasicBlock) : Prop :=
  exists i1 i2 callee nxt,
    bbInsts b = [(i1, ICall callee [RegSetArg]); (i2, IBr nxt)].

(** The blocks the translator never inserts into again: the recorded call
    blocks, the exit block and the diff-exit block. *)
Definition sealed (dx : option nat) (s : DCFunction) : list nat :=
  CallBBs s ++ ExitBB s :: option_list dx.

(** A block without a call to the regset-diff function. *)
Definition noDiffCall (b : BasicBlock) : Prop :=
  forall i, i ∈ bbOps b -> isDiffCall i = false.

(** The invariant of the translation: the block map and the sealed blocks
    name blocks of the function; no handle the translator inserts through
    names a sealed block; every recorded call block is a call and a branch;
    the exit block returns, or branches to the diff-exit block, which alone
    holds a diff call. *)
Record wellShaped (dx : option nat) (s : DCFunction) : Prop := mkWellShaped {
  ws_map_range : forall a b, BBByAddr s !! a = Some b -> (b < length (Blocks s))%nat;
  ws_sealed_range : forall b, b ∈ sealed dx s -> (b < length (Blocks s))%nat;
  ws_insert_open : InsertBB s ∉ sealed dx s;
  ws_thebb_open : forall b, TheBB s = Some b -> b ∉ sealed dx s;
  ws_map_open : forall a b, BBByAddr s !! a = Some b -> b ∉ sealed dx s;
  ws_calls_nodup : NoDup (CallBBs s);
  ws_calls_shape : forall cb, cb ∈ CallBBs s ->
    exists blk, Blocks s !! cb = Some blk /\ isCallBlock blk;
  ws_exit_shape : exists blk, Blocks s !! ExitBB s = Some blk
    /\ bbOps blk = match dx with Some d => [IBr d] | None => [IRet] end;
  ws_diff_shape : forall d, dx = Some d ->
    exists blk fn args, Blocks s !! d = Some blk
      /\ bbOps blk = [ICast IntToPtr fn getInt8PtrTy;
                      ICall RegSetDiffFunction args; IRet];
  ws_diff_only : forall bb blk, Blocks s !! bb = Some blk -> dx <> Some bb ->
    noDiffCall blk
}.

(** Same shape-relevant fields. *)
Definition sameShape (s s' : DCFunction) : Prop :=
  TheBB s' = TheBB s /\ ExitBB s' = ExitBB s /\ CallBBs s' = CallBBs s
  /\ BBByAddr s' = BBByAddr s /\ Blocks s' = Blocks s
  /\ InsertBB s' = InsertBB s.

(** A step that preserves the invariant. *)
Definition keepsShape (dx : option nat) (s s' : DCFunction) : Prop :=
  wellShaped dx s -> wellShaped dx s'.

(** The object the constructor builds for a function starting at [a]. *)
Definition constructed (diff : bool) (a : N) : DCFunction :=
  if diff then
    mkDCF 0 0 0 [] None (Some 0%nat) None 1%nat [] (<[a := 3%nat]> ∅)
      [mkBB ("entry_fn_" +++ utohexstr a)
         [(0%nat, IAlloca RegSetTy);
          (1%nat, ILoad RegSetArg 0);
          (2%nat, IStore (InstRes 1 RegSetTy) (InstRes 0 (PointerTy RegSetTy)) 0 false);
          (9%nat, IBr 3)];
       mkBB ("exit_fn_" +++ utohexstr a) [(6%nat, IBr 2)];
       mkBB ("diff_exit_fn_" +++ utohexstr a)
         [(3%nat, ICast IntToPtr (getInt64 a) getInt8PtrTy);
          (4%nat, ICall RegSetDiffFunction
                    [InstRes 3 getInt8PtrTy; InstRes 0 (PointerTy RegSetTy);
                     RegSetArg]);
          (5%nat, IRet)];
       mkBB ("bb_" +++ utohexstr a)
         [(7%nat, ICall (IntrinsicDecl trap) []); (8%nat, IUnreachable)]]
      0%nat 10%nat []
  else
    mkDCF 0 0 0 [] None (Some 0%nat) None 1%nat [] (<[a := 2%nat]> ∅)
      [mkBB ("entry_fn_" +++ utohexstr a) [(3%nat, IBr 2)];
       mkBB ("exit_fn_" +++ utohexstr a) [(0%nat, IRet)];
       mkBB ("bb_" +++ utohexstr a)
         [(1%nat, ICall (IntrinsicDecl trap) []); (2%nat, IUnreachable)]]
      0%nat 4%nat [].

Section Reachability.

Context (tgt : Target) (tbl : Tables) (opts : Options) (hooks : Hooks)
        (mcf : MCFunction).

(** The constructor, then any sequence of the public entry points. *)
Inductive Reachable : DCFunction -> Prop :=
| reach_new s :
    newDCFunction tgt opts mcf = Ok tt s -> Reachable s
| reach_switch s mcbb s' :
    Reachable s -> SwitchToBasicBlock tgt mcbb s = Ok tt s' -> Reachable s'
| reach_inst s fuel d ok s' :
    Reachable s -> translateInst tgt tbl opts hooks fuel d s = Ok ok s' ->
    Reachable s'
| reach_finalize s s' :
    Reachable s -> FinalizeBasicBlock tgt s = Ok tt s' -> Reachable s'
| reach_tailcall s a s' :
    Reachable s -> createExternalTailCallBB tgt a s = Ok tt s' -> Reachable s'.

End Reachability.

(** ** The destructor and the return paths *)

(** [b'] is the call block [b] after the destructor: the save of the local
    registers before the call, their restoration after it. *)
Definition wrapped (b b' : BasicBlock) : Prop :=
  exists i1 i2 j1 j2 callee nxt,
    bbInsts b = [(i1, ICall callee [RegSetArg]); (i2, IBr nxt)]
    /\ bbName b' = bbName b
    /\ bbInsts b' = [(j1, RSaveAllLocalRegs); (i1, ICall callee [RegSetArg]);
                     (j2, RRestoreLocalRegs); (i2, IBr nxt)].

(** The number of elements of [l] that satisfy [f]. *)
Fixpoint countb {A} (f : A -> bool) (l : list A) : nat :=
  match l with
  | [] => 0
  | x :: r => (if f x then 1 else 0) + countb f r
  end.

(** The number of calls to the regset-diff function in a block. *)
Definition diffCallsIn (b : BasicBlock) : nat := countb isDiffCall (bbOps b).

(** Where a block's terminator goes. *)
Definition successor (b : BasicBlock) : option nat :=
  match last (bbOps b) with
  | Some (IBr d) => Some d
  | _ => None
  end.

(** Does the block end with a return? *)
Definition returns (b : BasicBlock) : bool :=
  match last (bbOps b) with
  | Some IRet => true
  | _ => false
  end.

(** [p] is a path of blocks, each branching to the next, that ends in a block
    ending with a return. *)
Fixpoint isReturnPath (bs : list BasicBlock) (p : list nat) : bool :=
  match p with
  | [] => false
  | x :: r =>
      match bs !! x with
      | None => false
      | Some b =>
          match r with
          | [] => returns b
          | y :: _ =>
              match successor b with
              | Some d => Nat.eqb d y && isReturnPath bs r
              | None => false
              end
          end
      end
  end.

(** The number of diff calls along a path. *)
Fixpoint diffCallsOn (bs : list BasicBlock) (p : list nat) : nat :=
  match p with
  | [] => 0
  | x :: r =>
      match bs !! x with
      | Some b => diffCallsIn b
      | None => 0
      end + diffCallsOn bs r
  end.

(** The entry block is the first block the constructor creates. *)
Definition entryBlock : nat := 0.

(** A run with diffing on: the function at 0x1000 jumps to 0x2000, outside
    it, and the driver makes the tail-call block for 0x2000. *)
Definition jumpTranslated : DCFunction :=
  Sample.stateOf
    (translateInst Sample.target Sample.tables (Sample.options true false)
       Sample.hooks 8 Sample.jmpInst (Sample.opened true)).

(** The same run after the driver has finalized the basic block. *)
Definition jumpFinalized : DCFunction :=
  Sample.stateOf (FinalizeBasicBlock Sample.target jumpTranslated).

(** ... and after it has made the tail-call block. *)
Definition tailCallRun : DCFunction :=
  Sample.stateOf (createExternalTailCallBB Sample.target 8192 jumpFinalized).

(** ** Opening and closing a basic block *)

(** A block as [getOrCreateBasicBlock] leaves it, and as
    [prepareBasicBlockForInsertion] wants it: two instructions, the second an
    [unreachable]. *)
Definition isPlaceholder (b : BasicBlock) : bool :=
  match bbOps b with
  | [_; IUnreachable] => true
  | _ => false
  end.

(** Can the block of address [a] be opened?  It can when the address has no
    block yet, or has one that is still a placeholder. *)
Definition canOpen (s : DCFunction) (a : N) : bool :=
  match BBByAddr s !! a with
  | None => true
  | Some bb =>
      match Blocks s !! bb with
      | Some b => isPlaceholder b
      | None => false
      end
  end.

(** The state after block [bb], holding [b], has been opened for address
    [a]: emptied, made the current block and the insertion point, announced to
    the register semantics, and given the write of [a] to the program counter,
    an integer register of [w] bits. *)
Definition openedBlock (tgt : Target) (a : N) (w : N) (bb : nat) (b : BasicBlock)
    (s : DCFunction) : DCFunction :=
  let pc := getProgramCounter tgt in
  with_NextId (S (NextId s))
    (with_DRSLog (DRSLog s ++ [EvSwitchToBasicBlock bb])
       (with_InsertBB bb
          (with_Blocks
             (<[bb := mkBB (bbName b)
                        [(NextId s,
                          RSetReg pc (ConstantInt (getRegType tgt pc) (a mod 2 ^ w)))]]>
                (Blocks s))
             (with_TheBB (Some bb) s)))).

(** The translator's handles after [FinalizeBasicBlock]: the register
    semantics has been told, and there is no current block and no current MC
    block any more. *)
Definition closedBlock (s : DCFunction) : DCFunction :=
  with_TheMCBB None
    (with_TheBB None (with_DRSLog (DRSLog s ++ [EvFinalizeBasicBlock]) s)).

(** ** What the entry points keep *)

(** The handles of [s] are still good in [s']: the exit block is the same,
    the recorded call blocks are still recorded, in the same order, every
    address that had a block has the same block, and every block is still
    there under its name. *)
Definition handlesKept (s s' : DCFunction) : Prop :=
  ExitBB s' = ExitBB s
  /\ CallBBs s `prefix_of` CallBBs s'
  /\ (forall a bb, BBByAddr s !! a = Some bb -> BBByAddr s' !! a = Some bb)
  /\ (forall bb b, Blocks s !! bb = Some b ->
        exists b', Blocks s' !! bb = Some b' /\ bbName b' = bbName b).

(** From [s] to [s'] blocks have only been appended to or added, and of the
    blocks of [s] only the one at the insertion point has been written to;
    the insertion point is where it was or in a block added since. *)
Definition writesAtInsertionOnly (s s' : DCFunction) : Prop :=
  blocksExtend s s'
  /\ (length (Blocks s) <= length (Blocks s'))%nat
  /\ (InsertBB s' = InsertBB s \/ (length (Blocks s) <= InsertBB s')%nat)
  /\ (forall bb, (bb < length (Blocks s))%nat -> bb <> InsertBB s ->
        Blocks s' !! bb = Blocks s !! bb).

(** ** Reading the tape forward *)

(** [m] returns or stops at a failed check, and does not move the tape cursor
    [Idx] backwards. *)
Definition advances {A} (m : M A) : Prop :=
  forall s, match m s with
            | Ok _ s' => Idx s <= Idx s'
            | Abort => True
            | Timeout => False
            end.

(** The same, with the cursor moved forward by one entry at least. *)
Definition advancesStrictly {A} (m : M A) : Prop :=
  forall s, match m s with
            | Ok _ s' => Idx s < Idx s'
            | Abort => True
            | Timeout => False
            end.

(** The target's five virtual methods return and do not move the cursor
    backwards. *)
Definition hooksAdvance (hooks : Hooks) : Prop :=
  advances (translateTargetInst hooks)
  /\ (forall o, advances (translateTargetOpcode hooks o))
  /\ (forall p, advances (translateComplexPattern hooks p))
  /\ (forall t n, advances (translateCustomOperand hooks t n))
  /\ (forall r, advances (translateImplicit hooks r)).

(** The number of entries of the semantics array from the cursor on. *)
Definition tapeLeft (tbl : Tables) (s : DCFunction) : nat :=
  (length (SemanticsArray tbl) - N.to_nat (Idx s))%nat.

(** ** Register operands *)

(** What [PUT_RC] appends to write [v] to register [r], an integer register
    of [W] bits, the first instruction numbered [n]: a pointer is turned into
    an integer of the register's width, any other value that is no integer
    is cast to the integer of its own size, a value narrower than the
    register is inserted into the register's current value, and the result is
    written to the register.  [None] when the value to write is not of the
    register's integer type in the end. *)
Definition putRCOps (W : N) (r : N) (n : nat) (v : Value) : option (list Instr) :=
  let iW := IntegerTy W in
  let '(c1, v1) :=
    if isPointerTy (typeOf v)
    then ([ICast PtrToInt v iW], InstRes n iW) else ([], v) in
  let n1 := (length c1 + n)%nat in
  let '(c2, v2) :=
    if negb (isIntegerTy (typeOf v1))
    then let T := IntegerTy (getPrimitiveSizeInBits (typeOf v1)) in
         ([ICast BitCast v1 T], InstRes n1 T)
    else ([], v1) in
  let n2 := (length c2 + n1)%nat in
  let '(c3, v3) :=
    if getPrimitiveSizeInBits (typeOf v2) <? W
    then ([RGetRegAsInt r; RInsertBits (InstRes n2 iW) v2], InstRes (S n2) iW)
    else ([], v2) in
  if Ty_eqb (typeOf v3) iW then Some (c1 ++ c2 ++ c3 ++ [RSetReg r v3]) else None.

(** What [GET_RC] appends to read register [r], an integer register of [W]
    bits, as a value of type [T], the first instruction numbered [n], and the
    value it registers: the register is read as an integer, truncated to the
    size of [T] when that is smaller, and cast to [T] when [T] is no integer
    type. *)
Definition getRCOps (W : N) (r : N) (T : Ty) (n : nat) : list Instr * Value :=
  let iW := IntegerTy W in
  let k := getPrimitiveSizeInBits T in
  let '(c1, v1) :=
    if k <? W
    then ([ICast Trunc (InstRes n iW) (IntegerTy k)], InstRes (S n) (IntegerTy k))
    else ([], InstRes n iW) in
  let n1 := (length c1 + S n)%nat in
  let '(c2, v2) :=
    if negb (isIntegerTy T)
    then ([ICast BitCast v1 T], InstRes n1 T) else ([], v1) in
  (RGetRegAsInt r :: c1 ++ c2, v2).

(** ** Loads and stores *)

(** The cast that makes [p] a pointer of type [PT], and the pointer: an
    integer-to-pointer cast when [p] is no pointer, a bitcast when it is a
    pointer of another type, nothing when it has type [PT] already. *)
Definition coerceOps (PT : Ty) (n : nat) (p : Value) : list Instr * Value :=
  if negb (isPointerTy (typeOf p)) then ([ICast IntToPtr p PT], InstRes n PT)
  else if negb (Ty_eqb (typeOf p) PT) then ([ICast BitCast p PT], InstRes n PT)
  else ([], p).

(** The predicates translated as a plain load of the result type, and those
    translated as a plain store. *)
Definition isLoadPredicate (p : Predicate) : bool :=
  match p with
  | memop | loadi16 | loadi32 | alignedload | alignedload256 | alignedload512
  | load => true
  | _ => false
  end.

Definition isStorePredicate (p : Predicate) : bool :=
  match p with
  | alignednontemporalstore | nontemporalstore | alignedstore
  | alignedstore256 | alignedstore512 | store => true
  | _ => false
  end.

(** [CreateBitOrPointerCast] to a pointer type [PT]: nothing for a value of
    type [PT], an integer-to-pointer cast for an integer, a bitcast
    otherwise. *)
Definition bitOrPointerOps (PT : Ty) (n : nat) (p : Value) : list Instr * Value :=
  if Ty_eqb (typeOf p) PT then ([], p)
  else if isIntegerTy (getScalarType (typeOf p))
       then ([ICast IntToPtr p PT], InstRes n PT)
       else ([ICast BitCast p PT], InstRes n PT).

(** The memory type and the extension of the extending-load predicates. *)
Definition extLoadOf (p : Predicate) : option (Ty * CastOps) :=
  match p with
  | zextloadi8 => Some (IntegerTy 8, ZExt)
  | zextloadi16 => Some (IntegerTy 16, ZExt)
  | sextloadi8 => Some (IntegerTy 8, SExt)
  | sextloadi16 => Some (IntegerTy 16, SExt)
  | sextloadi32 => Some (IntegerTy 32, SExt)
  | _ => None
  end.

(** The IR cast of a conversion opcode, as the [switch] of [translateOpcode]
    pairs them. *)
Definition castOpOf (o : SemaOp) : option CastOps :=
  match o with
  | TRUNCATE => Some Trunc | BITCAST => Some BitCast
  | ZERO_EXTEND => Some ZExt | SIGN_EXTEND => Some SExt
  | FP_TO_UINT => Some FPToUI | FP_TO_SINT => Some FPToSI
  | UINT_TO_FP => Some UIToFP | SINT_TO_FP => Some SIToFP
  | FP_ROUND => Some FPTrunc | FP_EXTEND => Some FPExt
  | _ => None
  end.

(** ** Reading a block name back *)

(** The value of an upper-case hexadecimal digit, and of a string of them. *)
Definition hexvalue (c : ascii) : N :=
  match c with
  | "0" => 0 | "1" => 1 | "2" => 2 | "3" => 3 | "4" => 4 | "5" => 5
  | "6" => 6 | "7" => 7 | "8" => 8 | "9" => 9 | "A" => 10 | "B" => 11
  | "C" => 12 | "D" => 13 | "E" => 14 | "F" => 15 | _ => 0
  end%char.

Fixpoint hexValueFrom (acc : N) (s : string) : N :=
  match s with
  | EmptyString => acc
  | String c r => hexValueFrom (16 * acc + hexvalue c) r
  end.

Definition hexValue (s : string) : N := hexValueFrom 0 s.

(** ** Where the function returns *)

(** From [s] to [s'] no block has got a return: the exit block is the same,
    and a block of [s'] that holds a return held one in [s]. *)
Definition gainsNoReturn (s s' : DCFunction) : Prop :=
  ExitBB s' = ExitBB s
  /\ forall bb b', Blocks s' !! bb = Some b' -> IRet ∈ bbOps b' ->
       exists b, Blocks s !! bb = Some b /\ IRet ∈ bbOps b.

(** The block the constructor puts the return in: the diff-exit block when
    there is one, the exit block otherwise. *)
Definition returnBlock (dx : option nat) (s : DCFunction) : nat :=
  match dx with
  | Some d => d
  | None => ExitBB s
  end.

(** Returns are found in the constructor's return block and in the blocks
    [T] only. *)
Definition returnsOnlyIn (dx : option nat) (T : list nat) (s : DCFunction) : Prop :=
  forall bb b, Blocks s !! bb = Some b -> IRet ∈ bbOps b ->
    bb = returnBlock dx s \/ bb ∈ T.

Section TailCalls.

Context (tgt : Target) (tbl : Tables) (opts : Options) (hooks : Hooks)
        (mcf : MCFunction).

(** [Reachable], together with the blocks in which
    [createExternalTailCallBB] has put its return: it puts it at the
    insertion point, which it leaves there. *)
Inductive ReachableTC : DCFunction -> list nat -> Prop :=
| rtc_new s :
    newDCFunction tgt opts mcf = Ok tt s -> ReachableTC s []
| rtc_switch s T mcbb s' :
    ReachableTC s T -> SwitchToBasicBlock tgt mcbb s = Ok tt s' ->
    ReachableTC s' T
| rtc_inst s T fuel d ok s' :
    ReachableTC s T -> translateInst tgt tbl opts hooks fuel d s = Ok ok s' ->
    ReachableTC s' T
| rtc_finalize s T s' :
    ReachableTC s T -> FinalizeBasicBlock tgt s = Ok tt s' -> ReachableTC s' T
| rtc_tailcall s T a s' :
    ReachableTC s T -> createExternalTailCallBB tgt a s = Ok tt s' ->
    ReachableTC s' (InsertBB s' :: T).

End TailCalls.

(** A run with diffing on in which the function at 0x1000 jumps through a
    register. *)
Definition jumpRegTranslated : DCFunction :=
  Sample.stateOf
    (translateInst Sample.target Sample.tables (Sample.options true false)
       Sample.hooks 8 Sample.jmpRegInst (Sample.opened true)).

(** ** The run of the opcode loop *)

(** The state in which [translateInst] calls [tryTranslateInst] for the
    instruction [d]: the instruction is the current one, the register
    semantics has been told, and with EnableInstAddrSave the store of the
    instruction's address has been appended. *)
Definition instEntered (opts : Options) (d : MCDecodedInst) (s : DCFunction)
  : DCFunction :=
  appendOps (InsertBB s)
    (if EnableInstAddrSave opts
     then [IStore (getInt64 (Address d))
             (ConstIntToPtr (getInt64 (addrof_current_instr opts))
                (getPointerTo getInt64Ty)) 0 true]
     else [])
    (with_DRSLog (DRSLog s ++ [EvSwitchToInst d]) (with_CurrentInst (Some d) s)).

(** The state in which the opcode loop starts when the target has declined
    the instruction and its semantics are at [idx]: the cursor is at [idx] and
    the update of the program counter, of [w] bits, has been appended. *)
Definition loopStart (tgt : Target) (opts : Options) (d : MCDecodedInst)
    (idx w : N) (s : DCFunction) : DCFunction :=
  let s0 := instEntered opts d s in
  appendOps (InsertBB s0) (pcUpdate tgt (NextId s0) w d) (with_Idx idx s0).

(** The state after the loop has read the opcodes [ops] off the tape, one
    after the other, and [translateOpcode] has returned [true] for each of
    them; [None] when the tape holds something else, or holds
    END_OF_INSTRUCTION, or an opcode fails or aborts. *)
Fixpoint translatedOps (tgt : Target) (tbl : Tables) (hooks : Hooks)
    (ops : list N) (s : DCFunction) : option DCFunction :=
  match ops with
  | [] => Some s
  | op :: rest =>
      match Next tbl s with
      | Ok op' s1 =>
          if (op' =? op) && negb (op =? opcodeOf tgt END_OF_INSTRUCTION) then
            match translateOpcode tgt tbl hooks op (with_Opcode op s1) with
            | Ok true s2 => translatedOps tgt tbl hooks rest s2
            | _ => None
            end
          else None
      | _ => None
      end
  end.

(** What [translateInst] makes of a translation that has failed in state
    [x]: [false], or with TranslateUnknownToUndef a call to the trap
    intrinsic and an [unreachable] at the insertion point, and [true]. *)
Definition failedInst (opts : Options) (x : DCFunction) : Res bool :=
  if TranslateUnknownToUndef opts
  then Ok true
         (translateInst_exit
            (appendOps (InsertBB x) [ICall (IntrinsicDecl trap) []; IUnreachable] x))
  else Ok false (translateInst_exit x).

(** [m], when it returns, returns [true]. *)
Definition returnsTrue (m : M bool) : Prop :=
  forall s b s', m s = Ok b s' -> b = true.

(** Semantics of one machine opcode for the sample target: a register operand
    is read, then comes a semantic opcode the translator has no case for. *)
Definition halfKnownTables : Tables :=
  mkTables [0]
    [Sample.opcodeOf GET_RC; 64; 1; 999; 64;
     Sample.opcodeOf END_OF_INSTRUCTION]
    [].

Definition halfKnownInst : MCDecodedInst := mkInst 4096 3 0 [MCReg 3; MCReg 1].

(** * Properties *)

(** ** Running the primitives *)

Lemma lookup_snoc_length {A} (l : list A) (x : A) :
  (l ++ [x]) !! length l = Some x.
Proof. by rewrite list_lookup_middle. Qed.

Lemma insert_snoc_length {A} (l : list A) (x y : A) :
  <[length l := y]> (l ++ [x]) = l ++ [y].
Proof.
  rewrite insert_app_r_alt by lia.
  by rewrite Nat.sub_diag.
Qed.

Lemma insertAtEnd_run tgt bb i s t b :
  resultTy tgt i = Some t ->
  Blocks s !! bb = Some b ->
  insertAtEnd tgt bb i s =
    Ok (InstRes (NextId s) t)
       (with_NextId (S (NextId s))
          (with_Blocks
             (<[bb := mkBB (bbName b) (bbInsts b ++ [(NextId s, i)])]> (Blocks s)) s)).
Proof. intros Ht Hb. unfold insertAtEnd. by rewrite Ht, Hb. Qed.

(** What [getOrCreateBasicBlock] does when the address has no block yet. *)
Lemma getOrCreateBasicBlock_fresh tgt a s :
  BBByAddr s !! a = None ->
  getOrCreateBasicBlock tgt a s =
    Ok (length (Blocks s))
       (with_NextId (S (S (NextId s)))
          (with_Blocks
             (Blocks s ++
                [mkBB ("bb_" +++ utohexstr a)
                      [(NextId s, ICall (IntrinsicDecl trap) []);
                       (S (NextId s), IUnreachable)]])
             (with_BBByAddr (<[a := length (Blocks s)]> (BBByAddr s)) s))).
Proof.
  intros Hnone.
  unfold getOrCreateBasicBlock, bind, gets, modify, createBasicBlock, ret.
  rewrite Hnone. cbn [Blocks with_Blocks with_BBByAddr].
  erewrite insertAtEnd_run; [| reflexivity | apply lookup_snoc_length].
  cbn [Blocks with_Blocks with_BBByAddr with_NextId bbName bbInsts NextId].
  rewrite insert_snoc_length.
  erewrite insertAtEnd_run; [| reflexivity | apply lookup_snoc_length].
  cbn. by rewrite insert_snoc_length.
Qed.

Lemma getOrCreateBasicBlock_known tgt a s bb :
  BBByAddr s !! a = Some bb ->
  getOrCreateBasicBlock tgt a s = Ok bb s.
Proof.
  intros H. unfold getOrCreateBasicBlock, bind, gets, ret. by rewrite H.
Qed.

(** C3. [getOrCreateBasicBlock] always returns; a second call for the same
    address returns the same block and changes nothing; every other address
    keeps the block it had; a well-formed block map (every address has one
    block of the function, no block serves two addresses) stays well formed;
    and for an address that had no block, the block is a new one at the end of
    the function, named ["bb_" + utohexstr(Addr)], holding a call to the trap
    intrinsic followed by [unreachable] and nothing else. *)
Theorem getOrCreateBasicBlock_idempotent (tgt : Target) (a : N) (s : DCFunction) :
  exists bb s1,
    getOrCreateBasicBlock tgt a s = Ok bb s1
    /\ getOrCreateBasicBlock tgt a s1 = Ok bb s1
    /\ BBByAddr s1 !! a = Some bb
    /\ (forall a', a' <> a -> BBByAddr s1 !! a' = BBByAddr s !! a')
    /\ (blockMapOK s -> blockMapOK s1)
    /\ (forall bb0, BBByAddr s !! a = Some bb0 -> bb = bb0 /\ s1 = s)
    /\ (BBByAddr s !! a = None ->
        bb = length (Blocks s)
        /\ exists blk,
            Blocks s1 = Blocks s ++ [blk]
            /\ bbName blk = "bb_" +++ utohexstr a
            /\ bbOps blk = [ICall (IntrinsicDecl trap) []; IUnreachable]).
Proof.
  destruct (BBByAddr s !! a) as [bb0|] eqn:Hl.
  - exists bb0, s.
    rewrite (getOrCreateBasicBlock_known tgt a s bb0 Hl).
    split; [done|]. split; [done|]. split; [done|]. split; [done|].
    split; [done|]. split; [|done].
    by intros ? [= ->].
  - eexists _, _. split; [by apply getOrCreateBasicBlock_fresh|].
    split; [apply getOrCreateBasicBlock_known; cbn; apply lookup_insert_eq|].
    split; [cbn; apply lookup_insert_eq|].
    split; [intros a' Hne; cbn; by rewrite lookup_insert_ne|].
    split; [|split; [done|]].
    + intros [Hr Hi]. split; cbn.
      * intros a1 b. rewrite length_app. cbn.
        destruct (decide (a = a1)) as [->|Hne].
        -- rewrite lookup_insert_eq. intros [= <-]. lia.
        -- rewrite lookup_insert_ne by done. intros H%Hr. lia.
      * intros a1 a2 b.
        destruct (decide (a = a1)) as [Heq1|Hne1], (decide (a = a2)) as [Heq2|Hne2];
          subst; rewrite ?lookup_insert_eq, ?lookup_insert_ne by done; try done.
        -- intros [= <-] H%Hr. lia.
        -- intros H%Hr [= <-]. lia.
        -- apply Hi.
    + intros _. split; [done|]. eexists. cbn. split; [reflexivity|]. done.
Qed.

(** ** The monad *)

Lemma bind_run {A B} (m : M A) (f : A -> M B) s a s1 :
  m s = Ok a s1 -> bind m f s = f a s1.
Proof. intros H. unfold bind. by rewrite H. Qed.

Lemma bind_Ok {A B} (m : M A) (f : A -> M B) s b s' :
  bind m f s = Ok b s' -> exists a s1, m s = Ok a s1 /\ f a s1 = Ok b s'.
Proof.
  unfold bind. destruct (m s) as [a s1| |]; [|done..]. intros H. by exists a, s1.
Qed.

Lemma bind_Abort {A B} (m : M A) (f : A -> M B) s :
  m s = Abort -> bind m f s = Abort.
Proof. intros H. unfold bind. by rewrite H. Qed.

Lemma gets_Ok {A} (f : DCFunction -> A) s a s' :
  gets f s = Ok a s' -> a = f s /\ s' = s.
Proof. unfold gets. by intros [= <- <-]. Qed.

Lemma modify_Ok f s u s' : modify f s = Ok u s' -> s' = f s.
Proof. unfold modify. by intros [= <-]. Qed.

Lemma ret_Ok {A} (a : A) s b s' : ret a s = Ok b s' -> b = a /\ s' = s.
Proof. unfold ret. by intros [= <- <-]. Qed.

(** Take a successful run of a sequence apart, one [bind] at a time. *)
Ltac inv_run H :=
  repeat match type of H with
    | bind _ _ _ = Ok _ _ =>
        let a := fresh "a" in let s := fresh "s" in
        let H1 := fresh "Hrun" in
        apply bind_Ok in H as (a & s & H1 & H)
    | ret _ _ = Ok _ _ => apply ret_Ok in H as [? ?]; subst
    end.

(** ** translateInst: what is left behind, and the result *)

(** C10. Whenever [translateInst] returns, whether [tryTranslateInst]
    succeeded, failed, or failed and was turned into trap and unreachable by
    TranslateUnknownToUndef, the value stack is empty and the current
    instruction pointer is null. *)
Theorem translateInst_clears_scratch
    (tgt : Target) (tbl : Tables) (opts : Options) (hooks : Hooks)
    (fuel : nat) (d : MCDecodedInst) (s s' : DCFunction) (ok : bool) :
  translateInst tgt tbl opts hooks fuel d s = Ok ok s' ->
  Vals s' = [] /\ CurrentInst s' = None.
Proof.
  unfold translateInst. intros H.
  do 5 (apply bind_Ok in H as (? & ? & _ & H)).
  apply bind_Ok in H as (? & ? & Hv & H).
  apply bind_Ok in H as (? & ? & Hc & H).
  apply modify_Ok in Hv. apply modify_Ok in Hc.
  apply ret_Ok in H as [_ ->]. by subst.
Qed.

Lemma translateInst_clears_scratch_witness :
  translateInst Sample.target Sample.tables (Sample.options false true)
    Sample.hooks 8 Sample.badSemaInst (Sample.opened false)
  = Ok true
      (Sample.stateOf
         (translateInst Sample.target Sample.tables (Sample.options false true)
            Sample.hooks 8 Sample.badSemaInst (Sample.opened false)))
  /\ (Vals (Sample.stateOf
         (translateInst Sample.target Sample.tables (Sample.options false true)
            Sample.hooks 8 Sample.badSemaInst (Sample.opened false))) = []
      /\ CurrentInst (Sample.stateOf
         (translateInst Sample.target Sample.tables (Sample.options false true)
            Sample.hooks 8 Sample.badSemaInst (Sample.opened false))) = None).
Proof.
  split; [vm_compute; reflexivity|].
  apply (translateInst_clears_scratch Sample.target Sample.tables
           (Sample.options false true) Sample.hooks 8 Sample.badSemaInst
           (Sample.opened false) _ true).
  vm_compute; reflexivity.
Defined.

(** ** Opcode numbering *)

Lemma find_distinct {A} (f : A -> N) (l : list A) (o : A) :
  distinctN (map f l) = true -> In o l ->
  find (fun x => f x =? f o) l = Some o.
Proof.
  induction l as [|x r IH]; [done|].
  cbn [map distinctN find]. intros [Hx Hr]%andb_true_iff [->|Hin].
  - by rewrite N.eqb_refl.
  - destruct (f x =? f o) eqn:E; [|by apply IH].
    apply N.eqb_eq in E. apply negb_true_iff in Hx.
    assert (existsb (N.eqb (f x)) (map f r) = true) as Hex; [|congruence].
    apply existsb_exists. exists (f o). split; [by apply in_map|].
    by apply N.eqb_eq.
Qed.

Lemma In_allSemaOps (o : SemaOp) : In o allSemaOps.
Proof. destruct o; cbn; tauto. Qed.

Lemma In_allPredicates (p : Predicate) : In p allPredicates.
Proof. destruct p; cbn; tauto. Qed.

Lemma wellNumbered_parts tgt :
  wellNumbered tgt = true ->
  distinctN (map (opcodeOf tgt) allSemaOps) = true
  /\ forallb (fun o => opcodeOf tgt o <? BUILTIN_OP_END tgt) isdOps = true
  /\ forallb (fun o => DC_OPCODE_START tgt <=? opcodeOf tgt o) dcinsOps = true
  /\ (BUILTIN_OP_END tgt <=? DC_OPCODE_START tgt) = true
  /\ distinctN (map (predicateOf tgt) allPredicates) = true.
Proof.
  unfold wellNumbered. rewrite !andb_true_iff. tauto.
Qed.

Lemma decodeOpcode_opcodeOf tgt o :
  wellNumbered tgt = true -> decodeOpcode tgt (opcodeOf tgt o) = Some o.
Proof.
  intros (Hd & _)%wellNumbered_parts. unfold decodeOpcode.
  apply find_distinct; [done | apply In_allSemaOps].
Qed.

Lemma decodePredicate_predicateOf tgt p :
  wellNumbered tgt = true -> decodePredicate tgt (predicateOf tgt p) = Some p.
Proof.
  intros (_ & _ & _ & _ & Hd)%wellNumbered_parts. unfold decodePredicate.
  apply find_distinct; [done | apply In_allPredicates].
Qed.

(** No opcode [translateOpcode] has a case for lies in the target range. *)
Lemma opcodeOf_not_target tgt o :
  wellNumbered tgt = true ->
  (BUILTIN_OP_END tgt <=? opcodeOf tgt o) && (opcodeOf tgt o <? DC_OPCODE_START tgt)
  = false.
Proof.
  intros (_ & Hi & Hd & _)%wellNumbered_parts.
  rewrite forallb_forall in Hi. rewrite forallb_forall in Hd.
  destruct (in_app_or _ _ _ (In_allSemaOps o)) as [Hin|Hin].
  - apply Hi, N.ltb_lt in Hin. apply andb_false_iff. left. apply N.leb_gt. lia.
  - apply Hd, N.leb_le in Hin. apply andb_false_iff. right. apply N.ltb_ge. lia.
Qed.

(** ** Reading the tape *)

Lemma Next_run tbl s tok :
  SemanticsArray tbl !! N.to_nat (Idx s) = Some tok ->
  Next tbl s = Ok tok (with_Idx (nextIdx (Idx s)) s).
Proof.
  intros H. unfold Next, bind, gets, fromOption, modify, ret. by rewrite H.
Qed.

Lemma Next_Ok tbl s tok s' :
  Next tbl s = Ok tok s' ->
  SemanticsArray tbl !! N.to_nat (Idx s) = Some tok
  /\ s' = with_Idx (nextIdx (Idx s)) s.
Proof.
  unfold Next, bind, gets, fromOption, modify, ret.
  destruct (SemanticsArray tbl !! N.to_nat (Idx s)); [|done].
  by intros [= <- <-].
Qed.

(** An opcode outside the target range that has no case: the [default]. *)
Lemma translateOpcode_default tgt tbl hooks op s vt :
  SemanticsArray tbl !! N.to_nat (Idx s) = Some vt ->
  (BUILTIN_OP_END tgt <=? op) && (op <? DC_OPCODE_START tgt) = false ->
  decodeOpcode tgt op = None ->
  translateOpcode tgt tbl hooks op s
  = Ok false (with_ResEVT vt (with_Idx (nextIdx (Idx s)) s)).
Proof.
  intros Hvt Hr Hd. unfold translateOpcode, NextVT.
  rewrite (bind_run _ _ _ _ _ (Next_run _ _ _ Hvt)).
  unfold bind at 1, modify at 1. rewrite Hr, Hd. reflexivity.
Qed.

Lemma translateSemantics_fails tgt tbl hooks fuel s op s1 s' :
  Next tbl s = Ok op s1 ->
  op <> opcodeOf tgt END_OF_INSTRUCTION ->
  translateOpcode tgt tbl hooks op (with_Opcode op s1) = Ok false s' ->
  translateSemantics tgt tbl hooks (S fuel) s = Ok false s'.
Proof.
  intros HN Hne Hop. cbn [translateSemantics].
  rewrite (bind_run _ _ _ _ _ HN). unfold bind at 1, modify at 1.
  apply N.eqb_neq in Hne. rewrite Hne.
  by rewrite (bind_run _ _ _ _ _ Hop).
Qed.

(** ** Appending to a block *)

Lemma number_app n l1 l2 :
  number n (l1 ++ l2) = number n l1 ++ number (length l1 + n) l2.
Proof.
  revert n. induction l1 as [|i r IH]; intros n; [done|].
  cbn. rewrite IH. do 3 f_equal. lia.
Qed.

Lemma insertAtEnd_appendOps tgt bb i s t :
  resultTy tgt i = Some t ->
  is_Some (Blocks s !! bb) ->
  insertAtEnd tgt bb i s = Ok (InstRes (NextId s) t) (appendOps bb [i] s).
Proof.
  intros Ht [b Hb]. unfold insertAtEnd, appendOps. by rewrite Ht, Hb.
Qed.

Lemma emit_appendOps tgt i s t :
  resultTy tgt i = Some t ->
  is_Some (Blocks s !! InsertBB s) ->
  emit tgt i s = Ok (InstRes (NextId s) t) (appendOps (InsertBB s) [i] s).
Proof.
  intros Ht Hb. unfold emit, bind, gets. by apply insertAtEnd_appendOps.
Qed.

Lemma appendOps_Idx bb ops s : Idx (appendOps bb ops s) = Idx s.
Proof. unfold appendOps. by destruct (Blocks s !! bb). Qed.
Lemma appendOps_ResEVT bb ops s : ResEVT (appendOps bb ops s) = ResEVT s.
Proof. unfold appendOps. by destruct (Blocks s !! bb). Qed.
Lemma appendOps_Opcode bb ops s : Opcode (appendOps bb ops s) = Opcode s.
Proof. unfold appendOps. by destruct (Blocks s !! bb). Qed.
Lemma appendOps_Vals bb ops s : Vals (appendOps bb ops s) = Vals s.
Proof. unfold appendOps. by destruct (Blocks s !! bb). Qed.
Lemma appendOps_CurrentInst bb ops s : CurrentInst (appendOps bb ops s) = CurrentInst s.
Proof. unfold appendOps. by destruct (Blocks s !! bb). Qed.
Lemma appendOps_TheBB bb ops s : TheBB (appendOps bb ops s) = TheBB s.
Proof. unfold appendOps. by destruct (Blocks s !! bb). Qed.
Lemma appendOps_TheMCBB bb ops s : TheMCBB (appendOps bb ops s) = TheMCBB s.
Proof. unfold appendOps. by destruct (Blocks s !! bb). Qed.
Lemma appendOps_ExitBB bb ops s : ExitBB (appendOps bb ops s) = ExitBB s.
Proof. unfold appendOps. by destruct (Blocks s !! bb). Qed.
Lemma appendOps_CallBBs bb ops s : CallBBs (appendOps bb ops s) = CallBBs s.
Proof. unfold appendOps. by destruct (Blocks s !! bb). Qed.
Lemma appendOps_BBByAddr bb ops s : BBByAddr (appendOps bb ops s) = BBByAddr s.
Proof. unfold appendOps. by destruct (Blocks s !! bb). Qed.
Lemma appendOps_InsertBB bb ops s : InsertBB (appendOps bb ops s) = InsertBB s.
Proof. unfold appendOps. by destruct (Blocks s !! bb). Qed.
Lemma appendOps_DRSLog bb ops s : DRSLog (appendOps bb ops s) = DRSLog s.
Proof. unfold appendOps. by destruct (Blocks s !! bb). Qed.

Create Rewrite HintDb dcf.
#[export] Hint Rewrite appendOps_Idx appendOps_ResEVT appendOps_Opcode appendOps_Vals appendOps_CurrentInst appendOps_TheBB appendOps_TheMCBB appendOps_ExitBB appendOps_CallBBs appendOps_BBByAddr appendOps_InsertBB appendOps_DRSLog : dcf.

Lemma appendOps_lookup bb ops s b :
  Blocks s !! bb = Some b ->
  Blocks (appendOps bb ops s) !! bb
  = Some (mkBB (bbName b) (bbInsts b ++ number (NextId s) ops)).
Proof.
  intros Hb. unfold appendOps. rewrite Hb. cbn.
  apply list_lookup_insert_eq. by eapply lookup_lt_Some.
Qed.

Lemma appendOps_is_Some bb bb' ops s :
  is_Some (Blocks s !! bb') -> is_Some (Blocks (appendOps bb ops s) !! bb').
Proof.
  intros Hb'. unfold appendOps. destruct (Blocks s !! bb) eqn:Hb; [|done]. cbn.
  apply lookup_lt_is_Some. rewrite length_insert. by apply lookup_lt_is_Some.
Qed.

Lemma appendOps_app bb l1 l2 s :
  appendOps bb l2 (appendOps bb l1 s) = appendOps bb (l1 ++ l2) s.
Proof.
  unfold appendOps at 2 3. destruct (Blocks s !! bb) as [b|] eqn:Hb.
  - unfold appendOps. cbn [Blocks with_Blocks with_NextId NextId].
    rewrite list_lookup_insert_eq by (by eapply lookup_lt_Some).
    cbn [bbName bbInsts]. rewrite list_insert_insert_eq.
    rewrite number_app, length_app, <- app_assoc.
    unfold with_NextId, with_Blocks. cbn. f_equal. lia.
  - unfold appendOps. by rewrite Hb.
Qed.

(** ** translateInst, given the result of tryTranslateInst *)

Lemma translateInst_of_try tgt tbl opts hooks fuel d s s0 ok s1 :
  translateInst_entry tgt opts d s = Ok tt s0 ->
  tryTranslateInst tgt tbl hooks fuel s0 = Ok ok s1 ->
  translateInst tgt tbl opts hooks fuel d s
  = if negb ok && TranslateUnknownToUndef opts
    then match emitTrapUnreachable tgt s1 with
         | Ok _ s2 => Ok true (translateInst_exit s2)
         | Abort => Abort
         | Timeout => Timeout
         end
    else Ok ok (translateInst_exit s1).
Proof.
  unfold translateInst_entry, translateInst. intros He Ht.
  apply bind_Ok in He as (? & sa & Ha & He).
  apply bind_Ok in He as (? & sb & Hb & He).
  rewrite (bind_run _ _ _ _ _ Ha), (bind_run _ _ _ _ _ Hb).
  unfold bind at 1. rewrite He.
  rewrite (bind_run _ _ _ _ _ Ht).
  destruct (negb ok && TranslateUnknownToUndef opts).
  - unfold bind at 1. unfold bind at 1.
    destruct (emitTrapUnreachable tgt s1); reflexivity.
  - reflexivity.
Qed.

Lemma emitTrapUnreachable_run tgt s :
  is_Some (Blocks s !! InsertBB s) ->
  emitTrapUnreachable tgt s
  = Ok tt (appendOps (InsertBB s) [ICall (IntrinsicDecl trap) []; IUnreachable] s).
Proof.
  intros Hb. unfold emitTrapUnreachable.
  erewrite bind_run by (apply emit_appendOps; [reflexivity | exact Hb]).
  erewrite bind_run
    by (apply emit_appendOps;
        [reflexivity | rewrite appendOps_InsertBB; by apply appendOps_is_Some]).
  unfold ret. rewrite appendOps_InsertBB. f_equal. apply (appendOps_app _ [_] [_]).
Qed.

(** ** Taking successful primitive runs apart *)

Lemma insertAtEnd_Ok tgt bb i s v s' :
  insertAtEnd tgt bb i s = Ok v s' ->
  exists t, resultTy tgt i = Some t /\ is_Some (Blocks s !! bb)
            /\ v = InstRes (NextId s) t /\ s' = appendOps bb [i] s.
Proof.
  unfold insertAtEnd, appendOps.
  destruct (resultTy tgt i) as [t|]; [|done].
  destruct (Blocks s !! bb) as [b|]; [|done].
  intros [= <- <-]. exists t. eauto.
Qed.

Lemma emit_Ok tgt i s v s' :
  emit tgt i s = Ok v s' ->
  exists t, resultTy tgt i = Some t /\ is_Some (Blocks s !! InsertBB s)
            /\ v = InstRes (NextId s) t /\ s' = appendOps (InsertBB s) [i] s.
Proof. unfold emit, bind, gets. apply insertAtEnd_Ok. Qed.

Lemma fromOption_Ok {A} (o : option A) s a s' :
  fromOption o s = Ok a s' -> o = Some a /\ s' = s.
Proof. destruct o; [|done]. by intros [= <- <-]. Qed.

Lemma assert_Ok b s u s' : assert b s = Ok u s' -> b = true /\ s' = s.
Proof. destruct b; [|done]. by intros [= <-]. Qed.

Lemma ConstantInt_get_Ok t v s c s' :
  ConstantInt_get t v s = Ok c s' ->
  exists w, getScalarType t = IntegerTy w
            /\ c = ConstantInt t (v mod 2 ^ w) /\ s' = s.
Proof.
  unfold ConstantInt_get. destruct (getScalarType t); try done.
  intros [= <- <-]. eauto.
Qed.

(** ** Relations every step of the interpreter respects *)

Section Respects.

Context (tgt : Target) (tbl : Tables) (opts : Options) (hooks : Hooks).
Variable R : DCFunction -> DCFunction -> Prop.
Hypothesis R_refl : forall s, R s s.
Hypothesis R_trans : forall s1 s2 s3, R s1 s2 -> R s2 s3 -> R s1 s3.
Hypothesis R_scratch : forall s s', sameIR s s' -> R s s'.
Hypothesis R_emit :
  forall i, isDiffCall i = false -> isReturn i = false -> respects R (emit tgt i).
Hypothesis R_getOrCreate : forall a, respects R (getOrCreateBasicBlock tgt a).
Hypothesis R_insertCallBB :
  forall v, v <> RegSetDiffFunction -> respects R (insertCallBB tgt v).
Hypothesis R_targetInst : respects R (translateTargetInst hooks).
Hypothesis R_targetOpcode : forall o, respects R (translateTargetOpcode hooks o).
Hypothesis R_complexPattern : forall p, respects R (translateComplexPattern hooks p).
Hypothesis R_customOperand : forall t n, respects R (translateCustomOperand hooks t n).
Hypothesis R_implicit : forall r, respects R (translateImplicit hooks r).

Lemma respects_ret {A} (a : A) : respects R (ret a).
Proof using R_refl. intros s b s' [_ ->]%ret_Ok. apply R_refl. Qed.

Lemma respects_bind {A B} (m : M A) (f : A -> M B) :
  respects R m -> (forall a, respects R (f a)) -> respects R (bind m f).
Proof using R_trans.
  intros Hm Hf s b s' (a & s1 & H1 & H2)%bind_Ok.
  eapply R_trans; [by eapply Hm | by eapply Hf].
Qed.

Lemma respects_abort {A} : respects R (@abort A).
Proof. by intros s a s'. Qed.

Lemma respects_timeout {A} : respects R (@timeout A).
Proof. by intros s a s'. Qed.

Lemma respects_gets {A} (f : DCFunction -> A) : respects R (gets f).
Proof using R_refl. intros s a s' [_ ->]%gets_Ok. apply R_refl. Qed.

Lemma respects_assert b : respects R (assert b).
Proof using R_refl. intros s a s' [_ ->]%assert_Ok. apply R_refl. Qed.

Lemma respects_fromOption {A} (o : option A) : respects R (fromOption o).
Proof using R_refl. intros s a s' [_ ->]%fromOption_Ok. apply R_refl. Qed.

Lemma respects_modify f :
  (forall s, sameIR s (f s)) -> respects R (modify f).
Proof using R_scratch. intros Hf s a s' ->%modify_Ok. apply R_scratch, Hf. Qed.

Lemma respects_ext {A} (m m' : M A) :
  (forall s, m s = m' s) -> respects R m' -> respects R m.
Proof. intros He Hm s a s' H. rewrite He in H. by eapply Hm. Qed.

(** Walk down a monadic term, splitting at every [bind] and branch. *)
Ltac respects_step :=
  match goal with
  | |- respects _ (bind _ _) => apply respects_bind; [|intros ?]
  | |- respects _ (ret _) => apply respects_ret
  | |- respects _ abort => apply respects_abort
  | |- respects _ timeout => apply respects_timeout
  | |- respects _ (gets _) => apply respects_gets
  | |- respects _ (assert _) => apply respects_assert
  | |- respects _ (fromOption _) => apply respects_fromOption
  | |- respects _ (modify _) =>
      apply respects_modify; intros ?; unfold sameIR; cbn; tauto
  | |- respects _ (emit _ _) => apply R_emit; reflexivity
  | |- respects _ (match ?x with _ => _ end) => destruct x
  | |- respects _ (let _ := _ in _) => cbv zeta
  end.

Ltac respects_auto := repeat respects_step; eauto.

Lemma respects_Next : respects R (Next tbl).
Proof using R_refl R_trans R_scratch. unfold Next. respects_auto. Qed.

Lemma respects_NextVT : respects R (NextVT tbl).
Proof using R_refl R_trans R_scratch. apply respects_Next. Qed.

Lemma respects_registerResult v : respects R (registerResult v).
Proof using R_scratch. unfold registerResult. respects_auto. Qed.

Lemma respects_getNextOperand : respects R getNextOperand.
Proof using R_refl R_trans R_scratch. unfold getNextOperand. respects_auto. Qed.

Lemma respects_getReg r : respects R (getReg tgt r).
Proof using R_emit. unfold getReg. respects_auto. Qed.

Lemma respects_setReg r v : respects R (setReg tgt r v).
Proof using R_refl R_trans R_emit. unfold setReg. respects_auto. Qed.

Lemma respects_getRegAsInt r : respects R (getRegAsInt tgt r).
Proof using R_emit. unfold getRegAsInt. respects_auto. Qed.

Lemma respects_insertBitsInValue a b : respects R (insertBitsInValue tgt a b).
Proof using R_emit. unfold insertBitsInValue. respects_auto. Qed.

Lemma respects_notifyDRS e : respects R (notifyDRS e).
Proof using R_scratch. unfold notifyDRS. respects_auto. Qed.

Lemma respects_currentInst : respects R currentInst.
Proof using R_refl R_trans. unfold currentInst. respects_auto. Qed.

Lemma respects_getRegOp n : respects R (getRegOp n).
Proof using R_refl R_trans.
  unfold getRegOp. respects_auto. apply respects_currentInst.
Qed.

Lemma respects_getImmOp n : respects R (getImmOp n).
Proof using R_refl R_trans.
  unfold getImmOp. respects_auto. apply respects_currentInst.
Qed.

Lemma respects_ConstantInt_get t v : respects R (ConstantInt_get t v).
Proof using R_refl. unfold ConstantInt_get. respects_auto. Qed.

Lemma respects_getZExtValue n : respects R (getZExtValue n).
Proof using R_refl R_trans. unfold getZExtValue. respects_auto. Qed.

Lemma respects_CreateCast o v t : respects R (CreateCast tgt o v t).
Proof using R_refl R_emit.
  apply (respects_ext _
           (if Ty_eqb (typeOf v) t then ret v else emit tgt (ICast o v t))).
  - intros s. unfold CreateCast, CreateCastIn, emit, bind, gets.
    by destruct (Ty_eqb (typeOf v) t).
  - respects_auto.
Qed.

Lemma respects_CreateBinOp o l r : respects R (CreateBinOp tgt o l r).
Proof using R_emit. unfold CreateBinOp. respects_auto. Qed.

Lemma respects_CreateBr d : respects R (CreateBr tgt d).
Proof using R_refl R_trans R_emit. unfold CreateBr. respects_auto. Qed.

Lemma respects_resType : respects R (resType tgt).
Proof using R_refl R_trans. unfold resType. respects_auto. Qed.

Lemma respects_integerBitsOfEVT e : respects R (integerBitsOfEVT tgt e).
Proof using R_refl. unfold integerBitsOfEVT. respects_auto. Qed.

Hint Resolve respects_Next respects_NextVT respects_registerResult
  respects_getNextOperand respects_getReg respects_setReg
  respects_getRegAsInt respects_insertBitsInValue respects_notifyDRS
  respects_currentInst respects_getRegOp respects_getImmOp
  respects_ConstantInt_get respects_getZExtValue respects_CreateCast
  respects_CreateBinOp respects_CreateBr respects_resType
  respects_integerBitsOfEVT : core.

Lemma respects_CreateBitOrPointerCast v t :
  respects R (CreateBitOrPointerCast tgt v t).
Proof using R_refl R_emit.
  unfold CreateBitOrPointerCast, CreatePtrToInt, CreateIntToPtr, CreateBitCast.
  respects_auto.
Qed.

Lemma respects_coercePtr p t : respects R (coercePtr tgt p t).
Proof using R_refl R_emit.
  unfold coercePtr, CreateIntToPtr, CreateBitCast. respects_auto.
Qed.

Hint Resolve respects_CreateBitOrPointerCast respects_coercePtr : core.

Lemma respects_translateBinOp o : respects R (translateBinOp tgt o).
Proof using R_refl R_trans R_scratch R_emit.
  unfold translateBinOp, CreateZExt. respects_auto.
Qed.

Lemma respects_translateCastOp o : respects R (translateCastOp tgt o).
Proof using R_refl R_trans R_scratch R_emit.
  unfold translateCastOp. respects_auto.
Qed.

Lemma respects_translateLoad : respects R (translateLoad tgt).
Proof using R_refl R_trans R_scratch R_emit.
  unfold translateLoad. respects_auto.
Qed.

Lemma respects_translateStore : respects R (translateStore tgt).
Proof using R_refl R_trans R_scratch R_emit.
  unfold translateStore. respects_auto.
Qed.

Lemma respects_translateExtLoad t b : respects R (translateExtLoad tgt t b).
Proof using R_refl R_trans R_scratch R_emit.
  unfold translateExtLoad, CreateSExt, CreateZExt. respects_auto.
Qed.

Hint Resolve respects_translateBinOp respects_translateCastOp
  respects_translateLoad respects_translateStore
  respects_translateExtLoad : core.

Lemma respects_translatePredicate p : respects R (translatePredicate tgt p).
Proof using R_refl R_trans R_scratch R_emit.
  unfold translatePredicate. respects_auto.
Qed.

Lemma respects_translateMulLoHi e : respects R (translateMulLoHi tgt tbl e).
Proof using R_refl R_trans R_scratch R_emit.
  unfold translateMulLoHi, CreateTrunc. respects_auto.
Qed.

Lemma respects_insertTranslateAt v : respects R (insertTranslateAt tgt v).
Proof using R_refl R_trans R_emit.
  unfold insertTranslateAt, CreateIntToPtr, CreateBitCast. respects_auto.
Qed.

Lemma respects_bind_post {A B} (m : M A) (f : A -> M B) (Q : A -> Prop) :
  respects R m ->
  (forall s a s', m s = Ok a s' -> Q a) ->
  (forall a, Q a -> respects R (f a)) ->
  respects R (bind m f).
Proof using R_trans.
  intros Hm HQ Hf s b s' (a & s1 & H1 & H2)%bind_Ok.
  eapply R_trans; [by eapply Hm | eapply Hf; [by eapply HQ | done]].
Qed.

Lemma CreateCast_result o v t s r s' :
  CreateCast tgt o v t s = Ok r s' -> r = v \/ exists id, r = InstRes id t.
Proof.
  unfold CreateCast, CreateCastIn, bind, gets.
  destruct (Ty_eqb (typeOf v) t).
  - intros [-> _]%ret_Ok. by left.
  - intros (t' & Ht & _ & -> & _)%insertAtEnd_Ok. right.
    cbn in Ht. injection Ht as <-. eauto.
Qed.

Lemma insertTranslateAt_result v s r s' :
  insertTranslateAt tgt v s = Ok r s' -> r <> RegSetDiffFunction.
Proof.
  unfold insertTranslateAt. intros H. inv_run H.
  apply emit_Ok in Hrun0 as (t & _ & _ & -> & _).
  apply CreateCast_result in H as [->|[id ->]]; done.
Qed.

Lemma respects_insertCall v : respects R (insertCall tgt v).
Proof using R_refl R_trans R_emit R_insertCallBB.
  unfold insertCall.
  apply (respects_bind_post _ _ (fun r => r <> RegSetDiffFunction)).
  - destruct (asConstantInt v); [respects_auto|apply respects_insertTranslateAt].
  - intros s a s'. destruct (asConstantInt v).
    + intros H. inv_run H. done.
    + apply insertTranslateAt_result.
  - intros a Ha. respects_auto.
Qed.

Hint Resolve respects_translatePredicate respects_translateMulLoHi
  respects_insertCall : core.

Lemma respects_translateOpcode op : respects R (translateOpcode tgt tbl hooks op).
Proof using R_refl R_trans R_scratch R_emit R_getOrCreate R_insertCallBB R_targetInst R_targetOpcode R_complexPattern R_customOperand R_implicit.
  unfold translateOpcode.
  apply respects_bind; [apply respects_NextVT|intros vt].
  apply respects_bind; [respects_step|intros _].
  destruct (_ && _); [apply R_targetOpcode|].
  destruct (decodeOpcode tgt op) as [[]|];
    unfold CreateZExt, CreateTrunc, CreatePtrToInt, CreateBitCast;
    respects_auto.
Qed.

Lemma respects_translateSemantics fuel :
  respects R (translateSemantics tgt tbl hooks fuel).
Proof using R_refl R_trans R_scratch R_emit R_getOrCreate R_insertCallBB R_targetInst R_targetOpcode R_complexPattern R_customOperand R_implicit.
  induction fuel as [|fuel IH]; cbn [translateSemantics].
  - apply respects_timeout.
  - respects_auto. apply respects_translateOpcode.
Qed.

Lemma respects_incrementPC : respects R (incrementPC tgt).
Proof using R_refl R_trans R_emit. unfold incrementPC. respects_auto. Qed.

Lemma respects_tryTranslateInst fuel :
  respects R (tryTranslateInst tgt tbl hooks fuel).
Proof using R_refl R_trans R_scratch R_emit R_getOrCreate R_insertCallBB R_targetInst R_targetOpcode R_complexPattern R_customOperand R_implicit.
  unfold tryTranslateInst. respects_auto.
  - apply respects_incrementPC.
  - apply respects_translateSemantics.
Qed.

Lemma respects_translateInst fuel d :
  respects R (translateInst tgt tbl opts hooks fuel d).
Proof using R_refl R_trans R_scratch R_emit R_getOrCreate R_insertCallBB R_targetInst R_targetOpcode R_complexPattern R_customOperand R_implicit.
  unfold translateInst, emitTrapUnreachable. respects_auto.
  apply respects_tryTranslateInst.
Qed.

End Respects.

Lemma hooksRespect_sample R :
  (forall s, R s s) -> hooksRespect R Sample.hooks.
Proof.
  intros Hrefl. unfold hooksRespect, Sample.hooks. cbn.
  repeat split; intros; intros s a s' [_ ->]%ret_Ok; apply Hrefl.
Qed.

(** ** Blocks only grow while an instruction is translated *)

Lemma blocksExtend_refl s : blocksExtend s s.
Proof. intros bb b Hb. by exists b. Qed.

Lemma blocksExtend_trans s1 s2 s3 :
  blocksExtend s1 s2 -> blocksExtend s2 s3 -> blocksExtend s1 s3.
Proof.
  intros H12 H23 bb b Hb.
  destruct (H12 bb b Hb) as (b2 & Hb2 & Hn2 & Hp2).
  destruct (H23 bb b2 Hb2) as (b3 & Hb3 & Hn3 & Hp3).
  exists b3. split; [done|]. split; [congruence|]. by etrans.
Qed.

Lemma blocksExtend_sameBlocks s s' :
  Blocks s' = Blocks s -> blocksExtend s s'.
Proof. intros He bb b Hb. exists b. by rewrite He. Qed.

Lemma blocksExtend_appendOps bb ops s : blocksExtend s (appendOps bb ops s).
Proof.
  intros bb0 b0 Hb0. unfold appendOps.
  destruct (Blocks s !! bb) as [b|] eqn:Hb; [|by exists b0]. cbn.
  destruct (decide (bb = bb0)) as [->|Hne].
  - rewrite list_lookup_insert_eq by (by eapply lookup_lt_Some).
    eexists. split; [done|]. cbn. split; [congruence|].
    replace b0 with b by congruence. by apply prefix_app_r.
  - rewrite list_lookup_insert_ne by done. by exists b0.
Qed.

Lemma blocksExtend_insertAtEnd tgt bb i :
  respects blocksExtend (insertAtEnd tgt bb i).
Proof.
  intros s v s' (t & _ & _ & _ & ->)%insertAtEnd_Ok.
  apply blocksExtend_appendOps.
Qed.

Lemma blocksExtend_emit tgt i : respects blocksExtend (emit tgt i).
Proof.
  intros s v s' (t & _ & _ & _ & ->)%emit_Ok. apply blocksExtend_appendOps.
Qed.

Lemma blocksExtend_createBasicBlock name :
  respects blocksExtend (createBasicBlock name).
Proof.
  intros s v s' H. unfold createBasicBlock in H. injection H as <- <-.
  intros bb b Hb. exists b. cbn.
  by rewrite lookup_app_l by (by eapply lookup_lt_Some).
Qed.

Lemma blocksExtend_modify f :
  (forall s, Blocks (f s) = Blocks s) -> respects blocksExtend (modify f).
Proof. intros Hf s a s' ->%modify_Ok. by apply blocksExtend_sameBlocks. Qed.

Lemma blocksExtend_getOrCreateBasicBlock tgt a :
  respects blocksExtend (getOrCreateBasicBlock tgt a).
Proof.
  intros s bb s' H.
  destruct (BBByAddr s !! a) as [bb0|] eqn:Hl.
  - rewrite (getOrCreateBasicBlock_known _ _ _ _ Hl) in H.
    injection H as <- <-. apply blocksExtend_refl.
  - rewrite (getOrCreateBasicBlock_fresh _ _ _ Hl) in H.
    injection H as <- <-. intros bb b Hb. exists b. cbn.
    by rewrite lookup_app_l by (by eapply lookup_lt_Some).
Qed.

Lemma blocksExtend_insertCallBB tgt v :
  respects blocksExtend (insertCallBB tgt v).
Proof.
  unfold insertCallBB, theBB, getBlock, CreateBr, notifyDRS, SetInsertPoint.
  repeat first
    [ apply respects_bind; [apply blocksExtend_trans | | intros ?]
    | apply respects_ret; apply blocksExtend_refl
    | apply respects_gets; apply blocksExtend_refl
    | apply respects_fromOption; apply blocksExtend_refl
    | apply respects_assert; apply blocksExtend_refl
    | apply blocksExtend_createBasicBlock
    | apply blocksExtend_insertAtEnd
    | apply blocksExtend_emit
    | apply blocksExtend_modify; intros ?; reflexivity
    | cbv zeta ].
Qed.

(** [translateInst] only ever appends, provided the target's methods do. *)
Lemma blocksExtend_translateInst tgt tbl opts hooks fuel d :
  hooksRespect blocksExtend hooks ->
  respects blocksExtend (translateInst tgt tbl opts hooks fuel d).
Proof.
  intros (H1 & H2 & H3 & H4 & H5).
  apply respects_translateInst;
    eauto using blocksExtend_refl, blocksExtend_trans, blocksExtend_emit,
      blocksExtend_getOrCreateBasicBlock, blocksExtend_insertCallBB.
  intros s s' (_ & _ & _ & _ & Hb & _). by apply blocksExtend_sameBlocks.
Qed.

Lemma blocksExtend_translateSemantics tgt tbl hooks fuel :
  hooksRespect blocksExtend hooks ->
  respects blocksExtend (translateSemantics tgt tbl hooks fuel).
Proof.
  intros (H1 & H2 & H3 & H4 & H5).
  apply respects_translateSemantics;
    eauto using blocksExtend_refl, blocksExtend_trans, blocksExtend_emit,
      blocksExtend_getOrCreateBasicBlock, blocksExtend_insertCallBB.
  intros s s' (_ & _ & _ & _ & Hb & _). by apply blocksExtend_sameBlocks.
Qed.

(** ** C1: the program counter is advanced first *)

Lemma appendOps_NextId bb ops s :
  is_Some (Blocks s !! bb) ->
  NextId (appendOps bb ops s) = (length ops + NextId s)%nat.
Proof. intros [b Hb]. unfold appendOps. by rewrite Hb. Qed.

Lemma incrementPC_Ok tgt s u s' :
  incrementPC tgt s = Ok u s' ->
  exists d w,
    CurrentInst s = Some d
    /\ getScalarType (getRegType tgt (getProgramCounter tgt)) = IntegerTy w
    /\ is_Some (Blocks s !! InsertBB s)
    /\ s' = appendOps (InsertBB s) (pcUpdate tgt (NextId s) w d) s.
Proof.
  unfold incrementPC, getReg, setReg, CreateBinOp, currentInst. intros H.
  apply bind_Ok in H as (OldPC & sa & H1 & H).
  apply bind_Ok in H as (ci & sb & H2 & H).
  apply bind_Ok in H2 as (oci & sb' & H2a & H2b).
  apply bind_Ok in H as (sz & sc & H3 & H).
  apply bind_Ok in H as (NewPC & sd & H4 & H).
  apply bind_Ok in H as (v & se & H5 & H).
  apply ret_Ok in H as [_ ->].
  apply emit_Ok in H1 as (t & Ht & Hb & -> & ->).
  cbn in Ht. injection Ht as <-.
  apply gets_Ok in H2a as [-> ->].
  apply fromOption_Ok in H2b as [Hci ->].
  apply ConstantInt_get_Ok in H3 as (w & Hw & -> & ->).
  apply emit_Ok in H4 as (t2 & Ht2 & Hb2 & -> & ->).
  cbn in Ht2. injection Ht2 as <-.
  apply emit_Ok in H5 as (t3 & Ht3 & Hb3 & -> & ->).
  autorewrite with dcf in *.
  exists ci, w. split; [done|]. split; [done|]. split; [done|].
  rewrite !appendOps_app. cbn [app].
  rewrite appendOps_NextId by done. reflexivity.
Qed.

(** C1. When the target's [translateTargetInst] declines (leaving the state
    [s1]) and [OpcodeToSemaIdx] has an index other than [~0U] for the
    instruction's opcode, a run of [tryTranslateInst] that returns has first
    appended, to the block at the insertion point, the read of the program
    counter, the addition of the instruction's size and the write-back, in
    this order; the interpreter loop then starts from that state, with the
    tape cursor still at the first semantic opcode of the instruction; and
    when the target's methods only append to blocks, those three instructions
    are still at the same place in the block when [tryTranslateInst]
    returns. *)
Theorem tryTranslateInst_increments_PC_first
    (tgt : Target) (tbl : Tables) (hooks : Hooks) (fuel : nat)
    (s s1 s' : DCFunction) (d : MCDecodedInst) (idx : N) (ok : bool) :
  translateTargetInst hooks s = Ok false s1 ->
  CurrentInst s1 = Some d ->
  OpcodeToSemaIdx tbl !! N.to_nat (InstOpcode d) = Some idx ->
  idx <> 4294967295 ->
  tryTranslateInst tgt tbl hooks fuel s = Ok ok s' ->
  exists w b,
    getScalarType (getRegType tgt (getProgramCounter tgt)) = IntegerTy w
    /\ Blocks s1 !! InsertBB s1 = Some b
    /\ let s2 := appendOps (InsertBB s1) (pcUpdate tgt (NextId s1) w d)
                   (with_Idx idx s1) in
       translateSemantics tgt tbl hooks fuel s2 = Ok ok s'
       /\ Idx s2 = idx
       /\ Blocks s2 !! InsertBB s1
          = Some (mkBB (bbName b)
                    (bbInsts b ++ number (NextId s1) (pcUpdate tgt (NextId s1) w d)))
       /\ (hooksRespect blocksExtend hooks ->
           exists b',
             Blocks s' !! InsertBB s1 = Some b'
             /\ (bbInsts b ++ number (NextId s1) (pcUpdate tgt (NextId s1) w d))
                  `prefix_of` bbInsts b').
Proof.
  intros Hhook Hci Hidx Hne Hrun.
  unfold tryTranslateInst in Hrun.
  rewrite (bind_run _ _ _ _ _ Hhook) in Hrun.
  unfold currentInst in Hrun.
  unfold bind at 1 2 in Hrun. unfold gets at 1 in Hrun.
  rewrite Hci in Hrun. cbn [fromOption ret] in Hrun.
  unfold bind at 1 in Hrun. rewrite Hidx in Hrun. cbn [fromOption ret] in Hrun.
  unfold bind at 1 in Hrun. unfold modify at 1 in Hrun.
  apply N.eqb_neq in Hne. rewrite Hne in Hrun.
  apply bind_Ok in Hrun as (u & s2 & Hpc & Hrun).
  apply incrementPC_Ok in Hpc as (d' & w & Hci' & Hw & [b Hb] & ->).
  cbn in Hci'. rewrite Hci in Hci'. injection Hci' as <-.
  cbn [InsertBB with_Idx NextId] in *. cbn [Blocks with_Idx] in Hb.
  exists w, b. split; [done|]. split; [done|]. cbn zeta.
  split; [done|]. split; [by rewrite appendOps_Idx|].
  assert (Blocks (appendOps (InsertBB s1) (pcUpdate tgt (NextId s1) w d)
                    (with_Idx idx s1)) !! InsertBB s1
          = Some (mkBB (bbName b)
                    (bbInsts b ++ number (NextId s1) (pcUpdate tgt (NextId s1) w d))))
    as Hlook by exact (appendOps_lookup (InsertBB s1) _ (with_Idx idx s1) b Hb).
  split; [done|].
  intros Hh.
  destruct (blocksExtend_translateSemantics tgt tbl hooks fuel Hh _ _ _ Hrun _ _ Hlook)
    as (b' & Hb' & _ & Hp).
  by exists b'.
Qed.

Lemma tryTranslateInst_increments_PC_first_witness :
  let s := Sample.stateOf
             (translateInst_entry Sample.target (Sample.options false false)
                Sample.addInst (Sample.opened false)) in
  let s' := Sample.stateOf
              (tryTranslateInst Sample.target Sample.tables Sample.hooks 8 s) in
  translateTargetInst Sample.hooks s = Ok false s
  /\ CurrentInst s = Some Sample.addInst
  /\ OpcodeToSemaIdx Sample.tables !! N.to_nat (InstOpcode Sample.addInst) = Some 0
  /\ 0 <> 4294967295
  /\ tryTranslateInst Sample.target Sample.tables Sample.hooks 8 s = Ok true s'
  /\ exists b',
      Blocks s' !! InsertBB s = Some b'
      /\ ([(4%nat, RSetReg 0 (ConstantInt (IntegerTy 64) 4096))]
            ++ number 5 (pcUpdate Sample.target 5 64 Sample.addInst))
           `prefix_of` bbInsts b'.
Proof.
  intros s s'.
  assert (translateTargetInst Sample.hooks s = Ok false s) as H1 by reflexivity.
  assert (CurrentInst s = Some Sample.addInst) as H2 by (vm_compute; reflexivity).
  assert (OpcodeToSemaIdx Sample.tables !! N.to_nat (InstOpcode Sample.addInst)
          = Some 0) as H3 by (vm_compute; reflexivity).
  assert (0 <> 4294967295) as H4 by lia.
  assert (tryTranslateInst Sample.target Sample.tables Sample.hooks 8 s
          = Ok true s') as H5 by (vm_compute; reflexivity).
  do 5 (split; [assumption|]).
  destruct (tryTranslateInst_increments_PC_first Sample.target Sample.tables
              Sample.hooks 8 s s s' Sample.addInst 0 true H1 H2 H3 H4 H5)
    as (w & b & Hw & Hb & _ & _ & _ & Hfinal).
  assert (w = 64) as -> by (vm_compute in Hw; congruence).
  assert (b = mkBB "bb_1000" [(4%nat, RSetReg 0 (ConstantInt (IntegerTy 64) 4096))])
    as -> by (vm_compute in Hb; congruence).
  apply Hfinal, hooksRespect_sample, blocksExtend_refl.
Defined.

(** ** C4: translateBinOp *)

Lemma getNextOperand_run s v rest :
  Vals s = v :: rest -> getNextOperand s = Ok v (with_Vals rest s).
Proof. intros H. unfold getNextOperand, bind, gets. by rewrite H. Qed.

Lemma CreateCast_run tgt o v t s :
  CreateCast tgt o v t s
  = if Ty_eqb (typeOf v) t then Ok v s else emit tgt (ICast o v t) s.
Proof.
  unfold CreateCast, CreateCastIn, emit, bind, gets.
  by destruct (Ty_eqb (typeOf v) t).
Qed.

Lemma Ty_eqb_eq a b : Ty_eqb a b = true <-> a = b.
Proof.
  revert b. induction a; intros []; cbn; try (split; (done || congruence)).
  - rewrite N.eqb_eq. split; congruence.
  - rewrite N.eqb_eq. split; congruence.
  - rewrite IHa. split; congruence.
  - rewrite andb_true_iff, N.eqb_eq, IHa. split; [intros [-> ->]; done|].
    intros [= -> ->]. done.
Qed.

Lemma Ty_eqb_refl a : Ty_eqb a a = true.
Proof. by apply Ty_eqb_eq. Qed.

(** C4. With [v1] on top of the value stack and [v2] below it,
    [translateBinOp] takes both off, appends the binary operation on [v1] and
    the right-hand operand at the insertion point, and puts its result on the
    stack: one value where there were two.  The right-hand operand is [v2],
    except for a shift ([Shl], [LShr], [AShr]) whose operands differ in type:
    then a zero-extension of [v2] to the type of [v1] is appended first and
    its result is the right-hand operand.  In particular this is so when both
    are integers and [v2] is the narrower; for the other opcodes nothing is
    appended but the operation itself. *)
Theorem translateBinOp_pops_two_pushes_one
    (tgt : Target) (Opc : BinaryOps) (s : DCFunction)
    (v1 v2 : Value) (rest : list Value) :
  Vals s = v1 :: v2 :: rest ->
  is_Some (Blocks s !! InsertBB s) ->
  let n := NextId s in
  let T := typeOf v1 in
  let extend := isShift Opc && negb (Ty_eqb (typeOf v2) T) in
  translateBinOp tgt Opc s
  = Ok tt
      (if extend
       then with_Vals (InstRes (S n) T :: rest)
              (appendOps (InsertBB s)
                 [ICast ZExt v2 T; IBinOp Opc v1 (InstRes n T)] s)
       else with_Vals (InstRes n T :: rest)
              (appendOps (InsertBB s) [IBinOp Opc v1 v2] s))
  /\ (isShift Opc = true ->
      forall w1 w2, T = IntegerTy w1 -> typeOf v2 = IntegerTy w2 -> w2 < w1 ->
      extend = true)
  /\ (isShift Opc = false -> extend = false).
Proof.
  intros Hv [b Hb] n T extend. split; [|split].
  - unfold translateBinOp.
    rewrite (bind_run _ _ _ _ _ (getNextOperand_run s v1 (v2 :: rest) Hv)).
    erewrite bind_run by (by apply getNextOperand_run).
    fold T. fold extend. unfold CreateZExt, CreateBinOp, registerResult.
    assert (extend = true -> Ty_eqb (typeOf v2) T = false) as Hext.
    { subst extend. destruct (isShift Opc), (Ty_eqb (typeOf v2) T); done. }
    clearbody extend. destruct extend.
    + rewrite bind_run with (a := InstRes n T)
        (s1 := appendOps (InsertBB s) [ICast ZExt v2 T] (with_Vals rest s)).
      2:{ rewrite CreateCast_run, Hext by done.
          apply (emit_appendOps tgt _ (with_Vals rest s)); [done | by exists b]. }
      erewrite bind_run.
      2:{ apply emit_appendOps; [done|].
          rewrite appendOps_InsertBB. apply appendOps_is_Some. by exists b. }
      unfold modify. f_equal.
      rewrite appendOps_InsertBB, appendOps_app, appendOps_Vals.
      rewrite appendOps_NextId by (by exists b).
      unfold appendOps. cbn [Blocks with_Vals InsertBB]. rewrite Hb. reflexivity.
    + rewrite bind_run with (a := v2) (s1 := with_Vals rest s) by done.
      erewrite bind_run
        by (apply (emit_appendOps tgt _ (with_Vals rest s)); [done | by exists b]).
      unfold modify. f_equal.
      rewrite appendOps_Vals.
      unfold appendOps. cbn [Blocks with_Vals InsertBB]. rewrite Hb. reflexivity.
  - intros Hs w1 w2 HT1 HT2 Hlt. subst extend. rewrite Hs, HT1, HT2. cbn.
    apply negb_true_iff, N.eqb_neq. lia.
  - intros Hs. subst extend. by rewrite Hs.
Qed.

Lemma translateBinOp_pops_two_pushes_one_witness :
  let s := with_Vals [ConstantInt (IntegerTy 64) 5; ConstantInt (IntegerTy 8) 3]
             (Sample.opened false) in
  Vals s = [ConstantInt (IntegerTy 64) 5; ConstantInt (IntegerTy 8) 3]
  /\ is_Some (Blocks s !! InsertBB s)
  /\ translateBinOp Sample.target Shl s
     = Ok tt
         (with_Vals [InstRes 6 (IntegerTy 64)]
            (appendOps (InsertBB s)
               [ICast ZExt (ConstantInt (IntegerTy 8) 3) (IntegerTy 64);
                IBinOp Shl (ConstantInt (IntegerTy 64) 5)
                  (InstRes 5 (IntegerTy 64))] s)).
Proof.
  intros s.
  assert (Vals s = [ConstantInt (IntegerTy 64) 5; ConstantInt (IntegerTy 8) 3])
    as H1 by reflexivity.
  assert (is_Some (Blocks s !! InsertBB s)) as H2 by (vm_compute; eauto).
  split; [exact H1|]. split; [exact H2|].
  exact (proj1 (translateBinOp_pops_two_pushes_one Sample.target Shl s _ _ _ H1 H2)).
Defined.

(** ** Normal forms of states *)

Lemma appendOps_with_Idx bb ops x s :
  appendOps bb ops (with_Idx x s) = with_Idx x (appendOps bb ops s).
Proof. unfold appendOps. cbn. by destruct (Blocks s !! bb). Qed.
Lemma appendOps_with_ResEVT bb ops x s :
  appendOps bb ops (with_ResEVT x s) = with_ResEVT x (appendOps bb ops s).
Proof. unfold appendOps. cbn. by destruct (Blocks s !! bb). Qed.
Lemma appendOps_with_Opcode bb ops x s :
  appendOps bb ops (with_Opcode x s) = with_Opcode x (appendOps bb ops s).
Proof. unfold appendOps. cbn. by destruct (Blocks s !! bb). Qed.
Lemma appendOps_with_Vals bb ops x s :
  appendOps bb ops (with_Vals x s) = with_Vals x (appendOps bb ops s).
Proof. unfold appendOps. cbn. by destruct (Blocks s !! bb). Qed.
Lemma appendOps_with_CurrentInst bb ops x s :
  appendOps bb ops (with_CurrentInst x s) = with_CurrentInst x (appendOps bb ops s).
Proof. unfold appendOps. cbn. by destruct (Blocks s !! bb). Qed.
Lemma appendOps_with_TheBB bb ops x s :
  appendOps bb ops (with_TheBB x s) = with_TheBB x (appendOps bb ops s).
Proof. unfold appendOps. cbn. by destruct (Blocks s !! bb). Qed.
Lemma appendOps_with_TheMCBB bb ops x s :
  appendOps bb ops (with_TheMCBB x s) = with_TheMCBB x (appendOps bb ops s).
Proof. unfold appendOps. cbn. by destruct (Blocks s !! bb). Qed.
Lemma appendOps_with_ExitBB bb ops x s :
  appendOps bb ops (with_ExitBB x s) = with_ExitBB x (appendOps bb ops s).
Proof. unfold appendOps. cbn. by destruct (Blocks s !! bb). Qed.
Lemma appendOps_with_CallBBs bb ops x s :
  appendOps bb ops (with_CallBBs x s) = with_CallBBs x (appendOps bb ops s).
Proof. unfold appendOps. cbn. by destruct (Blocks s !! bb). Qed.
Lemma appendOps_with_BBByAddr bb ops x s :
  appendOps bb ops (with_BBByAddr x s) = with_BBByAddr x (appendOps bb ops s).
Proof. unfold appendOps. cbn. by destruct (Blocks s !! bb). Qed.
Lemma appendOps_with_InsertBB bb ops x s :
  appendOps bb ops (with_InsertBB x s) = with_InsertBB x (appendOps bb ops s).
Proof. unfold appendOps. cbn. by destruct (Blocks s !! bb). Qed.
Lemma appendOps_with_DRSLog bb ops x s :
  appendOps bb ops (with_DRSLog x s) = with_DRSLog x (appendOps bb ops s).
Proof. unfold appendOps. cbn. by destruct (Blocks s !! bb). Qed.

#[export] Hint Rewrite appendOps_with_Idx appendOps_with_ResEVT appendOps_with_Opcode appendOps_with_Vals appendOps_with_CurrentInst appendOps_with_TheBB appendOps_with_TheMCBB appendOps_with_ExitBB appendOps_with_CallBBs appendOps_with_BBByAddr appendOps_with_InsertBB appendOps_with_DRSLog : dcf.
#[export] Hint Rewrite appendOps_app : dcf.

Ltac simpl_dcf :=
  cbn [Idx ResEVT Opcode Vals CurrentInst TheBB TheMCBB ExitBB CallBBs BBByAddr
       Blocks InsertBB NextId DRSLog
       with_Idx with_ResEVT with_Opcode with_Vals with_CurrentInst with_TheBB
       with_TheMCBB with_ExitBB with_CallBBs with_BBByAddr with_Blocks with_InsertBB
       with_NextId with_DRSLog] in *.

(** Bring a state to the form: setters of scratch fields around one
    [appendOps]. *)
Ltac norm_dcf := repeat (progress (autorewrite with dcf; simpl_dcf)).

Ltac solve_side :=
  norm_dcf; try done; eauto using appendOps_is_Some.

(** Run the first action of a sequence with the lemma [lem]. *)
Tactic Notation "run" "with" uconstr(lem) :=
  erewrite bind_run by (apply lem; solve_side).

Lemma CreateCast_same tgt o v t s :
  Ty_eqb (typeOf v) t = true -> CreateCast tgt o v t s = Ok v s.
Proof. intros H. by rewrite CreateCast_run, H. Qed.

Lemma CreateCast_emit tgt o v t s :
  Ty_eqb (typeOf v) t = false ->
  is_Some (Blocks s !! InsertBB s) ->
  CreateCast tgt o v t s
  = Ok (InstRes (NextId s) t) (appendOps (InsertBB s) [ICast o v t] s).
Proof. intros H Hb. rewrite CreateCast_run, H. by apply emit_appendOps. Qed.

Lemma integerBitsOfEVT_run tgt e w s :
  getTypeForEVT tgt e = IntegerTy w -> integerBitsOfEVT tgt e s = Ok w s.
Proof. intros H. unfold integerBitsOfEVT. by rewrite H. Qed.

Lemma ConstantInt_get_run t v w s :
  getScalarType t = IntegerTy w ->
  ConstantInt_get t v s = Ok (ConstantInt t (v mod 2 ^ w)) s.
Proof. intros H. unfold ConstantInt_get. by rewrite H. Qed.

Lemma registerResult_run v s :
  registerResult v s = Ok tt (with_Vals (v :: Vals s) s).
Proof. reflexivity. Qed.

(** ** C5: SMUL_LOHI and UMUL_LOHI *)

Lemma translateMulLoHi_run tgt tbl ext s hiVT lo hi a b rest :
  SemanticsArray tbl !! N.to_nat (Idx s) = Some hiVT ->
  getTypeForEVT tgt (ResEVT s) = IntegerTy lo ->
  getTypeForEVT tgt hiVT = IntegerTy hi ->
  1 <= lo -> 1 <= hi ->
  Vals s = a :: b :: rest ->
  is_Some (Blocks s !! InsertBB s) ->
  let ops := mulLoHiOps ext lo hi (NextId s) a b in
  let n := (length ops + NextId s)%nat in
  translateMulLoHi tgt tbl ext s
  = Ok tt
      (with_Vals (InstRes (n - 1) (IntegerTy hi)
                  :: InstRes (n - 3) (IntegerTy lo) :: rest)
         (with_Idx (nextIdx (Idx s)) (appendOps (InsertBB s) ops s))).
Proof.
  intros Hvt Hlo Hhi Hl1 Hh1 Hv Hb ops n.
  assert (Ty_eqb (IntegerTy (lo + hi)) (IntegerTy lo) = false) as Htl
    by (cbn; apply N.eqb_neq; lia).
  assert (Ty_eqb (IntegerTy (lo + hi)) (IntegerTy hi) = false) as Hth
    by (cbn; apply N.eqb_neq; lia).
  unfold translateMulLoHi, NextVT, CreateTrunc, CreateBinOp.
  run with Next_run.
  unfold bind at 1, gets at 1.
  run with integerBitsOfEVT_run.
  run with integerBitsOfEVT_run.
  run with getNextOperand_run.
  subst ops n. unfold mulLoHiOps, extendTo.
  destruct (Ty_eqb (typeOf a) (IntegerTy (lo + hi))) eqn:Ha;
    destruct (Ty_eqb (typeOf b) (IntegerTy (lo + hi))) eqn:Hb2.
  all: first [run with CreateCast_same | run with CreateCast_emit].
  all: run with getNextOperand_run.
  all: first [run with CreateCast_same | run with CreateCast_emit].
  all: run with emit_appendOps.
  all: try (apply Ty_eqb_eq in Ha).
  all: erewrite bind_run
         by (apply CreateCast_emit; cbn [typeOf]; rewrite ?Ha; solve_side).
  all: rewrite (bind_run _ _ _ _ _ (registerResult_run _ _)).
  all: erewrite bind_run
         by (apply ConstantInt_get_run; cbn [typeOf]; rewrite ?Ha; reflexivity).
  all: run with emit_appendOps.
  all: erewrite bind_run
         by (apply CreateCast_emit; cbn [typeOf]; rewrite ?Ha; solve_side).
  all: rewrite registerResult_run; f_equal.
  all: norm_dcf; rewrite ?appendOps_NextId by solve_side; norm_dcf.
  all: cbn [typeOf]; rewrite ?Ha.
  all: cbn [length app Nat.add Nat.sub]; reflexivity.
Qed.

(** Enter [translateOpcode] for an opcode that has a case: the value type is
    read and the [switch] reaches the case of [o]. *)
Ltac enter_translateOpcode Hwn Hvt :=
  unfold translateOpcode, NextVT;
  rewrite (bind_run _ _ _ _ _ (Next_run _ _ _ Hvt));
  unfold bind at 1, modify at 1;
  rewrite (opcodeOf_not_target _ _ Hwn), (decodeOpcode_opcodeOf _ _ Hwn).

(** The eighteen binary semantic opcodes are translated by [translateBinOp]
    with the matching IR operation, after the value type has been read. *)
Lemma translateOpcode_binaryOp tgt tbl hooks o Opc s vt :
  wellNumbered tgt = true ->
  SemanticsArray tbl !! N.to_nat (Idx s) = Some vt ->
  binaryOpOf o = Some Opc ->
  translateOpcode tgt tbl hooks (opcodeOf tgt o) s
  = (translateBinOp tgt Opc;;; ret true)
      (with_ResEVT vt (with_Idx (nextIdx (Idx s)) s)).
Proof.
  intros Hwn Hvt Ho. enter_translateOpcode Hwn Hvt.
  destruct o; try discriminate Ho; injection Ho as <-; reflexivity.
Qed.

(** C5. For [SMUL_LOHI] (with sign extension) and [UMUL_LOHI] (with zero
    extension): the opcode's own value type gives the low width [lo], a second
    value type read from the tape gives the high width [hi]; the two factors
    are taken off the value stack; each is extended to the integer type of
    [lo + hi] bits (no instruction when it has that type already); the
    extended factors are multiplied; the product truncated to [lo] bits is
    pushed; then the product shifted right logically by [lo], truncated to
    [hi] bits, is pushed.  When neither factor has the wide type, the six
    instructions are spelled out. *)
Theorem translateOpcode_MUL_LOHI
    (tgt : Target) (tbl : Tables) (hooks : Hooks) (o : SemaOp) (ext : CastOps)
    (s : DCFunction) (loVT hiVT lo hi : N) (a b : Value) (rest : list Value) :
  wellNumbered tgt = true ->
  (o = SMUL_LOHI /\ ext = SExt) \/ (o = UMUL_LOHI /\ ext = ZExt) ->
  SemanticsArray tbl !! N.to_nat (Idx s) = Some loVT ->
  SemanticsArray tbl !! N.to_nat (nextIdx (Idx s)) = Some hiVT ->
  getTypeForEVT tgt loVT = IntegerTy lo ->
  getTypeForEVT tgt hiVT = IntegerTy hi ->
  1 <= lo -> 1 <= hi ->
  Vals s = a :: b :: rest ->
  is_Some (Blocks s !! InsertBB s) ->
  let n := NextId s in
  let F := IntegerTy (lo + hi) in
  let ops := mulLoHiOps ext lo hi n a b in
  let m := (length ops + n)%nat in
  translateOpcode tgt tbl hooks (opcodeOf tgt o) s
  = Ok true
      (with_Vals (InstRes (m - 1) (IntegerTy hi)
                  :: InstRes (m - 3) (IntegerTy lo) :: rest)
         (with_Idx (nextIdx (nextIdx (Idx s)))
            (with_ResEVT loVT (appendOps (InsertBB s) ops s))))
  /\ (typeOf a <> F -> typeOf b <> F ->
      ops = [ICast ext a F;
             ICast ext b F;
             IBinOp Mul (InstRes n F) (InstRes (1 + n) F);
             ICast Trunc (InstRes (2 + n) F) (IntegerTy lo);
             IBinOp LShr (InstRes (2 + n) F) (ConstantInt F lo);
             ICast Trunc (InstRes (4 + n) F) (IntegerTy hi)]).
Proof.
  intros Hwn Ho Hlv Hhv Hlo Hhi Hl1 Hh1 Hv Hb n F ops m.
  split.
  - assert (translateMulLoHi tgt tbl ext
              (with_ResEVT loVT (with_Idx (nextIdx (Idx s)) s))
            = Ok tt
                (with_Vals (InstRes (m - 1) (IntegerTy hi)
                            :: InstRes (m - 3) (IntegerTy lo) :: rest)
                   (with_Idx (nextIdx (nextIdx (Idx s)))
                      (appendOps (InsertBB s) ops
                         (with_ResEVT loVT (with_Idx (nextIdx (Idx s)) s)))))) as Hrun.
    { apply (translateMulLoHi_run tgt tbl ext
               (with_ResEVT loVT (with_Idx (nextIdx (Idx s)) s))
               hiVT lo hi a b rest); done. }
    enter_translateOpcode Hwn Hlv.
    destruct Ho as [[-> ->]|[-> ->]].
    all: rewrite (bind_run _ _ _ _ _ Hrun); unfold ret; f_equal.
    all: norm_dcf; reflexivity.
  - intros Ha Hb2. subst ops. unfold mulLoHiOps, extendTo.
    destruct (Ty_eqb (typeOf a) (IntegerTy (lo + hi))) eqn:Ea;
      [by apply Ty_eqb_eq in Ea|].
    destruct (Ty_eqb (typeOf b) (IntegerTy (lo + hi))) eqn:Eb;
      [by apply Ty_eqb_eq in Eb|].
    cbn [length app Nat.add]. fold F.
    rewrite N.mod_small; [done|].
    assert (lo < 2 ^ lo) by (apply N.pow_gt_lin_r; lia).
    assert (2 ^ lo <= 2 ^ (lo + hi)) by (apply N.pow_le_mono_r; lia).
    lia.
Qed.


Lemma translateOpcode_MUL_LOHI_witness :
  let s := with_Idx 38
             (with_Vals [InstRes 100 (IntegerTy 32); InstRes 101 (IntegerTy 32)]
                (Sample.opened false)) in
  let F := IntegerTy 64 in
  translateOpcode Sample.target Sample.tables Sample.hooks
    (opcodeOf Sample.target SMUL_LOHI) s
  = Ok true
      (with_Vals [InstRes 10 (IntegerTy 32); InstRes 8 (IntegerTy 32)]
         (with_Idx 40
            (with_ResEVT 32
               (appendOps (InsertBB s)
                  [ICast SExt (InstRes 100 (IntegerTy 32)) F;
                   ICast SExt (InstRes 101 (IntegerTy 32)) F;
                   IBinOp Mul (InstRes 5 F) (InstRes 6 F);
                   ICast Trunc (InstRes 7 F) (IntegerTy 32);
                   IBinOp LShr (InstRes 7 F) (ConstantInt F 32);
                   ICast Trunc (InstRes 9 F) (IntegerTy 32)]
                  s)))).
Proof.
  intros s F.
  assert (wellNumbered Sample.target = true) as H1 by (vm_compute; reflexivity).
  assert ((SMUL_LOHI = SMUL_LOHI /\ SExt = SExt)
          \/ (SMUL_LOHI = UMUL_LOHI /\ SExt = ZExt)) as H2 by (left; done).
  assert (SemanticsArray Sample.tables !! N.to_nat (Idx s) = Some 32)
    as H3 by (vm_compute; reflexivity).
  assert (SemanticsArray Sample.tables !! N.to_nat (nextIdx (Idx s)) = Some 32)
    as H4 by (vm_compute; reflexivity).
  assert (getTypeForEVT Sample.target 32 = IntegerTy 32) as H5 by reflexivity.
  assert (1 <= 32) as H6 by lia.
  assert (Vals s = [InstRes 100 (IntegerTy 32); InstRes 101 (IntegerTy 32)])
    as H7 by reflexivity.
  assert (is_Some (Blocks s !! InsertBB s)) as H8 by (vm_compute; eauto).
  etransitivity;
    [exact (proj1 (translateOpcode_MUL_LOHI Sample.target Sample.tables
                     Sample.hooks SMUL_LOHI SExt s 32 32 32 32 _ _ []
                     H1 H2 H3 H4 H5 H5 H6 H6 H7 H8))|].
  vm_compute. reflexivity.
Defined.

(** Two states are equal when their fields are. *)
Lemma DCFunction_eq (s1 s2 : DCFunction) :
  Idx s1 = Idx s2 -> ResEVT s1 = ResEVT s2 -> Opcode s1 = Opcode s2 ->
  Vals s1 = Vals s2 -> CurrentInst s1 = CurrentInst s2 ->
  TheBB s1 = TheBB s2 -> TheMCBB s1 = TheMCBB s2 -> ExitBB s1 = ExitBB s2 ->
  CallBBs s1 = CallBBs s2 -> BBByAddr s1 = BBByAddr s2 ->
  Blocks s1 = Blocks s2 -> InsertBB s1 = InsertBB s2 ->
  NextId s1 = NextId s2 -> DRSLog s1 = DRSLog s2 ->
  s1 = s2.
Proof. destruct s1, s2. cbn. intros. by subst. Qed.

Ltac dcf_fields := apply DCFunction_eq; simpl_dcf.

(** ** insertCallBB *)

Lemma insertCallBB_unfold tgt Target s :
  insertCallBB tgt Target s
  = match TheBB s with
    | Some bb =>
        match Blocks s !! bb with
        | Some blk =>
            match calleeRetTy Target with
            | Some _ =>
                if Nat.eqb (InsertBB s) bb
                then Ok (length (Blocks s)) (afterCallBB Target bb blk s)
                else Abort
            | None => Abort
            end
        | None => Abort
        end
    | None => Abort
    end.
Proof.
  unfold insertCallBB, theBB, getBlock.
  unfold bind at 1 2. unfold gets at 1.
  destruct (TheBB s) as [bb|] eqn:HT; [|done]. cbn [fromOption ret].
  unfold bind at 1 2. unfold gets at 1.
  destruct (Blocks s !! bb) as [blk|] eqn:Hblk; [|done]. cbn [fromOption ret].
  assert (bb < length (Blocks s))%nat as Hlt by (by eapply lookup_lt_Some).
  unfold bind at 1. unfold createBasicBlock at 1.
  unfold bind at 1. unfold insertAtEnd at 1. cbn [resultTy].
  destruct (calleeRetTy Target) as [t|]; [|done].
  simpl_dcf. rewrite lookup_snoc_length, insert_snoc_length.
  cbn [bbName bbInsts app].
  unfold CreateBr, emit. unfold bind at 1 2 3. unfold gets at 1.
  unfold insertAtEnd at 1. cbn [resultTy]. simpl_dcf.
  destruct (Nat.eqb (InsertBB s) bb) eqn:Hip.
  2:{ destruct (_ !! InsertBB s); [|done].
      cbn [ret]. unfold bind at 1 2. unfold gets at 1. simpl_dcf.
      by rewrite Hip. }
  apply Nat.eqb_eq in Hip. rewrite Hip.
  rewrite lookup_app_l by done. rewrite Hblk.
  cbn [ret]. unfold bind at 1 2. unfold gets at 1. simpl_dcf.
  rewrite Hip, Nat.eqb_refl. cbn [assert ret].
  unfold bind at 1 2. unfold gets at 1. simpl_dcf.
  unfold createBasicBlock at 1.
  unfold bind at 1. unfold modify at 1.
  unfold notifyDRS, SetInsertPoint.
  unfold bind at 1. unfold modify at 1.
  unfold bind at 1. unfold modify at 1.
  unfold bind at 1. unfold modify at 1.
  unfold bind at 1. unfold insertAtEnd at 1. cbn [resultTy]. simpl_dcf.
  rewrite !length_insert, !length_app. cbn [length].
  rewrite insert_app_l by done.
  rewrite <- app_assoc. cbn [app].
  rewrite lookup_app_r by (rewrite length_insert; lia).
  rewrite length_insert, Nat.sub_diag. cbn [lookup list_lookup].
  unfold bind at 1. unfold modify at 1. unfold ret.
  f_equal. unfold afterCallBB. simpl_dcf.
  rewrite insert_app_r_alt by (rewrite length_insert; lia).
  rewrite length_insert, Nat.sub_diag. cbn [insert list_insert bbName bbInsts app].
  rewrite <- (app_assoc (DRSLog s)). cbn [app].
  replace (length (Blocks s) + 1)%nat with (S (length (Blocks s))) by lia.
  dcf_fields; reflexivity.
Qed.

Lemma insertCallBB_run tgt Target s bb blk t :
  TheBB s = Some bb ->
  InsertBB s = bb ->
  Blocks s !! bb = Some blk ->
  calleeRetTy Target = Some t ->
  insertCallBB tgt Target s
  = Ok (length (Blocks s)) (afterCallBB Target bb blk s).
Proof.
  intros HT Hip Hblk Ht. rewrite insertCallBB_unfold, HT, Hblk, Ht, Hip.
  by rewrite Nat.eqb_refl.
Qed.

Lemma insertCallBB_Ok tgt Target s cb s' :
  insertCallBB tgt Target s = Ok cb s' ->
  exists bb blk t,
    TheBB s = Some bb /\ InsertBB s = bb /\ Blocks s !! bb = Some blk
    /\ calleeRetTy Target = Some t
    /\ cb = length (Blocks s) /\ s' = afterCallBB Target bb blk s.
Proof.
  rewrite insertCallBB_unfold.
  destruct (TheBB s) as [bb|]; [|done].
  destruct (Blocks s !! bb) as [blk|] eqn:Hblk; [|done].
  destruct (calleeRetTy Target) as [t|]; [|done].
  destruct (Nat.eqb (InsertBB s) bb) eqn:Hip; [|done].
  apply Nat.eqb_eq in Hip. intros [= <- <-]. by exists bb, blk, t.
Qed.

Lemma appendOps_length bb ops s :
  length (Blocks (appendOps bb ops s)) = length (Blocks s).
Proof.
  unfold appendOps. destruct (Blocks s !! bb); [|done]. cbn.
  by rewrite length_insert.
Qed.

Lemma afterCallBB_succ Target bb blk s :
  (bb < length (Blocks s))%nat ->
  Blocks (afterCallBB Target bb blk s) !! S (length (Blocks s))
  = Some (mkBB (prefixBeforeAnyOf ["_"; "c"]%char (bbName blk) +++ "_c" +++
                  match CurrentInst s with
                  | Some i => utohexstr (Address i)
                  | None => ""
                  end) []).
Proof.
  intros Hlt. unfold afterCallBB. simpl_dcf.
  rewrite lookup_app_r by (rewrite length_insert; lia).
  rewrite length_insert.
  replace (S (length (Blocks s)) - length (Blocks s))%nat with 1%nat by lia.
  reflexivity.
Qed.

Lemma afterCallBB_call Target bb blk s :
  (bb < length (Blocks s))%nat ->
  Blocks (afterCallBB Target bb blk s) !! length (Blocks s)
  = Some (mkBB (bbName blk +++ "_call")
               [(NextId s, ICall Target [RegSetArg]);
                (S (S (NextId s)), IBr (S (length (Blocks s))))]).
Proof.
  intros Hlt. unfold afterCallBB. simpl_dcf.
  rewrite lookup_app_r by (rewrite length_insert; lia).
  by rewrite length_insert, Nat.sub_diag.
Qed.

(** ** C6: BRIND *)

Lemma insertTranslateAt_run tgt v s :
  is_Some (Blocks s !! InsertBB s) ->
  let '(pre, p) := extendTo IntToPtr getInt8PtrTy (NextId s) v in
  let k := length pre in
  insertTranslateAt tgt v s
  = Ok (InstRes (S (k + NextId s)) (PointerTy FuncTy))
       (appendOps (InsertBB s)
          (pre ++ [ICall (IntrinsicDecl dc_translate_at) [p];
                   ICast BitCast (InstRes (k + NextId s) getInt8PtrTy)
                     (PointerTy FuncTy)]) s).
Proof.
  intros Hb. unfold extendTo, insertTranslateAt, CreateIntToPtr, CreateBitCast.
  destruct (Ty_eqb (typeOf v) getInt8PtrTy) eqn:Hv.
  - run with CreateCast_same.
    run with emit_appendOps.
    rewrite CreateCast_emit by solve_side.
    f_equal; norm_dcf; rewrite ?appendOps_NextId by solve_side; reflexivity.
  - run with CreateCast_emit.
    run with emit_appendOps.
    rewrite CreateCast_emit by solve_side.
    f_equal; norm_dcf; rewrite ?appendOps_NextId by solve_side; reflexivity.
Qed.

Lemma CreateBr_after_insertCallBB tgt Target bb blk s e :
  (bb < length (Blocks s))%nat ->
  CreateBr tgt e (afterCallBB Target bb blk s)
  = Ok tt (appendOps (S (length (Blocks s))) [IBr e] (afterCallBB Target bb blk s)).
Proof.
  intros Hlt. unfold CreateBr.
  erewrite bind_run; [reflexivity|].
  apply (emit_appendOps tgt (IBr e) (afterCallBB Target bb blk s) VoidTy); [done|].
  change (InsertBB (afterCallBB Target bb blk s)) with (S (length (Blocks s))).
  rewrite afterCallBB_succ by done. eauto.
Qed.

Lemma insertCall_run tgt v s bb blk :
  TheBB s = Some bb ->
  InsertBB s = bb ->
  Blocks s !! bb = Some blk ->
  (forall a, asConstantInt v = Some a -> a < 2 ^ 64) ->
  insertCall tgt v s
  = match asConstantInt v with
    | Some a => Ok tt (afterCallBB (FunctionV a) bb blk s)
    | None =>
        let '(pre, p) := extendTo IntToPtr getInt8PtrTy (NextId s) v in
        let k := length pre in
        let ops := pre ++ [ICall (IntrinsicDecl dc_translate_at) [p];
                           ICast BitCast (InstRes (k + NextId s) getInt8PtrTy)
                             (PointerTy FuncTy)] in
        Ok tt (afterCallBB (InstRes (S (k + NextId s)) (PointerTy FuncTy)) bb
                 (mkBB (bbName blk) (bbInsts blk ++ number (NextId s) ops))
                 (appendOps bb ops s))
    end.
Proof.
  intros HT Hip Hblk Hc. unfold insertCall.
  destruct (asConstantInt v) as [a|] eqn:Hcst.
  - unfold getZExtValue.
    assert ((a <? 2 ^ 64) = true) as Hlt by (apply N.ltb_lt; eauto).
    erewrite bind_run.
    2:{ erewrite bind_run; [reflexivity|]. erewrite bind_run; [reflexivity|].
        by rewrite Hlt. }
    erewrite bind_run; [reflexivity|].
    by eapply insertCallBB_run.
  - pose proof (insertTranslateAt_run tgt v s) as Hrun.
    rewrite Hip in Hrun. specialize (Hrun (ex_intro _ blk Hblk)).
    destruct (extendTo IntToPtr getInt8PtrTy (NextId s) v) as [pre p].
    cbn zeta in *.
    rewrite (bind_run _ _ _ _ _ Hrun).
    erewrite bind_run; [reflexivity|].
    eapply insertCallBB_run; norm_dcf; try done.
    by apply appendOps_lookup.
Qed.

Lemma translateOpcode_BRIND_run tgt tbl hooks s vt v rest bb blk :
  wellNumbered tgt = true ->
  SemanticsArray tbl !! N.to_nat (Idx s) = Some vt ->
  Vals s = v :: rest ->
  TheBB s = Some bb ->
  InsertBB s = bb ->
  Blocks s !! bb = Some blk ->
  (forall a, asConstantInt v = Some a -> a < 2 ^ 64) ->
  translateOpcode tgt tbl hooks (opcodeOf tgt BRIND) s
  = Ok true (afterBRIND tgt vt v rest bb blk s).
Proof.
  intros Hwn Hvt Hv HT Hip Hblk Hc.
  assert (is_Some (Blocks s !! InsertBB s)) as Hsome by (rewrite Hip; eauto).
  assert (bb < length (Blocks s))%nat as Hlt by (by eapply lookup_lt_Some).
  enter_translateOpcode Hwn Hvt.
  run with getNextOperand_run.
  unfold setReg.
  erewrite bind_run.
  2:{ erewrite bind_run by (apply emit_appendOps; solve_side). reflexivity. }
  set (s1 := appendOps _ [RSetReg (getProgramCounter tgt) v] _).
  set (blk1 := mkBB (bbName blk)
                 (bbInsts blk ++ number (NextId s) [RSetReg (getProgramCounter tgt) v])).
  assert (TheBB s1 = Some bb) as H1 by (subst s1; norm_dcf; done).
  assert (InsertBB s1 = bb) as H2 by (subst s1; norm_dcf; done).
  assert (Blocks s1 !! bb = Some blk1) as H3.
  { subst s1. simpl_dcf. rewrite Hip.
    exact (appendOps_lookup bb _
             (with_Vals rest (with_ResEVT vt (with_Idx (nextIdx (Idx s)) s)))
             blk Hblk). }
  assert (NextId s1 = S (NextId s)) as H4.
  { subst s1. simpl_dcf. by rewrite appendOps_NextId. }
  assert (length (Blocks s1) = length (Blocks s)) as H5.
  { subst s1. by rewrite appendOps_length. }
  assert (ExitBB s1 = ExitBB s) as H6 by (subst s1; norm_dcf; done).
  assert (s1 = with_Vals rest
                 (with_ResEVT vt
                    (with_Idx (nextIdx (Idx s))
                       (appendOps bb [RSetReg (getProgramCounter tgt) v] s)))) as H7.
  { subst s1. norm_dcf. by rewrite Hip. }
  pose proof (insertCall_run tgt v s1 bb blk1 H1 H2 H3 Hc) as Hcall.
  rewrite H4 in Hcall.
  unfold afterBRIND, brindOps.
  assert (bb < length (Blocks s1))%nat as Hlt1 by lia.
  destruct (asConstantInt v) as [a|] eqn:Hcst.
  - rewrite (bind_run _ _ _ _ _ Hcall).
    unfold bind at 1, gets at 1.
    erewrite bind_run by (by apply CreateBr_after_insertCallBB).
    unfold ret. cbn [fst snd]. change (ExitBB (afterCallBB _ _ _ s1)) with (ExitBB s1).
    rewrite H5, H6, H7. reflexivity.
  - cbn [length Nat.add] in Hcall.
    destruct (extendTo IntToPtr getInt8PtrTy (S (NextId s)) v) as [pre p] eqn:He.
    cbn zeta in Hcall.
    rewrite (bind_run _ _ _ _ _ Hcall).
    unfold bind at 1, gets at 1.
    erewrite bind_run
      by (apply CreateBr_after_insertCallBB; rewrite appendOps_length; done).
    unfold ret. cbn [fst snd].
    change (ExitBB (afterCallBB ?a ?b ?c ?d)) with (ExitBB d).
    rewrite appendOps_ExitBB, appendOps_length, H5, H6. do 2 f_equal.
    subst blk1. cbn [bbName bbInsts].
    rewrite <- app_assoc. cbn [number app].
    replace (S (length pre + NextId s)) with (length pre + S (NextId s))%nat by lia.
    f_equal.
    rewrite H7. norm_dcf. reflexivity.
Qed.

Lemma appendOps_lookup_ne bb bb' ops s :
  bb <> bb' -> Blocks (appendOps bb ops s) !! bb' = Blocks s !! bb'.
Proof.
  intros Hne. unfold appendOps. destruct (Blocks s !! bb); [|done]. cbn.
  by rewrite list_lookup_insert_ne.
Qed.

Lemma afterCallBB_orig Target bb blk s :
  (bb < length (Blocks s))%nat ->
  Blocks (afterCallBB Target bb blk s) !! bb
  = Some (mkBB (bbName blk)
               (bbInsts blk ++ [(S (NextId s), IBr (length (Blocks s)))])).
Proof.
  intros Hlt. unfold afterCallBB. simpl_dcf.
  rewrite lookup_app_l by (rewrite length_insert; lia).
  by rewrite list_lookup_insert_eq.
Qed.

Lemma callsTranslateAt_true s bb blk i args :
  Blocks s !! bb = Some blk ->
  (i, ICall (IntrinsicDecl dc_translate_at) args) ∈ bbInsts blk ->
  callsTranslateAt s = true.
Proof.
  intros Hblk Hin. unfold callsTranslateAt. apply existsb_exists.
  exists blk. split.
  - apply list_elem_of_In. by eapply list_elem_of_lookup_2.
  - apply existsb_exists. exists (ICall (IntrinsicDecl dc_translate_at) args).
    split; [|done]. unfold bbOps. apply in_map_iff.
    exists (i, ICall (IntrinsicDecl dc_translate_at) args).
    split; [done|]. by apply list_elem_of_In.
Qed.

(** C6, as stated, fails: the indirect branch of [jmpConstInst] has a constant
    target, and [insertCall] then calls the function at that address; no
    block of the function holds a call to [dc_translate_at]. *)
Lemma BRIND_constant_target_no_translate_at :
  let s' := Sample.stateOf
              (translateInst Sample.target Sample.tables
                 (Sample.options false false) Sample.hooks 8
                 Sample.jmpConstInst (Sample.opened false)) in
  translateInst Sample.target Sample.tables (Sample.options false false)
    Sample.hooks 8 Sample.jmpConstInst (Sample.opened false) = Ok true s'
  /\ (bbOps <$> Blocks s' !! 3%nat)
     = Some [ICall (FunctionV 8192) [RegSetArg]; IBr 4]
  /\ ~ (exists bb blk i args,
          Blocks s' !! bb = Some blk
          /\ (i, ICall (IntrinsicDecl dc_translate_at) args) ∈ bbInsts blk).
Proof.
  intros s'.
  split; [vm_compute; reflexivity|].
  split; [vm_compute; reflexivity|].
  assert (callsTranslateAt s' = false) as Hf by (vm_compute; reflexivity).
  clearbody s'.
  intros (bb & blk & i & args & Hblk & Hin).
  rewrite (callsTranslateAt_true s' bb blk i args Hblk Hin) in Hf.
  discriminate Hf.
Qed.

(** C6, amended.  With [v] on top of the value stack and the builder at the
    end of the current block [bb], [BRIND] appends to [bb] the write of [v] to
    the program counter and then, when [v] is not a constant integer, a call
    to the [dc_translate_at] intrinsic on [v] (as an [i8*]) whose result, cast
    to a function pointer, is the callee; when [v] is a constant integer the
    callee is the function at that address and nothing more is appended.  The
    block is then split: [bb] ends with a branch to a new call block, which
    holds the call of the callee on the register set and a branch to a new
    successor block; the successor becomes the current block and receives the
    branch to the exit block. *)
Theorem translateOpcode_BRIND
    (tgt : Target) (tbl : Tables) (hooks : Hooks) (s : DCFunction)
    (vt : N) (v : Value) (rest : list Value) (bb : nat) (blk : BasicBlock) :
  wellNumbered tgt = true ->
  SemanticsArray tbl !! N.to_nat (Idx s) = Some vt ->
  Vals s = v :: rest ->
  TheBB s = Some bb ->
  InsertBB s = bb ->
  Blocks s !! bb = Some blk ->
  (forall a, asConstantInt v = Some a -> a < 2 ^ 64) ->
  let n := NextId s in
  let L := length (Blocks s) in
  let pc := getProgramCounter tgt in
  let ops := fst (brindOps tgt n v) in
  let callee := snd (brindOps tgt n v) in
  let k := length ops in
  exists s',
    translateOpcode tgt tbl hooks (opcodeOf tgt BRIND) s = Ok true s'
    /\ (bbInsts <$> Blocks s' !! bb)
       = Some (bbInsts blk ++ number n ops ++ [((1 + k + n)%nat, IBr L)])
    /\ (bbInsts <$> Blocks s' !! L)
       = Some [((k + n)%nat, ICall callee [RegSetArg]);
               ((2 + k + n)%nat, IBr (S L))]
    /\ (bbInsts <$> Blocks s' !! S L) = Some [((3 + k + n)%nat, IBr (ExitBB s))]
    /\ CallBBs s' = CallBBs s ++ [L]
    /\ TheBB s' = Some (S L) /\ InsertBB s' = S L
    /\ Vals s' = rest
    /\ (asConstantInt v = None ->
        exists pre p,
          ops = RSetReg pc v :: pre ++
                [ICall (IntrinsicDecl dc_translate_at) [p];
                 ICast BitCast (InstRes (S (length pre + n)) getInt8PtrTy)
                   (PointerTy FuncTy)]
          /\ callee = InstRes (S (S (length pre + n))) (PointerTy FuncTy)
          /\ (typeOf v = getInt8PtrTy -> pre = [] /\ p = v)
          /\ (typeOf v <> getInt8PtrTy ->
              pre = [ICast IntToPtr v getInt8PtrTy]
              /\ p = InstRes (S n) getInt8PtrTy))
    /\ (forall a, asConstantInt v = Some a ->
        ops = [RSetReg pc v] /\ callee = FunctionV a).
Proof.
  intros Hwn Hvt Hv HT Hip Hblk Hc n L pc ops callee k.
  assert (bb < L)%nat as Hlt by (by eapply lookup_lt_Some).
  exists (afterBRIND tgt vt v rest bb blk s).
  split; [by apply translateOpcode_BRIND_run|].
  unfold afterBRIND. fold n ops callee L.
  set (s1 := with_Vals rest _).
  set (blk1 := mkBB (bbName blk) _).
  assert (length (Blocks s1) = L) as HL
    by (subst s1; simpl_dcf; apply appendOps_length).
  assert (NextId s1 = (k + n)%nat) as Hn.
  { subst s1. simpl_dcf. rewrite appendOps_NextId; [done|by exists blk]. }
  assert (CallBBs s1 = CallBBs s) as HC by (subst s1; norm_dcf; done).
  assert (Vals s1 = rest) as HV by (subst s1; norm_dcf; done).
  assert (ExitBB s1 = ExitBB s) as HE by (subst s1; norm_dcf; done).
  assert (bb < length (Blocks s1))%nat as Hlt1 by lia.
  pose proof (afterCallBB_orig callee bb blk1 s1 Hlt1) as Ho.
  pose proof (afterCallBB_call callee bb blk1 s1 Hlt1) as Hcb.
  pose proof (afterCallBB_succ callee bb blk1 s1 Hlt1) as Hsu.
  clearbody s1.
  rewrite HL, Hn in *.
  split; [|split; [|split]].
  - rewrite appendOps_lookup_ne by lia. rewrite Ho. cbn.
    by rewrite <- app_assoc.
  - rewrite appendOps_lookup_ne by lia. by rewrite Hcb.
  - erewrite appendOps_lookup by exact Hsu. cbn [fmap option_fmap option_map bbInsts app number].
    change (NextId (afterCallBB callee bb blk1 s1)) with (3 + NextId s1)%nat.
    by rewrite Hn.
  - rewrite appendOps_CallBBs, appendOps_TheBB, appendOps_InsertBB, appendOps_Vals.
    unfold afterCallBB. simpl_dcf. rewrite HL, HC, HV.
    do 4 (split; [done|]).
    subst ops callee. unfold brindOps, extendTo. split.
    + intros Hnone. rewrite Hnone.
      destruct (Ty_eqb (typeOf v) getInt8PtrTy) eqn:Ety.
      * exists [], v. cbn. split; [done|]. split; [done|].
        split; [done|]. intros Hne. by apply Ty_eqb_eq in Ety.
      * exists [ICast IntToPtr v getInt8PtrTy], (InstRes (S n) getInt8PtrTy).
        cbn. split; [done|]. split; [done|]. split; [|done].
        intros He. apply Ty_eqb_eq in He. congruence.
    + intros a Ha. by rewrite Ha.
Qed.

Lemma translateOpcode_BRIND_witness :
  let s := with_Idx 22 (with_Vals [InstRes 100 (IntegerTy 64)] (Sample.opened false)) in
  exists s',
    translateOpcode Sample.target Sample.tables Sample.hooks
      (opcodeOf Sample.target BRIND) s = Ok true s'
    /\ (bbInsts <$> Blocks s' !! 2%nat)
       = Some [(4%nat, RSetReg 0 (ConstantInt (IntegerTy 64) 4096));
               (5%nat, RSetReg 0 (InstRes 100 (IntegerTy 64)));
               (6%nat, ICast IntToPtr (InstRes 100 (IntegerTy 64)) getInt8PtrTy);
               (7%nat, ICall (IntrinsicDecl dc_translate_at)
                         [InstRes 6 getInt8PtrTy]);
               (8%nat, ICast BitCast (InstRes 7 getInt8PtrTy) (PointerTy FuncTy));
               (10%nat, IBr 3)]
    /\ (bbInsts <$> Blocks s' !! 3%nat)
       = Some [(9%nat, ICall (InstRes 8 (PointerTy FuncTy)) [RegSetArg]);
               (11%nat, IBr 4)]
    /\ (bbInsts <$> Blocks s' !! 4%nat) = Some [(12%nat, IBr 1)].
Proof.
  intros s.
  assert (wellNumbered Sample.target = true) as H1 by (vm_compute; reflexivity).
  assert (SemanticsArray Sample.tables !! N.to_nat (Idx s) = Some 64)
    as H2 by (vm_compute; reflexivity).
  assert (Vals s = [InstRes 100 (IntegerTy 64)]) as H3 by reflexivity.
  assert (TheBB s = Some 2%nat) as H4 by (vm_compute; reflexivity).
  assert (InsertBB s = 2%nat) as H5 by (vm_compute; reflexivity).
  assert (Blocks s !! 2%nat
          = Some (mkBB "bb_1000"
                    [(4%nat, RSetReg 0 (ConstantInt (IntegerTy 64) 4096))]))
    as H6 by (vm_compute; reflexivity).
  assert (forall a, asConstantInt (InstRes 100 (IntegerTy 64)) = Some a -> a < 2 ^ 64)
    as H7 by (intros a Ha; discriminate Ha).
  destruct (translateOpcode_BRIND Sample.target Sample.tables Sample.hooks s
              64 _ [] 2%nat _ H1 H2 H3 H4 H5 H6 H7)
    as (s' & Hrun & Hb & Hcb & Hsu & _).
  exists s'. split; [exact Hrun|].
  vm_compute in Hb, Hcb, Hsu.
  split; [exact Hb|]. split; [exact Hcb|exact Hsu].
Defined.

(** ** C9: COMPLEX_PATTERN without a target override *)

Lemma opcodeOf_inj tgt a b :
  wellNumbered tgt = true -> opcodeOf tgt a = opcodeOf tgt b -> a = b.
Proof.
  intros Hwn He.
  pose proof (decodeOpcode_opcodeOf tgt a Hwn) as Ha.
  rewrite He, (decodeOpcode_opcodeOf tgt b Hwn) in Ha. congruence.
Qed.

Lemma translateOpcode_COMPLEX_PATTERN_core tgt tbl hooks s vt pat :
  wellNumbered tgt = true ->
  translateComplexPattern hooks = DCFunction_translateComplexPattern ->
  SemanticsArray tbl !! N.to_nat (Idx s) = Some vt ->
  SemanticsArray tbl !! N.to_nat (nextIdx (Idx s)) = Some pat ->
  translateOpcode tgt tbl hooks (opcodeOf tgt COMPLEX_PATTERN) s
  = Ok false (with_Idx (nextIdx (nextIdx (Idx s))) (with_ResEVT vt s)).
Proof.
  intros Hwn Hh Hvt Hpat.
  enter_translateOpcode Hwn Hvt.
  erewrite bind_run by (by apply Next_run).
  rewrite Hh. unfold DCFunction_translateComplexPattern.
  unfold bind at 1, ret at 1. unfold ret. f_equal.
Qed.

(** C9. The base-class [translateComplexPattern] returns null for every
    pattern.  With it as the target's method, [translateOpcode] on a
    COMPLEX_PATTERN opcode reads the value type and the pattern number and
    returns [false]; and an instruction whose semantics starts with that
    opcode makes [translateInst] return [false] when TranslateUnknownToUndef
    is off. *)
Theorem COMPLEX_PATTERN_unsupported_by_core
    (tgt : Target) (tbl : Tables) (opts : Options) (hooks : Hooks) :
  wellNumbered tgt = true ->
  translateComplexPattern hooks = DCFunction_translateComplexPattern ->
  (forall Pattern sa, DCFunction_translateComplexPattern Pattern sa = Ok None sa)
  /\ (forall sa vt pat,
        SemanticsArray tbl !! N.to_nat (Idx sa) = Some vt ->
        SemanticsArray tbl !! N.to_nat (nextIdx (Idx sa)) = Some pat ->
        translateOpcode tgt tbl hooks (opcodeOf tgt COMPLEX_PATTERN) sa
        = Ok false (with_Idx (nextIdx (nextIdx (Idx sa))) (with_ResEVT vt sa)))
  /\ (forall fuel d s s0 s1 d1 idx s2 vt pat,
        TranslateUnknownToUndef opts = false ->
        translateInst_entry tgt opts d s = Ok tt s0 ->
        translateTargetInst hooks s0 = Ok false s1 ->
        CurrentInst s1 = Some d1 ->
        OpcodeToSemaIdx tbl !! N.to_nat (InstOpcode d1) = Some idx ->
        idx <> 4294967295 ->
        incrementPC tgt (with_Idx idx s1) = Ok tt s2 ->
        SemanticsArray tbl !! N.to_nat idx = Some (opcodeOf tgt COMPLEX_PATTERN) ->
        SemanticsArray tbl !! N.to_nat (nextIdx idx) = Some vt ->
        SemanticsArray tbl !! N.to_nat (nextIdx (nextIdx idx)) = Some pat ->
        translateInst tgt tbl opts hooks (S fuel) d s
        = Ok false
            (translateInst_exit
               (with_Idx (nextIdx (nextIdx (nextIdx idx)))
                  (with_ResEVT vt
                     (with_Opcode (opcodeOf tgt COMPLEX_PATTERN) s2))))).
Proof.
  intros Hwn Hh. split; [done|]. split.
  - intros sa vt pat. by apply translateOpcode_COMPLEX_PATTERN_core.
  - intros fuel d s s0 s1 d1 idx s2 vt pat Hu He Hhook Hci Hidx Hne Hpc Hop Hvt Hpat.
    assert (Idx s2 = idx) as HI.
    { apply incrementPC_Ok in Hpc as (? & ? & _ & _ & _ & ->).
      by rewrite appendOps_Idx. }
    assert (tryTranslateInst tgt tbl hooks (S fuel) s0
            = Ok false (with_Idx (nextIdx (nextIdx (nextIdx idx)))
                          (with_ResEVT vt
                             (with_Opcode (opcodeOf tgt COMPLEX_PATTERN) s2)))) as Htry.
    { unfold tryTranslateInst.
      rewrite (bind_run _ _ _ _ _ Hhook).
      unfold currentInst. unfold bind at 1 2. unfold gets at 1.
      rewrite Hci. cbn [fromOption ret].
      unfold bind at 1. rewrite Hidx. cbn [fromOption ret].
      unfold bind at 1. unfold modify at 1.
      apply N.eqb_neq in Hne. rewrite Hne.
      rewrite (bind_run _ _ _ _ _ Hpc).
      apply (translateSemantics_fails tgt tbl hooks fuel s2
               (opcodeOf tgt COMPLEX_PATTERN) (with_Idx (nextIdx idx) s2)).
      - rewrite <- HI. apply Next_run. by rewrite HI.
      - intros Heq. by apply opcodeOf_inj in Heq.
      - rewrite (translateOpcode_COMPLEX_PATTERN_core tgt tbl hooks _ vt pat);
          simpl_dcf; try done. }
    rewrite (translateInst_of_try tgt tbl opts hooks (S fuel) d s s0 _ _ He Htry).
    by rewrite Hu.
Qed.

Lemma COMPLEX_PATTERN_unsupported_by_core_witness :
  let s := Sample.opened false in
  let s0 := Sample.stateOf
              (translateInst_entry Sample.target (Sample.options false false)
                 Sample.patternInst s) in
  let s2 := Sample.stateOf (incrementPC Sample.target (with_Idx 24 s0)) in
  wellNumbered Sample.target = true
  /\ translateComplexPattern Sample.hooks = DCFunction_translateComplexPattern
  /\ translateInst Sample.target Sample.tables (Sample.options false false)
       Sample.hooks 1 Sample.patternInst s
     = Ok false
         (translateInst_exit
            (with_Idx 27
               (with_ResEVT 64
                  (with_Opcode (opcodeOf Sample.target COMPLEX_PATTERN) s2)))).
Proof.
  intros s s0 s2.
  assert (wellNumbered Sample.target = true) as H1 by (vm_compute; reflexivity).
  assert (translateComplexPattern Sample.hooks = DCFunction_translateComplexPattern)
    as H2 by reflexivity.
  split; [exact H1|]. split; [exact H2|].
  destruct (COMPLEX_PATTERN_unsupported_by_core Sample.target Sample.tables
              (Sample.options false false) Sample.hooks H1 H2) as (_ & _ & H).
  apply (H 0%nat Sample.patternInst s s0 s0 Sample.patternInst 24 s2 64 7).
  all: try (vm_compute; reflexivity).
  lia.
Defined.

(** ** The shape of the function under translation *)

Lemma elem_of_sealed dx s x :
  x ∈ sealed dx s <-> x ∈ CallBBs s \/ x = ExitBB s \/ dx = Some x.
Proof.
  unfold sealed. rewrite elem_of_app, elem_of_cons.
  destruct dx as [d|]; cbn.
  - rewrite list_elem_of_singleton. split; intros [?|[?|?]]; eauto; subst; eauto.
    right. right. congruence.
  - rewrite elem_of_nil. split; intros [?|[?|?]]; eauto; done.
Qed.

Lemma ws_sameShape dx s s' : sameShape s s' -> wellShaped dx s -> wellShaped dx s'.
Proof.
  intros (HT & HE & HC & HM & HB & HI) [].
  assert (sealed dx s' = sealed dx s) as Hs by (unfold sealed; congruence).
  split; rewrite ?Hs, ?HT, ?HE, ?HC, ?HM, ?HB, ?HI; done.
Qed.

Lemma sameIR_sameShape s s' : sameIR s s' -> sameShape s s'.
Proof. unfold sameIR, sameShape. tauto. Qed.

Lemma noDiffCall_nil name : noDiffCall (mkBB name []).
Proof. intros i Hi. cbn in Hi. by apply elem_of_nil in Hi. Qed.

Lemma noDiffCall_app name l1 l2 :
  noDiffCall (mkBB name l1) ->
  (forall i, i ∈ map snd l2 -> isDiffCall i = false) ->
  noDiffCall (mkBB name (l1 ++ l2)).
Proof.
  intros H1 H2 i. unfold bbOps. cbn. rewrite map_app, elem_of_app.
  intros [Hi|Hi]; [by apply H1 | by apply H2].
Qed.

(** Replacing the contents of a block that is not sealed. *)
Lemma ws_update_block dx s bb blk' :
  wellShaped dx s -> bb ∉ sealed dx s -> noDiffCall blk' ->
  wellShaped dx (with_Blocks (<[bb := blk']> (Blocks s)) s).
Proof.
  intros [] Hbb Hnd.
  assert (forall x, x ∈ sealed dx s ->
            <[bb := blk']> (Blocks s) !! x = Blocks s !! x) as Hkeep.
  { intros x Hx. apply list_lookup_insert_ne. intros ->. done. }
  split; simpl_dcf; rewrite ?length_insert; try done.
  - intros cb Hcb. rewrite Hkeep; [eauto|].
    apply elem_of_sealed. by left.
  - rewrite Hkeep; [done|]. apply elem_of_sealed. right. by left.
  - intros d Hd. rewrite Hkeep; [eauto|]. apply elem_of_sealed. eauto.
  - intros x blk Hx Hne. destruct (decide (bb = x)) as [->|Hn].
    + apply list_lookup_insert_Some in Hx as [(_ & <- & _)|(? & _)]; done.
    + rewrite list_lookup_insert_ne in Hx by done. eauto.
Qed.

(** A new block at the end of the function. *)
Lemma ws_add_block dx s blk' :
  wellShaped dx s -> noDiffCall blk' ->
  wellShaped dx (with_Blocks (Blocks s ++ [blk']) s).
Proof.
  intros [] Hnd.
  assert (forall x, (x < length (Blocks s))%nat ->
            (Blocks s ++ [blk']) !! x = Blocks s !! x) as Hkeep.
  { intros x Hx. by apply lookup_app_l. }
  split; simpl_dcf; rewrite ?length_app; cbn [length]; try done.
  - intros a b Hb. apply ws_map_range0 in Hb. lia.
  - intros b Hb. apply ws_sealed_range0 in Hb. lia.
  - intros cb Hcb. rewrite Hkeep; [eauto|].
    apply ws_sealed_range0, elem_of_sealed. by left.
  - rewrite Hkeep; [done|].
    apply ws_sealed_range0, elem_of_sealed. right. by left.
  - intros d Hd. rewrite Hkeep; [eauto|].
    apply ws_sealed_range0, elem_of_sealed. eauto.
  - intros x blk Hx Hne.
    destruct (decide (x < length (Blocks s))%nat) as [Hlt|Hge].
    + rewrite Hkeep in Hx by done. eauto.
    + rewrite lookup_app_r in Hx by lia.
      destruct (x - length (Blocks s))%nat as [|k]; cbn in Hx; [|done].
      by injection Hx as <-.
Qed.

Lemma ws_map_insert dx s a b :
  wellShaped dx s -> (b < length (Blocks s))%nat -> b ∉ sealed dx s ->
  wellShaped dx (with_BBByAddr (<[a := b]> (BBByAddr s)) s).
Proof.
  intros [] Hlt Hb.
  split; simpl_dcf; try done.
  - intros a' b'. destruct (decide (a = a')) as [->|Hne].
    + rewrite lookup_insert_eq. by intros [= <-].
    + rewrite lookup_insert_ne by done. eauto.
  - intros a' b'. destruct (decide (a = a')) as [->|Hne].
    + rewrite lookup_insert_eq. by intros [= <-].
    + rewrite lookup_insert_ne by done. eauto.
Qed.

Lemma ws_set_TheBB dx s b :
  wellShaped dx s -> (forall x, b = Some x -> x ∉ sealed dx s) ->
  wellShaped dx (with_TheBB b s).
Proof. intros [] Hb. split; simpl_dcf; done. Qed.

Lemma ws_set_InsertBB dx s b :
  wellShaped dx s -> b ∉ sealed dx s -> wellShaped dx (with_InsertBB b s).
Proof. intros [] Hb. split; simpl_dcf; done. Qed.

(** Recording a call block. *)
Lemma ws_push_CallBB dx s cb blk :
  wellShaped dx s ->
  Blocks s !! cb = Some blk -> isCallBlock blk ->
  cb ∉ sealed dx s -> cb <> InsertBB s -> TheBB s <> Some cb ->
  (forall a, BBByAddr s !! a <> Some cb) ->
  wellShaped dx (with_CallBBs (CallBBs s ++ [cb]) s).
Proof.
  intros [] Hblk Hshape Hcb Hins Hthe Hmap.
  assert (forall x, x ∈ sealed dx (with_CallBBs (CallBBs s ++ [cb]) s)
                    <-> x ∈ sealed dx s \/ x = cb) as Hsealed.
  { intros x. rewrite !elem_of_sealed. simpl_dcf.
    rewrite elem_of_app, list_elem_of_singleton. tauto. }
  split; simpl_dcf; try done.
  - intros b [Hb| ->]%Hsealed; [eauto|]. by eapply lookup_lt_Some.
  - intros [?| ?]%Hsealed; done.
  - intros b Hb [?| ->]%Hsealed; [by eapply ws_thebb_open0|done].
  - intros a b Hb [?| ->]%Hsealed; [by eapply ws_map_open0|]. by eapply Hmap.
  - apply NoDup_app. split; [done|]. split; [|apply NoDup_singleton].
    intros x Hx ->%list_elem_of_singleton. apply Hcb, elem_of_sealed. by left.
  - intros x [Hx| ->%list_elem_of_singleton]%elem_of_app; eauto.
Qed.

Lemma map_snd_number n ops : map snd (number n ops) = ops.
Proof. revert n. induction ops as [|i r IH]; intros n; cbn; [done|]. by rewrite IH. Qed.

Lemma not_sealed_not_diff dx s bb : bb ∉ sealed dx s -> dx <> Some bb.
Proof. intros Hbb Hd. apply Hbb, elem_of_sealed. eauto. Qed.

(** Appending, to a block that is not sealed, instructions that are not diff
    calls. *)
Lemma ws_appendOps dx s bb ops :
  wellShaped dx s -> bb ∉ sealed dx s ->
  (forall i, i ∈ ops -> isDiffCall i = false) ->
  wellShaped dx (appendOps bb ops s).
Proof.
  intros Hws Hbb Hops. unfold appendOps.
  destruct (Blocks s !! bb) as [b|] eqn:Hb; [|done].
  eapply ws_sameShape; [|apply ws_update_block; [exact Hws|exact Hbb|]].
  - unfold sameShape. simpl_dcf. tauto.
  - destruct b as [name insts]. cbn [bbName bbInsts].
    apply noDiffCall_app.
    + eapply (ws_diff_only _ _ Hws); [exact Hb|]. by eapply not_sealed_not_diff.
    + by rewrite map_snd_number.
Qed.

Lemma keepsShape_refl dx s : keepsShape dx s s.
Proof. by intros H. Qed.

Lemma keepsShape_trans dx s1 s2 s3 :
  keepsShape dx s1 s2 -> keepsShape dx s2 s3 -> keepsShape dx s1 s3.
Proof. unfold keepsShape. eauto. Qed.

Lemma keepsShape_scratch dx s s' : sameIR s s' -> keepsShape dx s s'.
Proof. intros H Hws. eapply ws_sameShape; [by apply sameIR_sameShape|done]. Qed.

Lemma keepsShape_insertAtEnd tgt dx bb i s v s' :
  insertAtEnd tgt bb i s = Ok v s' ->
  bb ∉ sealed dx s -> isDiffCall i = false -> keepsShape dx s s'.
Proof.
  intros (t & _ & _ & _ & ->)%insertAtEnd_Ok Hbb Hi Hws.
  apply ws_appendOps; [done..|]. by intros ? ->%list_elem_of_singleton.
Qed.

Lemma keepsShape_emit tgt dx i :
  isDiffCall i = false -> respects (keepsShape dx) (emit tgt i).
Proof.
  intros Hi s v s' H Hws. unfold emit, bind, gets in H.
  eapply keepsShape_insertAtEnd; [exact H| |done|done].
  by apply ws_insert_open.
Qed.

(** The state after [getOrCreateBasicBlock] created a block. *)
Lemma ws_getOrCreate_fresh dx a s :
  wellShaped dx s ->
  wellShaped dx
    (with_NextId (S (S (NextId s)))
       (with_Blocks
          (Blocks s ++
             [mkBB ("bb_" +++ utohexstr a)
                   [(NextId s, ICall (IntrinsicDecl trap) []);
                    (S (NextId s), IUnreachable)]])
          (with_BBByAddr (<[a := length (Blocks s)]> (BBByAddr s)) s))).
Proof.
  intros Hws.
  set (blk := mkBB _ _).
  assert (noDiffCall blk) as Hnd.
  { intros i Hi. subst blk. cbn in Hi.
    apply elem_of_cons in Hi as [->|Hi]; [done|].
    by apply list_elem_of_singleton in Hi as ->. }
  pose proof (ws_add_block dx s blk Hws Hnd) as H1.
  assert (wellShaped dx
            (with_BBByAddr (<[a := length (Blocks s)]> (BBByAddr s))
               (with_Blocks (Blocks s ++ [blk]) s))) as H2.
  { apply (ws_map_insert dx (with_Blocks (Blocks s ++ [blk]) s) a (length (Blocks s)));
      [done| |].
    - simpl_dcf. rewrite length_app. cbn. lia.
    - intros Hin. pose proof (ws_sealed_range dx s Hws _ Hin). lia. }
  eapply ws_sameShape; [|exact H2]. unfold sameShape. simpl_dcf. tauto.
Qed.

Lemma getOrCreateBasicBlock_Ok tgt a s bb s' :
  getOrCreateBasicBlock tgt a s = Ok bb s' ->
  BBByAddr s' !! a = Some bb
  /\ TheBB s' = TheBB s /\ InsertBB s' = InsertBB s /\ ExitBB s' = ExitBB s
  /\ CallBBs s' = CallBBs s
  /\ (forall x blk, Blocks s !! x = Some blk -> Blocks s' !! x = Some blk).
Proof.
  intros H. destruct (BBByAddr s !! a) as [bb0|] eqn:Hl.
  - rewrite (getOrCreateBasicBlock_known _ _ _ _ Hl) in H.
    injection H as <- <-. done.
  - rewrite (getOrCreateBasicBlock_fresh _ _ _ Hl) in H.
    injection H as <- <-. simpl_dcf. rewrite lookup_insert_eq.
    do 5 (split; [done|]). intros x blk Hx.
    by rewrite lookup_app_l by (by eapply lookup_lt_Some).
Qed.

Lemma keepsShape_getOrCreateBasicBlock tgt dx a :
  respects (keepsShape dx) (getOrCreateBasicBlock tgt a).
Proof.
  intros s bb s' H Hws. destruct (BBByAddr s !! a) as [bb0|] eqn:Hl.
  - rewrite (getOrCreateBasicBlock_known _ _ _ _ Hl) in H. by injection H as <- <-.
  - rewrite (getOrCreateBasicBlock_fresh _ _ _ Hl) in H. injection H as <- <-.
    by apply ws_getOrCreate_fresh.
Qed.

Lemma sealed_sameShape dx s s' : sameShape s s' -> sealed dx s' = sealed dx s.
Proof. intros (_ & HE & HC & _). unfold sealed. by rewrite HE, HC. Qed.

(** [insertCallBB] keeps the shape when the callee is not the diff
    function. *)
Lemma ws_afterCallBB dx Target bb blk s :
  wellShaped dx s ->
  TheBB s = Some bb -> InsertBB s = bb -> Blocks s !! bb = Some blk ->
  Target <> RegSetDiffFunction ->
  wellShaped dx (afterCallBB Target bb blk s).
Proof.
  intros Hws HT Hip Hblk Htgt.
  set (L := length (Blocks s)).
  set (n := NextId s).
  assert (bb < L)%nat as Hlt by (by eapply lookup_lt_Some).
  assert (bb ∉ sealed dx s) as Hbb by (by eapply ws_thebb_open).
  set (blk1 := mkBB (bbName blk) (bbInsts blk ++ [(S n, IBr L)])).
  set (cblk := mkBB (bbName blk +++ "_call")
                 [(n, ICall Target [RegSetArg]); (S (S n), IBr (S L))]).
  set (succ := mkBB (prefixBeforeAnyOf ["_"; "c"]%char (bbName blk) +++ "_c" +++
                       match CurrentInst s with
                       | Some i => utohexstr (Address i)
                       | None => ""
                       end) []).
  assert (noDiffCall blk1) as Hnd1.
  { subst blk1. destruct blk as [nm insts]. cbn [bbName bbInsts].
    apply noDiffCall_app.
    - eapply (ws_diff_only _ _ Hws); [exact Hblk|]. by eapply not_sealed_not_diff.
    - intros i Hi. cbn in Hi. by apply list_elem_of_singleton in Hi as ->. }
  assert (noDiffCall cblk) as Hndc.
  { intros i Hi. subst cblk. cbn in Hi.
    apply elem_of_cons in Hi as [->|Hi].
    - cbn. by destruct Target.
    - by apply list_elem_of_singleton in Hi as ->. }
  pose proof (ws_update_block dx s bb blk1 Hws Hbb Hnd1) as W1.
  pose proof (ws_add_block dx _ cblk W1 Hndc) as W2.
  pose proof (ws_add_block dx _ succ W2 (noDiffCall_nil _)) as W3.
  set (s3 := with_Blocks _ _) in W3.
  assert (length (Blocks s3) = S (S L)) as HL3.
  { subst s3. simpl_dcf. rewrite !length_app, length_insert. cbn. lia. }
  assert (sealed dx s3 = sealed dx s) as Hs3 by reflexivity.
  assert (forall x, x ∈ sealed dx s -> (x < L)%nat) as Hrange
    by apply (ws_sealed_range _ _ Hws).
  assert (S L ∉ sealed dx s3) as HSL.
  { rewrite Hs3. intros Hin%Hrange. lia. }
  assert (wellShaped dx (with_TheBB (Some (S L)) s3)) as W4.
  { apply ws_set_TheBB; [done|]. by intros x [= <-]. }
  assert (wellShaped dx (with_InsertBB (S L) (with_TheBB (Some (S L)) s3))) as W5.
  { by apply ws_set_InsertBB. }
  set (s5 := with_InsertBB _ _) in W5.
  assert (Blocks s5 !! L = Some cblk) as Hc5.
  { subst s5 s3. simpl_dcf.
    rewrite lookup_app_l by (rewrite length_app, length_insert; cbn; lia).
    rewrite lookup_app_r by (rewrite length_insert; lia).
    by rewrite length_insert, Nat.sub_diag. }
  assert (wellShaped dx (with_CallBBs (CallBBs s5 ++ [L]) s5)) as W6.
  { eapply ws_push_CallBB; [exact W5|exact Hc5| | | | |].
    - by exists n, (S (S n)), Target, (S L).
    - change (sealed dx s5) with (sealed dx s). intros Hin%Hrange. lia.
    - subst s5. simpl_dcf. lia.
    - subst s5. simpl_dcf. intros [= ?]. lia.
    - intros a Ha. change (BBByAddr s5) with (BBByAddr s) in Ha.
      apply (ws_map_range _ _ Hws) in Ha. lia. }
  eapply ws_sameShape; [|exact W6].
  unfold sameShape, afterCallBB. subst s5 s3. simpl_dcf.
  rewrite <- app_assoc. cbn [app]. tauto.
Qed.

Lemma keepsShape_insertCallBB tgt dx v :
  v <> RegSetDiffFunction -> respects (keepsShape dx) (insertCallBB tgt v).
Proof.
  intros Hv s cb s' (bb & blk & t & HT & Hip & Hblk & _ & _ & ->)%insertCallBB_Ok Hws.
  by apply ws_afterCallBB.
Qed.

(** [translateInst] keeps the shape, provided the target's methods do. *)
Lemma keepsShape_translateInst tgt tbl opts hooks dx fuel d :
  hooksRespect (keepsShape dx) hooks ->
  respects (keepsShape dx) (translateInst tgt tbl opts hooks fuel d).
Proof.
  intros (H1 & H2 & H3 & H4 & H5).
  apply respects_translateInst;
    eauto using keepsShape_refl, keepsShape_trans, keepsShape_scratch,
      keepsShape_emit, keepsShape_getOrCreateBasicBlock, keepsShape_insertCallBB.
Qed.

(** ** The constructor *)

Lemma newDCFunction_eq tgt opts mcf :
  mcfBlocks mcf <> [] ->
  newDCFunction tgt opts mcf
  = Ok tt (constructed (EnableRegSetDiff opts) (mcfStartAddr mcf)).
Proof.
  intros Hne. unfold newDCFunction, construct, constructed.
  destruct (mcfBlocks mcf) as [|b r] eqn:Hb; [done|].
  cbn [length Nat.eqb negb assert].
  destruct (EnableRegSetDiff opts).
  - reflexivity.
  - reflexivity.
Qed.

Lemma ws_constructed (diff : bool) (a : N) :
  wellShaped (if diff then Some 2%nat else None) (constructed diff a).
Proof.
  destruct diff; split; unfold sealed; cbn -[utohexstr String.append].
  - intros a' b [(_ & <-)|(_ & H)]%lookup_insert_Some; [lia|by simplify_map_eq].
  - intros b Hb. repeat (apply elem_of_cons in Hb as [->|Hb]; [lia|]).
    by apply elem_of_nil in Hb.
  - intros Hb. repeat (apply elem_of_cons in Hb as [?|Hb]; [done|]).
    by apply elem_of_nil in Hb.
  - intros b [= <-] Hb. repeat (apply elem_of_cons in Hb as [?|Hb]; [done|]).
    by apply elem_of_nil in Hb.
  - intros a' b [(_ & <-)|(_ & H)]%lookup_insert_Some; [|by simplify_map_eq].
    intros Hb. repeat (apply elem_of_cons in Hb as [?|Hb]; [done|]).
    by apply elem_of_nil in Hb.
  - constructor.
  - intros cb Hcb. by apply elem_of_nil in Hcb.
  - eexists. split; reflexivity.
  - intros d [= <-]. eexists _, _, _. split; reflexivity.
  - intros bb blk Hbb Hne i Hi.
    destruct bb as [|[|[|[|bb]]]]; cbn in Hbb; try done;
      injection Hbb as <-; cbn in Hi;
      repeat (apply elem_of_cons in Hi as [->|Hi]; [done|]);
      by apply elem_of_nil in Hi.
  - intros a' b [(_ & <-)|(_ & H)]%lookup_insert_Some; [lia|by simplify_map_eq].
  - intros b Hb. repeat (apply elem_of_cons in Hb as [->|Hb]; [lia|]).
    by apply elem_of_nil in Hb.
  - intros Hb. repeat (apply elem_of_cons in Hb as [?|Hb]; [done|]).
    by apply elem_of_nil in Hb.
  - intros b [= <-] Hb. repeat (apply elem_of_cons in Hb as [?|Hb]; [done|]).
    by apply elem_of_nil in Hb.
  - intros a' b [(_ & <-)|(_ & H)]%lookup_insert_Some; [|by simplify_map_eq].
    intros Hb. repeat (apply elem_of_cons in Hb as [?|Hb]; [done|]).
    by apply elem_of_nil in Hb.
  - constructor.
  - intros cb Hcb. by apply elem_of_nil in Hcb.
  - eexists. split; reflexivity.
  - done.
  - intros bb blk Hbb Hne i Hi.
    destruct bb as [|[|[|bb]]]; cbn in Hbb; try done;
      injection Hbb as <-; cbn in Hi;
      repeat (apply elem_of_cons in Hi as [->|Hi]; [done|]);
      by apply elem_of_nil in Hi.
Qed.

(** ** The other entry points keep the shape *)

Lemma prepareBasicBlockForInsertion_Ok BB s u s' :
  prepareBasicBlockForInsertion BB s = Ok u s' ->
  exists b, Blocks s !! BB = Some b
    /\ s' = with_Blocks (<[BB := mkBB (bbName b) []]> (Blocks s)) s.
Proof.
  unfold prepareBasicBlockForInsertion, getBlock. intros H.
  apply bind_Ok in H as (b & s1 & Hb & H).
  apply bind_Ok in Hb as (bs & s0 & [-> ->]%gets_Ok & [Hb ->]%fromOption_Ok).
  destruct (bbOps b) as [|? [|[] [|]]]; try done.
  apply modify_Ok in H as ->. eauto.
Qed.

Lemma keepsShape_SwitchToBasicBlockAt tgt dx a :
  respects (keepsShape dx) (SwitchToBasicBlockAt tgt a).
Proof.
  intros s u s' H Hws. unfold SwitchToBasicBlockAt in H.
  apply bind_Ok in H as (bb & s1 & Hg & H).
  pose proof (keepsShape_getOrCreateBasicBlock tgt dx a _ _ _ Hg Hws) as W1.
  apply getOrCreateBasicBlock_Ok in Hg as (Hmap & _).
  assert (bb ∉ sealed dx s1) as Hbb by (by eapply ws_map_open).
  apply bind_Ok in H as (u1 & s2 & ->%modify_Ok & H).
  assert (wellShaped dx (with_TheBB (Some bb) s1)) as W2.
  { apply ws_set_TheBB; [done|]. by intros x [= <-]. }
  apply bind_Ok in H as (u2 & s3 & (b & Hb & ->)%prepareBasicBlockForInsertion_Ok & H).
  assert (wellShaped dx (with_Blocks (<[bb:=mkBB (bbName b) []]> (Blocks (with_TheBB (Some bb) s1)))
                           (with_TheBB (Some bb) s1))) as W3.
  { apply ws_update_block; [done|done|apply noDiffCall_nil]. }
  apply bind_Ok in H as (u3 & s4 & ->%modify_Ok & H).
  set (s3 := with_Blocks _ _) in *.
  assert (wellShaped dx (with_InsertBB bb s3)) as W4 by (by apply ws_set_InsertBB).
  revert H. generalize (with_InsertBB bb s3) W4. clear. intros s4 W4 H.
  assert (respects (keepsShape dx)
            (notifyDRS (EvSwitchToBasicBlock bb);;;
             c <- ConstantInt_get (getRegType tgt (getProgramCounter tgt)) a;;
             setReg tgt (getProgramCounter tgt) c)) as Hr.
  { apply respects_bind; [apply keepsShape_trans| |intros ?].
    - apply respects_notifyDRS, keepsShape_scratch.
    - apply respects_bind; [apply keepsShape_trans| |intros ?].
      + apply respects_ConstantInt_get, keepsShape_refl.
      + apply respects_setReg;
          [apply keepsShape_refl|apply keepsShape_trans|].
        intros i Hi _. by apply keepsShape_emit. }
  by eapply Hr.
Qed.

Lemma keepsShape_SwitchToBasicBlock tgt dx mcbb :
  respects (keepsShape dx) (SwitchToBasicBlock tgt mcbb).
Proof.
  unfold SwitchToBasicBlock, getBasicBlockStartAddress.
  apply respects_bind; [apply keepsShape_trans| |intros ?].
  { apply respects_modify; [apply keepsShape_scratch|].
    intros s. unfold sameIR. simpl_dcf. tauto. }
  apply respects_bind; [apply keepsShape_trans| |intros ?].
  { apply respects_bind; [apply keepsShape_trans| |intros [?|]].
    - apply respects_gets, keepsShape_refl.
    - apply respects_ret, keepsShape_refl.
    - apply respects_abort. }
  apply keepsShape_SwitchToBasicBlockAt.
Qed.

Lemma keepsShape_FinalizeBasicBlock tgt dx :
  respects (keepsShape dx) (FinalizeBasicBlock tgt).
Proof.
  intros s u s' H Hws. unfold FinalizeBasicBlock, theBB, getBlock in H.
  apply bind_Ok in H as (bb & s0 & Hbb & H).
  apply bind_Ok in Hbb as (obb & ? & [-> ->]%gets_Ok & [HT ->]%fromOption_Ok).
  apply bind_Ok in H as (b & s0 & Hb & H).
  apply bind_Ok in Hb as (bs & ? & [-> ->]%gets_Ok & [Hb ->]%fromOption_Ok).
  apply bind_Ok in H as (u4 & s1 & Hterm & H).
  assert (wellShaped dx s1 /\ TheBB s1 = Some bb) as [W1 HT1].
  { destruct (getTerminator b).
    - by apply ret_Ok in Hterm as [_ ->].
    - unfold getBasicBlockEndAddress in Hterm.
      apply bind_Ok in Hterm as (a & ? & Ha & Hterm).
      apply bind_Ok in Ha as (m & ? & [-> ->]%gets_Ok & Ha).
      destruct (TheMCBB s) as [mb|]; [|done]. apply ret_Ok in Ha as [-> ->].
      apply bind_Ok in Hterm as (dest & sa & Hg & Hterm).
      pose proof (keepsShape_getOrCreateBasicBlock tgt dx _ _ _ _ Hg Hws) as Wa.
      apply getOrCreateBasicBlock_Ok in Hg as (_ & HTa & _).
      apply bind_Ok in Hterm as (v & sb & Hi & [_ ->]%ret_Ok).
      assert (bb ∉ sealed dx sa) as Hopen
        by (eapply ws_thebb_open; [done|congruence]).
      split.
      + by eapply (keepsShape_insertAtEnd tgt dx bb (IBr dest) sa v sb Hi).
      + apply insertAtEnd_Ok in Hi as (u5 & _ & _ & _ & ->).
        rewrite appendOps_TheBB. congruence. }
  apply bind_Ok in H as (u6 & s2 & ->%modify_Ok & H).
  apply bind_Ok in H as (u7 & s3 & ->%modify_Ok & ->%modify_Ok).
  eapply ws_sameShape; [|apply (ws_set_TheBB dx s1 None W1); done].
  unfold sameShape. simpl_dcf. tauto.
Qed.

Lemma keepsShape_createExternalTailCallBB tgt dx a :
  respects (keepsShape dx) (createExternalTailCallBB tgt a).
Proof.
  unfold createExternalTailCallBB.
  apply respects_bind; [apply keepsShape_trans| |intros ?].
  { apply keepsShape_SwitchToBasicBlockAt. }
  apply respects_bind; [apply keepsShape_trans| |intros ?].
  { by apply keepsShape_insertCallBB. }
  apply respects_bind; [apply keepsShape_trans| |intros ?].
  { by apply keepsShape_emit. }
  apply respects_ret, keepsShape_refl.
Qed.

(** ** The states a translation goes through *)

Lemma Reachable_wellShaped tgt tbl opts hooks mcf s :
  hooksRespect (keepsShape (diffExitBlock opts)) hooks ->
  Reachable tgt tbl opts hooks mcf s -> wellShaped (diffExitBlock opts) s.
Proof.
  intros Hh Hr. induction Hr as [s H|s mcbb s' _ IH H|s fuel d ok s' _ IH H
                                 |s s' _ IH H|s a s' _ IH H].
  - destruct (mcfBlocks mcf) as [|b r] eqn:Hb.
    + unfold newDCFunction, construct in H. rewrite Hb in H. done.
    + rewrite newDCFunction_eq in H by (by rewrite Hb). injection H as <-.
      unfold diffExitBlock. apply ws_constructed.
  - by eapply keepsShape_SwitchToBasicBlock.
  - by eapply keepsShape_translateInst.
  - by eapply keepsShape_FinalizeBasicBlock.
  - by eapply keepsShape_createExternalTailCallBB.
Qed.


(** ** C8: the destructor *)

Lemma insertBefore_run tgt bb pos i s t b :
  resultTy tgt i = Some t ->
  Blocks s !! bb = Some b ->
  insertBefore tgt bb pos i s
  = Ok (InstRes (NextId s) t)
       (with_NextId (S (NextId s))
          (with_Blocks
             (<[bb := mkBB (bbName b)
                        (take pos (bbInsts b) ++ (NextId s, i) :: drop pos (bbInsts b))]>
                (Blocks s)) s)).
Proof. intros Ht Hb. unfold insertBefore. by rewrite Ht, Hb. Qed.

Lemma finalizeCallBB_run tgt cb s blk c b :
  Blocks s !! cb = Some blk ->
  bbInsts blk = [c; b] ->
  finalizeCallBB tgt cb s
  = Ok tt
      (with_NextId (S (S (NextId s)))
         (with_Blocks
            (<[cb := mkBB (bbName blk)
                       [(NextId s, RSaveAllLocalRegs); c;
                        (S (NextId s), RRestoreLocalRegs); b]]> (Blocks s)) s)).
Proof.
  intros Hblk Hi.
  assert (cb < length (Blocks s))%nat as Hlt by (by eapply lookup_lt_Some).
  unfold finalizeCallBB.
  rewrite bind_run with (a := blk) (s1 := s)
    by (unfold getBlock, bind, gets; by rewrite Hblk).
  rewrite Hi. cbn [length Nat.eqb assert].
  unfold bind at 1, ret at 1.
  erewrite bind_run by (by eapply insertBefore_run).
  erewrite bind_run.
  2:{ eapply insertBefore_run; [done|]. simpl_dcf.
      by apply list_lookup_insert_eq. }
  unfold ret. f_equal. simpl_dcf. rewrite Hi. cbn [take drop app bbName bbInsts].
  dcf_fields; try reflexivity.
  by rewrite list_insert_insert_eq.
Qed.

Lemma forEach_finalizeCallBB tgt l : forall s,
  NoDup l ->
  (forall cb, cb ∈ l -> exists blk, Blocks s !! cb = Some blk /\ isCallBlock blk) ->
  exists s',
    forEach (finalizeCallBB tgt) l s = Ok tt s'
    /\ (forall cb blk, cb ∈ l -> Blocks s !! cb = Some blk ->
        exists blk', Blocks s' !! cb = Some blk' /\ wrapped blk blk')
    /\ (forall bb, bb ∉ l -> Blocks s' !! bb = Blocks s !! bb)
    /\ DRSLog s' = DRSLog s /\ ExitBB s' = ExitBB s.
Proof.
  induction l as [|cb r IH]; intros s Hnd Hshape.
  - exists s. cbn. split; [done|]. split; [|done].
    intros cb blk Hcb. by apply elem_of_nil in Hcb.
  - apply NoDup_cons in Hnd as [Hcb Hnd].
    destruct (Hshape cb) as (blk & Hblk & i1 & i2 & callee & nxt & Hi);
      [by left|].
    pose proof (finalizeCallBB_run tgt cb s blk _ _ Hblk Hi) as Hrun.
    set (s1 := with_NextId _ _) in Hrun.
    assert (cb < length (Blocks s))%nat as Hlt by (by eapply lookup_lt_Some).
    assert (forall x, x <> cb -> Blocks s1 !! x = Blocks s !! x) as Hother.
    { intros x Hx. subst s1. simpl_dcf. by rewrite list_lookup_insert_ne. }
    destruct (IH s1 Hnd) as (s' & Hrest & Hw & Hkeep & Hlog & Hexit).
    { intros x Hx. rewrite Hother by (intros ->; done). apply Hshape. by right. }
    exists s'. split; [|split; [|split; [|split]]].
    + cbn [forEach]. by rewrite (bind_run _ _ _ _ _ Hrun).
    + intros x blkx [->|Hx]%elem_of_cons Hbx.
      * rewrite Hkeep by done. subst s1. simpl_dcf.
        rewrite list_lookup_insert_eq by done.
        eexists. split; [done|].
        replace blkx with blk by congruence.
        by exists i1, i2, (NextId s), (S (NextId s)), callee, nxt.
      * apply Hw; [done|]. rewrite Hother; [done|]. intros ->. done.
    + intros bb Hbb. apply not_elem_of_cons in Hbb as [Hne Hbb].
      rewrite Hkeep by done. by apply Hother.
    + by rewrite Hlog.
    + by rewrite Hexit.
Qed.

(** C8. In every state a translation can reach (the target's methods being
    assumed to keep the call blocks as they are), each block recorded in
    [CallBBs] holds exactly two instructions, a call on the register set and
    a branch.  The destructor then runs to its end: in each recorded block it
    puts the save of the local registers before the call and the restore
    after it, before the branch; it leaves the other blocks alone; and last
    it notifies the register semantics with [FinalizeFunction(ExitBB)]. *)
Theorem call_blocks_wrapped_by_destructor
    (tgt : Target) (tbl : Tables) (opts : Options) (hooks : Hooks)
    (mcf : MCFunction) (s : DCFunction) :
  hooksRespect (keepsShape (diffExitBlock opts)) hooks ->
  Reachable tgt tbl opts hooks mcf s ->
  (forall cb, cb ∈ CallBBs s ->
     exists blk i1 i2 callee nxt,
       Blocks s !! cb = Some blk
       /\ bbInsts blk = [(i1, ICall callee [RegSetArg]); (i2, IBr nxt)])
  /\ exists s',
      destruct_ tgt s = Ok tt s'
      /\ (forall cb blk, cb ∈ CallBBs s -> Blocks s !! cb = Some blk ->
          exists blk', Blocks s' !! cb = Some blk' /\ wrapped blk blk')
      /\ (forall bb, bb ∉ CallBBs s -> Blocks s' !! bb = Blocks s !! bb)
      /\ DRSLog s' = DRSLog s ++ [EvFinalizeFunction (ExitBB s)].
Proof.
  intros Hh Hr.
  pose proof (Reachable_wellShaped tgt tbl opts hooks mcf s Hh Hr) as Hws.
  split.
  - intros cb Hcb.
    destruct (ws_calls_shape _ _ Hws cb Hcb) as (blk & Hblk & i1 & i2 & c & n & Hi).
    by exists blk, i1, i2, c, n.
  - destruct (forEach_finalizeCallBB tgt (CallBBs s) s
                (ws_calls_nodup _ _ Hws) (ws_calls_shape _ _ Hws))
      as (s1 & Hrun & Hw & Hkeep & Hlog & Hexit).
    exists (with_DRSLog (DRSLog s1 ++ [EvFinalizeFunction (ExitBB s1)]) s1).
    split; [|split; [|split]].
    + unfold destruct_. unfold bind at 1, gets at 1.
      by rewrite (bind_run _ _ _ _ _ Hrun).
    + exact Hw.
    + exact Hkeep.
    + simpl_dcf. by rewrite Hlog, Hexit.
Qed.

Lemma Sample_keepsShape dx : hooksRespect (keepsShape dx) Sample.hooks.
Proof. apply hooksRespect_sample, keepsShape_refl. Qed.

Lemma Sample_reachable_opened diff :
  Reachable Sample.target Sample.tables (Sample.options diff false) Sample.hooks
    Sample.mcf (Sample.opened diff).
Proof.
  destruct diff.
  - apply (reach_switch _ _ _ _ _ (Sample.fresh true) Sample.mcbb);
      [apply reach_new|]; vm_compute; reflexivity.
  - apply (reach_switch _ _ _ _ _ (Sample.fresh false) Sample.mcbb);
      [apply reach_new|]; vm_compute; reflexivity.
Qed.

Lemma call_blocks_wrapped_by_destructor_witness :
  let opts := Sample.options false false in
  let s := Sample.stateOf
             (translateInst Sample.target Sample.tables opts Sample.hooks 8
                Sample.jmpRegInst (Sample.opened false)) in
  hooksRespect (keepsShape (diffExitBlock opts)) Sample.hooks
  /\ Reachable Sample.target Sample.tables opts Sample.hooks Sample.mcf s
  /\ CallBBs s = [3%nat]
  /\ exists s',
      destruct_ Sample.target s = Ok tt s'
      /\ (forall cb blk, cb ∈ CallBBs s -> Blocks s !! cb = Some blk ->
          exists blk', Blocks s' !! cb = Some blk' /\ wrapped blk blk')
      /\ (forall bb, bb ∉ CallBBs s -> Blocks s' !! bb = Blocks s !! bb)
      /\ DRSLog s' = DRSLog s ++ [EvFinalizeFunction (ExitBB s)].
Proof.
  intros opts s.
  assert (hooksRespect (keepsShape (diffExitBlock opts)) Sample.hooks) as H1
    by apply Sample_keepsShape.
  assert (Reachable Sample.target Sample.tables opts Sample.hooks Sample.mcf s)
    as H2.
  { apply (reach_inst _ _ _ _ _ (Sample.opened false) 8 Sample.jmpRegInst true);
      [apply (Sample_reachable_opened false)|].
    vm_compute. reflexivity. }
  split; [exact H1|]. split; [exact H2|].
  split; [vm_compute; reflexivity|].
  exact (proj2 (call_blocks_wrapped_by_destructor Sample.target Sample.tables
                  opts Sample.hooks Sample.mcf s H1 H2)).
Defined.

(** ** C7: return paths and the diff call *)

Lemma tailCallRun_reachable :
  Reachable Sample.target Sample.tables (Sample.options true false)
    Sample.hooks Sample.mcf tailCallRun.
Proof.
  apply (reach_tailcall _ _ _ _ _ jumpFinalized 8192);
    [apply (reach_finalize _ _ _ _ _ jumpTranslated);
     [apply (reach_inst _ _ _ _ _ (Sample.opened true) 8 Sample.jmpInst true);
      [apply (Sample_reachable_opened true)|]|]|];
    vm_compute; reflexivity.
Qed.

(** C7, as stated, fails: with diffing on, the path from the entry block
    through the tail-call block returns without a diff call. *)
Lemma tail_call_returns_without_diff :
  EnableRegSetDiff (Sample.options true false) = true
  /\ Reachable Sample.target Sample.tables (Sample.options true false)
       Sample.hooks Sample.mcf tailCallRun
  /\ isReturnPath (Blocks tailCallRun) [entryBlock; 3; 4; 5; 6]%nat = true
  /\ diffCallsOn (Blocks tailCallRun) [entryBlock; 3; 4; 5; 6]%nat = 0%nat
  /\ ~ (forall p, hd_error p = Some entryBlock ->
          isReturnPath (Blocks tailCallRun) p = true ->
          diffCallsOn (Blocks tailCallRun) p = 1%nat).
Proof.
  split; [reflexivity|].
  split; [apply tailCallRun_reachable|].
  assert (isReturnPath (Blocks tailCallRun) [entryBlock; 3; 4; 5; 6]%nat = true)
    as Hp by (vm_compute; reflexivity).
  assert (diffCallsOn (Blocks tailCallRun) [entryBlock; 3; 4; 5; 6]%nat = 0%nat)
    as Hd by (vm_compute; reflexivity).
  split; [exact Hp|]. split; [exact Hd|].
  intros Hall.
  specialize (Hall [entryBlock; 3; 4; 5; 6]%nat eq_refl Hp).
  rewrite Hd in Hall. discriminate.
Qed.

Lemma countb_all_false {A} (f : A -> bool) (l : list A) :
  (forall x, x ∈ l -> f x = false) -> countb f l = 0%nat.
Proof.
  induction l as [|x r IH]; intros H; [done|]. cbn.
  rewrite (H x) by (by left). rewrite IH; [done|].
  intros y Hy. apply H. by right.
Qed.

Lemma diffCallsIn_noDiffCall b : noDiffCall b -> diffCallsIn b = 0%nat.
Proof. intros H. by apply countb_all_false. Qed.

Lemma diffCallsOn_none bs p :
  (forall x b, bs !! x = Some b -> noDiffCall b) -> diffCallsOn bs p = 0%nat.
Proof.
  intros H. induction p as [|x r IH]; [done|]. cbn. rewrite IH.
  destruct (bs !! x) as [b|] eqn:Hb; [|done].
  by rewrite (diffCallsIn_noDiffCall b (H x b Hb)).
Qed.

(** With the exit block branching to the diff-exit block [d], the only block
    holding a diff call, a return path through the exit block ends with the
    exit block and [d], and meets one diff call. *)
Lemma diffCallsOn_through_exit bs E d be bd fn args :
  bs !! E = Some be -> bbOps be = [IBr d] ->
  bs !! d = Some bd ->
  bbOps bd = [ICast IntToPtr fn getInt8PtrTy; ICall RegSetDiffFunction args; IRet] ->
  (forall x b, bs !! x = Some b -> x <> d -> noDiffCall b) ->
  forall p, isReturnPath bs p = true -> E ∈ p -> diffCallsOn bs p = 1%nat.
Proof.
  intros HE HEops Hd Hdops Hother.
  assert (successor be = Some d) as HsE by (unfold successor; by rewrite HEops).
  assert (returns be = false) as HrE by (unfold returns; by rewrite HEops).
  assert (successor bd = None) as Hsd by (unfold successor; by rewrite Hdops).
  assert (diffCallsIn bd = 1%nat) as Hcd by (unfold diffCallsIn; by rewrite Hdops).
  assert (diffCallsIn be = 0%nat) as HcE by (unfold diffCallsIn; by rewrite HEops).
  induction p as [|x r IH]; [done|].
  cbn [isReturnPath diffCallsOn].
  destruct (bs !! x) as [b|] eqn:Hb; [|done].
  destruct r as [|y r'].
  - intros Hret Hin. apply list_elem_of_singleton in Hin as ->.
    congruence.
  - destruct (successor b) as [dd|] eqn:Hs; [|done].
    intros [Heq Hrest]%andb_true_iff Hin. apply Nat.eqb_eq in Heq as ->.
    destruct (decide (x = E)) as [->|Hne].
    + replace b with be in * by congruence.
      replace y with d in * by congruence.
      rewrite HcE. cbn [isReturnPath diffCallsOn] in *. rewrite Hd in *.
      destruct r' as [|z r''].
      * rewrite Hcd. done.
      * by rewrite Hsd in Hrest.
    + apply elem_of_cons in Hin as [?|Hin]; [done|].
      rewrite (IH Hrest Hin).
      assert (x <> d) as Hxd by (intros ->; congruence).
      by rewrite (diffCallsIn_noDiffCall b (Hother x b Hb Hxd)).
Qed.

Lemma Reachable_nonempty tgt tbl opts hooks mcf s :
  Reachable tgt tbl opts hooks mcf s -> mcfBlocks mcf <> [].
Proof.
  induction 1 as [s H| | | |]; try done.
  intros Hnil. unfold newDCFunction, construct in H. by rewrite Hnil in H.
Qed.

(** ** Opening a basic block *)

Lemma SwitchToBasicBlockAt_unfold tgt a s :
  SwitchToBasicBlockAt tgt a s
  = match getOrCreateBasicBlock tgt a s with
    | Ok bb s1 =>
        match Blocks s1 !! bb with
        | Some b =>
            if isPlaceholder b then
              match getScalarType (getRegType tgt (getProgramCounter tgt)) with
              | IntegerTy w => Ok tt (openedBlock tgt a w bb b s1)
              | _ => Abort
              end
            else Abort
        | None => Abort
        end
    | Abort => Abort
    | Timeout => Timeout
    end.
Proof.
  unfold SwitchToBasicBlockAt. unfold bind at 1.
  destruct (getOrCreateBasicBlock tgt a s) as [bb s1| |]; [|done..].
  unfold bind at 1, modify at 1.
  unfold prepareBasicBlockForInsertion, getBlock.
  unfold bind at 1. unfold bind at 1. unfold bind at 1, gets at 1.
  cbn [Blocks with_TheBB].
  destruct (Blocks s1 !! bb) as [b|] eqn:Hb; [|done].
  cbn [fromOption ret]. unfold isPlaceholder.
  destruct (bbOps b) as [|i0 [|[] [|]]] eqn:Hops; try done.
  unfold modify at 1, SetInsertPoint, notifyDRS.
  unfold bind at 1, modify at 1. unfold bind at 1, modify at 1.
  unfold bind at 1, ConstantInt_get.
  destruct (getScalarType (getRegType tgt (getProgramCounter tgt))); try done.
  cbn [ret]. unfold setReg.
  assert (bb < length (Blocks s1))%nat as Hlt by (by eapply lookup_lt_Some).
  erewrite bind_run
    by (apply emit_appendOps;
        [reflexivity
        |simpl_dcf; apply lookup_lt_is_Some; by rewrite length_insert]).
  unfold ret, openedBlock, appendOps. simpl_dcf.
  rewrite list_lookup_insert_eq by done. f_equal.
  apply DCFunction_eq; simpl_dcf; try done.
  by rewrite list_insert_insert_eq.
Qed.

Lemma SwitchToBasicBlock_unfold tgt mcbb s :
  SwitchToBasicBlock tgt mcbb s
  = SwitchToBasicBlockAt tgt (mcbbStartAddr mcbb) (with_TheMCBB (Some mcbb) s).
Proof. reflexivity. Qed.

Lemma SwitchToBasicBlockAt_Ok tgt a s u s' :
  SwitchToBasicBlockAt tgt a s = Ok u s' ->
  exists bb s1 b w,
    getOrCreateBasicBlock tgt a s = Ok bb s1
    /\ Blocks s1 !! bb = Some b /\ isPlaceholder b = true
    /\ getScalarType (getRegType tgt (getProgramCounter tgt)) = IntegerTy w
    /\ s' = openedBlock tgt a w bb b s1.
Proof.
  rewrite SwitchToBasicBlockAt_unfold.
  destruct (getOrCreateBasicBlock tgt a s) as [bb s1| |]; [|done..].
  destruct (Blocks s1 !! bb) as [b|] eqn:Hb; [|done].
  destruct (isPlaceholder b) eqn:Hp; [|done].
  destruct (getScalarType _) as [|w| | | | |] eqn:Hw; try done.
  intros [= <-]. by exists bb, s1, b, w.
Qed.

(** A block that has been opened is no placeholder any more. *)
Lemma canOpen_openedBlock tgt a w bb b s :
  BBByAddr s !! a = Some bb ->
  Blocks s !! bb = Some b ->
  canOpen (openedBlock tgt a w bb b s) a = false.
Proof.
  intros Hm Hb. unfold canOpen, openedBlock. simpl_dcf. rewrite Hm.
  by rewrite list_lookup_insert_eq by (by eapply lookup_lt_Some).
Qed.

Lemma SwitchToBasicBlockAt_closed tgt a s :
  canOpen s a = false -> SwitchToBasicBlockAt tgt a s = Abort.
Proof.
  unfold canOpen. intros H. rewrite SwitchToBasicBlockAt_unfold.
  destruct (BBByAddr s !! a) as [bb|] eqn:Hm; [|done].
  rewrite (getOrCreateBasicBlock_known _ _ _ _ Hm).
  destruct (Blocks s !! bb); [|done]. by rewrite H.
Qed.

(** X1. [SwitchToBasicBlock(MCBB)] succeeds exactly when the start address
    of [MCBB] has no block yet or has one that still holds the trap and
    [unreachable] of [getOrCreateBasicBlock]; otherwise the assertion of
    [prepareBasicBlockForInsertion] fails.  When it succeeds, the block of the
    address (a new block named ["bb_" + utohexstr(addr)] at the end of the
    function when there was none) is the current block and the insertion
    point, the register semantics has been told of the switch, and the block
    holds one instruction and no other: the write of the start address to the
    program counter.  No other block of the function changes, and no other
    address changes its block. *)
Theorem SwitchToBasicBlock_opens_block
    (tgt : Target) (mcbb : MCBasicBlock) (s : DCFunction) (w : N) :
  getScalarType (getRegType tgt (getProgramCounter tgt)) = IntegerTy w ->
  let a := mcbbStartAddr mcbb in
  let pc := getProgramCounter tgt in
  (canOpen s a = false -> SwitchToBasicBlock tgt mcbb s = Abort)
  /\ (canOpen s a = true ->
      exists bb s' b',
        SwitchToBasicBlock tgt mcbb s = Ok tt s'
        /\ BBByAddr s' !! a = Some bb
        /\ (forall a', a' <> a -> BBByAddr s' !! a' = BBByAddr s !! a')
        /\ TheBB s' = Some bb /\ InsertBB s' = bb /\ TheMCBB s' = Some mcbb
        /\ Blocks s' !! bb = Some b'
        /\ bbOps b' = [RSetReg pc (ConstantInt (getRegType tgt pc) (a mod 2 ^ w))]
        /\ (BBByAddr s !! a = None ->
            bb = length (Blocks s) /\ bbName b' = "bb_" +++ utohexstr a)
        /\ (forall x, x <> bb -> (x < length (Blocks s))%nat ->
            Blocks s' !! x = Blocks s !! x)
        /\ DRSLog s' = DRSLog s ++ [EvSwitchToBasicBlock bb]).
Proof.
  intros Hw a pc. rewrite SwitchToBasicBlock_unfold. fold a. split.
  - intros Hc. by apply SwitchToBasicBlockAt_closed.
  - intros Hc. rewrite SwitchToBasicBlockAt_unfold. unfold canOpen in Hc.
    cbn [BBByAddr Blocks with_TheMCBB] in Hc.
    destruct (BBByAddr s !! a) as [bb|] eqn:Hm.
    + rewrite (getOrCreateBasicBlock_known tgt a (with_TheMCBB (Some mcbb) s) bb)
        by done.
      cbn [Blocks with_TheMCBB].
      destruct (Blocks s !! bb) as [b|] eqn:Hb; [|done]. rewrite Hc, Hw.
      assert (bb < length (Blocks s))%nat as Hlt by (by eapply lookup_lt_Some).
      eexists bb, _, _. split; [reflexivity|].
      unfold openedBlock. simpl_dcf.
      rewrite list_lookup_insert_eq by done.
      do 6 (split; [done|]). split; [done|]. split; [done|].
      split; [|done]. intros x Hx _. by rewrite list_lookup_insert_ne.
    + rewrite (getOrCreateBasicBlock_fresh tgt a (with_TheMCBB (Some mcbb) s))
        by done.
      simpl_dcf. rewrite lookup_snoc_length. cbn [isPlaceholder bbOps bbInsts map snd].
      rewrite Hw. eexists (length (Blocks s)), _, _. split; [reflexivity|].
      unfold openedBlock. simpl_dcf. rewrite insert_snoc_length.
      rewrite lookup_snoc_length, lookup_insert_eq.
      split; [done|]. split; [by intros a' Ha'; rewrite lookup_insert_ne|].
      do 5 (split; [done|]). split; [done|].
      split; [|done]. intros x _ Hx. by rewrite lookup_app_l.
Qed.

Lemma SwitchToBasicBlock_opens_block_witness :
  getScalarType (getRegType Sample.target (getProgramCounter Sample.target))
  = IntegerTy 64
  /\ canOpen (Sample.fresh false) 4096 = true
  /\ exists bb s' b',
      SwitchToBasicBlock Sample.target Sample.mcbb (Sample.fresh false) = Ok tt s'
      /\ Blocks s' !! bb = Some b'
      /\ bbOps b' = [RSetReg 0 (ConstantInt (IntegerTy 64) 4096)].
Proof.
  assert (getScalarType (getRegType Sample.target (getProgramCounter Sample.target))
          = IntegerTy 64) as Hw by reflexivity.
  assert (canOpen (Sample.fresh false) 4096 = true) as Hc
    by (vm_compute; reflexivity).
  split; [exact Hw|]. split; [exact Hc|].
  destruct (proj2 (SwitchToBasicBlock_opens_block Sample.target Sample.mcbb
                     (Sample.fresh false) 64 Hw) Hc)
    as (bb & s' & b' & Hrun & _ & _ & _ & _ & _ & Hb & Hops & _).
  exists bb, s', b'. done.
Defined.

(** ** Closing a basic block *)

Lemma getOrCreateBasicBlock_total tgt a s :
  exists bb s1, getOrCreateBasicBlock tgt a s = Ok bb s1.
Proof.
  destruct (BBByAddr s !! a) as [bb|] eqn:Hm.
  - eexists _, _. by apply getOrCreateBasicBlock_known.
  - eexists _, _. by apply getOrCreateBasicBlock_fresh.
Qed.

Lemma FinalizeBasicBlock_unfold tgt s :
  FinalizeBasicBlock tgt s
  = match TheBB s with
    | None => Abort
    | Some bb =>
        match Blocks s !! bb with
        | None => Abort
        | Some b =>
            match getTerminator b with
            | Some _ => Ok tt (closedBlock s)
            | None =>
                match TheMCBB s with
                | None => Abort
                | Some mcbb =>
                    match getOrCreateBasicBlock tgt (mcbbEndAddr mcbb) s with
                    | Ok dest s1 => Ok tt (closedBlock (appendOps bb [IBr dest] s1))
                    | Abort => Abort
                    | Timeout => Timeout
                    end
                end
            end
        end
    end.
Proof.
  unfold FinalizeBasicBlock, theBB, getBlock.
  unfold bind at 1. unfold bind at 1, gets at 1.
  destruct (TheBB s) as [bb|]; [|done]. cbn [fromOption ret].
  unfold bind at 1. unfold bind at 1, gets at 1.
  destruct (Blocks s !! bb) as [b|] eqn:Hb; [|done]. cbn [fromOption ret].
  unfold bind at 1.
  destruct (getTerminator b) as [t|]; [reflexivity|].
  unfold getBasicBlockEndAddress. unfold bind at 1. unfold bind at 1, gets at 1.
  destruct (TheMCBB s) as [mcbb|]; [|done]. cbn [ret].
  unfold bind at 1.
  destruct (getOrCreateBasicBlock tgt (mcbbEndAddr mcbb) s) as [dest s1| |] eqn:Hg;
    [|done..].
  apply getOrCreateBasicBlock_Ok in Hg as (_ & _ & _ & _ & _ & Hkeep).
  erewrite bind_run
    by (apply insertAtEnd_appendOps; [reflexivity|]; exists b; by apply Hkeep).
  reflexivity.
Qed.

(** X3. [FinalizeBasicBlock] needs a current block.  When that block ends
    with a terminator, the IR is left as it is.  When it does not, a branch to
    the block of the current MC block's end address is appended to it, that
    block being created as a placeholder if the address had none; without a
    current MC block this fails.  In both cases the register semantics is
    notified and the current block and MC block are reset to null, and the
    block that was current ends with a terminator. *)
Theorem FinalizeBasicBlock_terminates_block
    (tgt : Target) (s : DCFunction) (bb : nat) (b : BasicBlock) :
  TheBB s = Some bb ->
  Blocks s !! bb = Some b ->
  (is_Some (getTerminator b) ->
     FinalizeBasicBlock tgt s = Ok tt (closedBlock s))
  /\ (getTerminator b = None ->
      match TheMCBB s with
      | None => FinalizeBasicBlock tgt s = Abort
      | Some mcbb =>
          exists dest s1,
            getOrCreateBasicBlock tgt (mcbbEndAddr mcbb) s = Ok dest s1
            /\ FinalizeBasicBlock tgt s
               = Ok tt (closedBlock (appendOps bb [IBr dest] s1))
            /\ Blocks (appendOps bb [IBr dest] s1) !! bb
               = Some (mkBB (bbName b) (bbInsts b ++ [(NextId s1, IBr dest)]))
      end)
  /\ (forall s', FinalizeBasicBlock tgt s = Ok tt s' ->
      TheBB s' = None /\ TheMCBB s' = None
      /\ DRSLog s' = DRSLog s ++ [EvFinalizeBasicBlock]
      /\ exists b', Blocks s' !! bb = Some b' /\ is_Some (getTerminator b')).
Proof.
  intros HT Hb. rewrite FinalizeBasicBlock_unfold, HT, Hb.
  split; [|split].
  - intros [t Ht]. by rewrite Ht.
  - intros Ht. rewrite Ht. destruct (TheMCBB s) as [mcbb|]; [|done].
    destruct (getOrCreateBasicBlock_total tgt (mcbbEndAddr mcbb) s)
      as (dest & s1 & Hg).
    exists dest, s1. rewrite Hg. split; [done|]. split; [done|].
    apply getOrCreateBasicBlock_Ok in Hg as (_ & _ & _ & _ & _ & Hkeep).
    by rewrite (appendOps_lookup bb _ s1 b) by (by apply Hkeep).
  - intros s'. destruct (getTerminator b) as [t|] eqn:Ht.
    + intros [= <-]. unfold closedBlock. simpl_dcf.
      do 3 (split; [done|]). exists b. by rewrite Ht.
    + destruct (TheMCBB s) as [mcbb|]; [|done].
      destruct (getOrCreateBasicBlock tgt (mcbbEndAddr mcbb) s)
        as [dest s1| |] eqn:Hg; [|done..].
      intros [= <-]. unfold closedBlock. simpl_dcf.
      split; [done|]. split; [done|].
      assert (DRSLog s1 = DRSLog s) as Hlog.
      { destruct (BBByAddr s !! mcbbEndAddr mcbb) as [x|] eqn:Hm.
        - rewrite (getOrCreateBasicBlock_known _ _ _ _ Hm) in Hg. by injection Hg as <- <-.
        - rewrite (getOrCreateBasicBlock_fresh _ _ _ Hm) in Hg. by injection Hg as <- <-. }
      split; [by rewrite appendOps_DRSLog, Hlog|].
      apply getOrCreateBasicBlock_Ok in Hg as (_ & _ & _ & _ & _ & Hkeep).
      rewrite (appendOps_lookup bb _ s1 b) by (by apply Hkeep).
      eexists. split; [done|].
      unfold getTerminator, bbOps. cbn [bbInsts number].
      rewrite map_app. cbn [map snd]. rewrite last_snoc. cbn. eauto.
Qed.

Lemma FinalizeBasicBlock_terminates_block_witness :
  TheBB (Sample.opened false) = Some 2%nat
  /\ Blocks (Sample.opened false) !! 2%nat
     = Some (mkBB "bb_1000" [(4%nat, RSetReg 0 (ConstantInt (IntegerTy 64) 4096))])
  /\ exists s',
      FinalizeBasicBlock Sample.target (Sample.opened false) = Ok tt s'
      /\ Blocks s' !! 2%nat
         = Some (mkBB "bb_1000"
                   [(4%nat, RSetReg 0 (ConstantInt (IntegerTy 64) 4096));
                    (7%nat, IBr 3)]).
Proof.
  assert (TheBB (Sample.opened false) = Some 2%nat) as HT by reflexivity.
  assert (Blocks (Sample.opened false) !! 2%nat
          = Some (mkBB "bb_1000"
                    [(4%nat, RSetReg 0 (ConstantInt (IntegerTy 64) 4096))])) as Hb
    by (vm_compute; reflexivity).
  split; [exact HT|]. split; [exact Hb|].
  destruct (FinalizeBasicBlock_terminates_block Sample.target (Sample.opened false)
              2%nat _ HT Hb) as (_ & H & _).
  specialize (H eq_refl). cbn [TheMCBB] in H.
  change (TheMCBB (Sample.opened false)) with (Some Sample.mcbb) in H.
  destruct H as (dest & s1 & Hg & Hrun & Hblk).
  assert (dest = 3%nat /\ NextId s1 = 7%nat) as [-> Hn]
    by (vm_compute in Hg; injection Hg as <- <-; done).
  eexists. split; [exact Hrun|].
  unfold closedBlock. simpl_dcf. rewrite Hblk, Hn. reflexivity.
Defined.

Lemma SwitchToBasicBlockAt_open tgt a s w :
  getScalarType (getRegType tgt (getProgramCounter tgt)) = IntegerTy w ->
  canOpen s a = true ->
  exists bb b s1,
    getOrCreateBasicBlock tgt a s = Ok bb s1
    /\ Blocks s1 !! bb = Some b
    /\ SwitchToBasicBlockAt tgt a s = Ok tt (openedBlock tgt a w bb b s1)
    /\ CallBBs s1 = CallBBs s /\ CurrentInst s1 = CurrentInst s
    /\ DRSLog s1 = DRSLog s.
Proof.
  intros Hw Hc. rewrite SwitchToBasicBlockAt_unfold. unfold canOpen in Hc.
  destruct (BBByAddr s !! a) as [bb|] eqn:Hm.
  - rewrite (getOrCreateBasicBlock_known tgt a s bb) by done.
    destruct (Blocks s !! bb) as [b|] eqn:Hb; [|done]. rewrite Hc, Hw.
    exists bb, b, s. tauto.
  - rewrite (getOrCreateBasicBlock_fresh tgt a s) by done.
    simpl_dcf. rewrite lookup_snoc_length. cbn [isPlaceholder bbOps bbInsts map snd].
    rewrite Hw. eexists _, _, _. split; [reflexivity|]. simpl_dcf.
    rewrite lookup_snoc_length. tauto.
Qed.

(** ** The constructor, and the first block *)

(** X4. The constructor asserts that the MC function has a basic block.
    When it has one, the object is built: the entry block is the current block
    and the insertion point, it ends with a branch to the block of the
    function's start address, and that block is a placeholder.  So every MC
    basic block, whatever its start address, can be opened right after
    construction. *)
Theorem constructor_then_first_block
    (tgt : Target) (opts : Options) (mcf : MCFunction) (w : N) :
  getScalarType (getRegType tgt (getProgramCounter tgt)) = IntegerTy w ->
  (mcfBlocks mcf = [] -> newDCFunction tgt opts mcf = Abort)
  /\ (mcfBlocks mcf <> [] ->
      exists s1 first e p,
        newDCFunction tgt opts mcf = Ok tt s1
        /\ TheBB s1 = Some entryBlock /\ InsertBB s1 = entryBlock
        /\ TheMCBB s1 = None /\ CallBBs s1 = []
        /\ BBByAddr s1 = {[ mcfStartAddr mcf := first ]}
        /\ Blocks s1 !! entryBlock = Some e
        /\ bbName e = "entry_fn_" +++ utohexstr (mcfStartAddr mcf)
        /\ last (bbOps e) = Some (IBr first)
        /\ Blocks s1 !! first = Some p /\ isPlaceholder p = true
        /\ bbName p = "bb_" +++ utohexstr (mcfStartAddr mcf)
        /\ forall mcbb, exists s2, SwitchToBasicBlock tgt mcbb s1 = Ok tt s2).
Proof.
  intros Hw. split.
  - intros Hnil. unfold newDCFunction, construct. by rewrite Hnil.
  - intros Hne. rewrite (newDCFunction_eq tgt opts mcf Hne).
    assert (forall s1 mcbb,
              (forall a, canOpen s1 a = true) ->
              exists s2, SwitchToBasicBlock tgt mcbb s1 = Ok tt s2) as Hopen.
    { intros s1 mcbb Hc. rewrite SwitchToBasicBlock_unfold.
      destruct (SwitchToBasicBlockAt_open tgt (mcbbStartAddr mcbb)
                  (with_TheMCBB (Some mcbb) s1) w Hw (Hc _))
        as (bb & b & sa & _ & _ & Hrun & _).
      eauto. }
    unfold constructed. destruct (EnableRegSetDiff opts).
    + eexists _, 3%nat, _, _. split; [reflexivity|]. cbn.
      do 11 (split; [reflexivity|]).
      intros mcbb. apply Hopen. intros a. unfold canOpen. cbn.
      destruct (decide (a = mcfStartAddr mcf)) as [->|Hn].
      * by rewrite lookup_insert_eq.
      * by rewrite lookup_insert_ne.
    + eexists _, 2%nat, _, _. split; [reflexivity|]. cbn.
      do 11 (split; [reflexivity|]).
      intros mcbb. apply Hopen. intros a. unfold canOpen. cbn.
      destruct (decide (a = mcfStartAddr mcf)) as [->|Hn].
      * by rewrite lookup_insert_eq.
      * by rewrite lookup_insert_ne.
Qed.

Lemma constructor_then_first_block_witness :
  getScalarType (getRegType Sample.target (getProgramCounter Sample.target))
  = IntegerTy 64
  /\ newDCFunction Sample.target (Sample.options true false) (mkMCF 4096 [])
     = Abort.
Proof.
  assert (getScalarType (getRegType Sample.target (getProgramCounter Sample.target))
          = IntegerTy 64) as Hw by reflexivity.
  split; [exact Hw|].
  exact (proj1 (constructor_then_first_block Sample.target
                  (Sample.options true false) (mkMCF 4096 []) 64 Hw) eq_refl).
Defined.

(** ** External tail calls *)

(** The three blocks [createExternalTailCallBB] leaves when the block of the
    address can be opened. *)
Lemma createExternalTailCallBB_open
    (tgt : Target) (a : N) (s : DCFunction) (w : N) :
  getScalarType (getRegType tgt (getProgramCounter tgt)) = IntegerTy w ->
  canOpen s a = true ->
  let pc := getProgramCounter tgt in
  exists s' bb cb nb b1 b2 b3,
    createExternalTailCallBB tgt a s = Ok tt s'
    /\ BBByAddr s' !! a = Some bb
    /\ Blocks s' !! bb = Some b1
    /\ bbOps b1 = [RSetReg pc (ConstantInt (getRegType tgt pc) (a mod 2 ^ w));
                   IBr cb]
    /\ Blocks s' !! cb = Some b2
    /\ bbName b2 = bbName b1 +++ "_call"
    /\ bbOps b2 = [ICall (FunctionV a) [RegSetArg]; IBr nb]
    /\ Blocks s' !! nb = Some b3
    /\ bbOps b3 = [IRet]
    /\ CallBBs s' = CallBBs s ++ [cb]
    /\ TheBB s' = Some nb /\ InsertBB s' = nb.
Proof.
  intros Hw Hc pc. unfold createExternalTailCallBB.
  destruct (SwitchToBasicBlockAt_open tgt a s w Hw Hc)
    as (bb & b & s1 & Hg & Hb & Hrun & Hcalls & _ & _).
  apply getOrCreateBasicBlock_Ok in Hg as (Hm & _).
  assert (bb < length (Blocks s1))%nat as Hlt by (by eapply lookup_lt_Some).
  rewrite (bind_run _ _ _ _ _ Hrun).
  set (so := openedBlock tgt a w bb b s1).
  set (blk := mkBB (bbName b)
                [(NextId s1,
                  RSetReg pc (ConstantInt (getRegType tgt pc) (a mod 2 ^ w)))]).
  assert (Blocks so !! bb = Some blk) as Hblk.
  { subst so blk. unfold openedBlock. simpl_dcf.
    by rewrite list_lookup_insert_eq. }
  assert (length (Blocks so) = length (Blocks s1)) as Hlen.
  { subst so. unfold openedBlock. simpl_dcf. by rewrite length_insert. }
  assert (insertCallBB tgt (FunctionV a) so
          = Ok (length (Blocks so)) (afterCallBB (FunctionV a) bb blk so)) as Hcall.
  { apply (insertCallBB_run tgt (FunctionV a) so bb blk VoidTy); try done. }
  rewrite (bind_run _ _ _ _ _ Hcall).
  set (sc := afterCallBB (FunctionV a) bb blk so).
  assert (bb < length (Blocks so))%nat as Hlt' by lia.
  pose proof (afterCallBB_orig (FunctionV a) bb blk so Hlt') as Ho.
  pose proof (afterCallBB_call (FunctionV a) bb blk so Hlt') as Hk.
  pose proof (afterCallBB_succ (FunctionV a) bb blk so Hlt') as Hs.
  fold sc in Ho, Hk, Hs.
  assert (InsertBB sc = S (length (Blocks so))) as Hip by reflexivity.
  erewrite bind_run
    by (apply emit_appendOps; [reflexivity|]; rewrite Hip; eauto).
  rewrite Hip.
  eexists _, bb, (length (Blocks so)), (S (length (Blocks so))), _, _, _.
  split; [reflexivity|].
  split; [by rewrite appendOps_BBByAddr|].
  split; [rewrite appendOps_lookup_ne by lia; exact Ho|].
  split; [reflexivity|].
  split; [rewrite appendOps_lookup_ne by lia; exact Hk|].
  split; [reflexivity|]. split; [reflexivity|].
  split; [by apply appendOps_lookup|].
  split; [reflexivity|].
  rewrite appendOps_CallBBs, appendOps_TheBB, appendOps_InsertBB.
  subst sc. unfold afterCallBB. simpl_dcf.
  subst so. unfold openedBlock. simpl_dcf. rewrite length_insert. by rewrite Hcalls.
Qed.

(** X5. [createExternalTailCallBB(Addr)] fails when the block of [Addr] has
    been written to already.  Otherwise it leaves three blocks: the block of
    [Addr], holding the write of [Addr] to the program counter and a branch to
    the call block; the call block, named after it with ["_call"], recorded
    in [CallBBs], holding the call of the function at [Addr] on the register
    set and a branch to the successor; and the successor, now the current
    block, holding a return and nothing else. *)
Theorem createExternalTailCallBB_blocks
    (tgt : Target) (a : N) (s : DCFunction) (w : N) :
  getScalarType (getRegType tgt (getProgramCounter tgt)) = IntegerTy w ->
  let pc := getProgramCounter tgt in
  (canOpen s a = false -> createExternalTailCallBB tgt a s = Abort)
  /\ (canOpen s a = true ->
      exists s' bb cb nb b1 b2 b3,
        createExternalTailCallBB tgt a s = Ok tt s'
        /\ BBByAddr s' !! a = Some bb
        /\ Blocks s' !! bb = Some b1
        /\ bbOps b1 = [RSetReg pc (ConstantInt (getRegType tgt pc) (a mod 2 ^ w));
                       IBr cb]
        /\ Blocks s' !! cb = Some b2
        /\ bbName b2 = bbName b1 +++ "_call"
        /\ bbOps b2 = [ICall (FunctionV a) [RegSetArg]; IBr nb]
        /\ Blocks s' !! nb = Some b3
        /\ bbOps b3 = [IRet]
        /\ CallBBs s' = CallBBs s ++ [cb]
        /\ TheBB s' = Some nb /\ InsertBB s' = nb).
Proof.
  intros Hw pc. split.
  - intros Hc. unfold createExternalTailCallBB.
    apply bind_Abort. by apply SwitchToBasicBlockAt_closed.
  - intros Hc. by apply createExternalTailCallBB_open.
Qed.

Lemma createExternalTailCallBB_blocks_witness :
  getScalarType (getRegType Sample.target (getProgramCounter Sample.target))
  = IntegerTy 64
  /\ canOpen (Sample.opened false) 4096 = false
  /\ createExternalTailCallBB Sample.target 4096 (Sample.opened false) = Abort.
Proof.
  assert (getScalarType (getRegType Sample.target (getProgramCounter Sample.target))
          = IntegerTy 64) as Hw by reflexivity.
  assert (canOpen (Sample.opened false) 4096 = false) as Hc
    by (vm_compute; reflexivity).
  split; [exact Hw|]. split; [exact Hc|].
  exact (proj1 (createExternalTailCallBB_blocks Sample.target 4096
                  (Sample.opened false) 64 Hw) Hc).
Defined.

(** ** The handles survive every entry point *)

Lemma handlesKept_refl s : handlesKept s s.
Proof. unfold handlesKept. repeat split; eauto. Qed.

Lemma handlesKept_trans s1 s2 s3 :
  handlesKept s1 s2 -> handlesKept s2 s3 -> handlesKept s1 s3.
Proof.
  intros (E1 & C1 & M1 & B1) (E2 & C2 & M2 & B2). repeat split.
  - congruence.
  - by etrans.
  - eauto.
  - intros bb b Hb. destruct (B1 _ _ Hb) as (b' & Hb' & Hn).
    destruct (B2 _ _ Hb') as (b'' & Hb'' & Hn'). exists b''. split; [done|congruence].
Qed.

Lemma handlesKept_scratch s s' : sameIR s s' -> handlesKept s s'.
Proof.
  intros (_ & E & C & M & B & _). unfold handlesKept. rewrite E, C, M, B.
  repeat split; eauto.
Qed.

(** Replacing the body of one block keeps the handles. *)
Lemma handlesKept_update s s' bb b insts :
  Blocks s !! bb = Some b ->
  ExitBB s' = ExitBB s -> CallBBs s' = CallBBs s -> BBByAddr s' = BBByAddr s ->
  Blocks s' = <[bb := mkBB (bbName b) insts]> (Blocks s) ->
  handlesKept s s'.
Proof.
  intros Hb E C M B. unfold handlesKept. rewrite E, C, M, B.
  repeat split; eauto. intros x bx Hx.
  destruct (decide (x = bb)) as [->|Hne].
  - rewrite list_lookup_insert_eq by (by eapply lookup_lt_Some).
    eexists. split; [done|]. cbn. congruence.
  - rewrite list_lookup_insert_ne by done. eauto.
Qed.

Lemma handlesKept_appendOps bb ops s : handlesKept s (appendOps bb ops s).
Proof.
  unfold appendOps. destruct (Blocks s !! bb) as [b|] eqn:Hb;
    [|apply handlesKept_refl].
  by eapply handlesKept_update.
Qed.

Lemma handlesKept_insertAtEnd tgt bb i : respects handlesKept (insertAtEnd tgt bb i).
Proof.
  intros s v s' (t & _ & _ & _ & ->)%insertAtEnd_Ok. apply handlesKept_appendOps.
Qed.

Lemma handlesKept_emit tgt i : respects handlesKept (emit tgt i).
Proof.
  intros s v s' (t & _ & _ & _ & ->)%emit_Ok. apply handlesKept_appendOps.
Qed.

Lemma handlesKept_getOrCreateBasicBlock tgt a :
  respects handlesKept (getOrCreateBasicBlock tgt a).
Proof.
  intros s bb s' H. destruct (BBByAddr s !! a) as [bb0|] eqn:Hl.
  - rewrite (getOrCreateBasicBlock_known _ _ _ _ Hl) in H.
    injection H as <- <-. apply handlesKept_refl.
  - rewrite (getOrCreateBasicBlock_fresh _ _ _ Hl) in H.
    injection H as <- <-. unfold handlesKept. simpl_dcf. repeat split; [done| |].
    + intros a' bb' Hm. rewrite lookup_insert_ne; [done|]. congruence.
    + intros x bx Hx. exists bx. split; [|done].
      by rewrite lookup_app_l by (by eapply lookup_lt_Some).
Qed.

Lemma handlesKept_insertCallBB tgt v : respects handlesKept (insertCallBB tgt v).
Proof.
  intros s cb s' (bb & blk & t & _ & _ & Hblk & _ & _ & ->)%insertCallBB_Ok.
  unfold handlesKept, afterCallBB. simpl_dcf. repeat split; [|done|].
  - by apply prefix_app_r.
  - intros x bx Hx.
    assert (x < length (Blocks s))%nat as Hlt by (by eapply lookup_lt_Some).
    rewrite lookup_app_l by (by rewrite length_insert).
    destruct (decide (x = bb)) as [->|Hne].
    + rewrite list_lookup_insert_eq by done. eexists. split; [done|]. cbn. congruence.
    + rewrite list_lookup_insert_ne by done. eauto.
Qed.

Lemma handlesKept_translateInst tgt tbl opts hooks fuel d :
  hooksRespect handlesKept hooks ->
  respects handlesKept (translateInst tgt tbl opts hooks fuel d).
Proof.
  intros (H1 & H2 & H3 & H4 & H5).
  apply respects_translateInst;
    eauto using handlesKept_refl, handlesKept_trans, handlesKept_scratch,
      handlesKept_emit, handlesKept_getOrCreateBasicBlock, handlesKept_insertCallBB.
Qed.

Lemma handlesKept_SwitchToBasicBlockAt tgt a :
  respects handlesKept (SwitchToBasicBlockAt tgt a).
Proof.
  intros s u s' (bb & s1 & b & w & Hg & Hb & _ & _ & ->)%SwitchToBasicBlockAt_Ok.
  eapply handlesKept_trans; [by eapply handlesKept_getOrCreateBasicBlock|].
  by eapply handlesKept_update.
Qed.

Lemma handlesKept_FinalizeBasicBlock tgt :
  respects handlesKept (FinalizeBasicBlock tgt).
Proof.
  intros s u s'. rewrite FinalizeBasicBlock_unfold.
  assert (forall x, handlesKept x (closedBlock x)) as Hclosed.
  { intros x. unfold handlesKept, closedBlock. simpl_dcf. repeat split; eauto. }
  destruct (TheBB s) as [bb|]; [|done].
  destruct (Blocks s !! bb) as [b|]; [|done].
  destruct (getTerminator b).
  - intros [= _ <-]. apply Hclosed.
  - destruct (TheMCBB s) as [mcbb|]; [|done].
    destruct (getOrCreateBasicBlock tgt (mcbbEndAddr mcbb) s) as [dest s1| |] eqn:Hg;
      [|done..].
    intros [= _ <-].
    eapply handlesKept_trans; [by eapply handlesKept_getOrCreateBasicBlock|].
    eapply handlesKept_trans; [apply handlesKept_appendOps|apply Hclosed].
Qed.

Lemma handlesKept_insertBefore tgt bb pos i :
  respects handlesKept (insertBefore tgt bb pos i).
Proof.
  intros s v s'. unfold insertBefore.
  destruct (resultTy tgt i); [|done].
  destruct (Blocks s !! bb) as [b|] eqn:Hb; [|done].
  intros [= <- <-]. by eapply handlesKept_update.
Qed.

Lemma handlesKept_forEach {A} (f : A -> M unit) l :
  (forall x, respects handlesKept (f x)) -> respects handlesKept (forEach f l).
Proof.
  intros Hf. induction l as [|x l IH]; cbn [forEach].
  - apply respects_ret, handlesKept_refl.
  - apply respects_bind; [apply handlesKept_trans|apply Hf|done].
Qed.

(** X6. Every entry point of the class keeps the handles a caller may hold:
    the exit block stays the exit block, an address that has a block keeps
    that block, a recorded call block stays recorded at its place in the
    list, and no block is removed or renamed.  This holds for
    [SwitchToBasicBlock], [translateInst] (for a target whose methods keep
    the handles), [FinalizeBasicBlock], [createExternalTailCallBB] and the
    destructor. *)
Theorem entry_points_keep_handles
    (tgt : Target) (tbl : Tables) (opts : Options) (hooks : Hooks) :
  hooksRespect handlesKept hooks ->
  (forall mcbb, respects handlesKept (SwitchToBasicBlock tgt mcbb))
  /\ (forall fuel d, respects handlesKept (translateInst tgt tbl opts hooks fuel d))
  /\ respects handlesKept (FinalizeBasicBlock tgt)
  /\ (forall a, respects handlesKept (createExternalTailCallBB tgt a))
  /\ respects handlesKept (destruct_ tgt).
Proof.
  intros Hh. split; [|split; [|split; [|split]]].
  - intros mcbb s u s'. rewrite SwitchToBasicBlock_unfold. intros H.
    eapply handlesKept_trans; [|by eapply handlesKept_SwitchToBasicBlockAt].
    apply handlesKept_scratch. unfold sameIR. simpl_dcf. tauto.
  - intros fuel d. by apply handlesKept_translateInst.
  - apply handlesKept_FinalizeBasicBlock.
  - intros a. unfold createExternalTailCallBB.
    apply respects_bind; [apply handlesKept_trans| |intros ?].
    { apply handlesKept_SwitchToBasicBlockAt. }
    apply respects_bind; [apply handlesKept_trans| |intros ?].
    { apply handlesKept_insertCallBB. }
    apply respects_bind; [apply handlesKept_trans| |intros ?].
    { apply handlesKept_emit. }
    apply respects_ret, handlesKept_refl.
  - unfold destruct_.
    apply respects_bind; [apply handlesKept_trans| |intros cbs].
    { apply respects_gets, handlesKept_refl. }
    apply respects_bind; [apply handlesKept_trans| |intros ?].
    { apply handlesKept_forEach. intros cb. unfold finalizeCallBB, getBlock.
      apply respects_bind; [apply handlesKept_trans| |intros b].
      { apply respects_bind; [apply handlesKept_trans| |intros ?].
        - apply respects_gets, handlesKept_refl.
        - apply respects_fromOption, handlesKept_refl. }
      apply respects_bind; [apply handlesKept_trans| |intros ?].
      { apply respects_assert, handlesKept_refl. }
      apply respects_bind; [apply handlesKept_trans| |intros ?].
      { apply handlesKept_insertBefore. }
      apply respects_bind; [apply handlesKept_trans| |intros ?].
      { apply handlesKept_insertBefore. }
      apply respects_ret, handlesKept_refl. }
    apply respects_bind; [apply handlesKept_trans| |intros ?].
    { apply respects_gets, handlesKept_refl. }
    apply respects_notifyDRS, handlesKept_scratch.
Qed.

Lemma entry_points_keep_handles_witness :
  hooksRespect handlesKept Sample.hooks
  /\ handlesKept (Sample.opened true) jumpTranslated.
Proof.
  assert (hooksRespect handlesKept Sample.hooks) as Hh
    by apply hooksRespect_sample, handlesKept_refl.
  split; [exact Hh|].
  destruct (entry_points_keep_handles Sample.target Sample.tables
              (Sample.options true false) Sample.hooks Hh) as (_ & H & _).
  apply (H 8%nat Sample.jmpInst (Sample.opened true) true). vm_compute. reflexivity.
Defined.

(** ** translateInst writes at the insertion point only *)

Lemma writesAtInsertionOnly_refl s : writesAtInsertionOnly s s.
Proof.
  unfold writesAtInsertionOnly.
  split; [apply blocksExtend_refl|]. split; [lia|]. split; [by left|done].
Qed.

Lemma writesAtInsertionOnly_trans s1 s2 s3 :
  writesAtInsertionOnly s1 s2 -> writesAtInsertionOnly s2 s3 ->
  writesAtInsertionOnly s1 s3.
Proof.
  intros (B1 & L1 & I1 & F1) (B2 & L2 & I2 & F2).
  split; [by eapply blocksExtend_trans|]. split; [lia|]. split.
  - destruct I1 as [I1|I1], I2 as [I2|I2]; [left; congruence|right; lia..].
  - intros bb Hlt Hne. rewrite <- (F1 bb Hlt Hne). apply F2; [lia|].
    destruct I1 as [I1|I1]; [congruence|lia].
Qed.

Lemma writesAtInsertionOnly_scratch s s' :
  sameIR s s' -> writesAtInsertionOnly s s'.
Proof.
  intros (_ & _ & _ & _ & B & I & _). unfold writesAtInsertionOnly.
  split; [by apply blocksExtend_sameBlocks|]. rewrite B, I.
  split; [lia|]. split; [by left|done].
Qed.

Lemma writesAtInsertionOnly_emit tgt i :
  respects writesAtInsertionOnly (emit tgt i).
Proof.
  intros s v s' (t & _ & _ & _ & ->)%emit_Ok.
  split; [apply blocksExtend_appendOps|].
  rewrite appendOps_length, appendOps_InsertBB.
  split; [lia|]. split; [by left|].
  intros bb _ Hne. by apply appendOps_lookup_ne.
Qed.

Lemma writesAtInsertionOnly_getOrCreateBasicBlock tgt a :
  respects writesAtInsertionOnly (getOrCreateBasicBlock tgt a).
Proof.
  intros s bb s' H.
  split; [by eapply blocksExtend_getOrCreateBasicBlock|].
  destruct (BBByAddr s !! a) as [bb0|] eqn:Hl.
  - rewrite (getOrCreateBasicBlock_known _ _ _ _ Hl) in H.
    injection H as <- <-. split; [lia|]. split; [by left|done].
  - rewrite (getOrCreateBasicBlock_fresh _ _ _ Hl) in H.
    injection H as <- <-. simpl_dcf. rewrite length_app. cbn [length].
    split; [lia|]. split; [by left|].
    intros x Hlt _. by rewrite lookup_app_l.
Qed.

Lemma writesAtInsertionOnly_insertCallBB tgt v :
  respects writesAtInsertionOnly (insertCallBB tgt v).
Proof.
  intros s cb s' H.
  split; [by eapply blocksExtend_insertCallBB|].
  apply insertCallBB_Ok in H as (bb & blk & t & _ & Hip & Hblk & _ & _ & ->).
  unfold afterCallBB. simpl_dcf. rewrite length_app, length_insert. cbn [length].
  split; [lia|]. split; [right; lia|].
  intros x Hlt Hne. rewrite lookup_app_l by (by rewrite length_insert).
  rewrite list_lookup_insert_ne; [done|congruence].
Qed.

(** X7. [translateInst] only appends, and only at the insertion point: every
    block of the function is still there afterwards under its name, with the
    instructions it had as the first of those it has now, and a block that
    existed before and was not the insertion point is exactly as it was.
    (The methods of the target are assumed to behave in the same way.) *)
Theorem translateInst_writes_at_insertion_only
    (tgt : Target) (tbl : Tables) (opts : Options) (hooks : Hooks)
    (fuel : nat) (d : MCDecodedInst) (s s' : DCFunction) (ok : bool) :
  hooksRespect writesAtInsertionOnly hooks ->
  translateInst tgt tbl opts hooks fuel d s = Ok ok s' ->
  (forall bb b, Blocks s !! bb = Some b ->
     exists b', Blocks s' !! bb = Some b' /\ bbName b' = bbName b
                /\ bbInsts b `prefix_of` bbInsts b')
  /\ (forall bb, (bb < length (Blocks s))%nat -> bb <> InsertBB s ->
        Blocks s' !! bb = Blocks s !! bb).
Proof.
  intros (H1 & H2 & H3 & H4 & H5) Hrun.
  assert (writesAtInsertionOnly s s') as (B & _ & _ & F).
  { eapply (respects_translateInst tgt tbl opts hooks writesAtInsertionOnly);
      eauto using writesAtInsertionOnly_refl, writesAtInsertionOnly_trans,
        writesAtInsertionOnly_scratch, writesAtInsertionOnly_emit,
        writesAtInsertionOnly_getOrCreateBasicBlock,
        writesAtInsertionOnly_insertCallBB. }
  split; [exact B|exact F].
Qed.

Lemma translateInst_writes_at_insertion_only_witness :
  hooksRespect writesAtInsertionOnly Sample.hooks
  /\ translateInst Sample.target Sample.tables (Sample.options true false)
       Sample.hooks 8 Sample.jmpInst (Sample.opened true) = Ok true jumpTranslated
  /\ Blocks jumpTranslated !! ExitBB (Sample.opened true)
     = Blocks (Sample.opened true) !! ExitBB (Sample.opened true).
Proof.
  assert (hooksRespect writesAtInsertionOnly Sample.hooks) as Hh
    by apply hooksRespect_sample, writesAtInsertionOnly_refl.
  assert (translateInst Sample.target Sample.tables (Sample.options true false)
            Sample.hooks 8 Sample.jmpInst (Sample.opened true)
          = Ok true jumpTranslated) as Hrun by (vm_compute; reflexivity).
  split; [exact Hh|]. split; [exact Hrun|].
  apply (proj2 (translateInst_writes_at_insertion_only _ _ _ _ _ _ _ _ _ Hh Hrun)).
  - vm_compute. lia.
  - vm_compute. lia.
Defined.

(** ** The opcode loop terminates *)

Lemma advances_ret {A} (a : A) : advances (ret a).
Proof. intros s. cbn. lia. Qed.

Lemma advances_abort {A} : advances (@abort A).
Proof. by intros s. Qed.

Lemma advances_gets {A} (f : DCFunction -> A) : advances (gets f).
Proof. intros s. cbn. lia. Qed.

Lemma advances_assert b : advances (assert b).
Proof. intros s. destruct b; cbn; [lia|done]. Qed.

Lemma advances_fromOption {A} (o : option A) : advances (fromOption o).
Proof. intros s. destruct o; cbn; [lia|done]. Qed.

Lemma advances_modify f :
  (forall s, Idx (f s) = Idx s) -> advances (modify f).
Proof. intros Hf s. cbn. rewrite Hf. lia. Qed.

Lemma advances_bind {A B} (m : M A) (f : A -> M B) :
  advances m -> (forall a, advances (f a)) -> advances (bind m f).
Proof.
  intros Hm Hf s. unfold bind. specialize (Hm s).
  destruct (m s) as [a s1| |]; [|done..].
  specialize (Hf a s1). destruct (f a s1); [lia|done..].
Qed.

Lemma advancesStrictly_bind {A B} (m : M A) (f : A -> M B) :
  advancesStrictly m -> (forall a, advances (f a)) -> advancesStrictly (bind m f).
Proof.
  intros Hm Hf s. unfold bind. specialize (Hm s).
  destruct (m s) as [a s1| |]; [|done..].
  specialize (Hf a s1). destruct (f a s1); [lia|done..].
Qed.

Lemma advancesStrictly_advances {A} (m : M A) : advancesStrictly m -> advances m.
Proof. intros Hm s. specialize (Hm s). destruct (m s); [lia|done..]. Qed.

Lemma advances_insertAtEnd tgt bb i : advances (insertAtEnd tgt bb i).
Proof.
  intros s. unfold insertAtEnd.
  destruct (resultTy tgt i); [|done]. destruct (Blocks s !! bb); [|done].
  cbn. lia.
Qed.

Lemma advances_createBasicBlock name : advances (createBasicBlock name).
Proof. intros s. cbn. lia. Qed.

(** On a tape of fewer than 2^32 entries [Idx++] does not wrap around. *)
Lemma advancesStrictly_Next tbl :
  N.of_nat (length (SemanticsArray tbl)) < 2 ^ 32 ->
  advancesStrictly (Next tbl).
Proof.
  intros Hshort s. unfold Next, bind, gets, fromOption, modify, ret.
  destruct (SemanticsArray tbl !! N.to_nat (Idx s)) eqn:Hl; [|done].
  apply lookup_lt_Some in Hl. cbn. unfold nextIdx.
  rewrite N.mod_small; lia.
Qed.

(** Walk down a monadic term, splitting at every [bind] and branch. *)
Ltac advances_step :=
  match goal with
  | |- advances (bind _ _) => apply advances_bind; [|intros ?]
  | |- advances (ret _) => apply advances_ret
  | |- advances abort => apply advances_abort
  | |- advances (gets _) => apply advances_gets
  | |- advances (assert _) => apply advances_assert
  | |- advances (fromOption _) => apply advances_fromOption
  | |- advances (modify _) => apply advances_modify; intros ?; reflexivity
  | |- advances (insertAtEnd _ _ _) => apply advances_insertAtEnd
  | |- advances (createBasicBlock _) => apply advances_createBasicBlock
  | |- advances (Next _) =>
      apply advancesStrictly_advances, advancesStrictly_Next; assumption
  | |- advances (NextVT _) =>
      apply advancesStrictly_advances, advancesStrictly_Next; assumption
  | |- advances (match ?x with _ => _ end) => destruct x
  | |- advances (let _ := _ in _) => cbv zeta
  end.

Ltac advances_auto := repeat advances_step; eauto.

Lemma advances_emit tgt i : advances (emit tgt i).
Proof. unfold emit. advances_auto. Qed.

Lemma advances_CreateCast tgt o v t : advances (CreateCast tgt o v t).
Proof. unfold CreateCast, CreateCastIn. advances_auto. Qed.

Lemma advances_getNextOperand : advances getNextOperand.
Proof. unfold getNextOperand. advances_auto. Qed.

Lemma advances_registerResult v : advances (registerResult v).
Proof. unfold registerResult. advances_auto. Qed.

Lemma advances_getOrCreateBasicBlock tgt a : advances (getOrCreateBasicBlock tgt a).
Proof. unfold getOrCreateBasicBlock. advances_auto. Qed.

Lemma advances_CreateBr tgt d : advances (CreateBr tgt d).
Proof. unfold CreateBr. advances_auto. apply advances_emit. Qed.

Lemma advances_insertCallBB tgt v : advances (insertCallBB tgt v).
Proof.
  unfold insertCallBB, theBB, getBlock, notifyDRS, SetInsertPoint.
  advances_auto. apply advances_CreateBr.
Qed.

Lemma advances_currentInst : advances currentInst.
Proof. unfold currentInst. advances_auto. Qed.

Lemma advances_ConstantInt_get t v : advances (ConstantInt_get t v).
Proof. unfold ConstantInt_get. advances_auto. Qed.

Lemma advances_resType tgt : advances (resType tgt).
Proof. unfold resType. advances_auto. Qed.

Lemma advances_CreateBinOp tgt o l r : advances (CreateBinOp tgt o l r).
Proof. apply advances_emit. Qed.

#[local] Hint Resolve advances_emit advances_CreateCast advances_getNextOperand
  advances_registerResult advances_getOrCreateBasicBlock advances_CreateBr
  advances_insertCallBB advances_currentInst advances_ConstantInt_get
  advances_resType advances_CreateBinOp : core.

Lemma advances_translatePredicate tgt p : advances (translatePredicate tgt p).
Proof.
  unfold translatePredicate, translateLoad, translateStore, translateExtLoad,
    translateBinOp, coercePtr, CreateBitOrPointerCast,
    CreateZExt, CreateSExt, CreateIntToPtr, CreatePtrToInt, CreateBitCast.
  advances_auto.
Qed.

Lemma advances_translateOpcode tgt tbl hooks op :
  N.of_nat (length (SemanticsArray tbl)) < 2 ^ 32 ->
  hooksAdvance hooks ->
  advancesStrictly (translateOpcode tgt tbl hooks op).
Proof.
  intros Hshort (H1 & H2 & H3 & H4 & H5). unfold translateOpcode.
  apply advancesStrictly_bind; [by apply advancesStrictly_Next|intros vt].
  apply advances_bind; [advances_step|intros _].
  destruct (_ && _); [apply H2|].
  pose proof (advances_translatePredicate tgt) as HP.
  destruct (decodeOpcode tgt op) as [[]|];
    unfold translateBinOp, translateCastOp, translateMulLoHi, translateLoad,
      translateStore, coercePtr, insertCall, insertTranslateAt, setReg, getReg,
      getRegAsInt, insertBitsInValue, getRegOp, getImmOp, getZExtValue,
      integerBitsOfEVT,
      CreateZExt, CreateTrunc, CreatePtrToInt, CreateIntToPtr, CreateBitCast;
    advances_auto.
Qed.

Lemma translateSemantics_step tgt tbl hooks fuel s :
  translateSemantics tgt tbl hooks (S fuel) s
  = match Next tbl s with
    | Ok op s1 =>
        if op =? opcodeOf tgt END_OF_INSTRUCTION
        then Ok true (with_Opcode op s1)
        else
          match translateOpcode tgt tbl hooks op (with_Opcode op s1) with
          | Ok true s2 => translateSemantics tgt tbl hooks fuel s2
          | Ok false s2 => Ok false s2
          | Abort => Abort
          | Timeout => Timeout
          end
    | Abort => Abort
    | Timeout => Timeout
    end.
Proof.
  cbn [translateSemantics]. unfold bind at 1.
  destruct (Next tbl s) as [op s1| |]; [|done..].
  unfold bind at 1, modify at 1.
  destruct (op =? opcodeOf tgt END_OF_INSTRUCTION); [done|].
  unfold bind at 1.
  by destruct (translateOpcode tgt tbl hooks op (with_Opcode op s1)) as [[] s2| |].
Qed.

(** With more fuel than there are tape entries from the cursor on, the loop
    does not run out of fuel, and more fuel does not change its result. *)
Lemma translateSemantics_enough_fuel tgt tbl hooks :
  N.of_nat (length (SemanticsArray tbl)) < 2 ^ 32 ->
  hooksAdvance hooks ->
  forall fuel s,
    (tapeLeft tbl s < fuel)%nat ->
    translateSemantics tgt tbl hooks fuel s <> Timeout
    /\ forall fuel', (tapeLeft tbl s < fuel')%nat ->
         translateSemantics tgt tbl hooks fuel' s
         = translateSemantics tgt tbl hooks fuel s.
Proof.
  intros Hshort Hh fuel.
  induction fuel as [|fuel IH]; intros s Hlt; [lia|].
  assert (forall fuel',
            (forall s2, (tapeLeft tbl s2 < tapeLeft tbl s)%nat ->
               translateSemantics tgt tbl hooks fuel' s2
               = translateSemantics tgt tbl hooks fuel s2) ->
            translateSemantics tgt tbl hooks (S fuel') s
            = translateSemantics tgt tbl hooks (S fuel) s) as Hsame.
  { intros fuel' Hrec. rewrite !translateSemantics_step.
    pose proof (advancesStrictly_Next tbl Hshort s) as HN.
    destruct (Next tbl s) as [op s1| |] eqn:Hnext; [|done..].
    apply Next_Ok in Hnext as [Hl _]. apply lookup_lt_Some in Hl.
    destruct (op =? opcodeOf tgt END_OF_INSTRUCTION); [done|].
    pose proof (advances_translateOpcode tgt tbl hooks op Hshort Hh
                  (with_Opcode op s1)) as HO.
    destruct (translateOpcode tgt tbl hooks op (with_Opcode op s1))
      as [[] s2| |]; try done.
    apply Hrec. unfold tapeLeft in *. cbn [Idx with_Opcode] in HO. lia. }
  split.
  - rewrite translateSemantics_step.
    pose proof (advancesStrictly_Next tbl Hshort s) as HN.
    destruct (Next tbl s) as [op s1| |] eqn:Hnext; [|done..].
    apply Next_Ok in Hnext as [Hl _]. apply lookup_lt_Some in Hl.
    destruct (op =? opcodeOf tgt END_OF_INSTRUCTION); [done|].
    pose proof (advances_translateOpcode tgt tbl hooks op Hshort Hh
                  (with_Opcode op s1)) as HO.
    destruct (translateOpcode tgt tbl hooks op (with_Opcode op s1))
      as [[] s2| |]; try done.
    apply IH. unfold tapeLeft in *. cbn [Idx with_Opcode] in HO. lia.
  - intros [|fuel'] Hlt'; [lia|].
    apply Hsame. intros s2 Hs2. apply IH; lia.
Qed.

Lemma advances_no_timeout {A} (m : M A) s : advances m -> m s <> Timeout.
Proof. intros Hm. specialize (Hm s). by destruct (m s). Qed.

Lemma bind_no_timeout {A B} (m : M A) (f : A -> M B) s :
  m s <> Timeout ->
  (forall a s1, m s = Ok a s1 -> f a s1 <> Timeout) ->
  bind m f s <> Timeout.
Proof. unfold bind. intros Hm Hf. destruct (m s); [by apply Hf|done..]. Qed.

Lemma bind_congr {A B} (m : M A) (f g : A -> M B) s :
  (forall a s1, m s = Ok a s1 -> f a s1 = g a s1) ->
  bind m f s = bind m g s.
Proof. unfold bind. intros H. destruct (m s); [by apply H|done..]. Qed.

Lemma advances_incrementPC tgt : advances (incrementPC tgt).
Proof.
  unfold incrementPC, getReg, setReg. advances_auto.
Qed.

Lemma tapeLeft_le tbl s : (tapeLeft tbl s <= length (SemanticsArray tbl))%nat.
Proof. unfold tapeLeft. lia. Qed.

Lemma tryTranslateInst_enough_fuel tgt tbl hooks fuel fuel' s :
  N.of_nat (length (SemanticsArray tbl)) < 2 ^ 32 ->
  hooksAdvance hooks ->
  (length (SemanticsArray tbl) < fuel)%nat ->
  (length (SemanticsArray tbl) < fuel')%nat ->
  tryTranslateInst tgt tbl hooks fuel s <> Timeout
  /\ tryTranslateInst tgt tbl hooks fuel' s = tryTranslateInst tgt tbl hooks fuel s.
Proof.
  intros Hshort Hh Hf Hf'. pose proof Hh as (H1 & _).
  assert (forall s2, (tapeLeft tbl s2 < fuel)%nat) as Hl
    by (intros s2; pose proof (tapeLeft_le tbl s2); lia).
  assert (forall s2, (tapeLeft tbl s2 < fuel')%nat) as Hl'
    by (intros s2; pose proof (tapeLeft_le tbl s2); lia).
  unfold tryTranslateInst. split.
  - apply bind_no_timeout; [by apply advances_no_timeout|intros [] s1 _]; [done|].
    apply bind_no_timeout;
      [apply advances_no_timeout, advances_currentInst|intros ci s2 _].
    apply bind_no_timeout;
      [apply advances_no_timeout, advances_fromOption|intros idx s3 _].
    apply bind_no_timeout; [done|intros _ s4 _].
    destruct (idx =? 4294967295); [done|].
    apply bind_no_timeout;
      [apply advances_no_timeout, advances_incrementPC|intros _ s5 _].
    by apply (translateSemantics_enough_fuel tgt tbl hooks Hshort Hh fuel s5).
  - apply bind_congr. intros [] s1 _; [done|].
    apply bind_congr. intros ci s2 _.
    apply bind_congr. intros idx s3 _.
    apply bind_congr. intros _ s4 _.
    destruct (idx =? 4294967295); [done|].
    apply bind_congr. intros _ s5 _.
    by apply (translateSemantics_enough_fuel tgt tbl hooks Hshort Hh fuel s5).
Qed.

(** X8. The opcode loop of [tryTranslateInst] ends.  On a semantics array of
    fewer than 2^32 entries every [Next] moves the cursor forward and every
    semantic opcode reads its value type at least, so the loop reads at most
    as many opcodes as the array has entries before it meets
    END_OF_INSTRUCTION, an opcode that fails, or the end of the array (the
    methods of the target being assumed to return and not to move the cursor
    backwards).  With more fuel than the array has entries, [translateInst]
    never runs out of fuel, and its result does not depend on the fuel. *)
Theorem translateInst_enough_fuel
    (tgt : Target) (tbl : Tables) (opts : Options) (hooks : Hooks)
    (fuel fuel' : nat) (d : MCDecodedInst) (s : DCFunction) :
  N.of_nat (length (SemanticsArray tbl)) < 2 ^ 32 ->
  hooksAdvance hooks ->
  (length (SemanticsArray tbl) < fuel)%nat ->
  (length (SemanticsArray tbl) < fuel')%nat ->
  translateInst tgt tbl opts hooks fuel d s <> Timeout
  /\ translateInst tgt tbl opts hooks fuel' d s
     = translateInst tgt tbl opts hooks fuel d s.
Proof.
  intros Hshort Hh Hf Hf'.
  assert (forall s1,
            tryTranslateInst tgt tbl hooks fuel s1 <> Timeout
            /\ tryTranslateInst tgt tbl hooks fuel' s1
               = tryTranslateInst tgt tbl hooks fuel s1) as Htry
    by (intros s1; by apply tryTranslateInst_enough_fuel).
  unfold translateInst, emitTrapUnreachable. split.
  - apply bind_no_timeout; [done|intros _ s1 _].
    apply bind_no_timeout; [done|intros _ s2 _].
    apply bind_no_timeout;
      [apply advances_no_timeout; advances_auto; apply advances_emit
      |intros _ s3 _].
    apply bind_no_timeout; [apply Htry|intros ok s4 _].
    apply advances_no_timeout. advances_auto; apply advances_emit.
  - apply bind_congr. intros _ s1 _.
    apply bind_congr. intros _ s2 _.
    apply bind_congr. intros _ s3 _.
    unfold bind at 1 3. by rewrite (proj2 (Htry s3)).
Qed.

Lemma translateInst_enough_fuel_witness :
  N.of_nat (length (SemanticsArray Sample.tables)) < 2 ^ 32
  /\ hooksAdvance Sample.hooks
  /\ (length (SemanticsArray Sample.tables) < 54)%nat
  /\ translateInst Sample.target Sample.tables (Sample.options false false)
       Sample.hooks 54 Sample.addInst (Sample.opened false)
     = translateInst Sample.target Sample.tables (Sample.options false false)
         Sample.hooks 100 Sample.addInst (Sample.opened false).
Proof.
  assert (N.of_nat (length (SemanticsArray Sample.tables)) < 2 ^ 32) as H1
    by (vm_compute; reflexivity).
  assert (hooksAdvance Sample.hooks) as H2.
  { unfold hooksAdvance, Sample.hooks. cbn.
    repeat split; intros; intros s; cbn; lia. }
  assert (length (SemanticsArray Sample.tables) < 54)%nat as H3
    by (vm_compute; lia).
  assert (length (SemanticsArray Sample.tables) < 100)%nat as H4
    by (vm_compute; lia).
  split; [exact H1|]. split; [exact H2|]. split; [exact H3|].
  exact (proj2 (translateInst_enough_fuel Sample.target Sample.tables
                  (Sample.options false false) Sample.hooks 100 54
                  Sample.addInst (Sample.opened false) H1 H2 H4 H3)).
Defined.

(** ** Instructions without semantics *)



(** ** Saving the instruction address *)

(** X10. With EnableInstAddrSave, the first thing [translateInst] appends at
    the insertion point, before the update of the program counter and
    whatever becomes of the instruction afterwards, is a volatile store of
    the instruction's address, as a 64-bit constant, to the address of
    [__llvm_dc_current_instr]; without a block at the insertion point
    nothing is translated.  (The methods of the target are assumed to only
    append to blocks.) *)
Theorem translateInst_saves_address_first
    (tgt : Target) (tbl : Tables) (opts : Options) (hooks : Hooks)
    (fuel : nat) (d : MCDecodedInst) (s : DCFunction) :
  EnableInstAddrSave opts = true ->
  hooksRespect blocksExtend hooks ->
  let store := IStore (ConstantInt (IntegerTy 64) (Address d mod 2 ^ 64))
                 (ConstIntToPtr
                    (ConstantInt (IntegerTy 64) (addrof_current_instr opts mod 2 ^ 64))
                    (PointerTy (IntegerTy 64)))
                 0 true in
  (Blocks s !! InsertBB s = None ->
     translateInst tgt tbl opts hooks fuel d s = Abort)
  /\ (forall b ok s',
        Blocks s !! InsertBB s = Some b ->
        translateInst tgt tbl opts hooks fuel d s = Ok ok s' ->
        exists b', Blocks s' !! InsertBB s = Some b'
                   /\ bbName b' = bbName b
                   /\ (bbInsts b ++ [(NextId s, store)]) `prefix_of` bbInsts b').
Proof.
  intros Hsave Hh store.
  set (s0 := with_DRSLog (DRSLog (with_CurrentInst (Some d) s) ++ [EvSwitchToInst d])
               (with_CurrentInst (Some d) s)).
  assert (translateInst tgt tbl opts hooks fuel d s
          = ((emit tgt store;;; ret tt);;;
             Success <- tryTranslateInst tgt tbl hooks fuel;;
             Success0 <- (if negb Success && TranslateUnknownToUndef opts
                          then emitTrapUnreachable tgt;;; ret true
                          else ret Success);;
             modify (with_Vals []);;; modify (with_CurrentInst None);;;
             ret Success0) s0) as Heq.
  { unfold translateInst. rewrite Hsave. reflexivity. }
  rewrite Heq. clear Heq.
  split.
  - intros Hnone. apply bind_Abort. apply bind_Abort.
    unfold emit, bind, gets, insertAtEnd. cbn [resultTy].
    change (Blocks s0 !! InsertBB s0) with (Blocks s !! InsertBB s).
    by rewrite Hnone.
  - intros b ok s' Hb H.
    apply bind_Ok in H as (u & s3 & Hstore & H).
    apply bind_Ok in Hstore as (v & s3' & Hemit & [_ ->]%ret_Ok).
    apply emit_Ok in Hemit as (t & _ & _ & _ & ->).
    change (InsertBB s0) with (InsertBB s) in H.
    assert (blocksExtend (appendOps (InsertBB s) [store] s0) s') as Hext.
    { revert H. generalize (appendOps (InsertBB s) [store] s0). intros sa H.
      assert (respects blocksExtend
                (Success <- tryTranslateInst tgt tbl hooks fuel;;
                 Success0 <- (if negb Success && TranslateUnknownToUndef opts
                              then emitTrapUnreachable tgt;;; ret true
                              else ret Success);;
                 modify (with_Vals []);;; modify (with_CurrentInst None);;;
                 ret Success0)) as Hr.
      { destruct Hh as (H1 & H2 & H3 & H4 & H5).
        apply respects_bind; [apply blocksExtend_trans| |intros r].
        { apply respects_tryTranslateInst;
            eauto using blocksExtend_refl, blocksExtend_trans, blocksExtend_emit,
              blocksExtend_getOrCreateBasicBlock, blocksExtend_insertCallBB.
          intros x x' (_ & _ & _ & _ & Hbx & _). by apply blocksExtend_sameBlocks. }
        apply respects_bind; [apply blocksExtend_trans| |intros r'].
        { destruct (negb r && TranslateUnknownToUndef opts).
          - unfold emitTrapUnreachable.
            apply respects_bind; [apply blocksExtend_trans| |intros ?];
              [|apply respects_ret, blocksExtend_refl].
            apply respects_bind;
              [apply blocksExtend_trans|apply blocksExtend_emit|intros ?].
            apply respects_bind;
              [apply blocksExtend_trans|apply blocksExtend_emit|intros ?].
            apply respects_ret, blocksExtend_refl.
          - apply respects_ret, blocksExtend_refl. }
        apply respects_bind; [apply blocksExtend_trans| |intros ?].
        { by apply blocksExtend_modify. }
        apply respects_bind; [apply blocksExtend_trans| |intros ?].
        { by apply blocksExtend_modify. }
        apply respects_ret, blocksExtend_refl. }
      by eapply Hr. }
    assert (Blocks (appendOps (InsertBB s) [store] s0) !! InsertBB s
            = Some (mkBB (bbName b) (bbInsts b ++ [(NextId s, store)]))) as Hb1.
    { by rewrite (appendOps_lookup _ _ s0 b). }
    destruct (Hext _ _ Hb1) as (b' & Hb' & Hn & Hp). by exists b'.
Qed.

Lemma translateInst_saves_address_first_witness :
  let opts := mkOptions false true false 6295840 in
  EnableInstAddrSave opts = true
  /\ hooksRespect blocksExtend Sample.hooks
  /\ exists b',
      Blocks (Sample.stateOf
                (translateInst Sample.target Sample.tables opts Sample.hooks 8
                   Sample.unknownInst (Sample.opened false))) !! 2%nat = Some b'
      /\ [(4%nat, RSetReg 0 (ConstantInt (IntegerTy 64) 4096));
          (5%nat, IStore (ConstantInt (IntegerTy 64) 4096)
                    (ConstIntToPtr (ConstantInt (IntegerTy 64) 6295840)
                       (PointerTy (IntegerTy 64))) 0 true)]
         `prefix_of` bbInsts b'.
Proof.
  intros opts.
  assert (EnableInstAddrSave opts = true) as H1 by reflexivity.
  assert (hooksRespect blocksExtend Sample.hooks) as H2
    by apply hooksRespect_sample, blocksExtend_refl.
  split; [exact H1|]. split; [exact H2|].
  destruct (proj2 (translateInst_saves_address_first Sample.target Sample.tables
                     opts Sample.hooks 8 Sample.unknownInst (Sample.opened false)
                     H1 H2)
              (mkBB "bb_1000" [(4%nat, RSetReg 0 (ConstantInt (IntegerTy 64) 4096))])
              false
              (Sample.stateOf
                 (translateInst Sample.target Sample.tables opts Sample.hooks 8
                    Sample.unknownInst (Sample.opened false))))
    as (b' & Hb' & _ & Hp); [vm_compute; reflexivity..|].
  exists b'. split; [exact Hb'|exact Hp].
Defined.

(** ** Direct branches *)

Lemma getZExtValue_run n s : n < 2 ^ 64 -> getZExtValue n s = Ok n s.
Proof.
  intros H. unfold getZExtValue, bind, assert.
  by rewrite (proj2 (N.ltb_lt _ _) H).
Qed.

Lemma bbOps_app name l1 l2 :
  bbOps (mkBB name (l1 ++ l2)) = map snd l1 ++ map snd l2.
Proof. unfold bbOps. cbn. by rewrite map_app. Qed.

(** A [BR] to a constant address. *)
Lemma translateOpcode_BR_facts
    (tgt : Target) (tbl : Tables) (hooks : Hooks) (s : DCFunction)
    (vt : N) (v : Value) (rest : list Value) (b : BasicBlock) (a : N) :
  wellNumbered tgt = true ->
  SemanticsArray tbl !! N.to_nat (Idx s) = Some vt ->
  Vals s = v :: rest ->
  Blocks s !! InsertBB s = Some b ->
  asConstantInt v = Some a -> a < 2 ^ 64 ->
  let pc := getProgramCounter tgt in
  exists dest s' b',
    translateOpcode tgt tbl hooks (opcodeOf tgt BR) s = Ok true s'
    /\ BBByAddr s' !! a = Some dest
    /\ (forall d0, BBByAddr s !! a = Some d0 -> dest = d0)
    /\ (BBByAddr s !! a = None -> dest = length (Blocks s))
    /\ Blocks s' !! InsertBB s = Some b'
    /\ bbOps b' = bbOps b ++ [RSetReg pc v; IBr dest]
    /\ Vals s' = rest /\ CallBBs s' = CallBBs s
    /\ InsertBB s' = InsertBB s /\ TheBB s' = TheBB s.
Proof.
  intros Hwn Hvt Hv Hb Hc Ha pc.
  assert (is_Some (Blocks s !! InsertBB s)) as Hsome by eauto.
  - enter_translateOpcode Hwn Hvt.
    run with getNextOperand_run. rewrite Hc. cbn [fromOption].
    unfold bind at 1, ret at 1.
    run with getZExtValue_run.
    unfold setReg.
    erewrite bind_run.
    2:{ erewrite bind_run by (apply emit_appendOps; solve_side). reflexivity. }
    set (s1 := appendOps _ [RSetReg (getProgramCounter tgt) v] _).
    assert (Blocks s1 !! InsertBB s
            = Some (mkBB (bbName b) (bbInsts b ++ [(NextId s, RSetReg pc v)]))) as Hb1.
    { subst s1. simpl_dcf.
      exact (appendOps_lookup (InsertBB s) _
               (with_Vals rest (with_ResEVT vt (with_Idx (nextIdx (Idx s)) s)))
               b Hb). }
    assert (InsertBB s1 = InsertBB s) as Hip by (subst s1; norm_dcf; done).
    assert (BBByAddr s1 = BBByAddr s) as Hmap by (subst s1; norm_dcf; done).
    assert (length (Blocks s1) = length (Blocks s)) as Hlen
      by (subst s1; by rewrite appendOps_length).
    assert (Vals s1 = rest /\ CallBBs s1 = CallBBs s /\ TheBB s1 = TheBB s)
      as (HV & HC & HT) by (subst s1; norm_dcf; done).
    clearbody s1.
    destruct (BBByAddr s !! a) as [d0|] eqn:Hm.
    + rewrite (bind_run _ _ _ _ _ (getOrCreateBasicBlock_known tgt a s1 d0
                                    ltac:(by rewrite Hmap))).
      unfold CreateBr.
      erewrite bind_run.
      2:{ erewrite bind_run
            by (apply emit_appendOps; [reflexivity|rewrite Hip; eauto]).
          reflexivity. }
      eexists d0, _, _. split; [reflexivity|].
      rewrite appendOps_BBByAddr, Hmap, Hip.
      split; [done|]. split; [by intros ? [= ->]|]. split; [done|].
      split; [by apply appendOps_lookup|].
      split; [unfold bbOps; cbn [bbInsts number]; rewrite !map_app; cbn [map snd];
             by rewrite <- app_assoc|].
      by rewrite appendOps_Vals, appendOps_CallBBs, appendOps_InsertBB,
        appendOps_TheBB.
    + rewrite (bind_run _ _ _ _ _ (getOrCreateBasicBlock_fresh tgt a s1
                                    ltac:(by rewrite Hmap))).
      unfold CreateBr.
      erewrite bind_run.
      2:{ erewrite bind_run.
          2:{ apply emit_appendOps; [reflexivity|]. simpl_dcf. rewrite Hip.
              rewrite lookup_app_l by (rewrite Hlen; by eapply lookup_lt_Some).
              eauto. }
          reflexivity. }
      simpl_dcf. rewrite Hip, Hlen.
      eexists (length (Blocks s)), _, _. split; [reflexivity|].
      rewrite appendOps_BBByAddr. simpl_dcf. rewrite lookup_insert_eq.
      split; [done|]. split; [done|]. split; [done|].
      split.
      { apply appendOps_lookup. simpl_dcf.
        rewrite lookup_app_l by (rewrite Hlen; by eapply lookup_lt_Some).
        exact Hb1. }
      split; [unfold bbOps; cbn [bbInsts number]; rewrite !map_app; cbn [map snd];
             by rewrite <- app_assoc|].
      rewrite appendOps_Vals, appendOps_CallBBs, appendOps_InsertBB,
        appendOps_TheBB. simpl_dcf. done.
Qed.

(** X11. [BR]: the operand has to be a constant integer (the [cast] fails
    otherwise).  It is written to the program counter, and a branch to the
    block of that address is appended at the insertion point; the block is
    the one the address has already, or a new placeholder.  Unlike [BRIND],
    no call block is made. *)
Theorem translateOpcode_BR
    (tgt : Target) (tbl : Tables) (hooks : Hooks) (s : DCFunction)
    (vt : N) (v : Value) (rest : list Value) (b : BasicBlock) :
  wellNumbered tgt = true ->
  SemanticsArray tbl !! N.to_nat (Idx s) = Some vt ->
  Vals s = v :: rest ->
  Blocks s !! InsertBB s = Some b ->
  let pc := getProgramCounter tgt in
  (asConstantInt v = None ->
     translateOpcode tgt tbl hooks (opcodeOf tgt BR) s = Abort)
  /\ (forall a, asConstantInt v = Some a -> a < 2 ^ 64 ->
      exists dest s' b',
        translateOpcode tgt tbl hooks (opcodeOf tgt BR) s = Ok true s'
        /\ BBByAddr s' !! a = Some dest
        /\ (forall d0, BBByAddr s !! a = Some d0 -> dest = d0)
        /\ (BBByAddr s !! a = None -> dest = length (Blocks s))
        /\ Blocks s' !! InsertBB s = Some b'
        /\ bbOps b' = bbOps b ++ [RSetReg pc v; IBr dest]
        /\ Vals s' = rest /\ CallBBs s' = CallBBs s
        /\ InsertBB s' = InsertBB s /\ TheBB s' = TheBB s).
Proof.
  intros Hwn Hvt Hv Hb pc. split.
  - intros Hc. enter_translateOpcode Hwn Hvt.
    run with getNextOperand_run. by rewrite Hc.
  - intros a Hc Ha. by eapply translateOpcode_BR_facts.
Qed.

Lemma translateOpcode_BR_witness :
  let s := with_Idx 16 (with_Vals [ConstantInt (IntegerTy 64) 8192]
                          (Sample.opened false)) in
  wellNumbered Sample.target = true
  /\ SemanticsArray Sample.tables !! N.to_nat (Idx s) = Some 64
  /\ exists dest s' b',
      translateOpcode Sample.target Sample.tables Sample.hooks
        (opcodeOf Sample.target BR) s = Ok true s'
      /\ Blocks s' !! InsertBB s = Some b'
      /\ bbOps b' = [RSetReg 0 (ConstantInt (IntegerTy 64) 4096);
                     RSetReg 0 (ConstantInt (IntegerTy 64) 8192);
                     IBr dest].
Proof.
  intros s.
  assert (wellNumbered Sample.target = true) as H1 by (vm_compute; reflexivity).
  assert (SemanticsArray Sample.tables !! N.to_nat (Idx s) = Some 64) as H2
    by (vm_compute; reflexivity).
  assert (Vals s = [ConstantInt (IntegerTy 64) 8192]) as H3 by reflexivity.
  assert (Blocks s !! InsertBB s
          = Some (mkBB "bb_1000"
                    [(4%nat, RSetReg 0 (ConstantInt (IntegerTy 64) 4096))])) as H4
    by (vm_compute; reflexivity).
  split; [exact H1|]. split; [exact H2|].
  destruct (proj2 (translateOpcode_BR Sample.target Sample.tables Sample.hooks s
                     64 _ _ _ H1 H2 H3 H4) 8192 eq_refl ltac:(reflexivity))
    as (dest & s' & b' & Hrun & _ & _ & _ & Hb' & Hops & _).
  exists dest, s', b'. split; [exact Hrun|]. split; [exact Hb'|exact Hops].
Defined.

(** ** Register operands: PUT_RC and GET_RC *)

Lemma appendOps_nil bb s : appendOps bb [] s = s.
Proof.
  unfold appendOps. destruct (Blocks s !! bb) as [b|] eqn:Hb; [|done].
  apply DCFunction_eq; simpl_dcf; try done.
  cbn [number]. rewrite app_nil_r. destruct b as [nm insts]. cbn.
  by apply list_insert_id.
Qed.

Lemma getRegOp_run s d n r :
  CurrentInst s = Some d ->
  Operands d !! N.to_nat n = Some (MCReg r) ->
  getRegOp n s = Ok r s.
Proof.
  intros Hc Ho. unfold getRegOp, currentInst, bind, gets. rewrite Hc. cbn.
  by rewrite Ho.
Qed.

Lemma setReg_run tgt r v s :
  is_Some (Blocks s !! InsertBB s) ->
  setReg tgt r v s = Ok tt (appendOps (InsertBB s) [RSetReg r v] s).
Proof.
  intros Hb. unfold setReg.
  erewrite bind_run by (by apply emit_appendOps). reflexivity.
Qed.

Lemma Ty_eqb_neq a b : a <> b -> Ty_eqb a b = false.
Proof.
  intros Hne. destruct (Ty_eqb a b) eqn:He; [|done]. by apply Ty_eqb_eq in He.
Qed.

Lemma translateOpcode_PUT_RC_run tgt tbl hooks s vt opno d r v rest :
  wellNumbered tgt = true ->
  SemanticsArray tbl !! N.to_nat (Idx s) = Some vt ->
  SemanticsArray tbl !! N.to_nat (nextIdx (Idx s)) = Some opno ->
  CurrentInst s = Some d ->
  Operands d !! N.to_nat opno = Some (MCReg r) ->
  Vals s = v :: rest ->
  is_Some (Blocks s !! InsertBB s) ->
  translateOpcode tgt tbl hooks (opcodeOf tgt PUT_RC) s
  = match putRCOps (getRegIntBits tgt r) r (NextId s) v with
    | Some ops =>
        Ok true (appendOps (InsertBB s) ops
                   (with_Vals rest
                      (with_ResEVT vt (with_Idx (nextIdx (nextIdx (Idx s))) s))))
    | None => Abort
    end.
Proof.
  intros Hwn Hvt Hop Hci Hreg Hv Hb.
  enter_translateOpcode Hwn Hvt.
  run with Next_run.
  erewrite bind_run by (eapply getRegOp_run; solve_side).
  run with getNextOperand_run.
  unfold putRCOps, getRegIntType, CreatePtrToInt, CreateBitCast, getRegAsInt,
    insertBitsInValue.
  set (W := getRegIntBits tgt r).
  set (s1 := with_Vals rest _).
  assert (is_Some (Blocks s1 !! InsertBB s1)) as Hb1 by (subst s1; solve_side).
  change (with_Vals rest (with_ResEVT vt (with_Idx (nextIdx (nextIdx (Idx s))) s)))
    with s1.
  change (NextId s) with (NextId s1). change (InsertBB s) with (InsertBB s1).
  clearbody s1.
  assert (forall (x : Value) (pre : list Instr),
            is_Some (Blocks s1 !! InsertBB s1) ->
            (x0 <- (if getPrimitiveSizeInBits (typeOf x) <? W
                    then full <- emit tgt (RGetRegAsInt r);;
                         emit tgt (RInsertBits full x)
                    else ret x);;
             assert (Ty_eqb (typeOf x0) (IntegerTy W));;;
             setReg tgt r x0;;; ret true) (appendOps (InsertBB s1) pre s1)
            = match
                (let '(c3, v3) :=
                   if getPrimitiveSizeInBits (typeOf x) <? W
                   then ([RGetRegAsInt r;
                          RInsertBits
                            (InstRes (length pre + NextId s1) (IntegerTy W)) x],
                         InstRes (S (length pre + NextId s1)) (IntegerTy W))
                   else ([], x) in
                 if Ty_eqb (typeOf v3) (IntegerTy W)
                 then Some (pre ++ c3 ++ [RSetReg r v3]) else None)
              with
              | Some ops => Ok true (appendOps (InsertBB s1) ops s1)
              | None => Abort
              end) as Htail.
  { intros x pre Hsome.
    destruct (_ <? W) eqn:Hlt.
    - erewrite bind_run.
      2:{ erewrite bind_run by (apply emit_appendOps; [reflexivity|solve_side]).
          apply emit_appendOps; [reflexivity|solve_side]. }
      cbn [typeOf]. rewrite !Ty_eqb_refl. cbn [assert].
      unfold bind at 1, ret at 1.
      erewrite bind_run by (apply setReg_run; solve_side).
      unfold ret. norm_dcf. rewrite ?appendOps_NextId by solve_side.
      unfold getRegIntType. fold W. rewrite length_app. cbn [length].
      replace (length pre + 1 + NextId s1)%nat with (S (length pre + NextId s1))
        by lia.
      reflexivity.
    - unfold bind at 1, ret at 1.
      destruct (Ty_eqb (typeOf x) (IntegerTy W)); [|reflexivity].
      cbn [assert]. unfold bind at 1, ret at 1.
      erewrite bind_run by (apply setReg_run; solve_side).
      unfold ret. f_equal. by norm_dcf. }
  destruct (typeOf v) as [|k|k|t|m t| |] eqn:HT; cbn [isPointerTy isIntegerTy negb].
  4:{ (* a pointer *)
      erewrite bind_run
        by (apply CreateCast_emit; [rewrite HT; reflexivity|solve_side]).
      cbn [typeOf isIntegerTy negb]. unfold bind at 1, ret at 1.
      by rewrite (Htail (InstRes (NextId s1) (IntegerTy W))
                    [ICast PtrToInt v (IntegerTy W)] Hb1). }
  2:{ (* an integer *)
      unfold bind at 1, ret at 1. rewrite HT. cbn [isIntegerTy negb].
      unfold bind at 1, ret at 1.
      specialize (Htail v [] Hb1). rewrite appendOps_nil in Htail.
      rewrite Htail, HT. reflexivity. }
  all: unfold bind at 1, ret at 1; rewrite HT; cbn [isIntegerTy negb].
  all: erewrite bind_run
         by (apply CreateCast_emit; [rewrite HT; reflexivity|solve_side]).
  all: match goal with
       | |- context [ICast BitCast ?x ?T] =>
           by rewrite (Htail (InstRes (NextId s1) T) [ICast BitCast x T] Hb1)
       end.
Qed.

(** X12. [PUT_RC] writes the operand to the register named by an operand of
    the machine instruction.  A value of the register's integer type is
    written as it is; a narrower integer is first inserted into the current
    value of the register, read as an integer; a pointer is first turned into
    an integer of the register's width; and for a value wider than the
    register the assertion on the type fails. *)
Theorem translateOpcode_PUT_RC
    (tgt : Target) (tbl : Tables) (hooks : Hooks) (s : DCFunction)
    (vt opno : N) (d : MCDecodedInst) (r : N) (v : Value) (rest : list Value) :
  wellNumbered tgt = true ->
  SemanticsArray tbl !! N.to_nat (Idx s) = Some vt ->
  SemanticsArray tbl !! N.to_nat (nextIdx (Idx s)) = Some opno ->
  CurrentInst s = Some d ->
  Operands d !! N.to_nat opno = Some (MCReg r) ->
  Vals s = v :: rest ->
  is_Some (Blocks s !! InsertBB s) ->
  let W := getRegIntBits tgt r in
  let iW := IntegerTy W in
  let n := NextId s in
  translateOpcode tgt tbl hooks (opcodeOf tgt PUT_RC) s
  = match putRCOps W r n v with
    | Some ops =>
        Ok true (appendOps (InsertBB s) ops
                   (with_Vals rest
                      (with_ResEVT vt (with_Idx (nextIdx (nextIdx (Idx s))) s))))
    | None => Abort
    end
  /\ (typeOf v = iW -> putRCOps W r n v = Some [RSetReg r v])
  /\ (forall k, typeOf v = IntegerTy k -> k < W ->
      putRCOps W r n v
      = Some [RGetRegAsInt r; RInsertBits (InstRes n iW) v;
              RSetReg r (InstRes (S n) iW)])
  /\ (forall k, typeOf v = IntegerTy k -> W < k -> putRCOps W r n v = None)
  /\ (forall t, typeOf v = PointerTy t ->
      putRCOps W r n v = Some [ICast PtrToInt v iW; RSetReg r (InstRes n iW)]).
Proof.
  intros Hwn Hvt Hop Hci Hreg Hv Hb W iW n.
  split; [by eapply translateOpcode_PUT_RC_run|].
  subst iW. unfold putRCOps. split; [|split; [|split]].
  - intros HT.
    repeat (progress (rewrite ?HT;
                      cbn [isPointerTy isIntegerTy negb getPrimitiveSizeInBits typeOf])).
    rewrite N.ltb_irrefl, HT. by rewrite Ty_eqb_refl.
  - intros k HT Hlt.
    repeat (progress (rewrite ?HT;
                      cbn [isPointerTy isIntegerTy negb getPrimitiveSizeInBits typeOf])).
    rewrite (proj2 (N.ltb_lt _ _) Hlt). cbn [typeOf]. by rewrite Ty_eqb_refl.
  - intros k HT Hlt.
    repeat (progress (rewrite ?HT;
                      cbn [isPointerTy isIntegerTy negb getPrimitiveSizeInBits typeOf])).
    rewrite (proj2 (N.ltb_ge _ _)) by lia. rewrite HT.
    rewrite Ty_eqb_neq; [done|]. intros [= ->]. lia.
  - intros t HT.
    repeat (progress (rewrite ?HT;
                      cbn [isPointerTy isIntegerTy negb getPrimitiveSizeInBits typeOf])).
    rewrite N.ltb_irrefl. cbn [typeOf]. by rewrite Ty_eqb_refl.
Qed.

Lemma translateOpcode_PUT_RC_witness :
  let s := with_CurrentInst (Some Sample.addInst)
             (with_Idx 9 (with_Vals [ConstantInt (IntegerTy 32) 7]
                            (Sample.opened false))) in
  translateOpcode Sample.target Sample.tables Sample.hooks
    (opcodeOf Sample.target PUT_RC) s
  = Ok true
      (appendOps (InsertBB s)
         [RGetRegAsInt 3;
          RInsertBits (InstRes 5 (IntegerTy 64)) (ConstantInt (IntegerTy 32) 7);
          RSetReg 3 (InstRes 6 (IntegerTy 64))]
         (with_Vals [] (with_ResEVT 64 (with_Idx 11 s)))).
Proof.
  intros s.
  assert (wellNumbered Sample.target = true) as H1 by (vm_compute; reflexivity).
  assert (SemanticsArray Sample.tables !! N.to_nat (Idx s) = Some 64) as H2
    by (vm_compute; reflexivity).
  assert (SemanticsArray Sample.tables !! N.to_nat (nextIdx (Idx s)) = Some 0) as H3
    by (vm_compute; reflexivity).
  assert (CurrentInst s = Some Sample.addInst) as H4 by reflexivity.
  assert (Operands Sample.addInst !! N.to_nat 0 = Some (MCReg 3)) as H5
    by reflexivity.
  assert (Vals s = [ConstantInt (IntegerTy 32) 7]) as H6 by reflexivity.
  assert (is_Some (Blocks s !! InsertBB s)) as H7 by (vm_compute; eauto).
  etransitivity;
    [exact (proj1 (translateOpcode_PUT_RC Sample.target Sample.tables Sample.hooks
                     s 64 0 Sample.addInst 3 _ _ H1 H2 H3 H4 H5 H6 H7))|].
  vm_compute. reflexivity.
Defined.

Lemma translateOpcode_GET_RC_run tgt tbl hooks s vt opno d r :
  wellNumbered tgt = true ->
  SemanticsArray tbl !! N.to_nat (Idx s) = Some vt ->
  SemanticsArray tbl !! N.to_nat (nextIdx (Idx s)) = Some opno ->
  CurrentInst s = Some d ->
  Operands d !! N.to_nat opno = Some (MCReg r) ->
  is_Some (Blocks s !! InsertBB s) ->
  let ops := getRCOps (getRegIntBits tgt r) r (getTypeForEVT tgt vt) (NextId s) in
  translateOpcode tgt tbl hooks (opcodeOf tgt GET_RC) s
  = Ok true
      (with_Vals (snd ops :: Vals s)
         (appendOps (InsertBB s) (fst ops)
            (with_ResEVT vt (with_Idx (nextIdx (nextIdx (Idx s))) s)))).
Proof.
  intros Hwn Hvt Hop Hci Hreg Hb ops. subst ops.
  enter_translateOpcode Hwn Hvt.
  run with Next_run.
  unfold resType. unfold bind at 1. unfold bind at 1, gets at 1, ret at 1.
  simpl_dcf.
  erewrite bind_run by (eapply getRegOp_run; solve_side).
  unfold getRegAsInt, getRCOps, CreateTrunc, CreateBitCast.
  set (W := getRegIntBits tgt r). set (T := getTypeForEVT tgt vt).
  set (s1 := with_Idx _ _).
  change (with_ResEVT vt (with_Idx (nextIdx (nextIdx (Idx s))) s)) with s1.
  assert (is_Some (Blocks s1 !! InsertBB s1)) as Hb1 by (subst s1; solve_side).
  change (NextId s) with (NextId s1). change (InsertBB s) with (InsertBB s1).
  change (Vals s) with (Vals s1).
  clearbody s1.
  run with emit_appendOps.
  cbn [typeOf getPrimitiveSizeInBits]. unfold getRegIntType. fold W.
  cbn [getPrimitiveSizeInBits].
  destruct (getPrimitiveSizeInBits T <? W) eqn:Hlt.
  - erewrite bind_run.
    2:{ apply CreateCast_emit; [|solve_side]. cbn [typeOf Ty_eqb].
        apply N.eqb_neq. apply N.ltb_lt in Hlt. lia. }
    destruct (isIntegerTy T) eqn:Hi; cbn [negb].
    + unfold bind at 1, ret at 1. unfold registerResult, bind, modify, ret.
      f_equal. norm_dcf. rewrite ?appendOps_NextId by solve_side. reflexivity.
    + erewrite bind_run.
      2:{ apply CreateCast_emit; [|solve_side]. cbn [typeOf].
          apply Ty_eqb_neq. intros Heq. by rewrite <- Heq in Hi. }
      unfold registerResult, bind, modify, ret.
      f_equal. norm_dcf. rewrite ?appendOps_NextId by solve_side. reflexivity.
  - unfold bind at 1, ret at 1.
    destruct (isIntegerTy T) eqn:Hi; cbn [negb].
    + unfold bind at 1, ret at 1. unfold registerResult, bind, modify, ret.
      f_equal. norm_dcf. reflexivity.
    + erewrite bind_run.
      2:{ apply CreateCast_emit; [|solve_side]. cbn [typeOf].
          apply Ty_eqb_neq. intros Heq. by rewrite <- Heq in Hi. }
      unfold registerResult, bind, modify, ret.
      f_equal. norm_dcf. rewrite ?appendOps_NextId by solve_side. reflexivity.
Qed.

(** X13. [GET_RC] reads the register named by an operand of the machine
    instruction as an integer and registers it as a value of the result
    type: as it is when the result type is the register's integer type,
    truncated when the result type is smaller than the register, and cast
    to the result type when that is no integer type.  Nothing is taken from
    the operands. *)
Theorem translateOpcode_GET_RC
    (tgt : Target) (tbl : Tables) (hooks : Hooks) (s : DCFunction)
    (vt opno : N) (d : MCDecodedInst) (r : N) :
  wellNumbered tgt = true ->
  SemanticsArray tbl !! N.to_nat (Idx s) = Some vt ->
  SemanticsArray tbl !! N.to_nat (nextIdx (Idx s)) = Some opno ->
  CurrentInst s = Some d ->
  Operands d !! N.to_nat opno = Some (MCReg r) ->
  is_Some (Blocks s !! InsertBB s) ->
  let W := getRegIntBits tgt r in
  let iW := IntegerTy W in
  let T := getTypeForEVT tgt vt in
  let n := NextId s in
  let ops := getRCOps W r T n in
  translateOpcode tgt tbl hooks (opcodeOf tgt GET_RC) s
  = Ok true
      (with_Vals (snd ops :: Vals s)
         (appendOps (InsertBB s) (fst ops)
            (with_ResEVT vt (with_Idx (nextIdx (nextIdx (Idx s))) s))))
  /\ (T = iW -> ops = ([RGetRegAsInt r], InstRes n iW))
  /\ (forall k, T = IntegerTy k -> k < W ->
      ops = ([RGetRegAsInt r; ICast Trunc (InstRes n iW) (IntegerTy k)],
             InstRes (S n) (IntegerTy k)))
  /\ (isIntegerTy T = false -> getPrimitiveSizeInBits T = W ->
      ops = ([RGetRegAsInt r; ICast BitCast (InstRes n iW) T], InstRes (S n) T)).
Proof.
  intros Hwn Hvt Hop Hci Hreg Hb W iW T n ops.
  split; [by eapply translateOpcode_GET_RC_run|].
  subst ops iW. unfold getRCOps. split; [|split].
  - intros ->. cbn [getPrimitiveSizeInBits isIntegerTy negb].
    by rewrite N.ltb_irrefl.
  - intros k -> Hlt. cbn [getPrimitiveSizeInBits isIntegerTy negb].
    by rewrite (proj2 (N.ltb_lt _ _) Hlt).
  - intros Hi ->. rewrite N.ltb_irrefl, Hi. reflexivity.
Qed.

Lemma translateOpcode_GET_RC_witness :
  let s := with_CurrentInst (Some Sample.mulInst)
             (with_Idx 32 (Sample.opened false)) in
  translateOpcode Sample.target Sample.tables Sample.hooks
    (opcodeOf Sample.target GET_RC) s
  = Ok true
      (with_Vals [InstRes 6 (IntegerTy 32)]
         (appendOps (InsertBB s)
            [RGetRegAsInt 6;
             ICast Trunc (InstRes 5 (IntegerTy 64)) (IntegerTy 32)]
            (with_ResEVT 32 (with_Idx 34 s)))).
Proof.
  intros s.
  assert (wellNumbered Sample.target = true) as H1 by (vm_compute; reflexivity).
  assert (SemanticsArray Sample.tables !! N.to_nat (Idx s) = Some 32) as H2
    by (vm_compute; reflexivity).
  assert (SemanticsArray Sample.tables !! N.to_nat (nextIdx (Idx s)) = Some 2) as H3
    by (vm_compute; reflexivity).
  assert (CurrentInst s = Some Sample.mulInst) as H4 by reflexivity.
  assert (Operands Sample.mulInst !! N.to_nat 2 = Some (MCReg 6)) as H5
    by reflexivity.
  assert (is_Some (Blocks s !! InsertBB s)) as H6 by (vm_compute; eauto).
  etransitivity;
    [exact (proj1 (translateOpcode_GET_RC Sample.target Sample.tables Sample.hooks
                     s 32 2 Sample.mulInst 6 H1 H2 H3 H4 H5 H6))|].
  vm_compute. reflexivity.
Defined.

(** ** Loads and stores *)

Lemma coercePtr_run tgt p PT s :
  isPointerTy PT = true ->
  is_Some (Blocks s !! InsertBB s) ->
  coercePtr tgt p PT s
  = Ok (snd (coerceOps PT (NextId s) p))
       (appendOps (InsertBB s) (fst (coerceOps PT (NextId s) p)) s).
Proof.
  intros HPT Hb. unfold coercePtr, coerceOps, CreateIntToPtr, CreateBitCast.
  destruct (isPointerTy (typeOf p)) eqn:Hp; cbn [negb].
  - destruct (Ty_eqb (typeOf p) PT) eqn:He; cbn [negb fst snd].
    + by rewrite appendOps_nil.
    + by apply CreateCast_emit.
  - cbn [fst snd]. apply CreateCast_emit; [|done].
    apply Ty_eqb_neq. intros Heq. rewrite Heq in Hp. congruence.
Qed.

Lemma emit_load tgt p T a s :
  typeOf p = PointerTy T ->
  is_Some (Blocks s !! InsertBB s) ->
  emit tgt (ILoad p a) s
  = Ok (InstRes (NextId s) T) (appendOps (InsertBB s) [ILoad p a] s).
Proof. intros Hty Hb. apply emit_appendOps; [cbn; by rewrite Hty|done]. Qed.

Lemma translateLoad_run tgt s p rest :
  Vals s = p :: rest ->
  is_Some (Blocks s !! InsertBB s) ->
  let T := getTypeForEVT tgt (ResEVT s) in
  let c := coerceOps (PointerTy T) (NextId s) p in
  translateLoad tgt s
  = Ok tt
      (with_Vals (InstRes (length (fst c) + NextId s) T :: rest)
         (appendOps (InsertBB s) (fst c ++ [ILoad (snd c) 1]) s)).
Proof.
  intros Hv Hb T c. unfold translateLoad, resType.
  unfold bind at 1. unfold bind at 1, gets at 1, ret at 1.
  run with getNextOperand_run.
  erewrite bind_run by (apply coercePtr_run; [reflexivity|solve_side]).
  simpl_dcf. fold T. fold c.
  assert (typeOf (snd c) = PointerTy T) as Hty.
  { subst c. unfold coerceOps.
    destruct (isPointerTy (typeOf p)); cbn [negb]; [|done].
    destruct (Ty_eqb (typeOf p) (PointerTy T)) eqn:He; cbn [negb]; [|done].
    by apply Ty_eqb_eq in He. }
  erewrite bind_run by (apply emit_load; [exact Hty|solve_side]).
  unfold registerResult, modify. f_equal. norm_dcf.
  by rewrite appendOps_NextId by solve_side.
Qed.

Lemma translateStore_run tgt s v p rest :
  Vals s = v :: p :: rest ->
  is_Some (Blocks s !! InsertBB s) ->
  let c := coerceOps (PointerTy (typeOf v)) (NextId s) p in
  translateStore tgt s
  = Ok tt
      (with_Vals rest
         (appendOps (InsertBB s) (fst c ++ [IStore v (snd c) 1 false]) s)).
Proof.
  intros Hv Hb c. unfold translateStore.
  run with getNextOperand_run. run with getNextOperand_run.
  erewrite bind_run by (apply coercePtr_run; [reflexivity|solve_side]).
  simpl_dcf. fold c.
  erewrite bind_run by (apply emit_appendOps; [reflexivity|solve_side]).
  unfold ret. f_equal. by norm_dcf.
Qed.

(** X14. A load: the [LOAD] opcode and each of the predicates [memop],
    [loadi16], [loadi32], [alignedload], [alignedload256], [alignedload512]
    and [load] are translated in the same way, whatever width or alignment
    the predicate's name promises.  The address operand is made a pointer to
    the result type (integer-to-pointer cast for a value that is no pointer,
    bitcast for a pointer to another type, nothing for a pointer to the
    result type), and a load of the result type through it, with alignment
    1, is appended and registered. *)
Theorem translate_load
    (tgt : Target) (tbl : Tables) (hooks : Hooks) (s : DCFunction)
    (vt : N) (p : Value) (rest : list Value) :
  wellNumbered tgt = true ->
  SemanticsArray tbl !! N.to_nat (Idx s) = Some vt ->
  Vals s = p :: rest ->
  is_Some (Blocks s !! InsertBB s) ->
  let T := getTypeForEVT tgt vt in
  let n := NextId s in
  let c := coerceOps (PointerTy T) n p in
  let loaded (s1 : DCFunction) :=
    with_Vals (InstRes (length (fst c) + n) T :: rest)
      (appendOps (InsertBB s) (fst c ++ [ILoad (snd c) 1]) s1) in
  translateOpcode tgt tbl hooks (opcodeOf tgt LOAD) s
  = Ok true (loaded (with_ResEVT vt (with_Idx (nextIdx (Idx s)) s)))
  /\ (forall pr, isLoadPredicate pr = true ->
      translatePredicate tgt (predicateOf tgt pr) (with_ResEVT vt s)
      = Ok true (loaded (with_ResEVT vt s)))
  /\ (isPointerTy (typeOf p) = false ->
      c = ([ICast IntToPtr p (PointerTy T)], InstRes n (PointerTy T)))
  /\ (typeOf p = PointerTy T -> c = ([], p))
  /\ (forall U, typeOf p = PointerTy U -> U <> T ->
      c = ([ICast BitCast p (PointerTy T)], InstRes n (PointerTy T))).
Proof.
  intros Hwn Hvt Hv Hb T n c loaded.
  split; [|split; [|split; [|split]]].
  - enter_translateOpcode Hwn Hvt.
    erewrite bind_run by (apply translateLoad_run; solve_side).
    reflexivity.
  - intros pr Hpr. unfold translatePredicate.
    rewrite (decodePredicate_predicateOf tgt pr Hwn).
    destruct pr; try discriminate Hpr.
    all: erewrite bind_run by (apply translateLoad_run; solve_side).
    all: reflexivity.
  - intros Hp. subst c. unfold coerceOps. by rewrite Hp.
  - intros HT. subst c. unfold coerceOps. rewrite HT. cbn [isPointerTy negb].
    by rewrite Ty_eqb_refl.
  - intros U HT HU. subst c. unfold coerceOps. rewrite HT. cbn [isPointerTy negb].
    rewrite Ty_eqb_neq; [done|]. by intros [= ->].
Qed.

Lemma translate_load_witness :
  let s := with_Idx 1 (with_Vals [InstRes 100 (IntegerTy 64)]
                         (Sample.opened false)) in
  translateOpcode Sample.target Sample.tables Sample.hooks
    (opcodeOf Sample.target LOAD) s
  = Ok true
      (with_Vals [InstRes 6 (IntegerTy 64)]
         (appendOps (InsertBB s)
            [ICast IntToPtr (InstRes 100 (IntegerTy 64)) (PointerTy (IntegerTy 64));
             ILoad (InstRes 5 (PointerTy (IntegerTy 64))) 1]
            (with_ResEVT 64 (with_Idx 2 s)))).
Proof.
  intros s.
  assert (wellNumbered Sample.target = true) as H1 by (vm_compute; reflexivity).
  assert (SemanticsArray Sample.tables !! N.to_nat (Idx s) = Some 64) as H2
    by (vm_compute; reflexivity).
  assert (Vals s = [InstRes 100 (IntegerTy 64)]) as H3 by reflexivity.
  assert (is_Some (Blocks s !! InsertBB s)) as H4 by (vm_compute; eauto).
  etransitivity;
    [exact (proj1 (translate_load Sample.target Sample.tables Sample.hooks
                     s 64 _ _ H1 H2 H3 H4))|].
  vm_compute. reflexivity.
Defined.

(** X15. A store: the [STORE] opcode and each of the predicates
    [alignednontemporalstore], [nontemporalstore], [alignedstore],
    [alignedstore256], [alignedstore512] and [store] are translated in the
    same way.  The first operand is the value, the second the address; the
    address is made a pointer to the value's type (as for a load), and a
    non-volatile store of the value through it, with alignment 1, is
    appended.  Nothing is registered. *)
Theorem translate_store
    (tgt : Target) (tbl : Tables) (hooks : Hooks) (s : DCFunction)
    (vt : N) (v p : Value) (rest : list Value) :
  wellNumbered tgt = true ->
  SemanticsArray tbl !! N.to_nat (Idx s) = Some vt ->
  Vals s = v :: p :: rest ->
  is_Some (Blocks s !! InsertBB s) ->
  let PT := PointerTy (typeOf v) in
  let n := NextId s in
  let c := coerceOps PT n p in
  let stored (s1 : DCFunction) :=
    with_Vals rest
      (appendOps (InsertBB s) (fst c ++ [IStore v (snd c) 1 false]) s1) in
  translateOpcode tgt tbl hooks (opcodeOf tgt STORE) s
  = Ok true (stored (with_ResEVT vt (with_Idx (nextIdx (Idx s)) s)))
  /\ (forall pr, isStorePredicate pr = true ->
      translatePredicate tgt (predicateOf tgt pr) s = Ok true (stored s))
  /\ (isPointerTy (typeOf p) = false ->
      c = ([ICast IntToPtr p PT], InstRes n PT))
  /\ (typeOf p = PT -> c = ([], p))
  /\ (forall U, typeOf p = PointerTy U -> U <> typeOf v ->
      c = ([ICast BitCast p PT], InstRes n PT)).
Proof.
  intros Hwn Hvt Hv Hb PT n c stored.
  split; [|split; [|split; [|split]]].
  - enter_translateOpcode Hwn Hvt.
    erewrite bind_run by (apply translateStore_run; solve_side).
    reflexivity.
  - intros pr Hpr. unfold translatePredicate.
    rewrite (decodePredicate_predicateOf tgt pr Hwn).
    destruct pr; try discriminate Hpr.
    all: erewrite bind_run by (apply translateStore_run; solve_side).
    all: reflexivity.
  - intros Hp. subst c. unfold coerceOps. by rewrite Hp.
  - intros HT. subst c PT. unfold coerceOps. rewrite HT. cbn [isPointerTy negb].
    by rewrite Ty_eqb_refl.
  - intros U HT HU. subst c PT. unfold coerceOps. rewrite HT.
    cbn [isPointerTy negb]. rewrite Ty_eqb_neq; [done|]. by intros [= ->].
Qed.

Lemma translate_store_witness :
  let s := with_Idx 1 (with_Vals [ConstantInt (IntegerTy 32) 7;
                                  InstRes 100 (IntegerTy 64)]
                         (Sample.opened false)) in
  translateOpcode Sample.target Sample.tables Sample.hooks
    (opcodeOf Sample.target STORE) s
  = Ok true
      (with_Vals []
         (appendOps (InsertBB s)
            [ICast IntToPtr (InstRes 100 (IntegerTy 64)) (PointerTy (IntegerTy 32));
             IStore (ConstantInt (IntegerTy 32) 7)
               (InstRes 5 (PointerTy (IntegerTy 32))) 1 false]
            (with_ResEVT 64 (with_Idx 2 s)))).
Proof.
  intros s.
  assert (wellNumbered Sample.target = true) as H1 by (vm_compute; reflexivity).
  assert (SemanticsArray Sample.tables !! N.to_nat (Idx s) = Some 64) as H2
    by (vm_compute; reflexivity).
  assert (Vals s = [ConstantInt (IntegerTy 32) 7; InstRes 100 (IntegerTy 64)])
    as H3 by reflexivity.
  assert (is_Some (Blocks s !! InsertBB s)) as H4 by (vm_compute; eauto).
  etransitivity;
    [exact (proj1 (translate_store Sample.target Sample.tables Sample.hooks
                     s 64 _ _ _ H1 H2 H3 H4))|].
  vm_compute. reflexivity.
Defined.

(** ** Extending loads *)

Lemma CreateBitOrPointerCast_run tgt p MemTy s :
  is_Some (Blocks s !! InsertBB s) ->
  let c := bitOrPointerOps (PointerTy MemTy) (NextId s) p in
  CreateBitOrPointerCast tgt p (PointerTy MemTy) s
  = Ok (snd c) (appendOps (InsertBB s) (fst c) s).
Proof.
  intros Hb c. subst c.
  unfold CreateBitOrPointerCast, bitOrPointerOps, CreatePtrToInt, CreateIntToPtr,
    CreateBitCast.
  destruct (Ty_eqb (typeOf p) (PointerTy MemTy)) eqn:He.
  - cbn [fst snd]. by rewrite appendOps_nil.
  - cbn [getScalarType isIntegerTy isPointerTy]. rewrite andb_false_r, andb_true_r.
    destruct (isIntegerTy (getScalarType (typeOf p))); cbn [fst snd];
      by apply CreateCast_emit.
Qed.

(** X16. The extending loads: [zextloadi8] and [zextloadi16] load an [i8] or
    an [i16] and zero-extend it to the result type; [sextloadi8],
    [sextloadi16] and [sextloadi32] load an [i8], [i16] or [i32] and
    sign-extend it.  The address is made a pointer to the memory type (by an
    integer-to-pointer cast when it is an integer); the load carries no
    alignment, unlike the plain loads; and no extension is emitted when the
    result type is the memory type.  The predicate always succeeds. *)
Theorem translatePredicate_extending_load
    (tgt : Target) (s : DCFunction) (pr : Predicate) (MemTy : Ty) (ext : CastOps)
    (p : Value) (rest : list Value) :
  wellNumbered tgt = true ->
  extLoadOf pr = Some (MemTy, ext) ->
  Vals s = p :: rest ->
  is_Some (Blocks s !! InsertBB s) ->
  let T := getTypeForEVT tgt (ResEVT s) in
  let n := NextId s in
  let c := bitOrPointerOps (PointerTy MemTy) n p in
  let n1 := (length (fst c) + n)%nat in
  let e := extendTo ext T (S n1) (InstRes n1 MemTy) in
  translatePredicate tgt (predicateOf tgt pr) s
  = Ok true
      (with_Vals (snd e :: rest)
         (appendOps (InsertBB s) (fst c ++ [ILoad (snd c) 0] ++ fst e) s))
  /\ (forall k, typeOf p = IntegerTy k -> MemTy <> T ->
      fst c ++ [ILoad (snd c) 0] ++ fst e
      = [ICast IntToPtr p (PointerTy MemTy);
         ILoad (InstRes n (PointerTy MemTy)) 0;
         ICast ext (InstRes (S n) MemTy) T]
      /\ snd e = InstRes (S (S n)) T).
Proof.
  intros Hwn Hpr Hv Hb T n c n1 e.
  assert (typeOf (snd c) = PointerTy MemTy) as Hty.
  { subst c. unfold bitOrPointerOps.
    destruct (Ty_eqb (typeOf p) (PointerTy MemTy)) eqn:He.
    - by apply Ty_eqb_eq in He.
    - by destruct (isIntegerTy _). }
  assert (translateExtLoad tgt MemTy
            (match ext with SExt => true | _ => false end) s
          = Ok true
              (with_Vals (snd e :: rest)
                 (appendOps (InsertBB s) (fst c ++ [ILoad (snd c) 0] ++ fst e) s)))
    as Hrun.
  { unfold translateExtLoad.
    run with getNextOperand_run.
    erewrite bind_run by (apply CreateBitOrPointerCast_run; solve_side).
    simpl_dcf. fold n. fold c.
    erewrite bind_run by (apply emit_load; [exact Hty|solve_side]).
    unfold resType. unfold bind at 1. unfold bind at 1, gets at 1, ret at 1.
    norm_dcf. rewrite ?appendOps_NextId by solve_side. norm_dcf. fold T.
    change (length (fst c) + NextId s)%nat with n1.
    assert (forall o, (o = SExt \/ o = ZExt) -> ext = o ->
              (r <- CreateCast tgt o (InstRes n1 MemTy) T;;
               registerResult r;;; ret true)
                (with_Vals rest
                   (appendOps (InsertBB s) (fst c ++ [ILoad (snd c) 0]) s))
              = Ok true
                  (with_Vals (snd e :: rest)
                     (appendOps (InsertBB s)
                        (fst c ++ [ILoad (snd c) 0] ++ fst e) s))) as Hext.
    { intros o _ <-. subst e. unfold extendTo. cbn [typeOf].
      destruct (Ty_eqb MemTy T) eqn:He; cbn [fst snd].
      - rewrite (bind_run _ _ _ _ _
                   (CreateCast_same tgt ext (InstRes n1 MemTy) T _ He)).
        unfold registerResult, bind, modify, ret.
        f_equal; norm_dcf; try (by rewrite app_nil_r).
      - erewrite bind_run by (apply CreateCast_emit; [exact He|solve_side]).
        unfold registerResult, bind, modify, ret. f_equal. norm_dcf.
        rewrite ?appendOps_NextId by solve_side.
        rewrite length_app. cbn [length].
        replace (length (fst c) + 1 + NextId s)%nat with (S n1)
          by (subst n1 n; lia).
        by rewrite <- app_assoc. }
    destruct pr; try discriminate Hpr; injection Hpr as <- <-;
      unfold CreateSExt, CreateZExt; apply Hext; auto. }
  split.
  - unfold translatePredicate. rewrite (decodePredicate_predicateOf tgt pr Hwn).
    destruct pr; try discriminate Hpr; injection Hpr as <- <-; exact Hrun.
  - intros k HT Hne. clear Hrun Hty. subst e n1 c.
    unfold bitOrPointerOps, extendTo. rewrite HT.
    cbn [Ty_eqb getScalarType isIntegerTy fst snd typeOf length Nat.add].
    rewrite Ty_eqb_neq by done. split; reflexivity.
Qed.

Lemma translatePredicate_extending_load_witness :
  let s := with_ResEVT 64 (with_Vals [InstRes 100 (IntegerTy 64)]
                             (Sample.opened false)) in
  translatePredicate Sample.target (predicateOf Sample.target sextloadi16) s
  = Ok true
      (with_Vals [InstRes 7 (IntegerTy 64)]
         (appendOps (InsertBB s)
            [ICast IntToPtr (InstRes 100 (IntegerTy 64)) (PointerTy (IntegerTy 16));
             ILoad (InstRes 5 (PointerTy (IntegerTy 16))) 0;
             ICast SExt (InstRes 6 (IntegerTy 16)) (IntegerTy 64)] s)).
Proof.
  intros s.
  assert (wellNumbered Sample.target = true) as H1 by (vm_compute; reflexivity).
  assert (extLoadOf sextloadi16 = Some (IntegerTy 16, SExt)) as H2 by reflexivity.
  assert (Vals s = [InstRes 100 (IntegerTy 64)]) as H3 by reflexivity.
  assert (is_Some (Blocks s !! InsertBB s)) as H4 by (vm_compute; eauto).
  etransitivity;
    [exact (proj1 (translatePredicate_extending_load Sample.target s sextloadi16
                     _ _ _ _ H1 H2 H3 H4))|].
  vm_compute. reflexivity.
Defined.

(** ** Conversions *)

(** X17. The ten conversion opcodes ([TRUNCATE], [BITCAST], [ZERO_EXTEND],
    [SIGN_EXTEND], the four between floating point and integers, [FP_ROUND]
    and [FP_EXTEND]) go through [translateCastOp] with the matching IR cast:
    the operand is cast to the type of the opcode's value type and the
    result registered.  When the operand has that type already no
    instruction is emitted, and the operand itself is registered. *)
Theorem translateOpcode_conversion
    (tgt : Target) (tbl : Tables) (hooks : Hooks) (o : SemaOp) (Opc : CastOps)
    (s : DCFunction) (vt : N) (v : Value) (rest : list Value) :
  wellNumbered tgt = true ->
  castOpOf o = Some Opc ->
  SemanticsArray tbl !! N.to_nat (Idx s) = Some vt ->
  Vals s = v :: rest ->
  is_Some (Blocks s !! InsertBB s) ->
  let T := getTypeForEVT tgt vt in
  let s1 := with_ResEVT vt (with_Idx (nextIdx (Idx s)) s) in
  translateOpcode tgt tbl hooks (opcodeOf tgt o) s
  = Ok true
      (if Ty_eqb (typeOf v) T then with_Vals (v :: rest) s1
       else with_Vals (InstRes (NextId s) T :: rest)
              (appendOps (InsertBB s) [ICast Opc v T] s1)).
Proof.
  intros Hwn Ho Hvt Hv Hb T s1.
  assert (translateCastOp tgt Opc s1
          = Ok tt
              (if Ty_eqb (typeOf v) T then with_Vals (v :: rest) s1
               else with_Vals (InstRes (NextId s) T :: rest)
                      (appendOps (InsertBB s) [ICast Opc v T] s1))) as Hrun.
  { unfold translateCastOp, resType.
    unfold bind at 1. unfold bind at 1, gets at 1, ret at 1.
    change (getTypeForEVT tgt (ResEVT s1)) with T.
    erewrite bind_run by (apply getNextOperand_run; subst s1; solve_side).
    destruct (Ty_eqb (typeOf v) T) eqn:He.
    - rewrite (bind_run _ _ _ _ _ (CreateCast_same tgt Opc v T _ He)).
      unfold registerResult, modify. f_equal.
    - erewrite bind_run
        by (apply CreateCast_emit; [exact He|subst s1; solve_side]).
      unfold registerResult, modify. f_equal. subst s1. by norm_dcf. }
  enter_translateOpcode Hwn Hvt. fold s1.
  destruct o; try discriminate Ho; injection Ho as <-;
    by rewrite (bind_run _ _ _ _ _ Hrun).
Qed.

Lemma translateOpcode_conversion_witness :
  let s := with_Idx 32 (with_Vals [InstRes 100 (IntegerTy 64)]
                          (Sample.opened false)) in
  translateOpcode Sample.target Sample.tables Sample.hooks
    (opcodeOf Sample.target TRUNCATE) s
  = Ok true
      (with_Vals [InstRes 5 (IntegerTy 32)]
         (appendOps (InsertBB s)
            [ICast Trunc (InstRes 100 (IntegerTy 64)) (IntegerTy 32)]
            (with_ResEVT 32 (with_Idx 33 s)))).
Proof.
  intros s.
  assert (wellNumbered Sample.target = true) as H1 by (vm_compute; reflexivity).
  assert (castOpOf TRUNCATE = Some Trunc) as H2 by reflexivity.
  assert (SemanticsArray Sample.tables !! N.to_nat (Idx s) = Some 32) as H3
    by (vm_compute; reflexivity).
  assert (Vals s = [InstRes 100 (IntegerTy 64)]) as H4 by reflexivity.
  assert (is_Some (Blocks s !! InsertBB s)) as H5 by (vm_compute; eauto).
  etransitivity;
    [exact (translateOpcode_conversion Sample.target Sample.tables Sample.hooks
              TRUNCATE Trunc s 32 _ _ H1 H2 H3 H4 H5)|].
  vm_compute. reflexivity.
Defined.

(** ** Constants from the pool *)

(** X18. [MOV_CONSTANT] reads the index of a constant from the tape and
    registers entry [ValIdx] of [ConstantArray] as a constant of the result
    type, cut to its width; for the value type [iPTR] the type is [i64].  No
    instruction is emitted and no operand is taken.  An index outside the
    array, or a result type that is no integer type, stops the translation. *)
Theorem translateOpcode_MOV_CONSTANT
    (tgt : Target) (tbl : Tables) (hooks : Hooks) (s : DCFunction)
    (vt ValIdx : N) :
  wellNumbered tgt = true ->
  SemanticsArray tbl !! N.to_nat (Idx s) = Some vt ->
  SemanticsArray tbl !! N.to_nat (nextIdx (Idx s)) = Some ValIdx ->
  let T := if vt =? iPTR tgt then IntegerTy 64 else getTypeForEVT tgt vt in
  let s1 := with_ResEVT vt (with_Idx (nextIdx (nextIdx (Idx s))) s) in
  (ConstantArray tbl !! N.to_nat ValIdx = None ->
     translateOpcode tgt tbl hooks (opcodeOf tgt MOV_CONSTANT) s = Abort)
  /\ (forall c,
        ConstantArray tbl !! N.to_nat ValIdx = Some c ->
        match getScalarType T with
        | IntegerTy w =>
            translateOpcode tgt tbl hooks (opcodeOf tgt MOV_CONSTANT) s
            = Ok true (with_Vals (ConstantInt T (c mod 2 ^ w) :: Vals s) s1)
        | _ =>
            translateOpcode tgt tbl hooks (opcodeOf tgt MOV_CONSTANT) s = Abort
        end).
Proof.
  intros Hwn Hvt Hidx T s1. split.
  - intros Hnone. enter_translateOpcode Hwn Hvt.
    run with Next_run.
    unfold bind at 1, gets at 1. simpl_dcf. by rewrite Hnone.
  - intros c Hc. subst T.
    assert (forall U, U = (if vt =? iPTR tgt then IntegerTy 64 else getTypeForEVT tgt vt) ->
              match getScalarType U with
              | IntegerTy w =>
                  translateOpcode tgt tbl hooks (opcodeOf tgt MOV_CONSTANT) s
                  = Ok true (with_Vals (ConstantInt U (c mod 2 ^ w) :: Vals s) s1)
              | _ =>
                  translateOpcode tgt tbl hooks (opcodeOf tgt MOV_CONSTANT) s = Abort
              end) as H; [|by apply H].
    intros U HU. destruct (getScalarType U) eqn:HS.
    all: enter_translateOpcode Hwn Hvt.
    all: run with Next_run.
    all: unfold bind at 1, gets at 1; simpl_dcf; rewrite Hc; cbn [fromOption].
    all: unfold bind at 1, ret at 1; unfold getInt64Ty; rewrite <- HU.
    all: unfold ConstantInt_get; rewrite HS; reflexivity.
Qed.

Lemma translateOpcode_MOV_CONSTANT_witness :
  let s := with_Idx 13 (Sample.opened false) in
  translateOpcode Sample.target Sample.tables Sample.hooks
    (opcodeOf Sample.target MOV_CONSTANT) s
  = Ok true
      (with_Vals [ConstantInt (IntegerTy 64) 8192]
         (with_ResEVT 64 (with_Idx 15 s))).
Proof.
  intros s.
  assert (wellNumbered Sample.target = true) as H1 by (vm_compute; reflexivity).
  assert (SemanticsArray Sample.tables !! N.to_nat (Idx s) = Some 64) as H2
    by (vm_compute; reflexivity).
  assert (SemanticsArray Sample.tables !! N.to_nat (nextIdx (Idx s)) = Some 0) as H3
    by (vm_compute; reflexivity).
  exact (proj2 (translateOpcode_MOV_CONSTANT Sample.target Sample.tables
                  Sample.hooks s 64 0 H1 H2 H3) 8192 eq_refl).
Defined.

(** ** Rotations *)

(** X19. [ROTL] asserts that the first operand [x] is an integer, of [w]
    bits say.  The second operand is zero-extended to that type if it has
    another, and the rotation is spelled as
    [(x << a) | (x >> (w - a))]: a shift left, the subtraction from the
    constant [w], a logical shift right and an or, in this order, the or
    being registered. *)
Theorem translateOpcode_ROTL
    (tgt : Target) (tbl : Tables) (hooks : Hooks) (s : DCFunction)
    (vt : N) (x a : Value) (rest : list Value) :
  wellNumbered tgt = true ->
  SemanticsArray tbl !! N.to_nat (Idx s) = Some vt ->
  Vals s = x :: a :: rest ->
  is_Some (Blocks s !! InsertBB s) ->
  let s1 := with_ResEVT vt (with_Idx (nextIdx (Idx s)) s) in
  (isIntegerTy (typeOf x) = false ->
     translateOpcode tgt tbl hooks (opcodeOf tgt ROTL) s = Abort)
  /\ (forall w, typeOf x = IntegerTy w -> 1 <= w ->
      let iw := IntegerTy w in
      let ea := extendTo ZExt iw (NextId s) a in
      let n := (length (fst ea) + NextId s)%nat in
      translateOpcode tgt tbl hooks (opcodeOf tgt ROTL) s
      = Ok true
          (with_Vals (InstRes (3 + n) iw :: rest)
             (appendOps (InsertBB s)
                (fst ea ++
                 [IBinOp Shl x (snd ea);
                  IBinOp Sub (ConstantInt iw w) (snd ea);
                  IBinOp LShr x (InstRes (S n) iw);
                  IBinOp Or (InstRes n iw) (InstRes (S (S n)) iw)])
                s1))).
Proof.
  intros Hwn Hvt Hv Hb s1. split.
  - intros Hi. enter_translateOpcode Hwn Hvt.
    run with getNextOperand_run. by rewrite Hi.
  - intros w HT Hw iw ea n.
    assert (w mod 2 ^ w = w) as Hmod.
    { apply N.mod_small. apply N.pow_gt_lin_r. lia. }
    enter_translateOpcode Hwn Hvt.
    run with getNextOperand_run. rewrite HT. cbn [isIntegerTy assert].
    unfold bind at 1, ret at 1.
    run with getNextOperand_run.
    unfold CreateZExt, CreateBinOp. subst ea n. unfold extendTo. fold iw.
    destruct (Ty_eqb (typeOf a) iw) eqn:He; cbn [fst snd length Nat.add app].
    + rewrite (bind_run _ _ _ _ _ (CreateCast_same tgt ZExt a iw _ He)).
      run with emit_appendOps.
      erewrite bind_run
        by (apply ConstantInt_get_run; reflexivity).
      run with emit_appendOps. run with emit_appendOps. run with emit_appendOps.
      unfold registerResult, bind, modify, ret. f_equal. subst iw s1.
      norm_dcf. rewrite ?appendOps_NextId by solve_side. norm_dcf.
      cbn [typeOf]. rewrite ?HT.
      cbn [getScalarSizeInBits getScalarType getPrimitiveSizeInBits].
      rewrite Hmod. reflexivity.
    + erewrite bind_run by (apply CreateCast_emit; [exact He|solve_side]).
      run with emit_appendOps.
      erewrite bind_run
        by (apply ConstantInt_get_run; reflexivity).
      run with emit_appendOps. run with emit_appendOps. run with emit_appendOps.
      unfold registerResult, bind, modify, ret. f_equal. subst iw s1.
      norm_dcf. rewrite ?appendOps_NextId by solve_side. norm_dcf.
      cbn [typeOf]. rewrite ?HT.
      cbn [getScalarSizeInBits getScalarType getPrimitiveSizeInBits].
      rewrite Hmod. reflexivity.
Qed.

Lemma translateOpcode_ROTL_witness :
  let s := with_Idx 1 (with_Vals [InstRes 100 (IntegerTy 64);
                                  ConstantInt (IntegerTy 8) 3]
                         (Sample.opened false)) in
  translateOpcode Sample.target Sample.tables Sample.hooks
    (opcodeOf Sample.target ROTL) s
  = Ok true
      (with_Vals [InstRes 9 (IntegerTy 64)]
         (appendOps (InsertBB s)
            [ICast ZExt (ConstantInt (IntegerTy 8) 3) (IntegerTy 64);
             IBinOp Shl (InstRes 100 (IntegerTy 64)) (InstRes 5 (IntegerTy 64));
             IBinOp Sub (ConstantInt (IntegerTy 64) 64) (InstRes 5 (IntegerTy 64));
             IBinOp LShr (InstRes 100 (IntegerTy 64)) (InstRes 7 (IntegerTy 64));
             IBinOp Or (InstRes 6 (IntegerTy 64)) (InstRes 8 (IntegerTy 64))]
            (with_ResEVT 64 (with_Idx 2 s)))).
Proof.
  intros s.
  assert (wellNumbered Sample.target = true) as H1 by (vm_compute; reflexivity).
  assert (SemanticsArray Sample.tables !! N.to_nat (Idx s) = Some 64) as H2
    by (vm_compute; reflexivity).
  assert (Vals s = [InstRes 100 (IntegerTy 64); ConstantInt (IntegerTy 8) 3])
    as H3 by reflexivity.
  assert (is_Some (Blocks s !! InsertBB s)) as H4 by (vm_compute; eauto).
  etransitivity;
    [exact (proj2 (translateOpcode_ROTL Sample.target Sample.tables Sample.hooks
                     s 64 _ _ _ H1 H2 H3 H4) 64 eq_refl ltac:(lia))|].
  vm_compute. reflexivity.
Defined.

(** ** Block names *)

Lemma hexvalue_hexdigit d : d < 16 -> hexvalue (hexdigit d) = d.
Proof.
  intros Hd.
  assert (d = 0 \/ d = 1 \/ d = 2 \/ d = 3 \/ d = 4 \/ d = 5 \/ d = 6 \/ d = 7
          \/ d = 8 \/ d = 9 \/ d = 10 \/ d = 11 \/ d = 12 \/ d = 13 \/ d = 14
          \/ d = 15) as H by lia.
  repeat (destruct H as [->|H]; [reflexivity|]). by subst.
Qed.

Lemma hexValueFrom_acc acc s :
  hexValueFrom acc s = acc * 16 ^ N.of_nat (String.length s) + hexValueFrom 0 s.
Proof.
  revert acc. induction s as [|c r IH]; intros acc.
  - cbn. lia.
  - cbn [hexValueFrom String.length]. rewrite (IH (16 * acc + hexvalue c)).
    rewrite (IH (16 * 0 + hexvalue c)).
    rewrite Nat2N.inj_succ, N.pow_succ_r'. ring.
Qed.

Lemma hexValue_utohexstr_loop fuel x buf :
  x < 16 ^ N.of_nat fuel ->
  hexValue (utohexstr_loop fuel x buf)
  = x * 16 ^ N.of_nat (String.length buf) + hexValue buf.
Proof.
  revert x buf. induction fuel as [|fuel IH]; intros x buf Hx.
  - cbn in Hx. assert (x = 0) as -> by lia. cbn [utohexstr_loop].
    by rewrite N.mul_0_l.
  - cbn [utohexstr_loop]. destruct (N.eqb_spec x 0) as [->|Hne];
      [by rewrite N.mul_0_l|].
    rewrite Nat2N.inj_succ, N.pow_succ_r' in Hx.
    assert (N.shiftr x 4 = x / 16) as Hs by (by rewrite N.shiftr_div_pow2).
    assert (N.land x 15 = x mod 16) as Hl
      by (change 15 with (N.ones 4); by rewrite N.land_ones).
    pose proof (N.div_mod x 16 ltac:(lia)) as Hdm.
    pose proof (N.mod_lt x 16 ltac:(lia)) as Hm.
    rewrite IH by (rewrite Hs; apply N.Div0.div_lt_upper_bound; lia).
    unfold hexValue. cbn [hexValueFrom String.length].
    rewrite (hexValueFrom_acc (16 * 0 + _)), Hs, Hl, hexvalue_hexdigit by done.
    rewrite Nat2N.inj_succ, N.pow_succ_r'.
    set (p := 16 ^ N.of_nat (String.length buf)).
    set (q := hexValueFrom 0 buf). nia.
Qed.

Lemma hexValue_utohexstr a : hexValue (utohexstr a) = a.
Proof.
  unfold utohexstr. destruct (N.eqb_spec a 0) as [->|Hne]; [reflexivity|].
  rewrite hexValue_utohexstr_loop.
  - cbn. lia.
  - rewrite N2Nat.id.
    pose proof (N.size_gt a) as Hs.
    assert (2 ^ N.size a <= 16 ^ N.size a) by (apply N.pow_le_mono_l; lia).
    lia.
Qed.

(** X20. Block names identify addresses: [utohexstr] can be read back, so
    the blocks [getOrCreateBasicBlock] creates for two different addresses
    are two blocks with different names. *)
Theorem block_names_identify_addresses (tgt : Target) :
  (forall a, hexValue (utohexstr a) = a)
  /\ (forall a b, a <> b -> "bb_" +++ utohexstr a <> "bb_" +++ utohexstr b)
  /\ (forall a b s,
        a <> b -> BBByAddr s !! a = None -> BBByAddr s !! b = None ->
        exists ba sa bb sb blka blkb,
          getOrCreateBasicBlock tgt a s = Ok ba sa
          /\ getOrCreateBasicBlock tgt b sa = Ok bb sb
          /\ ba <> bb
          /\ Blocks sb !! ba = Some blka /\ Blocks sb !! bb = Some blkb
          /\ bbName blka = "bb_" +++ utohexstr a
          /\ bbName blkb = "bb_" +++ utohexstr b
          /\ bbName blka <> bbName blkb).
Proof.
  assert (forall a b, a <> b -> "bb_" +++ utohexstr a <> "bb_" +++ utohexstr b)
    as Hinj.
  { intros a b Hne Heq. apply Hne.
    assert (utohexstr a = utohexstr b) as H by (by injection Heq).
    apply (f_equal hexValue) in H. by rewrite !hexValue_utohexstr in H. }
  split; [apply hexValue_utohexstr|]. split; [exact Hinj|].
  intros a b s Hne Ha Hb.
  pose proof (getOrCreateBasicBlock_fresh tgt a s Ha) as Hra.
  set (blka := mkBB ("bb_" +++ utohexstr a)
                 [(NextId s, ICall (IntrinsicDecl trap) []);
                  (S (NextId s), IUnreachable)]) in Hra.
  set (sa := with_NextId _ _) in Hra.
  assert (BBByAddr sa !! b = None) as Hb'.
  { subst sa. simpl_dcf. by rewrite lookup_insert_ne. }
  pose proof (getOrCreateBasicBlock_fresh tgt b sa Hb') as Hrb.
  set (blkb := mkBB ("bb_" +++ utohexstr b) _) in Hrb.
  set (sb := with_NextId _ _) in Hrb.
  assert (Blocks sa = Blocks s ++ [blka]) as HBa by reflexivity.
  assert (Blocks sb = (Blocks s ++ [blka]) ++ [blkb]) as HBb by reflexivity.
  exists (length (Blocks s)), sa, (length (Blocks sa)), sb, blka, blkb.
  split; [exact Hra|]. split; [exact Hrb|].
  rewrite HBb, HBa. rewrite length_app. cbn [length].
  split; [lia|].
  split.
  { rewrite lookup_app_l by (rewrite length_app; cbn; lia).
    apply lookup_snoc_length. }
  split.
  { replace (length (Blocks s) + 1)%nat with (length (Blocks s ++ [blka]))
      by (rewrite length_app; reflexivity).
    apply lookup_snoc_length. }
  split; [reflexivity|]. split; [reflexivity|]. by apply Hinj.
Qed.

(** ** Blocks the translator does not write to *)

(** X21. At every point of a translation (after the constructor and any
    sequence of [SwitchToBasicBlock], [translateInst], [FinalizeBasicBlock]
    and [createExternalTailCallBB], for a target whose methods keep it so),
    the exit block, the diff-exit block and the recorded call blocks are
    blocks of the function that are not the insertion point, not the current
    block and not the block of any address; no call block is recorded twice;
    and every address of the block map has a block of the function.  So
    nothing is appended to those blocks, and none of them is ever opened,
    before the destructor runs. *)
Theorem reachable_blocks_protected
    (tgt : Target) (tbl : Tables) (opts : Options) (hooks : Hooks)
    (mcf : MCFunction) (s : DCFunction) :
  hooksRespect (keepsShape (diffExitBlock opts)) hooks ->
  Reachable tgt tbl opts hooks mcf s ->
  NoDup (CallBBs s)
  /\ (forall b,
        b ∈ CallBBs s \/ b = ExitBB s \/ diffExitBlock opts = Some b ->
        (b < length (Blocks s))%nat
        /\ InsertBB s <> b /\ TheBB s <> Some b
        /\ forall a, BBByAddr s !! a <> Some b)
  /\ (forall a b, BBByAddr s !! a = Some b -> (b < length (Blocks s))%nat).
Proof.
  intros Hh Hr.
  pose proof (Reachable_wellShaped tgt tbl opts hooks mcf s Hh Hr) as Hws.
  split; [by eapply ws_calls_nodup|]. split; [|by eapply ws_map_range].
  intros b Hb. apply elem_of_sealed in Hb.
  split; [by eapply ws_sealed_range|].
  split; [intros <-; by eapply ws_insert_open|].
  split; [intros HT; by eapply ws_thebb_open|].
  intros a Ha. by eapply ws_map_open.
Qed.

Lemma reachable_blocks_protected_witness :
  hooksRespect (keepsShape (diffExitBlock (Sample.options true false))) Sample.hooks
  /\ Reachable Sample.target Sample.tables (Sample.options true false)
       Sample.hooks Sample.mcf tailCallRun
  /\ InsertBB tailCallRun <> ExitBB tailCallRun.
Proof.
  assert (hooksRespect (keepsShape (diffExitBlock (Sample.options true false)))
            Sample.hooks) as H1 by apply Sample_keepsShape.
  pose proof tailCallRun_reachable as H2.
  split; [exact H1|]. split; [exact H2|].
  destruct (reachable_blocks_protected Sample.target Sample.tables
              (Sample.options true false) Sample.hooks Sample.mcf tailCallRun
              H1 H2) as (_ & H & _).
  destruct (H (ExitBB tailCallRun) (or_intror (or_introl eq_refl)))
    as (_ & Hi & _).
  exact Hi.
Defined.

(** ** What becomes of the target's answers *)

(** X22. The target's methods inside [translateOpcode].  An opcode from
    ISD::BUILTIN_OP_END up to DCINS::DC_OPCODE_START goes to
    [translateTargetOpcode] once the value type has been read, and the
    method's answer is the opcode's.  [CUSTOM_OP] reads the operand type and
    the operand number from the tape; a null answer of
    [translateCustomOperand] fails the opcode, a value is registered.
    [IMPLICIT] reads a register number and calls [translateImplicit], whose
    answer is dropped: the opcode succeeds even when the method returns
    [false]. *)
Theorem translateOpcode_target_methods
    (tgt : Target) (tbl : Tables) (hooks : Hooks) (s : DCFunction) (vt : N) :
  wellNumbered tgt = true ->
  SemanticsArray tbl !! N.to_nat (Idx s) = Some vt ->
  let s1 := with_ResEVT vt (with_Idx (nextIdx (Idx s)) s) in
  (forall op,
     BUILTIN_OP_END tgt <= op -> op < DC_OPCODE_START tgt ->
     translateOpcode tgt tbl hooks op s = translateTargetOpcode hooks op s1)
  /\ (forall ty no r s',
        SemanticsArray tbl !! N.to_nat (nextIdx (Idx s)) = Some ty ->
        SemanticsArray tbl !! N.to_nat (nextIdx (nextIdx (Idx s))) = Some no ->
        translateCustomOperand hooks ty no
          (with_Idx (nextIdx (nextIdx (nextIdx (Idx s)))) s1) = Ok r s' ->
        translateOpcode tgt tbl hooks (opcodeOf tgt CUSTOM_OP) s
        = match r with
          | Some v => Ok true (with_Vals (v :: Vals s') s')
          | None => Ok false s'
          end)
  /\ (forall reg b s',
        SemanticsArray tbl !! N.to_nat (nextIdx (Idx s)) = Some reg ->
        translateImplicit hooks reg (with_Idx (nextIdx (nextIdx (Idx s))) s1)
        = Ok b s' ->
        translateOpcode tgt tbl hooks (opcodeOf tgt IMPLICIT) s = Ok true s').
Proof.
  intros Hwn Hvt s1. split; [|split].
  - intros op Hlo Hhi. unfold translateOpcode, NextVT.
    rewrite (bind_run _ _ _ _ _ (Next_run _ _ _ Hvt)).
    unfold bind at 1, modify at 1.
    rewrite (proj2 (N.leb_le _ _) Hlo), (proj2 (N.ltb_lt _ _) Hhi). reflexivity.
  - intros ty no r s' Hty Hno Hrun. enter_translateOpcode Hwn Hvt.
    run with Next_run. run with Next_run.
    rewrite (bind_run _ _ _ _ _ Hrun). by destruct r.
  - intros reg b s' Hreg Hrun. enter_translateOpcode Hwn Hvt.
    run with Next_run.
    by rewrite (bind_run _ _ _ _ _ Hrun).
Qed.

Lemma translateOpcode_target_methods_witness :
  let s := with_Idx 1 (Sample.opened false) in
  translateOpcode Sample.target Sample.tables Sample.hooks
    (opcodeOf Sample.target IMPLICIT) s
  = Ok true (with_Idx 3 (with_ResEVT 64 s)).
Proof.
  intros s.
  assert (wellNumbered Sample.target = true) as H1 by (vm_compute; reflexivity).
  assert (SemanticsArray Sample.tables !! N.to_nat (Idx s) = Some 64) as H2
    by (vm_compute; reflexivity).
  assert (SemanticsArray Sample.tables !! N.to_nat (nextIdx (Idx s)) = Some 1) as H3
    by (vm_compute; reflexivity).
  etransitivity;
    [exact (proj2 (proj2 (translateOpcode_target_methods Sample.target
                            Sample.tables Sample.hooks s 64 H1 H2))
              1 false _ H3 eq_refl)|].
  vm_compute. reflexivity.
Defined.

(** ** A branch, then the end of the block *)

(** X23. When the last semantic effect in the current block is a [BR],
    [FinalizeBasicBlock] adds no fall-through branch: the block ends with the
    branch of the [BR], and only the translator's handles change. *)
Theorem BR_then_FinalizeBasicBlock
    (tgt : Target) (tbl : Tables) (hooks : Hooks) (s s' : DCFunction)
    (vt a : N) (w : N) (rest : list Value) (bb : nat) :
  wellNumbered tgt = true ->
  SemanticsArray tbl !! N.to_nat (Idx s) = Some vt ->
  Vals s = ConstantInt (IntegerTy w) a :: rest ->
  a < 2 ^ 64 ->
  TheBB s = Some bb -> InsertBB s = bb ->
  is_Some (Blocks s !! bb) ->
  translateOpcode tgt tbl hooks (opcodeOf tgt BR) s = Ok true s' ->
  FinalizeBasicBlock tgt s' = Ok tt (closedBlock s')
  /\ Blocks (closedBlock s') = Blocks s'.
Proof.
  intros Hwn Hvt Hv Ha HT Hip [b Hb] Hrun. rewrite <- Hip in Hb.
  destruct (translateOpcode_BR_facts tgt tbl hooks s vt _ rest b a
              Hwn Hvt Hv Hb eq_refl Ha)
    as (dest & s2 & b' & Hrun2 & _ & _ & _ & Hb' & Hops & _ & _ & _ & HT').
  rewrite Hrun in Hrun2. injection Hrun2 as <-.
  split; [|reflexivity].
  rewrite FinalizeBasicBlock_unfold, HT', HT, <- Hip, Hb'.
  unfold getTerminator. rewrite Hops.
  replace (bbOps b ++ [RSetReg (getProgramCounter tgt) (ConstantInt (IntegerTy w) a);
                       IBr dest])
    with ((bbOps b ++ [RSetReg (getProgramCounter tgt) (ConstantInt (IntegerTy w) a)])
          ++ [IBr dest]) by (by rewrite <- app_assoc).
  by rewrite last_snoc.
Qed.

Lemma BR_then_FinalizeBasicBlock_witness :
  let s := with_Idx 16 (with_Vals [ConstantInt (IntegerTy 64) 8192]
                          (Sample.opened false)) in
  let s' := Sample.stateOf
              (translateOpcode Sample.target Sample.tables Sample.hooks
                 (opcodeOf Sample.target BR) s) in
  translateOpcode Sample.target Sample.tables Sample.hooks
    (opcodeOf Sample.target BR) s = Ok true s'
  /\ FinalizeBasicBlock Sample.target s' = Ok tt (closedBlock s').
Proof.
  intros s s'.
  assert (wellNumbered Sample.target = true) as H1 by (vm_compute; reflexivity).
  assert (SemanticsArray Sample.tables !! N.to_nat (Idx s) = Some 64) as H2
    by (vm_compute; reflexivity).
  assert (Vals s = ConstantInt (IntegerTy 64) 8192 :: []) as H3 by reflexivity.
  assert (8192 < 2 ^ 64) as H4 by reflexivity.
  assert (TheBB s = Some 2%nat) as H5 by reflexivity.
  assert (InsertBB s = 2%nat) as H6 by reflexivity.
  assert (is_Some (Blocks s !! 2%nat)) as H7 by (vm_compute; eauto).
  assert (translateOpcode Sample.target Sample.tables Sample.hooks
            (opcodeOf Sample.target BR) s = Ok true s') as H8
    by (vm_compute; reflexivity).
  split; [exact H8|].
  exact (proj1 (BR_then_FinalizeBasicBlock Sample.target Sample.tables
                  Sample.hooks s s' 64 8192 64 [] 2%nat
                  H1 H2 H3 H4 H5 H6 H7 H8)).
Defined.

(** ** C7: where the function returns *)

Lemma gainsNoReturn_refl s : gainsNoReturn s s.
Proof. split; [done|]. intros bb b Hb Hin. by exists b. Qed.

Lemma gainsNoReturn_trans s1 s2 s3 :
  gainsNoReturn s1 s2 -> gainsNoReturn s2 s3 -> gainsNoReturn s1 s3.
Proof.
  intros [E1 H1] [E2 H2]. split; [congruence|].
  intros bb b3 Hb3 Hin3. destruct (H2 bb b3 Hb3 Hin3) as (b2 & Hb2 & Hin2). eauto.
Qed.

Lemma gainsNoReturn_scratch s s' : sameIR s s' -> gainsNoReturn s s'.
Proof.
  intros (_ & E & _ & _ & B & _). split; [done|].
  intros bb b Hb Hin. exists b. by rewrite <- B.
Qed.

(** Replacing the body of one block by one with no more returns. *)
Lemma gainsNoReturn_update s s' bb b insts :
  Blocks s !! bb = Some b -> ExitBB s' = ExitBB s ->
  Blocks s' = <[bb := mkBB (bbName b) insts]> (Blocks s) ->
  (IRet ∈ map snd insts -> IRet ∈ bbOps b) ->
  gainsNoReturn s s'.
Proof.
  intros Hb E B Hin. split; [done|]. rewrite B. intros x bx Hx Hr.
  destruct (decide (x = bb)) as [->|Hne].
  - rewrite list_lookup_insert_eq in Hx by (by eapply lookup_lt_Some).
    injection Hx as <-. exists b. split; [done|]. by apply Hin.
  - rewrite list_lookup_insert_ne in Hx by done. eauto.
Qed.

(** Adding blocks without a return. *)
Lemma gainsNoReturn_added s s' l :
  ExitBB s' = ExitBB s -> Blocks s' = Blocks s ++ l ->
  (forall b, b ∈ l -> IRet ∉ bbOps b) ->
  gainsNoReturn s s'.
Proof.
  intros E B Hl. split; [done|]. rewrite B. intros x bx Hx Hr.
  destruct (decide (x < length (Blocks s))%nat) as [Hlt|Hge].
  - rewrite lookup_app_l in Hx by done. eauto.
  - rewrite lookup_app_r in Hx by lia.
    exfalso. eapply Hl; [|done]. by eapply list_elem_of_lookup_2.
Qed.

Lemma gainsNoReturn_appendOps bb ops s :
  IRet ∉ ops -> gainsNoReturn s (appendOps bb ops s).
Proof.
  intros Hn. unfold appendOps.
  destruct (Blocks s !! bb) as [b|] eqn:Hb; [|apply gainsNoReturn_refl].
  eapply gainsNoReturn_update; [done|done|done|].
  rewrite map_app, map_snd_number. intros [?|?]%elem_of_app; done.
Qed.

Lemma isReturn_false i : isReturn i = false -> IRet ∉ [i].
Proof. intros Hi He%list_elem_of_singleton. by rewrite <- He in Hi. Qed.

Lemma gainsNoReturn_insertAtEnd tgt bb i :
  isReturn i = false -> respects gainsNoReturn (insertAtEnd tgt bb i).
Proof.
  intros Hi s v s' (t & _ & _ & _ & ->)%insertAtEnd_Ok.
  by apply gainsNoReturn_appendOps, isReturn_false.
Qed.

Lemma gainsNoReturn_emit tgt i :
  isReturn i = false -> respects gainsNoReturn (emit tgt i).
Proof.
  intros Hi s v s' (t & _ & _ & _ & ->)%emit_Ok.
  by apply gainsNoReturn_appendOps, isReturn_false.
Qed.

Lemma gainsNoReturn_getOrCreateBasicBlock tgt a :
  respects gainsNoReturn (getOrCreateBasicBlock tgt a).
Proof.
  intros s bb s' H. destruct (BBByAddr s !! a) as [bb0|] eqn:Hl.
  - rewrite (getOrCreateBasicBlock_known _ _ _ _ Hl) in H.
    injection H as <- <-. apply gainsNoReturn_refl.
  - rewrite (getOrCreateBasicBlock_fresh _ _ _ Hl) in H.
    injection H as <- <-. eapply gainsNoReturn_added; [done|done|].
    intros b ->%list_elem_of_singleton. cbn.
    intros [?|[?|?%elem_of_nil]%elem_of_cons]%elem_of_cons; done.
Qed.

Lemma gainsNoReturn_insertCallBB tgt v :
  respects gainsNoReturn (insertCallBB tgt v).
Proof.
  intros s cb s' (bb & blk & t & _ & _ & Hblk & _ & _ & ->)%insertCallBB_Ok.
  eapply gainsNoReturn_trans.
  - eapply (gainsNoReturn_update s
              (with_Blocks (<[bb := mkBB (bbName blk)
                                     (bbInsts blk ++ [(S (NextId s), IBr (length (Blocks s)))])]>
                              (Blocks s)) s)); [done|done|done|].
    rewrite map_app. intros [?|?%list_elem_of_singleton]%elem_of_app; done.
  - eapply gainsNoReturn_added; [done|unfold afterCallBB; simpl_dcf; reflexivity|].
    intros b [->|[->|?%elem_of_nil]%elem_of_cons]%elem_of_cons; [|by cbn; apply not_elem_of_nil|done].
    cbn. intros [?|[?|?%elem_of_nil]%elem_of_cons]%elem_of_cons; done.
Qed.

Lemma gainsNoReturn_translateInst tgt tbl opts hooks fuel d :
  hooksRespect gainsNoReturn hooks ->
  respects gainsNoReturn (translateInst tgt tbl opts hooks fuel d).
Proof.
  intros (H1 & H2 & H3 & H4 & H5).
  apply respects_translateInst;
    eauto using gainsNoReturn_refl, gainsNoReturn_trans, gainsNoReturn_scratch,
      gainsNoReturn_emit, gainsNoReturn_getOrCreateBasicBlock,
      gainsNoReturn_insertCallBB.
Qed.

Lemma gainsNoReturn_SwitchToBasicBlockAt tgt a :
  respects gainsNoReturn (SwitchToBasicBlockAt tgt a).
Proof.
  intros s u s' (bb & s1 & b & w & Hg & Hb & _ & _ & ->)%SwitchToBasicBlockAt_Ok.
  eapply gainsNoReturn_trans; [by eapply gainsNoReturn_getOrCreateBasicBlock|].
  eapply gainsNoReturn_update; [done|done|unfold openedBlock; simpl_dcf; reflexivity|].
  cbn. by intros ?%list_elem_of_singleton.
Qed.

Lemma gainsNoReturn_SwitchToBasicBlock tgt mcbb :
  respects gainsNoReturn (SwitchToBasicBlock tgt mcbb).
Proof.
  intros s u s'. rewrite SwitchToBasicBlock_unfold. intros H.
  eapply gainsNoReturn_trans; [|by eapply gainsNoReturn_SwitchToBasicBlockAt].
  apply gainsNoReturn_scratch. unfold sameIR. simpl_dcf. tauto.
Qed.

Lemma gainsNoReturn_FinalizeBasicBlock tgt :
  respects gainsNoReturn (FinalizeBasicBlock tgt).
Proof.
  intros s u s'. rewrite FinalizeBasicBlock_unfold.
  assert (forall x, gainsNoReturn x (closedBlock x)) as Hclosed.
  { intros x. split; [done|]. intros bb b Hb Hin. by exists b. }
  destruct (TheBB s) as [bb|]; [|done].
  destruct (Blocks s !! bb) as [b|]; [|done].
  destruct (getTerminator b).
  - intros [= _ <-]. apply Hclosed.
  - destruct (TheMCBB s) as [mcbb|]; [|done].
    destruct (getOrCreateBasicBlock tgt (mcbbEndAddr mcbb) s) as [dest s1| |] eqn:Hg;
      [|done..].
    intros [= _ <-].
    eapply gainsNoReturn_trans; [by eapply gainsNoReturn_getOrCreateBasicBlock|].
    eapply gainsNoReturn_trans; [|apply Hclosed].
    by apply gainsNoReturn_appendOps, isReturn_false.
Qed.

Lemma returnsOnlyIn_step dx T s s' :
  gainsNoReturn s s' -> returnsOnlyIn dx T s -> returnsOnlyIn dx T s'.
Proof.
  intros [E H] Hr bb b' Hb' Hin. destruct (H bb b' Hb' Hin) as (b & Hb & Hinb).
  unfold returnBlock. rewrite E. by eapply Hr.
Qed.

Lemma returnsOnlyIn_createExternalTailCallBB tgt dx T a s s' :
  createExternalTailCallBB tgt a s = Ok tt s' ->
  returnsOnlyIn dx T s -> returnsOnlyIn dx (InsertBB s' :: T) s'.
Proof.
  unfold createExternalTailCallBB. intros H Hr.
  apply bind_Ok in H as (u1 & s1 & H1 & H).
  apply bind_Ok in H as (cb & s2 & H2 & H).
  apply bind_Ok in H as (v & s3 & (t & _ & _ & _ & ->)%emit_Ok & [_ ->]%ret_Ok).
  assert (returnsOnlyIn dx T s2) as Hr2.
  { eapply returnsOnlyIn_step; [by eapply gainsNoReturn_insertCallBB|].
    eapply returnsOnlyIn_step; [by eapply gainsNoReturn_SwitchToBasicBlockAt|done]. }
  rewrite appendOps_InsertBB. intros bb b Hb Hin.
  destruct (decide (bb = InsertBB s2)) as [->|Hne]; [right; by left|].
  rewrite appendOps_lookup_ne in Hb by done.
  unfold returnBlock. rewrite appendOps_ExitBB.
  destruct (Hr2 bb b Hb Hin) as [?|?]; [by left|right; by right].
Qed.

Lemma ReachableTC_Reachable tgt tbl opts hooks mcf s T :
  ReachableTC tgt tbl opts hooks mcf s T -> Reachable tgt tbl opts hooks mcf s.
Proof.
  induction 1.
  - by apply reach_new.
  - by eapply reach_switch.
  - by eapply reach_inst.
  - by eapply reach_finalize.
  - by eapply reach_tailcall.
Qed.

Lemma Reachable_ReachableTC tgt tbl opts hooks mcf s :
  Reachable tgt tbl opts hooks mcf s ->
  exists T, ReachableTC tgt tbl opts hooks mcf s T.
Proof.
  induction 1 as [s H|s mcbb s' _ [T IH] H|s fuel d ok s' _ [T IH] H
                  |s s' _ [T IH] H|s a s' _ [T IH] H].
  - exists []. by apply rtc_new.
  - exists T. by eapply rtc_switch.
  - exists T. by eapply rtc_inst.
  - exists T. by eapply rtc_finalize.
  - exists (InsertBB s' :: T). by eapply rtc_tailcall.
Qed.

Lemma returnsOnlyIn_constructed (diff : bool) (a : N) :
  returnsOnlyIn (if diff then Some 2%nat else None) [] (constructed diff a).
Proof.
  intros bb b Hb Hin. left. unfold returnBlock.
  destruct diff; cbn in Hb |- *.
  - destruct bb as [|[|[|[|bb]]]]; try done; injection Hb as <-; cbn in Hin;
      repeat (apply elem_of_cons in Hin as [Hin|Hin]; [done|]);
      by apply elem_of_nil in Hin.
  - destruct bb as [|[|[|bb]]]; try done; injection Hb as <-; cbn in Hin;
      repeat (apply elem_of_cons in Hin as [Hin|Hin]; [done|]);
      by apply elem_of_nil in Hin.
Qed.

Lemma ReachableTC_returnsOnlyIn tgt tbl opts hooks mcf s T :
  hooksRespect gainsNoReturn hooks ->
  ReachableTC tgt tbl opts hooks mcf s T ->
  returnsOnlyIn (diffExitBlock opts) T s.
Proof.
  intros Hh Hr. induction Hr as [s H|s T mcbb s' _ IH H|s T fuel d ok s' _ IH H
                                 |s T s' _ IH H|s T a s' _ IH H].
  - destruct (mcfBlocks mcf) as [|b r] eqn:Hb.
    + unfold newDCFunction, construct in H. rewrite Hb in H. done.
    + rewrite newDCFunction_eq in H by (by rewrite Hb). injection H as <-.
      unfold diffExitBlock. apply returnsOnlyIn_constructed.
  - eapply returnsOnlyIn_step; [by eapply gainsNoReturn_SwitchToBasicBlock|done].
  - eapply returnsOnlyIn_step; [by eapply gainsNoReturn_translateInst|done].
  - eapply returnsOnlyIn_step; [by eapply gainsNoReturn_FinalizeBasicBlock|done].
  - by eapply returnsOnlyIn_createExternalTailCallBB.
Qed.

Lemma returns_IRet b : returns b = true -> IRet ∈ bbOps b.
Proof.
  unfold returns. destruct (last (bbOps b)) as [i|] eqn:Hl; [|done].
  intros Hi. assert (i = IRet) as -> by (by destruct i).
  apply last_Some in Hl as (l' & ->). apply elem_of_app. right. by left.
Qed.

(** A return path ends in a block that returns, and meets one diff call when
    that block is [d], the only block holding a diff call, and none
    otherwise. *)
Lemma diffCallsOn_return_path bs d bd fn args :
  bs !! d = Some bd ->
  bbOps bd = [ICast IntToPtr fn getInt8PtrTy; ICall RegSetDiffFunction args; IRet] ->
  (forall x b, bs !! x = Some b -> x <> d -> noDiffCall b) ->
  forall p, isReturnPath bs p = true ->
    exists x b, last p = Some x /\ bs !! x = Some b /\ returns b = true
      /\ diffCallsOn bs p = (if decide (x = d) then 1 else 0)%nat.
Proof.
  intros Hd Hdops Hother.
  assert (successor bd = None) as Hsd by (unfold successor; by rewrite Hdops).
  assert (diffCallsIn bd = 1%nat) as Hcd by (unfold diffCallsIn; by rewrite Hdops).
  induction p as [|x r IH]; [done|].
  cbn [isReturnPath diffCallsOn].
  destruct (bs !! x) as [b|] eqn:Hb; [|done].
  destruct r as [|y r'].
  - intros Hret. exists x, b. split; [done|]. split; [done|]. split; [done|].
    cbn. destruct (decide (x = d)) as [->|Hne].
    + replace b with bd by congruence. lia.
    + rewrite (diffCallsIn_noDiffCall b (Hother x b Hb Hne)). lia.
  - destruct (successor b) as [dd|] eqn:Hs; [|done].
    intros [Heq Hrest]%andb_true_iff.
    destruct (IH Hrest) as (z & bz & Hlast & Hz & Hret & Hcount).
    exists z, bz. split; [done|]. split; [done|]. split; [done|].
    rewrite Hcount.
    assert (x <> d) as Hxd by (intros ->; congruence).
    by rewrite (diffCallsIn_noDiffCall b (Hother x b Hb Hxd)).
Qed.

Lemma isReturnPath_last bs p :
  isReturnPath bs p = true ->
  exists x b, last p = Some x /\ bs !! x = Some b /\ returns b = true.
Proof.
  induction p as [|x r IH]; [done|]. cbn [isReturnPath].
  destruct (bs !! x) as [b|] eqn:Hb; [|done].
  destruct r as [|y r'].
  - intros Hret. by exists x, b.
  - destruct (successor b) as [dd|]; [|done].
    intros [_ Hrest]%andb_true_iff. destruct (IH Hrest) as (z & bz & ? & ? & ?).
    by exists z, bz.
Qed.

Lemma jumpRegTranslated_reachable :
  ReachableTC Sample.target Sample.tables (Sample.options true false)
    Sample.hooks Sample.mcf jumpRegTranslated [].
Proof.
  apply (rtc_inst _ _ _ _ _ (Sample.opened true) [] 8 Sample.jmpRegInst true);
    [apply (rtc_switch _ _ _ _ _ (Sample.fresh true) [] Sample.mcbb);
     [apply rtc_new|]|];
    vm_compute; reflexivity.
Qed.

Lemma Sample_gainsNoReturn : hooksRespect gainsNoReturn Sample.hooks.
Proof. apply hooksRespect_sample, gainsNoReturn_refl. Qed.

(** C7, amended.  In every state a translation can reach (the target's
    methods being assumed to leave the exit blocks alone, to emit no diff call
    and to emit no return), with [T] the blocks in which
    [createExternalTailCallBB] has put its return.  With EnableRegSetDiff on,
    the constructor has saved the incoming register set in the entry block,
    the exit block holds only a branch to the diff-exit block, which holds the
    call of the diff function followed by the return; every return path,
    wherever it starts, either ends in the diff-exit block and meets exactly
    one diff call, or ends in a block of [T], does not go through the exit
    block and meets no diff call; and a return path through the exit block is
    of the first kind.  With the flag off, the exit block holds the return,
    every return path ends in the exit block or in a block of [T], and no
    path meets a diff call.  In both cases [createExternalTailCallBB(Addr)]
    makes a return path of its own: from the block of [Addr] through the call
    block to the block it leaves the insertion point in, which returns; the
    exit block is not on it and it meets no diff call. *)
Theorem return_paths_diff_once
    (tgt : Target) (tbl : Tables) (opts : Options) (hooks : Hooks)
    (mcf : MCFunction) (s : DCFunction) (T : list nat) :
  hooksRespect (keepsShape (diffExitBlock opts)) hooks ->
  hooksRespect gainsNoReturn hooks ->
  ReachableTC tgt tbl opts hooks mcf s T ->
  newDCFunction tgt opts mcf
  = Ok tt (constructed (EnableRegSetDiff opts) (mcfStartAddr mcf))
  /\ (EnableRegSetDiff opts = true ->
      (exists be bd fn args,
          Blocks s !! ExitBB s = Some be /\ bbOps be = [IBr 2]
          /\ Blocks s !! 2%nat = Some bd
          /\ bbOps bd = [ICast IntToPtr fn getInt8PtrTy;
                         ICall RegSetDiffFunction args; IRet])
      /\ (forall p, isReturnPath (Blocks s) p = true ->
            (last p = Some 2%nat /\ diffCallsOn (Blocks s) p = 1%nat)
            \/ (exists x, last p = Some x /\ x ∈ T /\ (ExitBB s ∉ p)
                          /\ diffCallsOn (Blocks s) p = 0%nat))
      /\ (forall p, isReturnPath (Blocks s) p = true -> ExitBB s ∈ p ->
            last p = Some 2%nat /\ diffCallsOn (Blocks s) p = 1%nat))
  /\ (EnableRegSetDiff opts = false ->
      (exists be, Blocks s !! ExitBB s = Some be /\ bbOps be = [IRet])
      /\ (forall p, isReturnPath (Blocks s) p = true ->
            exists x, last p = Some x /\ (x = ExitBB s \/ x ∈ T))
      /\ forall p, diffCallsOn (Blocks s) p = 0%nat)
  /\ (forall a s', createExternalTailCallBB tgt a s = Ok tt s' ->
      exists bb cb,
        BBByAddr s' !! a = Some bb
        /\ isReturnPath (Blocks s') [bb; cb; InsertBB s'] = true
        /\ (ExitBB s' ∉ [bb; cb; InsertBB s'])
        /\ diffCallsOn (Blocks s') [bb; cb; InsertBB s'] = 0%nat).
Proof.
  intros Hh Hn Hrtc.
  pose proof (ReachableTC_Reachable _ _ _ _ _ _ _ Hrtc) as Hr.
  pose proof (Reachable_wellShaped tgt tbl opts hooks mcf s Hh Hr) as Hws.
  pose proof (ReachableTC_returnsOnlyIn _ _ _ _ _ _ _ Hn Hrtc) as Hret.
  split; [apply newDCFunction_eq; by eapply Reachable_nonempty|].
  split; [|split].
  - intros Hflag. unfold diffExitBlock in Hws, Hret. rewrite Hflag in Hws, Hret.
    destruct (ws_exit_shape _ _ Hws) as (be & HE & HEops).
    destruct (ws_diff_shape _ _ Hws 2%nat eq_refl) as (bd & fn & args & Hd & Hdops).
    assert (forall x b, Blocks s !! x = Some b -> x <> 2%nat -> noDiffCall b) as Hother.
    { intros x b Hb Hne. eapply (ws_diff_only _ _ Hws); [done|]. congruence. }
    assert (forall p, isReturnPath (Blocks s) p = true -> ExitBB s ∈ p ->
                      diffCallsOn (Blocks s) p = 1%nat) as Hexit.
    { by eapply diffCallsOn_through_exit. }
    split; [by exists be, bd, fn, args|]. split.
    + intros p Hp.
      destruct (diffCallsOn_return_path _ _ _ _ _ Hd Hdops Hother p Hp)
        as (x & b & Hlast & Hb & Hrb & Hcount).
      destruct (decide (x = 2%nat)) as [->|Hne]; [by left|right].
      exists x. split; [done|]. split; [|split; [|done]].
      * destruct (Hret x b Hb (returns_IRet b Hrb)) as [?|?]; done.
      * intros Hin. specialize (Hexit p Hp Hin). congruence.
    + intros p Hp Hin. specialize (Hexit p Hp Hin). split; [|done].
      destruct (diffCallsOn_return_path _ _ _ _ _ Hd Hdops Hother p Hp)
        as (x & b & Hlast & Hb & Hrb & Hcount).
      destruct (decide (x = 2%nat)) as [->|Hne]; [done|congruence].
  - intros Hflag. unfold diffExitBlock in Hws, Hret. rewrite Hflag in Hws, Hret.
    split; [apply (ws_exit_shape _ _ Hws)|]. split.
    + intros p Hp. destruct (isReturnPath_last _ _ Hp) as (x & b & Hlast & Hb & Hrb).
      exists x. split; [done|]. exact (Hret x b Hb (returns_IRet b Hrb)).
    + intros p. apply diffCallsOn_none.
      intros x b Hb. by eapply (ws_diff_only _ _ Hws).
  - intros a s' Hrun.
    assert (wellShaped (diffExitBlock opts) s') as Hws'.
    { eapply Reachable_wellShaped; [done|]. by eapply reach_tailcall. }
    assert (exists w, getScalarType (getRegType tgt (getProgramCounter tgt))
                      = IntegerTy w) as [w Hw].
    { unfold createExternalTailCallBB in Hrun.
      apply bind_Ok in Hrun as (u1 & s1 & H1 & _).
      apply SwitchToBasicBlockAt_Ok in H1 as (? & ? & ? & w & _ & _ & _ & Hw & _).
      by exists w. }
    assert (canOpen s a = true) as Hc.
    { destruct (canOpen s a) eqn:Hc; [done|].
      unfold createExternalTailCallBB in Hrun.
      by rewrite (bind_Abort _ _ _ (SwitchToBasicBlockAt_closed tgt a s Hc)) in Hrun. }
    destruct (createExternalTailCallBB_open tgt a s w Hw Hc)
      as (s'' & bb & cb & nb & b1 & b2 & b3 & Hrun' & Hm & Hb1 & Ho1 & Hb2 & _
          & Ho2 & Hb3 & Ho3 & _ & _ & Hip).
    assert (s'' = s') as -> by congruence.
    rewrite Hip. exists bb, cb. split; [done|].
    destruct (ws_exit_shape _ _ Hws') as (be & HE & HEops).
    split; [|split].
    + cbn [isReturnPath]. rewrite Hb1, Hb2, Hb3.
      unfold successor, returns. rewrite Ho1, Ho2, Ho3. cbn.
      by rewrite !Nat.eqb_refl.
    + intros [Hx|[Hx|[Hx|Hx%elem_of_nil]%elem_of_cons]%elem_of_cons]%elem_of_cons;
        [| |apply (ws_insert_open _ _ Hws'); unfold sealed; rewrite Hip, <- Hx;
             apply elem_of_app; right; by left|done].
      * rewrite Hx, Hb1 in HE. injection HE as <-. rewrite Ho1 in HEops.
        by destruct (diffExitBlock opts).
      * rewrite Hx, Hb2 in HE. injection HE as <-. rewrite Ho2 in HEops.
        by destruct (diffExitBlock opts).
    + cbn [diffCallsOn]. rewrite Hb1, Hb2, Hb3.
      unfold diffCallsIn. by rewrite Ho1, Ho2, Ho3.
Qed.

Lemma return_paths_diff_once_witness :
  let opts := Sample.options true false in
  let p := [entryBlock; 3; 4; 5; ExitBB jumpRegTranslated; 2]%nat in
  hooksRespect (keepsShape (diffExitBlock opts)) Sample.hooks
  /\ hooksRespect gainsNoReturn Sample.hooks
  /\ ReachableTC Sample.target Sample.tables opts Sample.hooks Sample.mcf
       jumpRegTranslated []
  /\ isReturnPath (Blocks jumpRegTranslated) p = true
  /\ ExitBB jumpRegTranslated ∈ p
  /\ last p = Some 2%nat
  /\ diffCallsOn (Blocks jumpRegTranslated) p = 1%nat.
Proof.
  intros opts p.
  assert (hooksRespect (keepsShape (diffExitBlock opts)) Sample.hooks) as H1
    by apply Sample_keepsShape.
  assert (hooksRespect gainsNoReturn Sample.hooks) as H2
    by apply Sample_gainsNoReturn.
  assert (ReachableTC Sample.target Sample.tables opts Sample.hooks Sample.mcf
            jumpRegTranslated []) as H3 by apply jumpRegTranslated_reachable.
  assert (isReturnPath (Blocks jumpRegTranslated) p = true)
    as H4 by (vm_compute; reflexivity).
  assert (ExitBB jumpRegTranslated ∈ p) as H5
    by (do 4 right; left; reflexivity).
  split; [exact H1|]. split; [exact H2|]. split; [exact H3|].
  split; [exact H4|]. split; [exact H5|].
  destruct (return_paths_diff_once Sample.target Sample.tables
              opts Sample.hooks Sample.mcf jumpRegTranslated [] H1 H2 H3)
    as (_ & Hon & _).
  destruct (Hon eq_refl) as (_ & _ & Hexit).
  exact (Hexit p H4 H5).
Defined.

(** ** C2: the result of translateInst, from the semantics of the instruction *)

Lemma translateInst_entry_run tgt opts d s :
  is_Some (Blocks s !! InsertBB s) ->
  translateInst_entry tgt opts d s = Ok tt (instEntered opts d s).
Proof.
  intros Hb. unfold translateInst_entry, instEntered.
  unfold bind at 1, modify at 1. unfold bind at 1, notifyDRS at 1, modify at 1.
  destruct (EnableInstAddrSave opts).
  - erewrite bind_run by (apply emit_appendOps; [reflexivity|exact Hb]).
    reflexivity.
  - by rewrite appendOps_nil.
Qed.

Lemma instEntered_is_Some opts d s :
  is_Some (Blocks s !! InsertBB s) ->
  is_Some (Blocks (instEntered opts d s) !! InsertBB (instEntered opts d s)).
Proof.
  intros Hb. unfold instEntered. rewrite appendOps_InsertBB.
  by apply appendOps_is_Some.
Qed.

Lemma incrementPC_run tgt s d w :
  CurrentInst s = Some d ->
  getScalarType (getRegType tgt (getProgramCounter tgt)) = IntegerTy w ->
  is_Some (Blocks s !! InsertBB s) ->
  incrementPC tgt s
  = Ok tt (appendOps (InsertBB s) (pcUpdate tgt (NextId s) w d) s).
Proof.
  intros Hci Hw Hb.
  assert (exists u s', incrementPC tgt s = Ok u s') as (u & s' & Hrun).
  { unfold incrementPC, getReg, currentInst, CreateBinOp, setReg.
    erewrite bind_run by (apply emit_appendOps; [reflexivity|exact Hb]).
    erewrite bind_run
      by (unfold bind, gets; rewrite appendOps_CurrentInst, Hci; reflexivity).
    cbn [typeOf]. unfold ConstantInt_get. rewrite Hw.
    unfold bind at 1, ret at 1.
    erewrite bind_run
      by (apply emit_appendOps;
          [reflexivity|rewrite appendOps_InsertBB; by apply appendOps_is_Some]).
    erewrite bind_run
      by (apply emit_appendOps;
          [reflexivity
          |rewrite !appendOps_InsertBB; by do 2 apply appendOps_is_Some]).
    by eexists _, _. }
  rewrite Hrun. destruct u.
  apply incrementPC_Ok in Hrun as (d' & w' & Hci' & Hw' & _ & ->).
  replace d' with d by congruence. replace w' with w by congruence. done.
Qed.

(** The run of [tryTranslateInst] up to the loop. *)
Lemma tryTranslateInst_to_loop tgt tbl opts hooks fuel d s idx w :
  (forall x, translateTargetInst hooks x = Ok false x) ->
  is_Some (Blocks s !! InsertBB s) ->
  getScalarType (getRegType tgt (getProgramCounter tgt)) = IntegerTy w ->
  OpcodeToSemaIdx tbl !! N.to_nat (InstOpcode d) = Some idx ->
  idx <> 4294967295 ->
  tryTranslateInst tgt tbl hooks fuel (instEntered opts d s)
  = translateSemantics tgt tbl hooks fuel (loopStart tgt opts d idx w s).
Proof.
  intros Hhook Hb Hw Hidx Hne.
  assert (CurrentInst (instEntered opts d s) = Some d) as Hci.
  { unfold instEntered. by rewrite appendOps_CurrentInst. }
  unfold tryTranslateInst. rewrite (bind_run _ _ _ _ _ (Hhook _)).
  unfold currentInst.
  unfold bind at 1 2. unfold gets at 1. rewrite Hci. cbn [fromOption ret].
  unfold bind at 1. rewrite Hidx. cbn [fromOption ret].
  unfold bind at 1. unfold modify at 1.
  apply N.eqb_neq in Hne. rewrite Hne.
  erewrite bind_run
    by (apply (incrementPC_run tgt _ d w); [done|done|];
        by apply instEntered_is_Some).
  reflexivity.
Qed.

(** The loop goes on after every opcode translated with success: after the
    opcodes [ops] it is where a loop started in the state they leave is. *)
Lemma translateSemantics_translatedOps tgt tbl hooks ops : forall fuel s sN,
  translatedOps tgt tbl hooks ops s = Some sN ->
  translateSemantics tgt tbl hooks (length ops + fuel) s
  = translateSemantics tgt tbl hooks fuel sN.
Proof.
  induction ops as [|op rest IH]; intros fuel s sN H; cbn [translatedOps] in H.
  - by injection H as <-.
  - cbn [length Nat.add]. rewrite translateSemantics_step.
    destruct (Next tbl s) as [op' s1| |]; [|done..].
    destruct (op' =? op) eqn:He; [|done]. apply N.eqb_eq in He as ->.
    cbn [andb] in H.
    destruct (op =? opcodeOf tgt END_OF_INSTRUCTION); [done|]. cbn [negb] in H.
    destruct (translateOpcode tgt tbl hooks op (with_Opcode op s1))
      as [[] s2| |]; [|done..].
    by apply IH.
Qed.

Lemma translateInst_failed tgt tbl opts hooks fuel d s sF :
  is_Some (Blocks s !! InsertBB s) ->
  tryTranslateInst tgt tbl hooks fuel (instEntered opts d s) = Ok false sF ->
  is_Some (Blocks sF !! InsertBB sF) ->
  translateInst tgt tbl opts hooks fuel d s = failedInst opts sF.
Proof.
  intros Hb Ht HbF.
  rewrite (translateInst_of_try tgt tbl opts hooks fuel d s _ false sF
             (translateInst_entry_run tgt opts d s Hb) Ht).
  unfold failedInst. cbn [negb andb].
  destruct (TranslateUnknownToUndef opts); [|done].
  by rewrite (emitTrapUnreachable_run tgt sF HbF).
Qed.

Lemma returnsTrue_bind {A} (m : M A) (f : A -> M bool) :
  (forall a, returnsTrue (f a)) -> returnsTrue (bind m f).
Proof. intros Hf s b s' (a & s1 & _ & H)%bind_Ok. by eapply Hf. Qed.

Lemma returnsTrue_ret : returnsTrue (ret true).
Proof. by intros s b s' [-> _]%ret_Ok. Qed.

Ltac returnsTrue_auto :=
  repeat first [ apply returnsTrue_ret
               | apply returnsTrue_bind; intros ?
               | progress cbv zeta ].

Lemma translatePredicate_false tgt p s s' :
  translatePredicate tgt p s = Ok false s' -> decodePredicate tgt p = None.
Proof.
  unfold translatePredicate.
  destruct (decodePredicate tgt p) as [pr|]; [|done].
  destruct pr; intros H; exfalso;
    (assert (false = true) as Hf; [|discriminate Hf]);
    revert H; unfold translateExtLoad;
    match goal with |- ?m s = _ -> _ => generalize s false s'; change (returnsTrue m) end;
    returnsTrue_auto.
Qed.

(** [translateOpcode] returns [false] for an opcode that is unsupported
    only: one the target is asked about, one without a case, a custom operand
    or a complex pattern (for which the target has answered null), or a
    predicate without a case. *)
Lemma translateOpcode_false tgt tbl hooks op x x' :
  translateOpcode tgt tbl hooks op x = Ok false x' ->
  (BUILTIN_OP_END tgt <=? op) && (op <? DC_OPCODE_START tgt) = true
  \/ decodeOpcode tgt op = None
  \/ decodeOpcode tgt op = Some END_OF_INSTRUCTION
  \/ decodeOpcode tgt op = Some CUSTOM_OP
  \/ decodeOpcode tgt op = Some COMPLEX_PATTERN
  \/ (decodeOpcode tgt op = Some PREDICATE
      /\ exists p, SemanticsArray tbl !! N.to_nat (nextIdx (Idx x)) = Some p
                   /\ decodePredicate tgt p = None).
Proof.
  unfold translateOpcode, NextVT. intros H.
  apply bind_Ok in H as (vt & s1 & [Hvt ->]%Next_Ok & H).
  apply bind_Ok in H as (u & s2 & ->%modify_Ok & H).
  destruct (_ && _); [by left|right].
  destruct (decodeOpcode tgt op) as [o|] eqn:Hd; [|by left].
  right.
  destruct o;
    try (exfalso; (assert (false = true) as Hf; [|discriminate Hf]);
         revert H;
         match goal with
         | |- ?m ?s = _ -> _ => generalize s false x'; change (returnsTrue m)
         end;
         returnsTrue_auto; fail);
    try (by left); try (right; by left); try (right; right; by left).
  right. right. right. split; [done|].
  apply bind_Ok in H as (p & s3 & [Hp ->]%Next_Ok & H).
  apply bind_Ok in H as (ok & s4 & Hpred & H).
  destruct ok; [by apply ret_Ok in H as [? _]|].
  exists p. split; [exact Hp|]. by eapply translatePredicate_false.
Qed.

Lemma translateInst_never_false tgt tbl opts hooks fuel d s b s' :
  TranslateUnknownToUndef opts = true ->
  translateInst tgt tbl opts hooks fuel d s = Ok b s' -> b = true.
Proof.
  intros Hflag. unfold translateInst. rewrite Hflag. intros H.
  apply bind_Ok in H as (? & s1 & _ & H).
  apply bind_Ok in H as (? & s2 & _ & H).
  apply bind_Ok in H as (? & s3 & _ & H).
  apply bind_Ok in H as (ok & s4 & _ & H).
  apply bind_Ok in H as (ok' & s5 & Hok & H).
  apply bind_Ok in H as (? & s6 & _ & H).
  apply bind_Ok in H as (? & s7 & _ & [-> _]%ret_Ok).
  destruct ok; cbn [negb andb] in Hok.
  - by apply ret_Ok in Hok as [-> _].
  - apply bind_Ok in Hok as (? & s8 & _ & [-> _]%ret_Ok). done.
Qed.



(** ** Opening a block again *)

Lemma blocksExtend_tryTranslateInst tgt tbl hooks fuel :
  hooksRespect blocksExtend hooks ->
  respects blocksExtend (tryTranslateInst tgt tbl hooks fuel).
Proof.
  intros (H1 & H2 & H3 & H4 & H5).
  apply respects_tryTranslateInst;
    eauto using blocksExtend_refl, blocksExtend_trans, blocksExtend_emit,
      blocksExtend_getOrCreateBasicBlock, blocksExtend_insertCallBB.
  intros s s' (_ & _ & _ & _ & Hb & _). by apply blocksExtend_sameBlocks.
Qed.

(** Whether a block that starts with the write of the program counter can be
    opened depends on what follows the write. *)
Lemma canOpen_after_write s a bb b i rest :
  BBByAddr s !! a = Some bb -> Blocks s !! bb = Some b ->
  bbOps b = i :: rest ->
  canOpen s a = true <-> rest = [IUnreachable].
Proof.
  intros Hm Hb Hops. unfold canOpen, isPlaceholder. rewrite Hm, Hb, Hops.
  destruct rest as [|[] [|]]; split; try done.
Qed.

(** The block at the insertion point after a [translateInst] that has
    returned [true], for a target that leaves the instruction to the tables:
    something has been appended to it, and what has been appended does not
    start with an [unreachable]. *)
Lemma translateInst_appends tgt tbl opts hooks fuel d s sT b :
  (forall x, translateTargetInst hooks x = Ok false x) ->
  hooksRespect blocksExtend hooks ->
  Blocks s !! InsertBB s = Some b ->
  translateInst tgt tbl opts hooks fuel d s = Ok true sT ->
  exists b' n i rest,
    Blocks sT !! InsertBB s = Some b'
    /\ bbInsts b' = bbInsts b ++ (n, i) :: rest /\ i <> IUnreachable.
Proof.
  intros Hhook Hh Hb Hrun.
  assert (is_Some (Blocks s !! InsertBB s)) as HbS by eauto.
  pose proof (translateInst_entry_run tgt opts d s HbS) as He.
  set (s0 := instEntered opts d s) in *.
  assert (InsertBB s0 = InsertBB s) as Hip0
    by (subst s0; unfold instEntered; by rewrite appendOps_InsertBB).
  assert (forall x l n i,
            blocksExtend x sT ->
            Blocks x !! InsertBB s
            = Some (mkBB (bbName b) (bbInsts b ++ (n, i) :: l)) ->
            i <> IUnreachable ->
            exists b' n i rest,
              Blocks sT !! InsertBB s = Some b'
              /\ bbInsts b' = bbInsts b ++ (n, i) :: rest /\ i <> IUnreachable)
    as Hfrom.
  { intros x l n i Hext Hx Hi.
    destruct (Hext _ _ Hx) as (b' & Hb' & _ & [k Hk]). cbn in Hk.
    exists b', n, i, (l ++ k). split; [done|]. split; [|done].
    by rewrite Hk, <- app_assoc. }
  assert (forall ok sX,
            tryTranslateInst tgt tbl hooks fuel s0 = Ok ok sX ->
            blocksExtend sX sT
            /\ (ok = false ->
                sT = translateInst_exit
                       (appendOps (InsertBB sX)
                          [ICall (IntrinsicDecl trap) []; IUnreachable] sX)
                /\ is_Some (Blocks sX !! InsertBB sX))) as Hend.
  { intros ok sX Ht.
    rewrite (translateInst_of_try tgt tbl opts hooks fuel d s s0 ok sX He Ht)
      in Hrun.
    destruct ok; cbn [negb andb] in Hrun.
    - injection Hrun as <-. split; [|done].
      apply blocksExtend_sameBlocks. reflexivity.
    - destruct (TranslateUnknownToUndef opts); [|done].
      destruct (emitTrapUnreachable tgt sX) as [u sY| |] eqn:Hemit; [|done..].
      injection Hrun as <-.
      assert (is_Some (Blocks sX !! InsertBB sX)) as HbX.
      { unfold emitTrapUnreachable in Hemit.
        apply bind_Ok in Hemit as (? & ? & (? & _ & ? & _)%emit_Ok & _). done. }
      rewrite (emitTrapUnreachable_run tgt sX HbX) in Hemit.
      injection Hemit as _ <-. split; [|intros _; split; [reflexivity|exact HbX]].
      eapply blocksExtend_trans; [apply blocksExtend_appendOps|].
      apply blocksExtend_sameBlocks. reflexivity. }
  destruct (tryTranslateInst tgt tbl hooks fuel s0) as [ok sX| |] eqn:Ht.
  2,3: unfold translateInst_entry, translateInst in He, Hrun;
       apply bind_Ok in He as (? & sa & Ha & He);
       apply bind_Ok in He as (? & sb & Hb' & He);
       rewrite (bind_run _ _ _ _ _ Ha), (bind_run _ _ _ _ _ Hb') in Hrun;
       unfold bind at 1 in Hrun; rewrite He in Hrun;
       unfold bind at 1 in Hrun; by rewrite Ht in Hrun.
  destruct (Hend ok sX eq_refl) as [Hext Hfalse].
  pose proof (blocksExtend_tryTranslateInst tgt tbl hooks fuel Hh _ _ _ Ht) as Hext0.
  destruct (EnableInstAddrSave opts) eqn:Hsave.
  { (* the store of the address comes first *)
    eapply (Hfrom s0 []).
    - by eapply blocksExtend_trans.
    - subst s0. unfold instEntered. rewrite Hsave.
      rewrite (appendOps_lookup (InsertBB s) _ _ b) by exact Hb. reflexivity.
    - done. }
  assert (Blocks s0 !! InsertBB s = Some b) as Hb0.
  { subst s0. unfold instEntered. rewrite Hsave, appendOps_nil. exact Hb. }
  assert (CurrentInst s0 = Some d) as Hci.
  { subst s0. unfold instEntered. by rewrite appendOps_CurrentInst. }
  pose proof Ht as Ht'. unfold tryTranslateInst in Ht'.
  rewrite (bind_run _ _ _ _ _ (Hhook _)) in Ht'.
  apply bind_Ok in Ht' as (ci & s1 & Hcur & Ht').
  unfold currentInst in Hcur.
  apply bind_Ok in Hcur as (oci & ? & [-> ->]%gets_Ok & [Hcur ->]%fromOption_Ok).
  rewrite Hci in Hcur. injection Hcur as <-.
  apply bind_Ok in Ht' as (idx & ? & [Hidx ->]%fromOption_Ok & Ht').
  apply bind_Ok in Ht' as (? & ? & ->%modify_Ok & Ht').
  destruct (idx =? 4294967295) eqn:Hsent.
  - (* no semantics: the trap call comes first *)
    apply ret_Ok in Ht' as [-> ->].
    destruct (Hfalse eq_refl) as [-> _].
    exists (mkBB (bbName b)
              (bbInsts b ++ number (NextId s0)
                              [ICall (IntrinsicDecl trap) []; IUnreachable])).
    eexists _, _, _. split; [|split; [reflexivity|done]].
    unfold translateInst_exit. simpl_dcf. rewrite Hip0.
    apply (appendOps_lookup (InsertBB s) _ (with_Idx idx s0) b). exact Hb0.
  - (* the update of the program counter comes first *)
    apply bind_Ok in Ht' as (? & s2 & Hpc & Ht').
    apply incrementPC_Ok in Hpc as (d' & w & _ & _ & _ & ->).
    simpl_dcf.
    pose proof (blocksExtend_translateSemantics tgt tbl hooks fuel Hh _ _ _ Ht')
      as Hext1.
    eapply (Hfrom _ _ _ (RGetReg (getProgramCounter tgt)));
      [by eapply blocksExtend_trans| |done].
    rewrite Hip0.
    rewrite (appendOps_lookup (InsertBB s) _ (with_Idx idx s0) b) by exact Hb0.
    reflexivity.
Qed.


